(** * PyExpand: a shallow embedding of the expansion pipeline

    The development follows [src/main.cpp] (the scanner, the snippet
    transformer, the interpreter driver loop, the normalizer and the splicer)
    and the string routines of [basic_data_structures/ds.cpp] and [ds.h] it
    calls ([DS_StringView::Find], [Split], [Slice], [operator==],
    [DS_DynamicString::Add] and [Addf]).

    The second half of the definitions follows more of the two files:
    [DS_StringView::RFind], [DS_Array] and [DS_DynamicString] with their
    blocks of memory, the code point cursors [DS_NextCodepoint],
    [DS_PrevCodepoint] and [DS_CodepointCount], the open-addressing
    [DS_Map] and [DS_Set], and the mixer [DS_fmix32] that hashes their
    four-byte keys.  The containers are taken after [Init] with an allocator
    that does not fail: the [Allocator] field is not part of the records, so
    the assertion [Allocator != NULL] of [DS__MapAdd] and [DS__SetAdd] holds,
    and [MemAlloc] and [MemRealloc] give a block of the size asked for.
    The sizes of the containers are [int32_t] in the source and [Z] here; the
    statements bound them so that no doubling leaves [int32_t].

    Conventions of the embedding:
    - a [DS_StringView] is the list of the bytes it views; offsets and sizes
      are [intptr_t] in the source and [Z] here, so that [Size - 2] may be
      negative as it is in C++;
    - a failed [DS_ASSERT] aborts the process: [AssertFail];
    - the [return 1] paths of [main] are [Exit1];
    - [while] loops whose trip count is not syntactically bounded carry a
      fuel argument; [OutOfFuel] is an artefact of the embedding and is shown
      never to be produced by the top-level functions;
    - a read of memory that was never written, or outside a block, is
      undefined in the source: [None] for a slot of a block, [Undefined] for
      the result of a function that needs the value read;
    - an argument that the source takes by reference and reads after it has
      moved the elements of the block or replaced the block
      ([DS_Array::Insert], [DS_Map::Set]) is a reference in the model as
      well: an object outside the block, or a slot of the block the
      container has when the call starts.  [Add] and [Resize] read theirs
      after [Reserve] only, where the reference still reads what it read at
      the call unless the block was released and the read is undefined; they
      take it by value;
    - the external interpreter is a function [py] from the bytes of the
      temporary file to the chunks handed to the print callback, or [None]
      when [OS_RunConsoleCommand] fails. *)

From Stdlib Require Import Ascii String List ZArith Lia Bool.
Import ListNotations.

Local Open Scope Z_scope.

(** ** Bytes and outcomes *)

Definition bytes := list ascii.

Definition lit (s : string) : bytes := list_ascii_of_string s.

Arguments lit s%_string.

Definition NUL : ascii := "000"%char.
Definition TAB : ascii := "009"%char.
Definition LF : ascii := "010"%char.
Definition CR : ascii := "013"%char.
Definition SPACE : ascii := " "%char.

Definition Size (s : bytes) : Z := Z.of_nat (length s).

Definition INTPTR_MAX : Z := 9223372036854775807.

Inductive outcome (A : Type) : Type :=
| Ok (a : A)
| AssertFail
| Exit1
| OutOfFuel.

Arguments Ok {A} a.
Arguments AssertFail {A}.
Arguments Exit1 {A}.
Arguments OutOfFuel {A}.

Definition bind {A B : Type} (m : outcome A) (k : A -> outcome B) : outcome B :=
  match m with
  | Ok a => k a
  | AssertFail => AssertFail
  | Exit1 => Exit1
  | OutOfFuel => OutOfFuel
  end.

Notation "x <- m ;; k" := (bind m (fun x => k))
  (at level 61, m at next level, right associativity).
Notation "' p <- m ;; k" := (bind m (fun x => match x with p => k end))
  (at level 61, p pattern, m at next level, right associativity).

(** ** DS_StringView *)

(** [memcmp(ptr, other.Data, other.Size) == 0], [ptr] being the bytes from
    the probe position to the end of the buffer. *)
Fixpoint memcmp_eq (ptr other : bytes) {struct other} : bool :=
  match other with
  | [] => true
  | c :: other' =>
      match ptr with
      | [] => false
      | d :: ptr' => Ascii.eqb d c && memcmp_eq ptr' other'
      end
  end.

(** The [for (; ptr <= end; ptr++)] loop of [Find]; [count] is the number of
    probe positions left, [end - ptr + 1]. *)
Fixpoint Find_loop (Data other : bytes) (ptr count : nat) : option nat :=
  match count with
  | O => None
  | S count' =>
      if memcmp_eq (skipn ptr Data) other then Some ptr
      else Find_loop Data other (S ptr) count'
  end.

(** [DS_StringView::Find]: returns [Size] if not found. *)
Definition Find (self other : bytes) (start_from : Z) : outcome Z :=
  if (0 <=? start_from) && (start_from <=? Size self) then
    let result := Size self in
    if Size other <=? Size self then
      match Find_loop self other (Z.to_nat start_from)
              (Z.to_nat (Size self - Size other - start_from + 1)) with
      | Some ptr => Ok (Z.of_nat ptr)
      | None => Ok result
      end
    else Ok result
  else AssertFail.

(** [DS_StringView::Slice]; the default argument of [to] is [INTPTR_MAX]. *)
Definition Slice (self : bytes) (from to : Z) : outcome bytes :=
  let to := if to =? INTPTR_MAX then Size self else to in
  if (0 <=? from) && (to <=? Size self) && (from <=? to) then
    Ok (firstn (Z.to_nat (to - from)) (skipn (Z.to_nat from) self))
  else AssertFail.

(** [DS_StringView::Split]: the returned pair is the line before [split_by]
    and the new value of [*this]. *)
Definition Split (self split_by : bytes) : outcome (bytes * bytes) :=
  offset <- Find self split_by 0 ;;
  let result := firstn (Z.to_nat offset) self in
  let advance :=
    if offset + Size split_by >? Size self then Size self
    else offset + Size split_by in
  Ok (result, skipn (Z.to_nat advance) self).

(** [DS_StringView::operator==]. *)
Fixpoint bytes_eqb (a b : bytes) : bool :=
  match a, b with
  | [], [] => true
  | c :: a', d :: b' => Ascii.eqb c d && bytes_eqb a' b'
  | _, _ => false
  end.

(** [Data[i]], a raw read. *)
Definition at_index (s : bytes) (i : Z) : ascii := nth (Z.to_nat i) s NUL.

(** ** printf-style formatting *)

(** [strlen] of a buffer whose terminator follows its last byte. *)
Fixpoint strlen (p : bytes) : nat :=
  match p with
  | [] => O
  | c :: p' => if Ascii.eqb c NUL then O else S (strlen p')
  end.

(** The bytes a ["%s"] conversion produces. *)
Definition fmt_s (p : bytes) : bytes := firstn (strlen p) p.

(** The bytes a ["%.*s"] conversion produces with precision [prec]: at most
    [prec] bytes, and none from the first NUL byte on.  [main] passes an
    [intptr_t] size where the conversion reads an [int]; the sizes come from
    a file whose length was read into a [long], so the value is the same. *)
Definition fmt_prec_s (prec : Z) (p : bytes) : bytes :=
  fmt_s (firstn (Z.to_nat prec) p).

(** ** Snippet transformer (main.cpp, lines 67-105) *)

(** The program substituted for a body of several lines without [return];
    unlike the other two programs it carries no line feed of its own. *)
Definition error_program : bytes :=
  lit "print('Error: No return statement found in a multiline code block!')".

(** The [while (lines.Size > 0)] loop of the [is_multiline] branch. *)
Fixpoint user_fn_lines (fuel : nat) (lines new_python_string : bytes) : outcome bytes :=
  if Size lines >? 0 then
    match fuel with
    | O => OutOfFuel
    | S fuel' =>
        '(line, lines') <- Split lines [LF] ;;
        let line :=
          if (Size line >? 0) && Ascii.eqb (at_index line (Size line - 1)) CR
          then firstn (Z.to_nat (Size line - 1)) line
          else line in
        let new_python_string :=
          if Size line >? 0 then
            (if negb (Ascii.eqb (at_index line 0) TAB) && negb (Ascii.eqb (at_index line 0) SPACE)
             then new_python_string ++ [TAB]
             else new_python_string) ++ line ++ [LF]
          else new_python_string in
        user_fn_lines fuel' lines' new_python_string
    end
  else Ok new_python_string.

(** The [while (lines.Size > 0)] loop of the other branch. *)
Fixpoint count_lines (fuel : nat) (lines : bytes) (lines_count : Z) : outcome Z :=
  if Size lines >? 0 then
    match fuel with
    | O => OutOfFuel
    | S fuel' =>
        '(_, lines') <- Split lines [LF] ;;
        count_lines fuel' lines' (lines_count + 1)
    end
  else Ok lines_count.

(** Line 69: [python_string.Find("return") != python_string.Size]. *)
Definition is_multiline_of (python_string : bytes) : outcome bool :=
  r <- Find python_string (lit "return") 0 ;;
  Ok (negb (r =? Size python_string)).

(** Lines 67-105: the generated program and its flag.  Both loops are given
    [length python_string] iterations, which they never exceed. *)
Definition transform (python_string : bytes) : outcome (bytes * bool) :=
  is_multiline <- is_multiline_of python_string ;;
  if is_multiline : bool then
    body <- user_fn_lines (length python_string) python_string
              (lit "def user_fn():" ++ [LF]) ;;
    Ok (body ++ lit "print(user_fn())" ++ [LF], is_multiline)
  else
    lines_count <- count_lines (length python_string) python_string 0 ;;
    if lines_count <=? 1 then
      Ok (lit "print(" ++ fmt_prec_s (Size python_string) python_string ++ lit ")" ++ [LF],
          is_multiline)
    else Ok (error_program, is_multiline).

(** ** Directive scanner (main.cpp, lines 47-110) *)

Record scan_state : Type := mk_scan {
  ranges_to_keep : list bytes;
  python_strings : list bytes;
  python_strings_is_multiline : list bool
}.

Definition pyexpand_keyword : bytes := lit "/*.py".

(** One pass through the body of the [for (;;)] loop on [remaining]:
    [None] at [break], otherwise the kept range, the generated program, its
    flag and the next value of [remaining]. *)
Definition scan_body (remaining : bytes)
  : outcome (option (bytes * bytes * bool * bytes)) :=
  pyexpand_offset <- Find remaining pyexpand_keyword 0 ;;
  if pyexpand_offset =? Size remaining then Ok None
  else
    end_comment_offset <-
      Find remaining (lit "*/") (pyexpand_offset + Size pyexpand_keyword) ;;
    python_string <-
      Slice remaining (pyexpand_offset + Size pyexpand_keyword) end_comment_offset ;;
    keep <- Slice remaining 0 (end_comment_offset + 2) ;;
    terminator_comment_offset <- Find remaining (lit "/*") (end_comment_offset + 2) ;;
    remaining' <- Slice remaining terminator_comment_offset INTPTR_MAX ;;
    '(new_python_string, is_multiline) <- transform python_string ;;
    Ok (Some (keep, new_python_string, is_multiline, remaining')).

(** The three [Add] calls of one pass. *)
Definition scan_add (st : scan_state) (keep new_python_string : bytes)
    (is_multiline : bool) : scan_state :=
  mk_scan (ranges_to_keep st ++ [keep])
          (python_strings st ++ [new_python_string])
          (python_strings_is_multiline st ++ [is_multiline]).

(** The [for (;;)] loop; it returns the arrays and [remaining] at [break]. *)
Fixpoint scan_loop (fuel : nat) (remaining : bytes) (st : scan_state)
  : outcome (scan_state * bytes) :=
  match fuel with
  | O => OutOfFuel
  | S fuel' =>
      pass <- scan_body remaining ;;
      match pass with
      | None => Ok (st, remaining)
      | Some (keep, new_python_string, is_multiline, remaining') =>
          scan_loop fuel' remaining' (scan_add st keep new_python_string is_multiline)
      end
  end.

(** Lines 52-110: the loop started on the whole file, then
    [ranges_to_keep.Add(remaining)]. *)
Definition scan (file_data : bytes) : outcome scan_state :=
  '(st, remaining) <- scan_loop (S (length file_data)) file_data (mk_scan [] [] []) ;;
  Ok (mk_scan (ranges_to_keep st ++ [remaining])
              (python_strings st)
              (python_strings_is_multiline st)).

(** ** Interpreter driver and normalizer (main.cpp, lines 112-147) *)

(** The print callback: [Result.Addf("%s", message)]. *)
Definition print_callback (Result message : bytes) : bytes :=
  Result ++ fmt_s message.

(** Lines 142-144. *)
Definition normalize (python_result : bytes) : outcome bytes :=
  tail <- Slice python_result (Size python_result - 2) INTPTR_MAX ;;
  if bytes_eqb tail [CR; LF] then Slice python_result 0 (Size python_result - 2)
  else Ok python_result.

(** ** Splicer (main.cpp, lines 151-182) *)

(** [DS_Array::operator[]], which asserts [i < Size]. *)
Definition array_get {A : Type} (a : list A) (i : Z) : outcome A :=
  match nth_error a (Z.to_nat i) with
  | Some x => if (0 <=? i) then Ok x else AssertFail
  | None => AssertFail
  end.

(** The [for (; indent < python_string.Size; indent++)] loop;
    [rest] holds the bytes from [Data + indent] on. *)
Fixpoint indent_loop (rest : bytes) (indent : Z) : Z :=
  match rest with
  | [] => indent
  | c :: rest' =>
      if negb (Ascii.eqb c SPACE) && negb (Ascii.eqb c TAB) then indent
      else indent_loop rest' (indent + 1)
  end.

(** Lines 158-163: [indent_str], computed from [python_results[i - 1]]. *)
Definition indent_prefix (python_string : bytes) (is_multiline : bool) : outcome bytes :=
  let indent := indent_loop python_string 0 in
  Slice python_string 0 (if is_multiline then indent else 0).

(** Lines 165 and 167. *)
Definition separator (is_multiline : bool) : bytes :=
  if is_multiline then [LF] else [SPACE].

(** One iteration of the loop at index [i], appending to [result]. *)
Definition splice_step (ranges python_results : list bytes) (flags : list bool)
    (i : Z) (result : bytes) : outcome bytes :=
  result <-
    (if i >? 0 then
       python_string <- array_get python_results (i - 1) ;;
       is_multiline <- array_get flags (i - 1) ;;
       indent_str <- indent_prefix python_string is_multiline ;;
       Ok (result ++ separator is_multiline ++ python_string
                  ++ separator is_multiline ++ indent_str)
     else Ok result) ;;
  range <- array_get ranges i ;;
  Ok (result ++ range).

(** [count] iterations starting at index [i]. *)
Fixpoint splice_loop (ranges python_results : list bytes) (flags : list bool)
    (count : nat) (i : Z) (result : bytes) : outcome bytes :=
  match count with
  | O => Ok result
  | S count' =>
      result <- splice_step ranges python_results flags i result ;;
      splice_loop ranges python_results flags count' (i + 1) result
  end.

(** Lines 152-171: the loop over [ranges_to_keep], from an empty [result]. *)
Definition splice (ranges python_results : list bytes) (flags : list bool) : outcome bytes :=
  splice_loop ranges python_results flags (length ranges) 0 [].

(** The loop in closed form, in terms of [separator] and [indent_prefix]:
    [indent_bytes] is [indent_str], [expansion] what one iteration appends
    before the kept range, and [spliced] what the iterations after the
    first append. *)
Definition indent_bytes (out : bytes) (is_multiline : bool) : bytes :=
  match indent_prefix out is_multiline with
  | Ok ind => ind
  | _ => []
  end.

Definition expansion (out : bytes) (is_multiline : bool) : bytes :=
  separator is_multiline ++ out ++ separator is_multiline
    ++ indent_bytes out is_multiline.

Fixpoint spliced (Ks outs : list bytes) (flags : list bool) : bytes :=
  match Ks, outs, flags with
  | K :: Ks', out :: outs', ml :: flags' =>
      expansion out ml ++ K ++ spliced Ks' outs' flags'
  | _, _, _ => []
  end.

Section Pipeline.

(** The interpreter: the bytes of [__pyexpand_temp.py] to the buffers the
    callback receives (stdout chunks, then stderr chunks), [None] when
    [OS_RunConsoleCommand] returns false. *)
Variable py : bytes -> option (list bytes).

(** One iteration of the loop over [python_strings]. *)
Definition run_python (python_str : bytes) : outcome bytes :=
  let temp_file := fmt_prec_s (Size python_str) python_str ++ [LF] in
  match py temp_file with
  | None => Exit1
  | Some chunks => normalize (fold_left print_callback chunks [])
  end.

(** The loop over [python_strings], appending to [python_results]. *)
Fixpoint run_loop (python_strings : list bytes) (python_results : list bytes)
  : outcome (list bytes) :=
  match python_strings with
  | [] => Ok python_results
  | python_str :: rest =>
      python_result <- run_python python_str ;;
      run_loop rest (python_results ++ [python_result])
  end.

(** The buffer [result] just before the final [fopen]. *)
Definition assemble (file_data : bytes) : outcome bytes :=
  st <- scan file_data ;;
  python_results <- run_loop (python_strings st) [] ;;
  splice (ranges_to_keep st) python_results (python_strings_is_multiline st).

(** The bytes [fprintf(f, "%s", result.CStr())] writes to the file. *)
Definition main (file_data : bytes) : outcome bytes :=
  result <- assemble file_data ;;
  Ok (fmt_s result).

(** The contents of the file when the process has ended: it is rewritten
    only when [main] reaches the final write. *)
Definition file_after (file_data : bytes) : bytes :=
  match main file_data with
  | Ok written => written
  | _ => file_data
  end.

End Pipeline.

(** ** Vocabulary of the specification *)

(** [other] occurs in [self] at byte offset [p]. *)
Definition occurs_at (other self : bytes) (p : nat) : Prop :=
  exists pre post, self = pre ++ other ++ post /\ length pre = p.

(** [self] contains the substring [other]. *)
Definition contains (other self : bytes) : Prop :=
  exists pre post, self = pre ++ other ++ post.

(** [r] is the leftmost occurrence of [other] at or after [start]. *)
Definition leftmost (other self : bytes) (start r : nat) : Prop :=
  (start <= r)%nat /\ occurs_at other self r /\
  forall q, (start <= q < r)%nat -> ~ occurs_at other self q.

(** No occurrence of [other] at or after [start]. *)
Definition absent_from (other self : bytes) (start : nat) : Prop :=
  forall q, (start <= q)%nat -> ~ occurs_at other self q.

(** Space or tab. *)
Definition is_ws (c : ascii) : Prop := c = SPACE \/ c = TAB.

(** The leading run of spaces and tabs of [s]. *)
Fixpoint leading_ws (s : bytes) : bytes :=
  match s with
  | [] => []
  | c :: s' =>
      if Ascii.eqb c SPACE || Ascii.eqb c TAB then c :: leading_ws s' else []
  end.

(** [p] is the longest prefix of [s] made of spaces and tabs only. *)
Definition longest_ws_prefix (p s : bytes) : Prop :=
  (exists rest, s = p ++ rest) /\ Forall is_ws p /\
  forall q, (exists rest, s = q ++ rest) -> Forall is_ws q ->
            (length q <= length p)%nat.

(** [w] is [a] cut at its first NUL byte. *)
Definition truncated_at_NUL (a w : bytes) : Prop :=
  ~ In NUL w /\ (a = w \/ exists rest, a = w ++ NUL :: rest).


(** [E] is the expansion text of the specification for a directive whose
    normalized output is [out]: [sep], [out], [sep] again, then the indent
    prefix.  For a multiline directive [sep] is the single byte LF and the
    indent prefix is the longest prefix of [out] made of spaces and tabs;
    otherwise [sep] is the single byte SPACE and the indent prefix is
    empty. *)
Inductive expansion_text (out : bytes) : bool -> bytes -> Prop :=
| expansion_multiline (ind : bytes) :
    longest_ws_prefix ind out ->
    expansion_text out true ([LF] ++ out ++ [LF] ++ ind)
| expansion_single :
    expansion_text out false ([SPACE] ++ out ++ [SPACE]).


(** ** Conditions used in the statements *)

(** The buffer leaves room, below the value [Slice] reserves for its
    default argument, for an offset two bytes past its end. *)
Definition addressable (s : bytes) : Prop := Size s + 2 < INTPTR_MAX.

(** The body of the directive opened at [off] and closed at [e]. *)
Definition body_between (remaining : bytes) (off e : nat) : bytes :=
  firstn (e - (off + 5)) (skipn (off + 5) remaining).

(** [t] is where the scanner resumes after the closing marker at [e]: the
    leftmost [/*] at or after [e + 2], the end of the buffer if none. *)
Definition terminator_at (remaining : bytes) (e t : nat) : Prop :=
  leftmost (lit "/*") remaining (e + 2) t \/
  (absent_from (lit "/*") remaining (e + 2) /\ t = length remaining).

(** [s] has no line feed except possibly as its last byte. *)
Definition single_line (s : bytes) : Prop :=
  forall q, occurs_at [LF] s q -> S q = length s.

(** None of the outputs captured in the run on [file_data] contains the
    marker [/*]: when the scanner and the interpreter loop return, no entry
    of [python_results] does.  Nothing is asked of the interpreter on a
    program that is not a snippet of the file. *)
Definition captured_outputs_without_marker (py : bytes -> option (list bytes))
    (file_data : bytes) : Prop :=
  forall st outs,
    scan file_data = Ok st ->
    run_loop py (python_strings st) [] = Ok outs ->
    Forall (fun out => ~ contains (lit "/*") out) outs.

(** Concatenation of the arrays of two scanner states. *)
Definition scan_app (st st' : scan_state) : scan_state :=
  mk_scan (ranges_to_keep st ++ ranges_to_keep st')
          (python_strings st ++ python_strings st')
          (python_strings_is_multiline st ++ python_strings_is_multiline st').

(** ** Interpreters for the examples *)

(** An interpreter that prints the same line whatever the program. *)
Definition py_const (out : string) : bytes -> option (list bytes) :=
  fun _ => Some [lit out ++ [CR; LF]].

(** An interpreter given as a table from the bytes of the temporary file to
    the line it prints; it cannot be launched on any other program. *)
Fixpoint py_table (table : list (bytes * bytes)) (temp_file : bytes)
  : option (list bytes) :=
  match table with
  | [] => None
  | (program, out) :: table' =>
      if bytes_eqb temp_file program then Some [out ++ [CR; LF]]
      else py_table table' temp_file
  end.

(** An interpreter that prints the marker [/*] on every program but one,
    for which it prints [out]. *)
Definition py_marker_unless (program out : bytes) (temp_file : bytes)
  : option (list bytes) :=
  if bytes_eqb temp_file program then Some [out ++ [CR; LF]]
  else Some [lit "/*" ++ [CR; LF]].

(** ** Rules of the specification that the code does not follow *)

(** The line count as the specification words it: split on LF, ignore a
    trailing CR on a line, do not count empty lines. *)
Fixpoint spec_split_lf (s cur : bytes) : list bytes :=
  match s with
  | [] => [cur]
  | c :: s' =>
      if Ascii.eqb c LF then cur :: spec_split_lf s' []
      else spec_split_lf s' (cur ++ [c])
  end.

Definition spec_strip_cr (line : bytes) : bytes :=
  match rev line with
  | c :: r => if Ascii.eqb c CR then rev r else line
  | [] => line
  end.

Definition spec_nonempty_lines (body : bytes) : nat :=
  length (filter (fun l => negb (bytes_eqb l []))
            (map spec_strip_cr (spec_split_lf body []))).

(** The single-expression rule as the specification words it. *)
Definition single_expression_rule_as_written : Prop :=
  forall body, ~ contains (lit "return") body ->
    transform body =
      Ok (if (spec_nonempty_lines body <=? 1)%nat
          then lit "print(" ++ body ++ lit ")" ++ [LF]
          else error_program, false).




(** The rule for a directive without a terminator as the specification
    words it: the loop stops there with no directive added, and the bytes
    from the cursor on become the tail kept range. *)
Definition unterminated_rule_as_written : Prop :=
  forall fuel remaining st off e,
    addressable remaining ->
    leftmost pyexpand_keyword remaining 0 off ->
    leftmost (lit "*/") remaining (off + 5) e ->
    absent_from (lit "/*") remaining (e + 2) ->
    scan_loop (S (S fuel)) remaining st = Ok (st, remaining).

(** The zero-directive identity as the specification words it. *)
Definition zero_directive_identity_as_written : Prop :=
  forall (py : bytes -> option (list bytes)) file_data,
    ~ contains pyexpand_keyword file_data -> main py file_data = Ok file_data.

(** Idempotence as the specification words it: the interpreter is a
    function of the program, so every snippet's output is the same in both
    runs. *)
Definition idempotence_as_written : Prop :=
  forall (py : bytes -> option (list bytes)) file_data,
    file_after py (file_after py file_data) = file_after py file_data.

(** ** More of DS_StringView (ds.cpp, lines 84-99) *)

(** The [for (; ptr >= Data; ptr--)] loop of [RFind], from offset [ptr]
    down to offset 0. *)
Fixpoint RFind_loop (Data other : bytes) (ptr : nat) : option nat :=
  if memcmp_eq (skipn ptr Data) other then Some ptr
  else match ptr with
       | O => None
       | S ptr' => RFind_loop Data other ptr'
       end.

(** [DS_StringView::RFind]: returns [Size] if not found; it has no
    assertion, and a start below the length of [other] leaves the loop
    without a pass. *)
Definition RFind (self other : bytes) (start_from : Z) : Z :=
  let result := Size self in
  if Size other <=? Size self then
    let ptr := (if start_from >=? Size self then Size self else start_from)
               - Size other in
    if ptr >=? 0 then
      match RFind_loop self other (Z.to_nat ptr) with
      | Some p => Z.of_nat p
      | None => result
      end
    else result
  else result.

(** ** Conditions and vocabulary of the further properties *)

(** The LF-separated segments of [s], the last one included when empty. *)
Definition LF_lines (s : bytes) : list bytes := spec_split_lf s [].

(** What one pass of the loop of the [is_multiline] branch appends to
    [new_python_string] for the line [line] (main.cpp, lines 76-86). *)
Definition user_fn_line (line : bytes) : bytes :=
  let line :=
    if (Size line >? 0) && Ascii.eqb (at_index line (Size line - 1)) CR
    then firstn (Z.to_nat (Size line - 1)) line
    else line in
  if Size line >? 0 then
    (if negb (Ascii.eqb (at_index line 0) TAB) && negb (Ascii.eqb (at_index line 0) SPACE)
     then [TAB] else []) ++ line ++ [LF]
  else [].

(** A line of a function body: no line feed inside, a tab or a space
    first. *)
Definition indented_line (l : bytes) : Prop :=
  ~ In LF l /\ exists c rest, l = c :: rest /\ is_ws c.

(** The buffer made of the kept ranges with one replaced region after each
    range but the last. *)
Fixpoint rebuild (ranges gaps : list bytes) : bytes :=
  match ranges with
  | [] => []
  | K :: ranges' =>
      match gaps with
      | [] => K
      | G :: gaps' => K ++ G ++ rebuild ranges' gaps'
      end
  end.

(** [K] is empty or starts with the two bytes that open a comment. *)
Definition opens_comment_or_empty (K : bytes) : Prop :=
  K = [] \/ exists post, K = lit "/*" ++ post.



(** The bytes of [__pyexpand_temp.py] for the program [python_str]
    (main.cpp, line 121). *)
Definition temp_file_of (python_str : bytes) : bytes :=
  fmt_prec_s (Size python_str) python_str ++ [LF].

(** ** Dynamic arrays and strings (ds.h, lines 151-201, 365-388, 525-705) *)

(** A block of elements is a list of slots; [None] is a slot of the block
    that was never written.  Reads and writes outside a block are undefined
    in the source; [store] leaves the block as it is there and [load] gives
    [None]. *)
Definition store {T : Type} (Data : list (option T)) (i : Z) (x : T) : list (option T) :=
  if (0 <=? i) && (i <? Z.of_nat (length Data)) then
    firstn (Z.to_nat i) Data ++ Some x :: skipn (S (Z.to_nat i)) Data
  else Data.

Definition load {T : Type} (Data : list (option T)) (i : Z) : option T :=
  if 0 <=? i then
    match nth_error Data (Z.to_nat i) with
    | Some slot => slot
    | None => None
    end
  else None.

(** [memmove(Data + dst, Data + src, count)], in elements. *)
Definition memmove {T : Type} (Data : list (option T)) (dst src count : Z)
  : list (option T) :=
  firstn (Z.to_nat dst) Data
    ++ firstn (Z.to_nat count) (skipn (Z.to_nat src) Data)
    ++ skipn (Z.to_nat (dst + count)) Data.

(** [count] writes of [x] at the offsets [i], [i + 1], ... *)
Fixpoint fill {T : Type} (count : nat) (Data : list (option T)) (i : Z) (x : T)
  : list (option T) :=
  match count with
  | O => Data
  | S count' => fill count' (store Data i x) (i + 1) x
  end.

(** The writes of [values] at the offsets [i], [i + 1], ... ([memcpy], or
    the loop of [AddSlice]). *)
Fixpoint store_all {T : Type} (Data : list (option T)) (i : Z) (values : list T)
  : list (option T) :=
  match values with
  | [] => Data
  | x :: values' => store_all (store Data i x) (i + 1) values'
  end.

(** The [while (reserve_count > Capacity)] loop of [DS_Array::Reserve] and
    of [DS_DynamicString::Reserve]. *)
Fixpoint Reserve_loop (fuel : nat) (reserve_count Capacity : Z) : option Z :=
  if reserve_count >? Capacity then
    match fuel with
    | O => None
    | S fuel' =>
        Reserve_loop fuel' reserve_count (if Capacity =? 0 then 8 else Capacity * 2)
    end
  else Some Capacity.

(** [MemRealloc] from [old] to [new] elements: the old block is kept and the
    slots added are not written. *)
Definition MemRealloc {T : Type} (Data : list (option T)) (old new : Z)
  : list (option T) :=
  Data ++ repeat None (Z.to_nat (new - old)).

(** The write of a value that was read from memory into the slot at [i]:
    [None] when the read was undefined. *)
Definition store_slot {T : Type} (Data : list (option T)) (i : Z) (x : option T)
  : list (option T) :=
  if (0 <=? i) && (i <? Z.of_nat (length Data)) then
    firstn (Z.to_nat i) Data ++ x :: skipn (S (Z.to_nat i)) Data
  else Data.

(** [count] writes at the offsets [i], [i + 1], ... of a value that each
    pass reads again, through [read], from the block as the passes before
    have left it. *)
Fixpoint fill_ref {T : Type} (count : nat) (Data : list (option T)) (i : Z)
    (read : list (option T) -> option T) : list (option T) :=
  match count with
  | O => Data
  | S count' => fill_ref count' (store_slot Data i (read Data)) (i + 1) read
  end.

(** The two allocators of ds.h.  When [MemRealloc] replaces a block, the
    arena copies it and leaves it as it was (lines 490-496); the heap
    allocator hands it to [_aligned_realloc], after which a read of it is
    undefined. *)
Inductive allocator : Type := Arena | Heap.

Definition released {T : Type} (alloc : allocator) (Data : list (option T))
  : list (option T) :=
  match alloc with
  | Arena => Data
  | Heap => map (fun _ => None) Data
  end.

Module DS_Array.

Record t (T : Type) : Type := mk {
  Data : list (option T);
  Size : Z;
  Capacity : Z
}.

Arguments mk {T} Data Size Capacity.
Arguments Data {T} _.
Arguments Size {T} _.
Arguments Capacity {T} _.

(** The constructor with no initial capacity. *)
Definition empty {T : Type} : t T := mk [] 0 0.

Definition Reserve {T : Type} (a : t T) (reserve_count : Z) : outcome (t T) :=
  if reserve_count >? Capacity a then
    match Reserve_loop 64 reserve_count (Capacity a) with
    | Some capacity =>
        Ok (mk (MemRealloc (Data a) (Capacity a) capacity) (Size a) capacity)
    | None => OutOfFuel
    end
  else Ok a.

Definition Add {T : Type} (a : t T) (value : T) : outcome (t T) :=
  a <- Reserve a (Size a + 1) ;;
  Ok (mk (store (Data a) (Size a) value) (Size a + 1) (Capacity a)).

Definition AddSlice {T : Type} (a : t T) (values : list T) : outcome (t T) :=
  a <- Reserve a (Size a + Z.of_nat (length values)) ;;
  Ok (mk (store_all (Data a) (Size a) values)
         (Size a + Z.of_nat (length values)) (Capacity a)).

(** [operator[]]: the index is converted to [size_t], so a negative index
    is above every [Size] and fails the assertion as well. *)
Definition get {T : Type} (a : t T) (i : Z) : outcome (option T) :=
  if (0 <=? i) && (i <? Size a) then Ok (load (Data a) i) else AssertFail.

Definition Back {T : Type} (a : t T) : outcome (option T) :=
  if Size a >? 0 then Ok (load (Data a) (Size a - 1)) else AssertFail.

Definition Clear {T : Type} (a : t T) : t T := mk (Data a) 0 (Capacity a).

Definition Resize {T : Type} (a : t T) (new_count : Z) (default_value : T)
  : outcome (t T) :=
  if new_count >? Size a then
    a' <- Reserve a new_count ;;
    Ok (mk (fill (Z.to_nat (new_count - Size a')) (Data a') (Size a') default_value)
           (Size a') (Capacity a'))
  else Ok a.

(** A [const T&] argument: an object outside the block of the array, or the
    element at index [j] of the block the array has when the call starts,
    which is what [operator[]] and [Back] return. *)
Inductive ref (T : Type) : Type :=
| Outside (value : T)
| Element (j : Z).

Arguments Outside {T} value.
Arguments Element {T} j.

(** A read through the argument when the block of the array is [Data]:
    [old] is the block the array had when the call started and [replaced]
    says whether [Reserve] has replaced it. *)
Definition deref {T : Type} (alloc : allocator) (old : list (option T))
    (replaced : bool) (value : ref T) (Data : list (option T)) : option T :=
  match value with
  | Outside v => Some v
  | Element j => if replaced then load (released alloc old) j else load Data j
  end.

(** [Insert] takes [value] by reference and reads it in every pass of the
    loop, after the [memmove]. *)
Definition Insert {T : Type} (alloc : allocator) (a : t T) (at_ : Z) (value : ref T)
    (n : Z) : outcome (t T) :=
  if at_ <=? Size a then
    let old := Data a in
    let replaced := Size a + n >? Capacity a in
    a <- Reserve a (Size a + n) ;;
    let moved := memmove (Data a) (at_ + n) at_ (Size a - at_) in
    Ok (mk (fill_ref (Z.to_nat n) moved at_ (deref alloc old replaced value))
           (Size a + n) (Capacity a))
  else AssertFail.

(** The reference returned is [Data[Size]] after the subtraction. *)
Definition PopBack {T : Type} (a : t T) (n : Z) : outcome (option T * t T) :=
  if Size a >=? n then
    Ok (load (Data a) (Size a - n), mk (Data a) (Size a - n) (Capacity a))
  else AssertFail.

(** One pass of the [while (i < j)] loop of [ReverseOrder].  Both slots lie
    below [Size]; a slot never written has no value to copy, and the block
    is left as it is then. *)
Definition swap {T : Type} (Data : list (option T)) (i j : Z) : list (option T) :=
  match load Data i, load Data j with
  | Some x, Some y => store (store Data i y) j x
  | _, _ => Data
  end.

Fixpoint ReverseOrder_loop {T : Type} (fuel : nat) (Data : list (option T)) (i j : Z)
  : list (option T) :=
  if i <? j then
    match fuel with
    | O => Data
    | S fuel' => ReverseOrder_loop fuel' (swap Data i j) (i + 1) (j - 1)
    end
  else Data.

Definition ReverseOrder {T : Type} (a : t T) : t T :=
  mk (ReverseOrder_loop (Z.to_nat (Size a)) (Data a) 0 (Size a - 1))
     (Size a) (Capacity a).

End DS_Array.

Module DS_DynamicString.

Record t : Type := mk {
  Data : list (option ascii);
  Size : Z;
  Capacity : Z
}.

(** The constructor with no initial capacity: [Data] is a null pointer. *)
Definition empty : t := mk [] 0 0.

Definition Reserve (s : t) (reserve_size : Z) : outcome t :=
  if reserve_size >? Capacity s then
    match Reserve_loop 64 reserve_size (Capacity s) with
    | Some capacity =>
        Ok (mk (MemRealloc (Data s) (Capacity s) capacity) (Size s) capacity)
    | None => OutOfFuel
    end
  else Ok s.

Definition Add (s : t) (str : bytes) : outcome t :=
  s <- Reserve s (Size s + Z.of_nat (length str) + 1) ;;
  let Data := store_all (Data s) (Size s) str in
  let Size := Size s + Z.of_nat (length str) in
  Ok (mk (store Data Size NUL) Size (Capacity s)).

(** The C string at [CStr()]: the bytes before the first NUL byte; [None]
    when the read meets a slot never written or leaves the block. *)
Fixpoint c_string (Data : list (option ascii)) : option bytes :=
  match Data with
  | [] => None
  | None :: _ => None
  | Some c :: Data' =>
      if Ascii.eqb c NUL then Some []
      else match c_string Data' with
           | Some rest => Some (c :: rest)
           | None => None
           end
  end.

End DS_DynamicString.

(** The array [a] holds the elements [l]: they are its first [Size] slots,
    and the block has [Capacity] slots. *)
Definition array_holds {T : Type} (a : DS_Array.t T) (l : list T) : Prop :=
  DS_Array.Size a = Z.of_nat (length l) /\
  DS_Array.Capacity a = Z.of_nat (length (DS_Array.Data a)) /\
  exists rest, DS_Array.Data a = map Some l ++ rest.

(** What [Insert] of [n] copies at [at] reads through its argument, for an
    array that holds [l]: the object itself when it lies outside the block;
    for a reference to the element at [j], that element when the block is
    replaced and the arena keeps the old one, or when [j] is below
    [at + n]; and the element at [j - n], which the [memmove] has put in its
    place, when the block is kept and [j] is [at + n] or more.  Nothing
    when [j] is no index of the array or when the old block was released. *)
Definition Insert_reads {T : Type} (alloc : allocator) (a : DS_Array.t T) (l : list T)
    (at_ n : Z) (value : DS_Array.ref T) : option T :=
  match value with
  | DS_Array.Outside v => Some v
  | DS_Array.Element j =>
      if (0 <=? j) && (j <? Z.of_nat (length l)) then
        if DS_Array.Size a + n >? DS_Array.Capacity a then
          match alloc with
          | Arena => nth_error l (Z.to_nat j)
          | Heap => None
          end
        else if j <? at_ + n then nth_error l (Z.to_nat j)
        else nth_error l (Z.to_nat (j - n))
      else None
  end.

(** The string [s] holds the bytes [l]. *)
Definition string_holds (s : DS_DynamicString.t) (l : bytes) : Prop :=
  DS_DynamicString.Size s = Z.of_nat (length l) /\
  DS_DynamicString.Capacity s = Z.of_nat (length (DS_DynamicString.Data s)) /\
  exists rest, DS_DynamicString.Data s = map Some l ++ rest.

(** ** Code points (ds.cpp, lines 3-63) *)

(** A code that reads outside the string or outside a table has no defined
    result; a loop of the model can run out of fuel. *)
Inductive reading (A : Type) : Type :=
| Val (a : A)
| Undefined
| NoFuel.

Arguments Val {A} a.
Arguments Undefined {A}.
Arguments NoFuel {A}.

(** [(unsigned char)c]. *)
Definition uchar (c : ascii) : Z := Z.of_N (N_of_ascii c).

(** Arithmetic on [uint32_t]. *)
Definition uint32 (x : Z) : Z := x mod 2 ^ 32.

(** [DS_IsUtf8FirstByte]: the two bits tested are the same in a signed and
    in an unsigned [char]. *)
Definition DS_IsUtf8FirstByte (c : ascii) : bool :=
  negb (Z.land (uchar c) 0xC0 =? 0x80).

Definition DS_UTF8_OFFSETS : list Z :=
  [0x00000000; 0x00003080; 0x000E2080; 0x03C82080; 0xFA082080; 0x82082080].

(** The [do ... while] loop of [DS_NextCodepoint]; [rest] holds the bytes
    from [str + *offset] up to [str + size]. *)
Fixpoint NextCodepoint_loop (rest : bytes) (ch : Z) (sz : nat) (offset : Z)
  : Z * nat * Z :=
  match rest with
  | [] => (ch, sz, offset)
  | c :: rest' =>
      let ch := uint32 (uint32 (Z.shiftl ch 6) + uchar c) in
      match rest' with
      | [] => (ch, S sz, offset + 1)
      | c' :: _ =>
          if DS_IsUtf8FirstByte c' then (ch, S sz, offset + 1)
          else NextCodepoint_loop rest' ch (S sz) (offset + 1)
      end
  end.

(** The result and the new value of [*offset]. *)
Definition DS_NextCodepoint (str : bytes) (offset : Z) : reading (Z * Z) :=
  if offset >=? Size str then Val (0, offset)
  else if offset <? 0 then Undefined
  else
    let '(ch, sz, offset') := NextCodepoint_loop (skipn (Z.to_nat offset) str) 0 0 offset in
    match nth_error DS_UTF8_OFFSETS (sz - 1) with
    | Some o => Val (uint32 (ch - o), offset')
    | None => Undefined
    end.

(** [str[i]]. *)
Definition char_at (str : bytes) (i : Z) : reading ascii :=
  if i <? 0 then Undefined
  else match nth_error str (Z.to_nat i) with
       | Some c => Val c
       | None => Undefined
       end.

Definition DS_PrevCodepoint (str : bytes) (offset : Z) : reading (Z * Z) :=
  if offset <=? 0 then Val (0, offset)
  else
    let decode (b : Z) :=
      match DS_NextCodepoint str b with
      | Val (result, _) => Val (result, b)
      | Undefined => Undefined
      | NoFuel => NoFuel
      end in
    match char_at str (offset - 1) with
    | Val c1 =>
        if DS_IsUtf8FirstByte c1 then decode (offset - 1)
        else match char_at str (offset - 2) with
             | Val c2 =>
                 if DS_IsUtf8FirstByte c2 then decode (offset - 2)
                 else match char_at str (offset - 3) with
                      | Val c3 =>
                          if DS_IsUtf8FirstByte c3 then decode (offset - 3)
                          else decode (offset - 4)
                      | _ => Undefined
                      end
             | _ => Undefined
             end
    | _ => Undefined
    end.

Fixpoint CodepointCount_loop (fuel : nat) (str : bytes) (count offset : Z) : reading Z :=
  match fuel with
  | O => NoFuel
  | S fuel' =>
      match DS_NextCodepoint str offset with
      | Val (c, offset') =>
          if c =? 0 then Val count else CodepointCount_loop fuel' str (count + 1) offset'
      | Undefined => Undefined
      | NoFuel => NoFuel
      end
  end.

Definition DS_CodepointCount (str : bytes) : reading Z :=
  CodepointCount_loop (S (length str)) str 0 0.

(** *** UTF-8 (RFC 3629) *)

Definition byte_of (z : Z) : ascii := ascii_of_N (Z.to_N z).

(** The encoding of the code point [cp] in one to four bytes. *)
Definition utf8 (cp : Z) : bytes :=
  if cp <? 0x80 then [byte_of cp]
  else if cp <? 0x800 then
    [byte_of (0xC0 + cp / 64); byte_of (0x80 + cp mod 64)]
  else if cp <? 0x10000 then
    [byte_of (0xE0 + cp / 4096); byte_of (0x80 + (cp / 64) mod 64);
     byte_of (0x80 + cp mod 64)]
  else
    [byte_of (0xF0 + cp / 262144); byte_of (0x80 + (cp / 4096) mod 64);
     byte_of (0x80 + (cp / 64) mod 64); byte_of (0x80 + cp mod 64)].

(** The bytes [post] do not start inside a code point. *)
Definition starts_codepoint (post : bytes) : Prop :=
  match post with
  | [] => True
  | c :: _ => DS_IsUtf8FirstByte c = true
  end.

(** Continuation bytes at the head of [rest]. *)
Fixpoint continuation_run (rest : bytes) : nat :=
  match rest with
  | [] => O
  | c :: rest' => if DS_IsUtf8FirstByte c then O else S (continuation_run rest')
  end.

(** ** Hash maps (ds.h, lines 407-432, 838-1038) *)

Module DS_Map.

Section WithKey.

Context {KEY VALUE : Type}.

(** [DS_Hash] and [DS_IsEqual] of the key type. *)
Variable DS_Hash : KEY -> Z.
Variable DS_IsEqual : KEY -> KEY -> bool.

(** A slot whose [Hash] is 0 is empty.  [None] is a key or a value that was
    never written, or that was overwritten by a [memset]. *)
Record slot : Type := mk_slot {
  Hash : Z;
  Key : option KEY;
  Value : option VALUE
}.

Record t : Type := mk {
  Data : list slot;
  HasCount : Z;
  Capacity : Z
}.

Definition Init : t := mk [] 0 0.

(** A slot after [memset(Data, 0, allocation_size)], and after the [memset]
    of the slot with 0xCC followed by [elem->Hash = 0]. *)
Definition cleared : slot := mk_slot 0 None None.

(** [Data[index] = e]; a write outside the block is undefined in the source
    and leaves the block as it is here. *)
Definition write (Data : list slot) (index : Z) (e : slot) : list slot :=
  if (0 <=? index) && (index <? Z.of_nat (length Data)) then
    firstn (Z.to_nat index) Data ++ e :: skipn (S (Z.to_nat index)) Data
  else Data.

(** [DS_Hash(key) | (1 << 31)]. *)
Definition hash_of (key : KEY) : Z := Z.lor (DS_Hash key) 0x80000000.

(** Where a [for (;;)] loop over the slots stops: at an empty slot, or at the
    slot that holds the key. *)
Inductive probed : Type :=
| Vacant (index : Z)
| Present (index : Z).

(** The [for (;;)] loop of [DS__MapAdd], of [FindPtr] and the outer one of
    [Remove]: the three walk the slots in the same way. *)
Fixpoint probe (fuel : nat) (Data : list slot) (mask hash : Z) (key : KEY) (index : Z)
  : reading probed :=
  match fuel with
  | O => NoFuel
  | S fuel' =>
      match nth_error Data (Z.to_nat index) with
      | None => Undefined
      | Some elem =>
          if Hash elem =? 0 then Val (Vacant index)
          else
            let next := Z.land (uint32 (index + 1)) mask in
            if hash =? Hash elem then
              match Key elem with
              | None => Undefined
              | Some k =>
                  if DS_IsEqual key k then Val (Present index)
                  else probe fuel' Data mask hash key next
              end
            else probe fuel' Data mask hash key next
      end
  end.

(** [*out_value = value] for the pointer into the slot at [index]. *)
Definition set_value (map : t) (index : Z) (value : option VALUE) : t :=
  match nth_error (Data map) (Z.to_nat index) with
  | Some elem =>
      mk (write (Data map) index (mk_slot (Hash elem) (Key elem) value))
         (HasCount map) (Capacity map)
  | None => map
  end.

(** The part of [DS__MapAdd] after the growth: the result, the slot that
    [*out_value] points into, and the map. *)
Definition MapAdd_slot (map : t) (key : KEY) (hash : Z) : reading (bool * Z * t) :=
  let mask := uint32 (Capacity map - 1) in
  let index := Z.land hash mask in
  match probe (S (length (Data map))) (Data map) mask hash key index with
  | Val (Vacant index) =>
      match nth_error (Data map) (Z.to_nat index) with
      | Some elem =>
          Val (true, index,
               mk (write (Data map) index (mk_slot hash (Some key) (Value elem)))
                  (HasCount map + 1) (Capacity map))
      | None => Undefined
      end
  | Val (Present index) => Val (false, index, map)
  | Undefined => Undefined
  | NoFuel => NoFuel
  end.

(** The [for (int i = 0; i < old_capacity; i++)] loop; [add] is the
    recursive call. *)
Fixpoint rehash_loop (add : t -> KEY -> Z -> reading (bool * Z * t))
    (old_data : list slot) (map : t) : reading t :=
  match old_data with
  | [] => Val map
  | elem :: old_data' =>
      if Hash elem =? 0 then rehash_loop add old_data' map
      else
        match Key elem with
        | None => Undefined
        | Some key =>
            match add map key (Hash elem) with
            | Val (_, new_value, map') =>
                rehash_loop add old_data' (set_value map' new_value (Value elem))
            | Undefined => Undefined
            | NoFuel => NoFuel
            end
        end
  end.

(** [DS__MapAdd]; [depth] bounds the depth of the recursion. *)
Fixpoint MapAdd (depth : nat) (map : t) (key : KEY) (hash : Z)
  : reading (bool * Z * t) :=
  match depth with
  | O => NoFuel
  | S depth' =>
      let grown :=
        if 100 * (HasCount map + 1) >? 70 * Capacity map then
          let old_capacity := Capacity map in
          let capacity := if old_capacity =? 0 then 8 else old_capacity * 2 in
          rehash_loop (MapAdd depth') (firstn (Z.to_nat old_capacity) (Data map))
            (mk (repeat cleared (Z.to_nat capacity)) 0 capacity)
        else Val map in
      match grown with
      | Val map => MapAdd_slot map key hash
      | Undefined => Undefined
      | NoFuel => NoFuel
      end
  end.

Definition DS__MapAdd (map : t) (key : KEY) (hash : Z) : reading (bool * Z * t) :=
  MapAdd 32 map key hash.

(** [Add]: the result, the slot that [*value] points into, and the map. *)
Definition Add (map : t) (key : KEY) : reading (bool * Z * t) :=
  DS__MapAdd map key (hash_of key).

(** A [const VALUE&] argument: an object outside the block of the map, or
    the [Value] of the slot at [index] of the block the map has when the
    call starts, which is what the pointer of [FindPtr] and of [Add] refers
    to. *)
Inductive value_ref : Type :=
| Outside (value : VALUE)
| Stored (index : Z).

(** The test of [DS__MapAdd] for replacing the block. *)
Definition grows (map : t) : bool :=
  100 * (HasCount map + 1) >? 70 * Capacity map.

(** The read of [value] in [*slot_value = value], when [DS__MapAdd] has
    returned [map].  A block that was replaced has been filled with 0xCC
    (the debug checks are compiled in: nothing defines DS_NO_DEBUG_CHECKS)
    and released by then, so a reference into it reads no value; a block
    that was kept is read as [DS__MapAdd] has left it. *)
Definition read_value (replaced : bool) (map : t) (value : value_ref) : option VALUE :=
  match value with
  | Outside v => Some v
  | Stored index =>
      if replaced then None
      else if 0 <=? index then
        match nth_error (Data map) (Z.to_nat index) with
        | Some elem => Value elem
        | None => None
        end
      else None
  end.

(** [Set] takes [value] by reference and reads it after [DS__MapAdd].  The
    key is an object outside the block: no call hands out a reference to a
    stored key. *)
Definition Set_ (map : t) (key : KEY) (value : value_ref) : reading t :=
  let replaced := grows map in
  match DS__MapAdd map key (hash_of key) with
  | Val (_, slot_value, map) =>
      Val (set_value map slot_value (read_value replaced map value))
  | Undefined => Undefined
  | NoFuel => NoFuel
  end.

(** [FindPtr]: [None] is the null pointer, [Some index] the pointer into the
    slot at [index]. *)
Definition FindPtr (map : t) (key : KEY) : reading (option Z) :=
  if Capacity map =? 0 then Val None
  else
    let hash := hash_of key in
    let mask := uint32 (Capacity map - 1) in
    let index := Z.land hash mask in
    match probe (S (length (Data map))) (Data map) mask hash key index with
    | Val (Vacant _) => Val None
    | Val (Present index) => Val (Some index)
    | Undefined => Undefined
    | NoFuel => NoFuel
    end.

(** [Find]: [None] when it returns false, and what it stores into [*value]
    when it returns true. *)
Definition Find (map : t) (key : KEY) : reading (option (option VALUE)) :=
  match FindPtr map key with
  | Val (Some index) =>
      match nth_error (Data map) (Z.to_nat index) with
      | Some elem => Val (Some (Value elem))
      | None => Undefined
      end
  | Val None => Val None
  | Undefined => Undefined
  | NoFuel => NoFuel
  end.

Definition Has (map : t) (key : KEY) : reading bool :=
  match FindPtr map key with
  | Val (Some _) => Val true
  | Val None => Val false
  | Undefined => Undefined
  | NoFuel => NoFuel
  end.

(** The backwards-shift loop of [Remove]: [index] is the slot emptied
    last, and [mask] the one computed before the loop. *)
Fixpoint Remove_shift (fuel : nat) (map : t) (mask index : Z) : reading t :=
  match fuel with
  | O => NoFuel
  | S fuel' =>
      let index := Z.land (uint32 (index + 1)) mask in
      match nth_error (Data map) (Z.to_nat index) with
      | None => Undefined
      | Some moving =>
          if Hash moving =? 0 then Val map
          else
            let emptied :=
              mk (write (Data map) index cleared) (HasCount map - 1) (Capacity map) in
            match Key moving with
            | None => Undefined
            | Some key =>
                match DS__MapAdd emptied key (Hash moving) with
                | Val (_, readded, map') =>
                    Remove_shift fuel' (set_value map' readded (Value moving)) mask index
                | Undefined => Undefined
                | NoFuel => NoFuel
                end
            end
      end
  end.

Definition Remove (map : t) (key : KEY) : reading (bool * t) :=
  if Capacity map =? 0 then Val (false, map)
  else
    let hash := hash_of key in
    let mask := uint32 (Capacity map - 1) in
    let index := Z.land hash mask in
    match probe (S (length (Data map))) (Data map) mask hash key index with
    | Val (Vacant _) => Val (false, map)
    | Val (Present index) =>
        let emptied :=
          mk (write (Data map) index cleared) (HasCount map - 1) (Capacity map) in
        match Remove_shift (S (length (Data map))) emptied mask index with
        | Val map' => Val (true, map')
        | Undefined => Undefined
        | NoFuel => NoFuel
        end
    | Undefined => Undefined
    | NoFuel => NoFuel
    end.

End WithKey.

Arguments slot : clear implicits.
Arguments t : clear implicits.
Arguments value_ref : clear implicits.

End DS_Map.

(** *** Conditions on hash maps *)

Section MapConditions.

Context {KEY VALUE : Type}.
Variable DS_Hash : KEY -> Z.

(** The slot at [i] is not empty. *)
Definition occupied_at (Data : list (DS_Map.slot KEY VALUE)) (i : Z) : Prop :=
  exists e, nth_error Data (Z.to_nat i) = Some e /\ DS_Map.Hash e <> 0.

(** The slot reached from [x] in [d] steps of [index = (index + 1) & mask]
    in a block of [n] slots. *)
Definition walk (n x : Z) (d : nat) : Z := (x + Z.of_nat d) mod n.

(** The first [d] slots on the way from [x] are not empty. *)
Definition path_clear (Data : list (DS_Map.slot KEY VALUE)) (n x : Z) (d : nat) : Prop :=
  forall d', (d' < d)%nat -> occupied_at Data (walk n x d').

Fixpoint occupied_count (Data : list (DS_Map.slot KEY VALUE)) : nat :=
  match Data with
  | [] => O
  | e :: Data' =>
      if DS_Map.Hash e =? 0 then occupied_count Data' else S (occupied_count Data')
  end.

(** Every slot in use holds a key under the hash of that key. *)
Definition keyed (Data : list (DS_Map.slot KEY VALUE)) : Prop :=
  forall i e, nth_error Data i = Some e -> DS_Map.Hash e <> 0 ->
    exists k, DS_Map.Key e = Some k /\ DS_Map.Hash e = DS_Map.hash_of DS_Hash k.

(** The slot at [i] holds the key [k]. *)
Definition key_at (Data : list (DS_Map.slot KEY VALUE)) (i : Z) (k : KEY) : Prop :=
  exists e, nth_error Data (Z.to_nat i) = Some e /\ DS_Map.Hash e <> 0 /\
            DS_Map.Key e = Some k.

(** The slot at [i] is empty. *)
Definition empty_at (Data : list (DS_Map.slot KEY VALUE)) (i : Z) : Prop :=
  exists e, nth_error Data (Z.to_nat i) = Some e /\ DS_Map.Hash e = 0.

(** The map has a block: [Capacity] is a power of two and the number of
    slots, [HasCount] is the number of slots in use, every slot in use holds
    a key under the hash of that key and can be reached from the slot the
    hash points at through slots in use only, and no key is held twice. *)
Definition map_wf (m : DS_Map.t KEY VALUE) : Prop :=
  DS_Map.Capacity m = Z.of_nat (length (DS_Map.Data m)) /\
  (exists p, 3 <= p <= 24 /\ DS_Map.Capacity m = 2 ^ p) /\
  DS_Map.HasCount m = Z.of_nat (occupied_count (DS_Map.Data m)) /\
  (forall i e, nth_error (DS_Map.Data m) i = Some e -> DS_Map.Hash e <> 0 ->
     exists k, DS_Map.Key e = Some k /\ DS_Map.Hash e = DS_Map.hash_of DS_Hash k /\
       exists d, (d < length (DS_Map.Data m))%nat /\
         walk (DS_Map.Capacity m) (DS_Map.Hash e mod DS_Map.Capacity m) d = Z.of_nat i /\
         path_clear (DS_Map.Data m) (DS_Map.Capacity m)
                    (DS_Map.Hash e mod DS_Map.Capacity m) d) /\
  (forall i j e e' k,
     nth_error (DS_Map.Data m) i = Some e -> nth_error (DS_Map.Data m) j = Some e' ->
     DS_Map.Hash e <> 0 -> DS_Map.Hash e' <> 0 ->
     DS_Map.Key e = Some k -> DS_Map.Key e' = Some k -> i = j).

(** A map as [Init] and the calls of [Set] and [Add] leave it: without a
    block, or with one that is at most 70% in use. *)
Definition map_ok (m : DS_Map.t KEY VALUE) : Prop :=
  m = DS_Map.Init \/
  (map_wf m /\ 100 * DS_Map.HasCount m <= 70 * DS_Map.Capacity m).

(** The map holds the value [v] under the key [k]. *)
Definition holds (m : DS_Map.t KEY VALUE) (k : KEY) (v : option VALUE) : Prop :=
  exists i e, nth_error (DS_Map.Data m) i = Some e /\ DS_Map.Hash e <> 0 /\
              DS_Map.Key e = Some k /\ DS_Map.Value e = v.

(** [map_wf] without the condition on the ways to the slots. *)
Definition map_pre (m : DS_Map.t KEY VALUE) : Prop :=
  DS_Map.Capacity m = Z.of_nat (length (DS_Map.Data m)) /\
  (exists p, 3 <= p <= 24 /\ DS_Map.Capacity m = 2 ^ p) /\
  DS_Map.HasCount m = Z.of_nat (occupied_count (DS_Map.Data m)) /\
  keyed (DS_Map.Data m) /\
  (forall i j e e' k,
     nth_error (DS_Map.Data m) i = Some e -> nth_error (DS_Map.Data m) j = Some e' ->
     DS_Map.Hash e <> 0 -> DS_Map.Hash e' <> 0 ->
     DS_Map.Key e = Some k -> DS_Map.Key e' = Some k -> i = j).

(** The slot at [i], if in use, can be reached from the slot its hash points
    at through slots in use only. *)
Definition reachable (Data : list (DS_Map.slot KEY VALUE)) (n : Z) (i : nat) : Prop :=
  forall e, nth_error Data i = Some e -> DS_Map.Hash e <> 0 ->
    exists d, (d < length Data)%nat /\
      walk n (DS_Map.Hash e mod n) d = Z.of_nat i /\
      path_clear Data n (DS_Map.Hash e mod n) d.

(** The [u] slots after [c] are in use. *)
Definition run_after (Data : list (DS_Map.slot KEY VALUE)) (n c : Z) (u : nat) : Prop :=
  forall t, (1 <= t <= u)%nat -> occupied_at Data (walk n c t).

(** The state of the backwards-shift loop of [Remove] after [t] rounds,
    started on the map [orig] with the slot [i] emptied, which held [k]. *)
Definition shifting (orig cur : DS_Map.t KEY VALUE) (i : Z) (k : KEY) (t : nat) : Prop :=
  map_pre cur /\
  DS_Map.Capacity cur = DS_Map.Capacity orig /\
  DS_Map.HasCount cur = DS_Map.HasCount orig - 1 /\
  (exists dE, (t < dE)%nat /\ Z.of_nat dE < DS_Map.Capacity orig /\
              empty_at (DS_Map.Data orig) (walk (DS_Map.Capacity orig) i dE)) /\
  (forall s, reachable (DS_Map.Data cur) (DS_Map.Capacity orig) s \/
             exists u, (1 <= u)%nat /\
               walk (DS_Map.Capacity orig) (walk (DS_Map.Capacity orig) i t) u = Z.of_nat s /\
               run_after (DS_Map.Data cur) (DS_Map.Capacity orig)
                         (walk (DS_Map.Capacity orig) i t) u) /\
  (forall t', (t < t')%nat -> Z.of_nat t' < DS_Map.Capacity orig ->
     nth_error (DS_Map.Data cur) (Z.to_nat (walk (DS_Map.Capacity orig) i t'))
     = nth_error (DS_Map.Data orig) (Z.to_nat (walk (DS_Map.Capacity orig) i t'))) /\
  (forall k' v, holds cur k' v <-> (k' <> k /\ holds orig k' v)).

End MapConditions.

(** ** Hash of a key (ds.h, lines 752-766, 1313-1323) *)

Definition DS_fmix32 (h : Z) : Z :=
  let h := Z.lxor h (Z.shiftr h 16) in
  let h := uint32 (h * 0x85ebca6b) in
  let h := Z.lxor h (Z.shiftr h 13) in
  let h := uint32 (h * 0xc2b2ae35) in
  Z.lxor h (Z.shiftr h 16).

(** [DS_KeyType<T>::hash] for a fundamental type of four bytes; [x] is the
    key read as a [uint32_t]. *)
Definition hash_of_4_bytes (x : Z) : Z := DS_fmix32 (Z.lxor x 2607369547).

(** The steps of [DS_fmix32] undone in reverse order; the two factors are
    the inverses of those of [DS_fmix32] modulo 2^32. *)
Definition DS_fmix32_inverse (h : Z) : Z :=
  let h := Z.lxor h (Z.shiftr h 16) in
  let h := uint32 (h * 0x7ed1b41d) in
  let h := Z.lxor (Z.lxor h (Z.shiftr h 13)) (Z.shiftr h 26) in
  let h := uint32 (h * 0xa5cb9243) in
  Z.lxor h (Z.shiftr h 16).

(** ** Hash sets (ds.h, lines 446-476, 1040-1151) *)

Module DS_Set.

Section WithKey.

Context {KEY : Type}.

Variable DS_Hash : KEY -> Z.
Variable DS_IsEqual : KEY -> KEY -> bool.

Record slot : Type := mk_slot {
  Hash : Z;
  Key : option KEY
}.

Record t : Type := mk {
  Data : list slot;
  HasCount : Z;
  Capacity : Z
}.

Definition Init : t := mk [] 0 0.

Definition cleared : slot := mk_slot 0 None.

Definition write (Data : list slot) (index : Z) (e : slot) : list slot :=
  if (0 <=? index) && (index <? Z.of_nat (length Data)) then
    firstn (Z.to_nat index) Data ++ e :: skipn (S (Z.to_nat index)) Data
  else Data.

Definition hash_of (key : KEY) : Z := Z.lor (DS_Hash key) 0x80000000.

(** The [for (;;)] loop of [DS__SetAdd] and of [Has]. *)
Fixpoint probe (fuel : nat) (Data : list slot) (mask hash : Z) (key : KEY) (index : Z)
  : reading DS_Map.probed :=
  match fuel with
  | O => NoFuel
  | S fuel' =>
      match nth_error Data (Z.to_nat index) with
      | None => Undefined
      | Some elem =>
          if Hash elem =? 0 then Val (DS_Map.Vacant index)
          else
            let next := Z.land (uint32 (index + 1)) mask in
            if hash =? Hash elem then
              match Key elem with
              | None => Undefined
              | Some k =>
                  if DS_IsEqual key k then Val (DS_Map.Present index)
                  else probe fuel' Data mask hash key next
              end
            else probe fuel' Data mask hash key next
      end
  end.

(** The part of [DS__SetAdd] after the growth. *)
Definition SetAdd_slot (set : t) (key : KEY) (hash : Z) : reading (bool * t) :=
  let mask := uint32 (Capacity set - 1) in
  let index := Z.land hash mask in
  match probe (S (length (Data set))) (Data set) mask hash key index with
  | Val (DS_Map.Vacant index) =>
      match nth_error (Data set) (Z.to_nat index) with
      | Some _ =>
          Val (true, mk (write (Data set) index (mk_slot hash (Some key)))
                        (HasCount set + 1) (Capacity set))
      | None => Undefined
      end
  | Val (DS_Map.Present _) => Val (false, set)
  | Undefined => Undefined
  | NoFuel => NoFuel
  end.

Fixpoint rehash_loop (add : t -> KEY -> Z -> reading (bool * t))
    (old_data : list slot) (set : t) : reading t :=
  match old_data with
  | [] => Val set
  | elem :: old_data' =>
      if Hash elem =? 0 then rehash_loop add old_data' set
      else
        match Key elem with
        | None => Undefined
        | Some key =>
            match add set key (Hash elem) with
            | Val (_, set') => rehash_loop add old_data' set'
            | Undefined => Undefined
            | NoFuel => NoFuel
            end
        end
  end.

(** [DS__SetAdd]; [depth] bounds the depth of the recursion. *)
Fixpoint SetAdd (depth : nat) (set : t) (key : KEY) (hash : Z) : reading (bool * t) :=
  match depth with
  | O => NoFuel
  | S depth' =>
      let grown :=
        if 100 * (HasCount set + 1) >? 70 * Capacity set then
          let old_capacity := Capacity set in
          let capacity := if old_capacity =? 0 then 8 else old_capacity * 2 in
          rehash_loop (SetAdd depth') (firstn (Z.to_nat old_capacity) (Data set))
            (mk (repeat cleared (Z.to_nat capacity)) 0 capacity)
        else Val set in
      match grown with
      | Val set => SetAdd_slot set key hash
      | Undefined => Undefined
      | NoFuel => NoFuel
      end
  end.

Definition DS__SetAdd (set : t) (key : KEY) (hash : Z) : reading (bool * t) :=
  SetAdd 32 set key hash.

Definition Add (set : t) (key : KEY) : reading (bool * t) :=
  DS__SetAdd set key (hash_of key).

(** [Has] does not look at [Capacity] before the loop. *)
Definition Has (set : t) (key : KEY) : reading bool :=
  let hash := hash_of key in
  let mask := uint32 (Capacity set - 1) in
  let index := Z.land hash mask in
  match probe (S (length (Data set))) (Data set) mask hash key index with
  | Val (DS_Map.Vacant _) => Val false
  | Val (DS_Map.Present _) => Val true
  | Undefined => Undefined
  | NoFuel => NoFuel
  end.

End WithKey.

Arguments slot : clear implicits.
Arguments t : clear implicits.

End DS_Set.

(** The set as a map whose values were never written. *)
Definition slot_as_map {KEY : Type} (e : DS_Set.slot KEY) : DS_Map.slot KEY unit :=
  DS_Map.mk_slot (DS_Set.Hash e) (DS_Set.Key e) None.

Definition set_as_map {KEY : Type} (s : DS_Set.t KEY) : DS_Map.t KEY unit :=
  DS_Map.mk (map slot_as_map (DS_Set.Data s)) (DS_Set.HasCount s) (DS_Set.Capacity s).

(** A set as [Init] and the calls of [Add] leave it. *)
Definition set_ok {KEY : Type} (DS_Hash : KEY -> Z) (s : DS_Set.t KEY) : Prop :=
  map_ok DS_Hash (set_as_map s).

(** Results of the set as results of the map: the map routine also gives the
    slot of the value. *)
Definition set_result_as_map {KEY : Type} (r : reading (bool * DS_Set.t KEY))
  : reading (bool * DS_Map.t KEY unit) :=
  match r with
  | Val (b, s) => Val (b, set_as_map s)
  | Undefined => Undefined
  | NoFuel => NoFuel
  end.

Definition without_slot {KEY : Type} (r : reading (bool * Z * DS_Map.t KEY unit))
  : reading (bool * DS_Map.t KEY unit) :=
  match r with
  | Val (b, _, m) => Val (b, m)
  | Undefined => Undefined
  | NoFuel => NoFuel
  end.

Definition set_reading_as_map {KEY : Type} (r : reading (DS_Set.t KEY))
  : reading (DS_Map.t KEY unit) :=
  match r with
  | Val s => Val (set_as_map s)
  | Undefined => Undefined
  | NoFuel => NoFuel
  end.

(** ** Basic facts about the string routines *)

Lemma Size_nonneg (a : bytes) : 0 <= Size a.
Proof. unfold Size. lia. Qed.

Lemma memcmp_eq_prefix (ptr other : bytes) :
  memcmp_eq ptr other = true <-> exists rest, ptr = other ++ rest.
Proof.
  revert ptr. induction other as [|c other IH]; intros ptr; simpl.
  - split; [intros _; now exists ptr | reflexivity].
  - destruct ptr as [|d ptr].
    + split; [discriminate | intros [rest H]; discriminate].
    + rewrite andb_true_iff, Ascii.eqb_eq, IH. split.
      * intros [-> [rest ->]]. now exists rest.
      * intros [rest H]. injection H as -> ->. split; [reflexivity | now exists rest].
Qed.

Lemma occurs_at_skipn (other self : bytes) (p : nat) :
  occurs_at other self p <->
  (p <= length self)%nat /\ exists post, skipn p self = other ++ post.
Proof.
  split.
  - intros (pre & post & -> & <-). split.
    + rewrite length_app. lia.
    + exists post. rewrite skipn_app, Nat.sub_diag, skipn_all. reflexivity.
  - intros (Hp & post & H). exists (firstn p self), post. split.
    + rewrite <- H. symmetry. apply firstn_skipn.
    + rewrite length_firstn. lia.
Qed.

Lemma occurs_at_bound (other self : bytes) (p : nat) :
  occurs_at other self p -> (p + length other <= length self)%nat.
Proof.
  intros (pre & post & -> & <-). rewrite !length_app. lia.
Qed.

Lemma memcmp_eq_occurs (other self : bytes) (p : nat) :
  (p <= length self)%nat ->
  memcmp_eq (skipn p self) other = true <-> occurs_at other self p.
Proof.
  intros Hp. rewrite memcmp_eq_prefix, occurs_at_skipn. tauto.
Qed.

Lemma Find_loop_some (Data other : bytes) (count ptr r : nat) :
  Find_loop Data other ptr count = Some r ->
  (ptr <= r < ptr + count)%nat /\
  memcmp_eq (skipn r Data) other = true /\
  forall q, (ptr <= q < r)%nat -> memcmp_eq (skipn q Data) other = false.
Proof.
  revert ptr. induction count as [|count IH]; intros ptr; simpl; [discriminate|].
  destruct (memcmp_eq (skipn ptr Data) other) eqn:E.
  - intros [= <-]. repeat split; try lia. exact E.
  - intros H. apply IH in H as (Hr & Hm & Hq). repeat split; try lia; [exact Hm|].
    intros q Hq'. destruct (Nat.eq_dec q ptr) as [->|]; [exact E | apply Hq; lia].
Qed.

Lemma Find_loop_none (Data other : bytes) (count ptr : nat) :
  Find_loop Data other ptr count = None ->
  forall q, (ptr <= q < ptr + count)%nat -> memcmp_eq (skipn q Data) other = false.
Proof.
  revert ptr. induction count as [|count IH]; intros ptr; simpl; [intros _ q; lia|].
  destruct (memcmp_eq (skipn ptr Data) other) eqn:E; [discriminate|].
  intros H q Hq. destruct (Nat.eq_dec q ptr) as [->|]; [exact E | apply (IH _ H); lia].
Qed.

(** [Find] returns the leftmost occurrence at or after [start_from], and
    [Size] when there is none. *)
Lemma Find_cases (self other : bytes) (start : nat) :
  other <> [] -> (start <= length self)%nat ->
  exists r, Find self other (Z.of_nat start) = Ok (Z.of_nat r) /\
    ((r < length self)%nat /\ leftmost other self start r \/
     r = length self /\ absent_from other self start).
Proof.
  intros Hne Hst. unfold Find, Size.
  replace ((0 <=? Z.of_nat start) && (Z.of_nat start <=? Z.of_nat (length self)))
    with true by (symmetry; apply andb_true_iff; split; apply Z.leb_le; lia).
  assert (Hlen : (0 < length other)%nat) by (destruct other; simpl; [congruence | lia]).
  destruct (Z.leb_spec (Z.of_nat (length other)) (Z.of_nat (length self))) as [Hle|Hgt].
  - rewrite Nat2Z.id.
    destruct (Find_loop self other start _) as [r|] eqn:E.
    + exists r. split; [reflexivity|]. apply Find_loop_some in E as (Hr & Hm & Hq).
      assert (Hrl : (r <= length self)%nat) by lia.
      apply (memcmp_eq_occurs _ _ _ Hrl) in Hm.
      pose proof (occurs_at_bound _ _ _ Hm).
      left. split; [lia|]. repeat split; try lia; [exact Hm|].
      intros q Hq' Hocc. pose proof (occurs_at_bound _ _ _ Hocc).
      apply memcmp_eq_occurs in Hocc; [|lia]. rewrite Hq in Hocc; [discriminate | lia].
    + exists (length self). split; [reflexivity|]. right. split; [reflexivity|].
      intros q Hq Hocc. pose proof (occurs_at_bound _ _ _ Hocc).
      apply memcmp_eq_occurs in Hocc; [|lia].
      rewrite (Find_loop_none _ _ _ _ E) in Hocc; [discriminate | lia].
  - exists (length self). split; [reflexivity|]. right. split; [reflexivity|].
    intros q Hq Hocc. pose proof (occurs_at_bound _ _ _ Hocc). lia.
Qed.

Lemma leftmost_unique (other self : bytes) (start r r' : nat) :
  leftmost other self start r -> leftmost other self start r' -> r = r'.
Proof.
  intros (H1 & H2 & H3) (H1' & H2' & H3').
  destruct (Nat.lt_trichotomy r r') as [H|[H|H]]; [|exact H|].
  - exfalso. apply (H3' r); [lia | exact H2].
  - exfalso. apply (H3 r'); [lia | exact H2'].
Qed.



Lemma contains_occurs (other self : bytes) :
  contains other self <-> exists p, occurs_at other self p.
Proof.
  split.
  - intros (pre & post & ->). exists (length pre), pre, post. auto.
  - intros (p & pre & post & -> & _). now exists pre, post.
Qed.

Lemma Find_none_iff (self other : bytes) :
  other <> [] ->
  Find self other 0 = Ok (Size self) <-> ~ contains other self.
Proof.
  intros Hne. rewrite contains_occurs.
  destruct (Find_cases self other 0 Hne) as (r & HF & Hr); [lia|].
  change (Z.of_nat 0) with 0 in HF. rewrite HF. split.
  - intros [= Hsz] (p & Hp). unfold Size in Hsz. apply Nat2Z.inj in Hsz. subst r.
    destruct Hr as [[Hlt _]|[_ Ha]]; [lia | apply (Ha p); [lia | exact Hp]].
  - intros Hno. destruct Hr as [[_ (_ & Hocc & _)]|[-> _]]; [|reflexivity].
    exfalso. apply Hno. now exists r.
Qed.

Lemma Split_cases (self other : bytes) :
  other <> [] ->
  exists r, (r <= length self)%nat /\
    Split self other =
      Ok (firstn r self, skipn (Nat.min (r + length other) (length self)) self) /\
    ((r < length self)%nat /\ leftmost other self 0 r \/
     r = length self /\ absent_from other self 0).
Proof.
  intros Hne. destruct (Find_cases self other 0 Hne) as (r & HF & Hr); [lia|].
  exists r. split; [lia|]. split; [|exact Hr].
  unfold Split. change (Z.of_nat 0) with 0 in HF. rewrite HF. simpl.
  rewrite Nat2Z.id. do 3 f_equal. unfold Size.
  destruct (Z.gtb_spec (Z.of_nat r + Z.of_nat (length other)) (Z.of_nat (length self))); lia.
Qed.

(** Each [Split] on a non-empty view consumes at least one byte. *)
Lemma Split_shrinks (self other line rest : bytes) :
  other <> [] -> self <> [] -> Split self other = Ok (line, rest) ->
  (length rest < length self)%nat.
Proof.
  intros Hne Hs H. destruct (Split_cases self other Hne) as (r & _ & HS & _).
  rewrite HS in H. injection H as _ <-. rewrite length_skipn.
  assert (0 < length other)%nat by (destruct other; simpl; [congruence | lia]).
  assert (0 < length self)%nat by (destruct self; simpl; [congruence | lia]).
  lia.
Qed.

Lemma Size_pos_iff (s : bytes) : (Size s >? 0) = true <-> s <> [].
Proof.
  unfold Size. destruct s; simpl.
  - split; [discriminate | congruence].
  - split; [discriminate | intros _; apply Z.gtb_lt; lia].
Qed.

(** The loop of the multi-statement branch ends within [length lines]
    iterations. *)
Lemma user_fn_lines_total (fuel : nat) :
  forall lines acc, (length lines <= fuel)%nat ->
  exists r, user_fn_lines fuel lines acc = Ok r.
Proof.
  induction fuel as [|fuel IH]; intros lines acc Hf.
  - destruct lines; [|simpl in Hf; lia]. exists acc. reflexivity.
  - destruct lines as [|c lines'] eqn:El.
    + exists acc. reflexivity.
    + rewrite <- El in *. assert (Hs : lines <> []) by (subst; discriminate).
      unfold user_fn_lines; fold user_fn_lines.
      rewrite (proj2 (Size_pos_iff lines) Hs).
      destruct (Split_cases lines [LF]) as (r & _ & HS & _); [discriminate|].
      pose proof (Split_shrinks lines [LF] _ _ ltac:(discriminate) Hs HS) as Hlt.
      rewrite HS. cbn [bind]. apply IH. lia.
Qed.

Lemma count_lines_spec (fuel : nat) :
  forall lines c, (length lines <= fuel)%nat ->
  exists n, count_lines fuel lines c = Ok n /\
    (lines = [] -> n = c) /\ (lines <> [] -> c < n) /\
    (n <= c + 1 <-> single_line lines).
Proof.
  induction fuel as [|fuel IH]; intros lines c Hf.
  - destruct lines; [|simpl in Hf; lia]. exists c. split; [reflexivity|].
    repeat split; try congruence; try lia.
    intros _ q Hq. apply occurs_at_bound in Hq. simpl in Hq. lia.
  - destruct lines as [|b lines'] eqn:El.
    + exists c. split; [reflexivity|]. repeat split; try congruence; try lia.
      intros _ q Hq. apply occurs_at_bound in Hq. simpl in Hq. lia.
    + rewrite <- El in *. assert (Hs : lines <> []) by (subst; discriminate).
      unfold count_lines; fold count_lines.
      rewrite (proj2 (Size_pos_iff lines) Hs).
      destruct (Split_cases lines [LF]) as (r & Hr & HS & Hcase); [discriminate|].
      pose proof (Split_shrinks lines [LF] _ _ ltac:(discriminate) Hs HS) as Hlt.
      rewrite HS. cbn [bind].
      destruct (IH (skipn (Nat.min (r + length [LF]) (length lines)) lines) (c + 1))
        as (n & Hn & Hnil & Hcons & _); [lia|].
      exists n. split; [exact Hn|]. split; [congruence|]. split.
      * intros _. destruct (skipn _ lines) eqn:Ek; [rewrite Hnil; auto; lia|].
        assert (c + 1 < n) by (apply Hcons; discriminate). lia.
      * assert (Hlen : (0 < length lines)%nat) by (destruct lines; simpl; [congruence | lia]).
        simpl length in *.
        assert (Hrest : skipn (Nat.min (r + 1) (length lines)) lines = [] <->
                        (length lines <= r + 1)%nat).
        { split.
          - intros E. apply (f_equal (@length _)) in E. rewrite length_skipn in E.
            simpl in E. lia.
          - intros E. apply skipn_all2. lia. }
        split.
        -- intros Hle. assert (Hnil' : skipn (Nat.min (r + 1) (length lines)) lines = []).
           { destruct (skipn _ lines) eqn:Ek; [reflexivity|].
             assert (c + 1 < n) by (apply Hcons; discriminate). lia. }
           apply Hrest in Hnil'. intros q Hq.
           pose proof (occurs_at_bound _ _ _ Hq) as Hb. simpl in Hb.
           destruct Hcase as [[_ (_ & _ & Hmin)]|[_ Ha]].
           ++ destruct (Nat.lt_ge_cases q r) as [Hqr|Hqr]; [|lia].
              exfalso. apply (Hmin q); [lia | exact Hq].
           ++ exfalso. apply (Ha q); [lia | exact Hq].
        -- intros Hsl. assert (Hnil' : skipn (Nat.min (r + 1) (length lines)) lines = []).
           { apply Hrest. destruct Hcase as [[_ (_ & Hocc & _)]|[-> _]]; [|lia].
             apply Hsl in Hocc. lia. }
           rewrite (Hnil Hnil'). lia.
Qed.

(** ** Snippet transformer *)

Lemma is_multiline_of_spec (body : bytes) :
  exists b, is_multiline_of body = Ok b /\ (b = true <-> contains (lit "return") body).
Proof.
  unfold is_multiline_of.
  destruct (Find_cases body (lit "return") 0) as (r & HF & Hr); [discriminate | lia |].
  change (Z.of_nat 0) with 0 in HF. rewrite HF. cbn [bind].
  exists (negb (Z.of_nat r =? Size body)). split; [reflexivity|].
  rewrite contains_occurs. unfold Size.
  destruct Hr as [[Hlt (_ & Hocc & _)]|[-> Ha]].
  - replace (Z.of_nat r =? Z.of_nat (length body)) with false
      by (symmetry; apply Z.eqb_neq; lia).
    split; [intros _; now exists r | reflexivity].
  - rewrite Z.eqb_refl. split; [discriminate|].
    intros (p & Hp). exfalso. apply (Ha p); [lia | exact Hp].
Qed.

Lemma strlen_no_NUL (p : bytes) : ~ In NUL p -> strlen p = length p.
Proof.
  induction p as [|c p IH]; simpl; [reflexivity|]. intros H.
  destruct (Ascii.eqb_spec c NUL) as [->|_]; [exfalso; apply H; now left|].
  rewrite IH; [reflexivity | intros Hin; apply H; now right].
Qed.

Lemma fmt_s_no_NUL (p : bytes) : ~ In NUL p -> fmt_s p = p.
Proof.
  intros H. unfold fmt_s. rewrite (strlen_no_NUL _ H). apply firstn_all.
Qed.

Lemma fmt_prec_s_Size (p : bytes) : fmt_prec_s (Size p) p = fmt_s p.
Proof.
  unfold fmt_prec_s, Size. now rewrite Nat2Z.id, firstn_all.
Qed.

(** C9. The transformer returns for every directive body, and it classifies
    the body as multi-statement if and only if the body contains the
    substring [return]. *)
Theorem transform_multiline_iff_return (body : bytes) :
  exists prog is_multiline,
    transform body = Ok (prog, is_multiline) /\
    (is_multiline = true <-> contains (lit "return") body).
Proof.
  unfold transform.
  destruct (is_multiline_of_spec body) as (b & Hb & Hiff). rewrite Hb. cbn [bind].
  destruct b.
  - destruct (user_fn_lines_total (length body) body (lit "def user_fn():" ++ [LF]))
      as (r & Hr); [lia|].
    rewrite Hr. cbn [bind]. eexists _, true. split; [reflexivity | exact Hiff].
  - destruct (count_lines_spec (length body) body 0) as (n & Hn & _); [lia|].
    rewrite Hn. cbn [bind].
    destruct (n <=? 1); eexists _, false; (split; [reflexivity | exact Hiff]).
Qed.

(** C3, as the code has it. For a body without [return] the transformer
    returns [is_multiline = false]; the program is [print(<body>)] followed
    by a line feed exactly when the body has no line feed other than as its
    last byte (every LF-separated segment counts, empty or not, and a CR is
    not looked at), and the fixed error program otherwise.  The body is
    formatted with a string conversion, so it is copied up to its first NUL
    byte, which is all of it when it has none. *)
Theorem transform_without_return (body : bytes) :
  ~ contains (lit "return") body ->
  exists prog,
    transform body = Ok (prog, false) /\
    (single_line body -> prog = lit "print(" ++ fmt_s body ++ lit ")" ++ [LF]) /\
    (~ single_line body -> prog = error_program) /\
    (~ In NUL body -> fmt_s body = body).
Proof.
  intros Hno. unfold transform.
  destruct (is_multiline_of_spec body) as (b & Hb & Hiff). rewrite Hb. cbn [bind].
  destruct b; [exfalso; apply Hno, Hiff; reflexivity|].
  destruct (count_lines_spec (length body) body 0) as (n & Hn & _ & _ & Hsl); [lia|].
  rewrite Hn. cbn [bind]. rewrite fmt_prec_s_Size.
  destruct (Z.leb_spec n 1) as [Hle|Hgt]; eexists; (split; [reflexivity|]).
  - split; [reflexivity|]. split; [|apply fmt_s_no_NUL].
    intros Hns. exfalso. apply Hns, Hsl. lia.
  - split; [|split; [reflexivity | apply fmt_s_no_NUL]].
    intros Hs. apply Hsl in Hs. lia.
Qed.

Lemma transform_without_return_witness :
  exists prog,
    transform (lit " 1 + 2 ") = Ok (prog, false) /\
    (single_line (lit " 1 + 2 ") ->
       prog = lit "print(" ++ fmt_s (lit " 1 + 2 ") ++ lit ")" ++ [LF]) /\
    (~ single_line (lit " 1 + 2 ") -> prog = error_program) /\
    (~ In NUL (lit " 1 + 2 ") -> fmt_s (lit " 1 + 2 ") = lit " 1 + 2 ").
Proof.
  apply (transform_without_return (lit " 1 + 2 ")).
  apply Find_none_iff; [discriminate | vm_compute; reflexivity].
Defined.

(** C3, as the specification words it, fails: the body made of an empty
    line and the line [1+2] has one non-empty line, yet the code substitutes
    the error program. *)
Lemma single_expression_rule_counterexample :
  ~ single_expression_rule_as_written.
Proof.
  intros H.
  specialize (H ([LF] ++ lit "1+2" ++ [LF])).
  assert (Hno : ~ contains (lit "return") ([LF] ++ lit "1+2" ++ [LF])).
  { apply Find_none_iff; [discriminate | vm_compute; reflexivity]. }
  specialize (H Hno). vm_compute in H. discriminate H.
Qed.

(** ** Slices *)

Lemma Slice_ok (self : bytes) (from to : nat) :
  (from <= to <= length self)%nat -> Size self <= INTPTR_MAX ->
  Slice self (Z.of_nat from) (Z.of_nat to) = Ok (firstn (to - from) (skipn from self)).
Proof.
  intros Hr Hsz. unfold Slice, Size in *.
  assert (Hto : (if Z.of_nat to =? INTPTR_MAX then Z.of_nat (length self) else Z.of_nat to)
                = Z.of_nat to).
  { destruct (Z.eqb_spec (Z.of_nat to) INTPTR_MAX); [lia | reflexivity]. }
  rewrite Hto.
  replace ((0 <=? Z.of_nat from) && (Z.of_nat to <=? Z.of_nat (length self))
           && (Z.of_nat from <=? Z.of_nat to)) with true.
  - rewrite <- Nat2Z.inj_sub, !Nat2Z.id by lia. reflexivity.
  - symmetry. rewrite !andb_true_iff, !Z.leb_le. lia.
Qed.

Lemma Slice_default (self : bytes) (from : nat) :
  (from <= length self)%nat ->
  Slice self (Z.of_nat from) INTPTR_MAX = Ok (skipn from self).
Proof.
  intros Hr. unfold Slice, Size. rewrite Z.eqb_refl.
  replace ((0 <=? Z.of_nat from) && (Z.of_nat (length self) <=? Z.of_nat (length self))
           && (Z.of_nat from <=? Z.of_nat (length self))) with true.
  - rewrite <- Nat2Z.inj_sub, !Nat2Z.id by lia.
    rewrite firstn_all2; [reflexivity | rewrite length_skipn; lia].
  - symmetry. rewrite !andb_true_iff, !Z.leb_le. lia.
Qed.


(** ** Output normalizer *)

Lemma bytes_eqb_eq (a b : bytes) : bytes_eqb a b = true <-> a = b.
Proof.
  revert b. induction a as [|c a IH]; intros [|d b]; simpl;
    try (split; [discriminate | congruence]); [tauto|].
  rewrite andb_true_iff, Ascii.eqb_eq, IH. split; [intros [-> ->]; reflexivity|].
  intros [= -> ->]. auto.
Qed.

(** With fewer than two bytes the first [Slice] is called with a negative
    [from]. *)
Lemma normalize_short (out : bytes) :
  (length out < 2)%nat -> normalize out = AssertFail.
Proof.
  intros H. unfold normalize, Slice, Size. rewrite Z.eqb_refl.
  replace (0 <=? Z.of_nat (length out) - 2) with false
    by (symmetry; apply Z.leb_gt; lia).
  reflexivity.
Qed.

(** With two bytes or more the normalizer removes one trailing CR LF pair
    and nothing else. *)
Lemma normalize_long (out : bytes) :
  (2 <= length out)%nat -> Size out <= INTPTR_MAX ->
  (forall body, out = body ++ [CR; LF] -> normalize out = Ok body) /\
  ((forall body, out <> body ++ [CR; LF]) -> normalize out = Ok out).
Proof.
  intros H Hsz. unfold normalize.
  replace (Size out - 2) with (Z.of_nat (length out - 2)) by (unfold Size; lia).
  rewrite Slice_default by lia. cbn [bind].
  pose proof (firstn_skipn (length out - 2) out) as Hsplit.
  destruct (bytes_eqb (skipn (length out - 2) out) [CR; LF]) eqn:E.
  - apply bytes_eqb_eq in E. rewrite E in Hsplit. split.
    + intros body Hb. change 0 with (Z.of_nat 0).
      rewrite Slice_ok by lia. rewrite skipn_O, Nat.sub_0_r. f_equal.
      rewrite Hb at 2. rewrite firstn_app.
      replace (length out - 2 - length body)%nat with 0%nat
        by (rewrite Hb, length_app; simpl; lia).
      rewrite firstn_all2 by (rewrite Hb, length_app; simpl; lia).
      simpl. apply app_nil_r.
    + intros Hno. exfalso. apply (Hno (firstn (length out - 2) out)). now symmetry.
  - split; [|reflexivity].
    intros body Hb. exfalso.
    assert (Hk : skipn (length out - 2) out = [CR; LF]).
    { rewrite Hb, length_app. simpl length.
      replace (length body + 2 - 2)%nat with (length body + 0)%nat by lia.
      rewrite skipn_app, Nat.add_0_r, skipn_all. simpl. 
      replace (length body - length body)%nat with 0%nat by lia. reflexivity. }
    rewrite Hk in E. discriminate E.
Qed.

(** C6. The normalizer on the empty output and on a one-byte output: the
    process aborts on the assertion [from >= 0] of [Slice]. *)
Theorem normalize_aborts_on_short_output :
  normalize [] = AssertFail /\ normalize (lit "x") = AssertFail.
Proof. split; apply normalize_short; simpl; lia. Qed.

(** ** String conversions *)


Lemma fmt_s_cons (c : ascii) (p : bytes) :
  fmt_s (c :: p) = if Ascii.eqb c NUL then [] else c :: fmt_s p.
Proof. unfold fmt_s. simpl. destruct (Ascii.eqb c NUL); reflexivity. Qed.

Lemma fmt_s_NUL_free (p : bytes) : ~ In NUL (fmt_s p).
Proof.
  induction p as [|c p IH]; [simpl; tauto|]. rewrite fmt_s_cons.
  destruct (Ascii.eqb_spec c NUL) as [->|Hc]; [simpl; tauto|].
  intros [H|H]; [congruence | contradiction].
Qed.

Lemma fmt_s_truncates (a : bytes) : truncated_at_NUL a (fmt_s a).
Proof.
  split; [apply fmt_s_NUL_free|].
  induction a as [|c a IH]; [now left|]. rewrite fmt_s_cons.
  destruct (Ascii.eqb_spec c NUL) as [->|Hc].
  - right. now exists a.
  - destruct IH as [IH|(rest & IH)].
    + left. congruence.
    + right. exists rest. simpl. congruence.
Qed.

Lemma fmt_s_app_clean (a b : bytes) :
  ~ In NUL a -> fmt_s (a ++ b) = a ++ fmt_s b.
Proof.
  induction a as [|c a IH]; intros H; [reflexivity|]. simpl app. rewrite fmt_s_cons.
  destruct (Ascii.eqb_spec c NUL) as [->|Hc]; [exfalso; apply H; now left|].
  rewrite IH; [reflexivity | intros Hin; apply H; now right].
Qed.

Lemma fmt_s_app_NUL (a b : bytes) :
  In NUL a -> fmt_s (a ++ b) = fmt_s a.
Proof.
  induction a as [|c a IH]; intros H; [destruct H|]. simpl app. rewrite !fmt_s_cons.
  destruct (Ascii.eqb_spec c NUL) as [->|Hc]; [reflexivity|].
  rewrite IH; [reflexivity|]. destruct H as [H|H]; [congruence | exact H].
Qed.



Lemma fmt_s_prefix (a : bytes) : exists rest, a = fmt_s a ++ rest.
Proof. unfold fmt_s. exists (skipn (strlen a) a). symmetry. apply firstn_skipn. Qed.

(** ** Indent prefix *)

Lemma indent_loop_count (rest : bytes) (indent : Z) :
  indent_loop rest indent = indent + Z.of_nat (length (leading_ws rest)).
Proof.
  revert indent. induction rest as [|c rest IH]; intros indent; simpl; [lia|].
  destruct (Ascii.eqb c SPACE), (Ascii.eqb c TAB); simpl; try lia;
    rewrite IH; lia.
Qed.

Lemma leading_ws_prefix (s : bytes) : exists rest, s = leading_ws s ++ rest.
Proof.
  induction s as [|c s [rest IH]]; [now exists []|]. simpl.
  destruct (Ascii.eqb c SPACE || Ascii.eqb c TAB).
  - exists rest. simpl. congruence.
  - now exists (c :: s).
Qed.

Lemma leading_ws_all_ws (s : bytes) : Forall is_ws (leading_ws s).
Proof.
  induction s as [|c s IH]; simpl; [constructor|].
  destruct (Ascii.eqb c SPACE || Ascii.eqb c TAB) eqn:E; [|constructor].
  constructor; [|exact IH].
  apply orb_true_iff in E. unfold is_ws. rewrite <- !Ascii.eqb_eq. exact E.
Qed.

Lemma leading_ws_longest (s q : bytes) :
  (exists rest, s = q ++ rest) -> Forall is_ws q ->
  (length q <= length (leading_ws s))%nat.
Proof.
  revert s. induction q as [|c q IH]; intros s [rest ->] Hq; simpl; [lia|].
  inversion Hq as [|? ? Hc Hq']; subst.
  replace (Ascii.eqb c SPACE || Ascii.eqb c TAB) with true.
  - simpl. apply le_n_S, IH; [now exists rest | exact Hq'].
  - symmetry. apply orb_true_iff. rewrite !Ascii.eqb_eq. exact Hc.
Qed.

Lemma leading_ws_is_longest (s : bytes) : longest_ws_prefix (leading_ws s) s.
Proof.
  split; [apply leading_ws_prefix|]. split; [apply leading_ws_all_ws|].
  apply leading_ws_longest.
Qed.

Lemma longest_ws_prefix_unique (p s : bytes) :
  longest_ws_prefix p s -> p = leading_ws s.
Proof.
  intros ([rest Hp] & Hws & Hmax).
  pose proof (leading_ws_is_longest s) as ([rest' Hl] & Hws' & Hmax').
  assert (Hlen : length p = length (leading_ws s)).
  { apply Nat.le_antisymm.
    - apply Hmax'; [now exists rest | exact Hws].
    - apply Hmax; [now exists rest' | exact Hws']. }
  rewrite Hp in Hl at 1.
  apply (f_equal (firstn (length p))) in Hl.
  rewrite firstn_app, Nat.sub_diag, firstn_all in Hl. simpl in Hl.
  rewrite Hlen, firstn_app, Nat.sub_diag, firstn_all in Hl. simpl in Hl.
  now rewrite !app_nil_r in Hl.
Qed.

Lemma indent_prefix_multiline (out : bytes) :
  Size out <= INTPTR_MAX -> indent_prefix out true = Ok (leading_ws out).
Proof.
  intros Hsz. unfold indent_prefix. rewrite indent_loop_count. simpl Z.add.
  change 0 with (Z.of_nat 0).
  destruct (leading_ws_prefix out) as [rest Hrest].
  assert (Hlen : (length (leading_ws out) <= length out)%nat).
  { rewrite Hrest at 2. rewrite length_app. lia. }
  rewrite Slice_ok by lia. rewrite skipn_O, Nat.sub_0_r. f_equal.
  rewrite Hrest at 2. rewrite firstn_app, Nat.sub_diag, firstn_all. simpl.
  apply app_nil_r.
Qed.

Lemma indent_prefix_single (out : bytes) : indent_prefix out false = Ok [].
Proof.
  unfold indent_prefix, Slice. simpl.
  destruct (0 <=? Size out) eqn:E; [reflexivity|].
  apply Z.leb_gt in E. pose proof (Size_nonneg out). lia.
Qed.




(** ** Splicer *)

Lemma array_get_middle {A : Type} (pre post : list A) (x : A) :
  array_get (pre ++ x :: post) (Z.of_nat (length pre)) = Ok x.
Proof.
  unfold array_get. rewrite Nat2Z.id, nth_error_app2, Nat.sub_diag by lia. simpl.
  destruct (Z.leb_spec 0 (Z.of_nat (length pre))); [reflexivity | lia].
Qed.

Lemma indent_prefix_total (out : bytes) (is_multiline : bool) :
  indent_prefix out is_multiline = Ok (indent_bytes out is_multiline).
Proof.
  unfold indent_bytes. destruct is_multiline; [|now rewrite indent_prefix_single].
  unfold indent_prefix, Slice. rewrite indent_loop_count. simpl Z.add.
  destruct (leading_ws_prefix out) as [rest Hrest].
  assert (Hlen : Z.of_nat (length (leading_ws out)) <= Size out).
  { unfold Size. rewrite Hrest at 2. rewrite length_app. lia. }
  pose proof (Size_nonneg out).
  match goal with |- context [if ?c then Size out else ?x] =>
    destruct c; cbn zeta end.
  - replace ((0 <=? 0) && (Size out <=? Size out) && (0 <=? Size out)) with true;
      [reflexivity|].
    symmetry. rewrite !andb_true_iff, !Z.leb_le. lia.
  - match goal with |- context [if ?c then _ else _] =>
      replace c with true; [reflexivity|] end.
    symmetry. rewrite !andb_true_iff, !Z.leb_le. lia.
Qed.

Lemma splice_loop_spec (Kr : list bytes) :
  forall (Kd od outs' : list bytes) (fd fr : list bool) (result : bytes),
    (length od + 1 = length Kd)%nat -> (length fd + 1 = length Kd)%nat ->
    length outs' = length Kr -> length fr = length Kr ->
    splice_loop (Kd ++ Kr) (od ++ outs') (fd ++ fr) (length Kr)
      (Z.of_nat (length Kd)) result
    = Ok (result ++ spliced Kr outs' fr).
Proof.
  induction Kr as [|K Kr IH]; intros Kd od outs' fd fr result Hod Hfd Ho Hf.
  - simpl. now rewrite app_nil_r.
  - destruct outs' as [|o outs']; [discriminate|]. destruct fr as [|f fr]; [discriminate|].
    simpl in Ho, Hf. cbn [splice_loop length]. unfold splice_step.
    replace (Z.of_nat (length Kd) >? 0) with true by (symmetry; apply Z.gtb_lt; lia).
    replace (Z.of_nat (length Kd) - 1) with (Z.of_nat (length od)) by lia.
    rewrite array_get_middle. cbn [bind].
    replace (Z.of_nat (length od)) with (Z.of_nat (length fd)) by lia.
    rewrite array_get_middle. cbn [bind].
    rewrite indent_prefix_total. cbn [bind].
    rewrite array_get_middle. cbn [bind].
    replace (Z.of_nat (length Kd) + 1) with (Z.of_nat (length (Kd ++ [K])))
      by (rewrite length_app; simpl; lia).
    replace (Kd ++ K :: Kr) with ((Kd ++ [K]) ++ Kr) by (now rewrite <- app_assoc).
    replace (od ++ o :: outs') with ((od ++ [o]) ++ outs') by (now rewrite <- app_assoc).
    replace (fd ++ f :: fr) with ((fd ++ [f]) ++ fr) by (now rewrite <- app_assoc).
    rewrite IH by (rewrite ?length_app; simpl; lia).
    f_equal. cbn [spliced]. unfold expansion. now rewrite <- !app_assoc.
Qed.

(** The splicer loop in closed form: [K0], then each expansion followed by
    its kept range. *)
Lemma splice_closed (K0 : bytes) (Ks outs : list bytes) (flags : list bool) :
  length outs = length Ks -> length flags = length Ks ->
  splice (K0 :: Ks) outs flags = Ok (K0 ++ spliced Ks outs flags).
Proof.
  intros Ho Hf. unfold splice. cbn [length splice_loop]. unfold splice_step.
  change (0 >? 0) with false. cbv iota. cbn [bind].
  change (array_get (K0 :: Ks) 0) with (Ok (A := bytes) K0). cbn [bind].
  change (K0 :: Ks) with ([K0] ++ Ks). change outs with ([] ++ outs).
  change flags with ([] ++ flags). change (0 + 1) with (Z.of_nat (length [K0])).
  now apply splice_loop_spec.
Qed.

(** ** Shape of the arrays *)

Lemma scan_loop_lengths (fuel : nat) :
  forall remaining st st' r,
    scan_loop fuel remaining st = Ok (st', r) ->
    length (ranges_to_keep st) = length (python_strings st) ->
    length (python_strings_is_multiline st) = length (python_strings st) ->
    length (ranges_to_keep st') = length (python_strings st') /\
    length (python_strings_is_multiline st') = length (python_strings st').
Proof.
  induction fuel as [|fuel IH]; intros remaining st st' r H Hr Hf; [discriminate|].
  cbn [scan_loop] in H.
  destruct (scan_body remaining) as [[[[[keep nps] ml] rem']|]| | |]; try discriminate.
  - cbn [bind] in H. apply IH in H; [exact H | |];
      unfold scan_add; cbn; rewrite !length_app; simpl; lia.
  - cbn [bind] in H. injection H as <- <-. auto.
Qed.

Lemma run_loop_length (py : bytes -> option (list bytes)) (progs : list bytes) :
  forall acc outs, run_loop py progs acc = Ok outs ->
                   length outs = (length acc + length progs)%nat.
Proof.
  induction progs as [|p progs IH]; intros acc outs H; simpl in H.
  - injection H as <-. simpl. lia.
  - destruct (run_python py p); try discriminate. cbn [bind] in H.
    apply IH in H. rewrite length_app in H. simpl in *. lia.
Qed.


(** ** Directive scanner *)

Lemma transform_total (body : bytes) :
  exists prog is_multiline, transform body = Ok (prog, is_multiline).
Proof.
  unfold transform.
  destruct (is_multiline_of_spec body) as (b & Hb & _). rewrite Hb. cbn [bind].
  destruct b.
  - destruct (user_fn_lines_total (length body) body (lit "def user_fn():" ++ [LF]))
      as (r & Hr); [lia|].
    rewrite Hr. cbn [bind]. eauto.
  - destruct (count_lines_spec (length body) body 0) as (n & Hn & _); [lia|].
    rewrite Hn. cbn [bind]. destruct (n <=? 1); eauto.
Qed.

(** The three ways one pass of the scanner loop can go. *)
Lemma scan_body_cases (remaining : bytes) :
  addressable remaining ->
  (~ contains pyexpand_keyword remaining /\ scan_body remaining = Ok None) \/
  (exists off, leftmost pyexpand_keyword remaining 0 off /\
     absent_from (lit "*/") remaining (off + 5) /\
     scan_body remaining = AssertFail) \/
  (exists off e t prog ml,
     leftmost pyexpand_keyword remaining 0 off /\
     leftmost (lit "*/") remaining (off + 5) e /\
     terminator_at remaining e t /\
     transform (body_between remaining off e) = Ok (prog, ml) /\
     scan_body remaining =
       Ok (Some (firstn (e + 2) remaining, prog, ml, skipn t remaining))).
Proof.
  intros Haddr. unfold addressable in Haddr. unfold scan_body.
  destruct (Find_cases remaining pyexpand_keyword 0) as (off & HF & Hoff);
    [discriminate | lia |].
  change (Z.of_nat 0) with 0 in HF. rewrite HF. cbn [bind].
  destruct Hoff as [[Hlt Hl]|[-> Ha]].
  2:{ left. fold (Size remaining). rewrite Z.eqb_refl. split; [|reflexivity].
      rewrite contains_occurs. intros (p & Hp). apply (Ha p); [lia | exact Hp]. }
  right.
  replace (Z.of_nat off =? Size remaining) with false
    by (symmetry; apply Z.eqb_neq; unfold Size; lia).
  pose proof Hl as (_ & Hocc & _). apply occurs_at_bound in Hocc.
  change (length pyexpand_keyword) with 5%nat in Hocc.
  change (Size pyexpand_keyword) with 5.
  replace (Z.of_nat off + 5) with (Z.of_nat (off + 5)) by lia.
  destruct (Find_cases remaining (lit "*/") (off + 5)) as (e & HFe & He);
    [discriminate | lia |].
  rewrite HFe. cbn [bind].
  assert (Hsz : Size remaining <= INTPTR_MAX) by lia.
  destruct He as [[Helt Hel]|[-> Hea]].
  - right. pose proof Hel as (Hoe & Hocce & _). apply occurs_at_bound in Hocce.
    change (length (lit "*/")) with 2%nat in Hocce.
    rewrite Slice_ok by lia. cbn [bind].
    replace (Z.of_nat e + 2) with (Z.of_nat (e + 2)) by lia.
    change 0 with (Z.of_nat 0). rewrite Slice_ok by lia. cbn [bind].
    rewrite skipn_O, Nat.sub_0_r.
    destruct (Find_cases remaining (lit "/*") (e + 2)) as (t & HFt & Ht);
      [discriminate | lia |].
    rewrite HFt. cbn [bind].
    assert (Htl : (t <= length remaining)%nat) by (destruct Ht as [[? _]|[-> _]]; lia).
    rewrite Slice_default by lia. cbn [bind].
    destruct (transform_total (body_between remaining off e)) as (prog & ml & HT).
    exists off, e, t, prog, ml. unfold body_between in *. rewrite HT. cbn [bind].
    repeat split; try assumption; try apply Hl; try apply Hel.
    destruct Ht as [[_ Ht]|[-> Ht]]; [now left | now right].
  - left. exists off. split; [exact Hl|]. split; [exact Hea|].
    rewrite Slice_ok by lia. cbn [bind].
    unfold Slice, Size.
    replace (Z.of_nat (length remaining) + 2 =? INTPTR_MAX) with false
      by (symmetry; apply Z.eqb_neq; unfold Size in Haddr; lia).
    replace (Z.of_nat (length remaining) + 2 <=? Z.of_nat (length remaining)) with false
      by (symmetry; apply Z.leb_gt; lia).
    reflexivity.
Qed.

Lemma Find_leftmost_computed (self other : bytes) (start r : nat) :
  other <> [] -> (start <= length self)%nat -> (r < length self)%nat ->
  Find self other (Z.of_nat start) = Ok (Z.of_nat r) ->
  leftmost other self start r.
Proof.
  intros Hne Hst Hr HF.
  destruct (Find_cases self other start Hne Hst) as (r' & HF' & Hr').
  rewrite HF in HF'. injection HF' as E. apply Nat2Z.inj in E. subst r'.
  destruct Hr' as [[_ Hl]|[-> _]]; [exact Hl | lia].
Qed.

Lemma Find_absent_computed (self other : bytes) (start : nat) :
  other <> [] -> (start <= length self)%nat ->
  Find self other (Z.of_nat start) = Ok (Size self) ->
  absent_from other self start.
Proof.
  intros Hne Hst HF.
  destruct (Find_cases self other start Hne Hst) as (r' & HF' & Hr').
  rewrite HF in HF'. injection HF' as E. unfold Size in E. apply Nat2Z.inj in E. subst r'.
  destruct Hr' as [[Hlt _]|[_ Ha]]; [lia | exact Ha].
Qed.

Lemma scan_body_break (remaining : bytes) :
  ~ contains pyexpand_keyword remaining -> scan_body remaining = Ok None.
Proof.
  intros H. apply Find_none_iff in H; [|discriminate].
  unfold scan_body. rewrite H. cbn [bind]. now rewrite Z.eqb_refl.
Qed.

(** Occurrence facts on a literal buffer, by running [Find]. *)
Ltac find_by_computation :=
  first [ apply Find_leftmost_computed | apply Find_absent_computed ];
  try discriminate; try (simpl; lia); vm_compute; reflexivity.

(** A directive that is opened and never closed stops the process on the
    assertion [to <= Size] of [Slice]. *)
Lemma scan_loop_unclosed (fuel : nat) (remaining : bytes) (st : scan_state) (off : nat) :
  addressable remaining ->
  leftmost pyexpand_keyword remaining 0 off ->
  absent_from (lit "*/") remaining (off + 5) ->
  scan_loop (S fuel) remaining st = AssertFail.
Proof.
  intros Haddr Hl Ha. cbn [scan_loop].
  destruct (scan_body_cases remaining Haddr)
    as [[Hno _]|[(off' & _ & _ & ->)|(off' & e & t & prog & ml & Hl' & He & _)]].
  - exfalso. apply Hno. apply contains_occurs. exists off. apply Hl.
  - reflexivity.
  - exfalso. rewrite (leftmost_unique _ _ _ _ _ Hl' Hl) in He.
    destruct He as (H1 & H2 & _). apply (Ha e H1 H2).
Qed.

(** C4. On the input [/*.py 1+2], which opens a directive and never closes
    it, the scanner does not stop with a tail kept range: the process aborts
    on the assertion [to <= Size] of [Slice], whatever the interpreter. *)
Theorem scan_aborts_on_unclosed_directive :
  scan (lit "/*.py 1+2") = AssertFail /\
  forall py, main py (lit "/*.py 1+2") = AssertFail.
Proof.
  assert (H : scan (lit "/*.py 1+2") = AssertFail).
  { unfold scan.
    rewrite (scan_loop_unclosed _ (lit "/*.py 1+2") (mk_scan [] [] []) 0).
    - reflexivity.
    - vm_compute. reflexivity.
    - find_by_computation.
    - find_by_computation. }
  split; [exact H|]. intros py. unfold main, assemble. now rewrite H.
Qed.

(** When the closing marker of a directive is found and no [/*] follows it,
    the pass still adds the kept range up to and including the closing
    marker, the generated program and its flag, and leaves [remaining]
    empty; the next pass breaks, so the loop returns with the directive
    recorded and an empty tail. *)
Lemma scan_loop_without_terminator
    (fuel : nat) (remaining : bytes) (st : scan_state) (off e : nat) :
  addressable remaining ->
  leftmost pyexpand_keyword remaining 0 off ->
  leftmost (lit "*/") remaining (off + 5) e ->
  absent_from (lit "/*") remaining (e + 2) ->
  exists prog ml,
    transform (body_between remaining off e) = Ok (prog, ml) /\
    scan_loop (S (S fuel)) remaining st =
      Ok (scan_add st (firstn (e + 2) remaining) prog ml, []).
Proof.
  intros Haddr Hl He Ha. cbn [scan_loop].
  destruct (scan_body_cases remaining Haddr)
    as [[Hno _]|[(off' & Hl' & Ha' & _)|(off' & e' & t & prog & ml & Hl' & He' & Ht & HT & ->)]].
  - exfalso. apply Hno. apply contains_occurs. exists off. apply Hl.
  - exfalso. rewrite (leftmost_unique _ _ _ _ _ Hl' Hl) in Ha'.
    destruct He as (H1 & H2 & _). apply (Ha' e H1 H2).
  - rewrite (leftmost_unique _ _ _ _ _ Hl' Hl) in *.
    rewrite (leftmost_unique _ _ _ _ _ He' He) in *.
    destruct Ht as [(H1 & H2 & _)|[_ ->]]; [exfalso; apply (Ha t H1 H2)|].
    exists prog, ml. split; [exact HT|]. cbn [bind]. rewrite skipn_all.
    now rewrite scan_body_break
      by (intros (pre & post & H); destruct pre; discriminate H).
Qed.

(** The rule of the specification for a directive without a terminator is
    not what the loop does: on [/*.py 1+2 */ old] the directive is recorded
    and [remaining] is left empty. *)
Lemma unterminated_rule_counterexample : ~ unterminated_rule_as_written.
Proof.
  intros H.
  specialize (H 0%nat (lit "/*.py 1+2 */ old") (mk_scan [] [] []) 0%nat 10%nat).
  assert (H' : scan_loop 2 (lit "/*.py 1+2 */ old") (mk_scan [] [] [])
               = Ok (mk_scan [] [] [], lit "/*.py 1+2 */ old")).
  { apply H.
    - vm_compute. reflexivity.
    - find_by_computation.
    - find_by_computation.
    - find_by_computation. }
  vm_compute in H'. discriminate H'.
Qed.

(** ** Files without a directive, and the final write *)

Lemma assemble_no_directive (py : bytes -> option (list bytes)) (file_data : bytes) :
  ~ contains pyexpand_keyword file_data -> assemble py file_data = Ok file_data.
Proof.
  intros H. unfold assemble, scan. cbn [scan_loop].
  rewrite (scan_body_break _ H). reflexivity.
Qed.

(** C7, as the code has it. For a file without the opening marker the tool
    writes back the file up to its first NUL byte: the whole file, byte for
    byte, when the file has no NUL byte. *)
Theorem zero_directive_file_written_back
    (py : bytes -> option (list bytes)) (file_data : bytes) :
  ~ contains pyexpand_keyword file_data ->
  main py file_data = Ok (fmt_s file_data) /\
  truncated_at_NUL file_data (fmt_s file_data) /\
  (~ In NUL file_data -> main py file_data = Ok file_data).
Proof.
  intros H. unfold main. rewrite (assemble_no_directive py _ H). cbn [bind].
  split; [reflexivity|]. split; [apply fmt_s_truncates|].
  intros Hn. now rewrite fmt_s_no_NUL.
Qed.

Lemma zero_directive_file_written_back_witness :
  main (py_const "3") (lit "int x = 1;") = Ok (fmt_s (lit "int x = 1;")) /\
  truncated_at_NUL (lit "int x = 1;") (fmt_s (lit "int x = 1;")) /\
  (~ In NUL (lit "int x = 1;") -> main (py_const "3") (lit "int x = 1;") = Ok (lit "int x = 1;")).
Proof.
  apply (zero_directive_file_written_back (py_const "3") (lit "int x = 1;")).
  apply Find_none_iff; [discriminate | vm_compute; reflexivity].
Defined.

(** C7, as the specification words it, fails on the three bytes [a], NUL,
    [b]: the file has no marker and only [a] is written back. *)
Lemma zero_directive_identity_counterexample :
  ~ zero_directive_identity_as_written.
Proof.
  intros H.
  specialize (H (py_const "3") (lit "a" ++ [NUL] ++ lit "b")).
  assert (Hno : ~ contains pyexpand_keyword (lit "a" ++ [NUL] ++ lit "b")).
  { apply Find_none_iff; [discriminate | vm_compute; reflexivity]. }
  specialize (H Hno). vm_compute in H. discriminate H.
Qed.

Lemma main_iff_assemble (py : bytes -> option (list bytes)) (file_data w : bytes) :
  main py file_data = Ok w <-> exists a, assemble py file_data = Ok a /\ w = fmt_s a.
Proof.
  unfold main. split.
  - destruct (assemble py file_data) as [a| | |]; try discriminate. cbn [bind].
    intros [= <-]. now exists a.
  - intros (a & -> & ->). reflexivity.
Qed.


(** ** The pipeline, one directive at a time *)

Lemma terminator_at_bounds (remaining : bytes) (e t : nat) :
  terminator_at remaining e t -> (e + 2 <= length remaining)%nat ->
  (e + 2 <= t <= length remaining)%nat.
Proof.
  intros [(H1 & H2 & _)|[_ ->]] He; [|lia].
  apply occurs_at_bound in H2. simpl in H2. lia.
Qed.

Lemma addressable_shorter (s s' : bytes) :
  addressable s -> (length s' <= length s)%nat -> addressable s'.
Proof. unfold addressable, Size. lia. Qed.

(** A pass that records a directive leaves a strictly shorter [remaining]. *)
Lemma scan_body_shrinks (remaining keep prog rem' : bytes) (ml : bool) :
  addressable remaining ->
  scan_body remaining = Ok (Some (keep, prog, ml, rem')) ->
  (length rem' < length remaining)%nat.
Proof.
  intros Haddr H.
  destruct (scan_body_cases remaining Haddr)
    as [[_ E]|[(off & _ & _ & E)|(off & e & t & p & m & _ & He & Ht & _ & E)]];
    rewrite E in H; try discriminate.
  injection H as _ _ _ <-. destruct He as (_ & He & _).
  apply occurs_at_bound in He. simpl in He.
  pose proof (terminator_at_bounds _ _ _ Ht He). rewrite length_skipn. lia.
Qed.

(** Any fuel above the length of [remaining] gives the same result, which is
    never [OutOfFuel]. *)
Lemma scan_loop_fuel (f1 : nat) :
  forall f2 remaining st,
    addressable remaining ->
    (length remaining < f1)%nat -> (length remaining < f2)%nat ->
    scan_loop f1 remaining st = scan_loop f2 remaining st /\
    scan_loop f1 remaining st <> OutOfFuel.
Proof.
  induction f1 as [|f1 IH]; intros f2 remaining st Haddr H1 H2; [lia|].
  destruct f2 as [|f2]; [lia|]. cbn [scan_loop].
  destruct (scan_body remaining) as [[[[[keep prog] ml] rem']|]| | |] eqn:E;
    cbn [bind]; try (split; [reflexivity | discriminate]).
  - pose proof (scan_body_shrinks _ _ _ _ _ Haddr E) as Hlt.
    apply IH; try lia. apply (addressable_shorter remaining); [exact Haddr | lia].
  - exfalso.
    destruct (scan_body_cases remaining Haddr)
      as [[_ E']|[(off & _ & _ & E')|(off & e & t & p & m & _ & _ & _ & _ & E')]];
      rewrite E' in E; discriminate.
Qed.

Lemma scan_loop_acc (fuel : nat) :
  forall remaining st,
    scan_loop fuel remaining st =
    ('(st', r) <- scan_loop fuel remaining (mk_scan [] [] []) ;; Ok (scan_app st st', r)).
Proof.
  induction fuel as [|fuel IH]; intros remaining st; [reflexivity|].
  cbn [scan_loop].
  destruct (scan_body remaining) as [[[[[keep prog] ml] rem']|]| | |]; cbn [bind];
    try reflexivity.
  - rewrite (IH rem' (scan_add st keep prog ml)).
    rewrite (IH rem' (scan_add (mk_scan [] [] []) keep prog ml)).
    destruct (scan_loop fuel rem' (mk_scan [] [] [])) as [[st'' r]| | |]; cbn [bind];
      try reflexivity.
    unfold scan_app, scan_add. cbn. now rewrite <- !app_assoc.
  - unfold scan_app. cbn. rewrite !app_nil_r. now destruct st.
Qed.

Lemma run_loop_acc (py : bytes -> option (list bytes)) (progs : list bytes) :
  forall acc,
    run_loop py progs acc = (outs <- run_loop py progs [] ;; Ok (acc ++ outs)).
Proof.
  induction progs as [|p progs IH]; intros acc; simpl.
  - now rewrite app_nil_r.
  - destruct (run_python py p) as [out| | |]; cbn [bind]; try reflexivity.
    rewrite (IH (acc ++ [out])), (IH [out]).
    destruct (run_loop py progs []); cbn [bind]; try reflexivity.
    now rewrite <- app_assoc.
Qed.

(** What a successful run assembles, read off the first directive: the file
    itself when it has no directive; otherwise the first kept range, the
    expansion of the first directive, and what the run assembles from the
    rest of the file. *)
Lemma assemble_cases (py : bytes -> option (list bytes)) (file_data a : bytes) :
  addressable file_data ->
  assemble py file_data = Ok a ->
  (~ contains pyexpand_keyword file_data /\ a = file_data) \/
  (exists off e t prog ml out a',
     leftmost pyexpand_keyword file_data 0 off /\
     leftmost (lit "*/") file_data (off + 5) e /\
     terminator_at file_data e t /\
     transform (body_between file_data off e) = Ok (prog, ml) /\
     run_python py prog = Ok out /\
     assemble py (skipn t file_data) = Ok a' /\
     a = firstn (e + 2) file_data ++ expansion out ml ++ a').
Proof.
  intros Haddr H.
  destruct (scan_body_cases file_data Haddr)
    as [[Hno E]|[(off & _ & _ & E)|(off & e & t & prog & ml & Hoff & He & Ht & HT & E)]].
  - left. split; [exact Hno|]. rewrite (assemble_no_directive py _ Hno) in H. congruence.
  - exfalso. unfold assemble, scan in H. cbn [scan_loop] in H. rewrite E in H. discriminate.
  - right. exists off, e, t, prog, ml.
    assert (Hlt : (length (skipn t file_data) < length file_data)%nat).
    { apply (scan_body_shrinks _ _ _ _ _ Haddr E). }
    assert (Haddr' : addressable (skipn t file_data)).
    { apply (addressable_shorter file_data); [exact Haddr | lia]. }
    unfold assemble, scan in H. cbn [scan_loop] in H. rewrite E in H. cbn [bind] in H.
    rewrite scan_loop_acc in H.
    destruct (scan_loop_fuel (length file_data) (S (length (skipn t file_data)))
                (skipn t file_data) (mk_scan [] [] []) Haddr' Hlt (Nat.lt_succ_diag_r _))
      as [Hfuel _].
    rewrite Hfuel in H.
    destruct (scan_loop (S (length (skipn t file_data))) (skipn t file_data) (mk_scan [] [] []))
      as [[st' r]| | |] eqn:Eloop; cbn [bind] in H; try discriminate.
    unfold scan_app, scan_add in H.
    cbn [ranges_to_keep python_strings python_strings_is_multiline app] in H.
    cbn [run_loop] in H.
    destruct (run_python py prog) as [out| | |] eqn:Erun; cbn [bind] in H; try discriminate.
    rewrite run_loop_acc in H.
    destruct (run_loop py (python_strings st') []) as [outs| | |] eqn:Eouts;
      cbn [bind] in H; try discriminate.
    exists out.
    pose proof (scan_loop_lengths _ _ _ _ _ Eloop eq_refl eq_refl) as [Hr Hf].
    pose proof (run_loop_length _ _ _ _ Eouts) as Hlen. simpl in Hlen.
    destruct (ranges_to_keep st' ++ [r]) as [|K1 Ks] eqn:EK.
    { apply (f_equal (@length _)) in EK. rewrite length_app in EK. simpl in EK. lia. }
    pose proof (f_equal (@length _) EK) as EKl. rewrite length_app in EKl. simpl in EKl.
    cbn [app] in H. rewrite splice_closed in H by (simpl; lia).
    exists (K1 ++ spliced Ks outs (python_strings_is_multiline st')).
    repeat split; try assumption; try apply Hoff; try apply He.
    + unfold assemble, scan. rewrite Eloop. cbn [bind].
      cbn [ranges_to_keep python_strings python_strings_is_multiline].
      rewrite Eouts. cbn [bind]. rewrite EK. apply splice_closed; lia.
    + injection H as <-. reflexivity.
Qed.

(** ** Occurrences under concatenation *)

Lemma occurs_at_nth (other self : bytes) (p : nat) :
  occurs_at other self p <->
  (p + length other <= length self)%nat /\
  forall i, (i < length other)%nat -> nth_error self (p + i) = nth_error other i.
Proof.
  split.
  - intros H. split; [now apply occurs_at_bound|].
    destruct H as (pre & post & -> & <-). intros i Hi.
    rewrite nth_error_app2 by lia.
    replace (length pre + i - length pre)%nat with i by lia.
    now apply nth_error_app1.
  - intros [Hb Hn]. apply occurs_at_skipn. split; [lia|].
    exists (skipn (length other) (skipn p self)).
    rewrite <- (firstn_skipn (length other) (skipn p self)) at 1. f_equal.
    apply nth_error_ext. intros n. rewrite nth_error_firstn, nth_error_skipn.
    destruct (Nat.ltb_spec n (length other)) as [Hlt|Hge]; [now apply Hn|].
    symmetry. now apply nth_error_None.
Qed.

Lemma occurs_at_app_l (other A B : bytes) (p : nat) :
  (p + length other <= length A)%nat ->
  occurs_at other (A ++ B) p <-> occurs_at other A p.
Proof.
  intros Hb. rewrite !occurs_at_nth, length_app. split; intros [_ Hn]; (split; [lia|]);
    intros i Hi; specialize (Hn i Hi); rewrite nth_error_app1 in * by lia; exact Hn.
Qed.

Lemma occurs_at_app_r (other A B : bytes) (q : nat) :
  occurs_at other (A ++ B) (length A + q) <-> occurs_at other B q.
Proof.
  rewrite !occurs_at_nth, length_app. split; intros [Hb Hn]; (split; [lia|]);
    intros i Hi; specialize (Hn i Hi).
  - rewrite nth_error_app2 in Hn by lia. rewrite <- Hn. f_equal. lia.
  - rewrite nth_error_app2 by lia. rewrite <- Hn. f_equal. lia.
Qed.

Lemma contains_app_l (other A B : bytes) : contains other A -> contains other (A ++ B).
Proof.
  intros (pre & post & ->). exists pre, (post ++ B). now rewrite <- !app_assoc.
Qed.

(** The leftmost occurrence does not depend on what follows it. *)
Lemma leftmost_change_tail (other A B B' : bytes) (start r : nat) :
  (r + length other <= length A)%nat ->
  leftmost other (A ++ B) start r -> leftmost other (A ++ B') start r.
Proof.
  intros Hb (H1 & H2 & H3). split; [exact H1|]. split.
  - apply occurs_at_app_l; [exact Hb|]. now apply (occurs_at_app_l other A B).
  - intros q Hq Hocc. apply (H3 q Hq).
    apply occurs_at_app_l; [lia|]. apply (occurs_at_app_l other A B') in Hocc; [exact Hocc | lia].
Qed.

Lemma terminator_at_unique (remaining : bytes) (e t t' : nat) :
  terminator_at remaining e t -> terminator_at remaining e t' -> t = t'.
Proof.
  intros [H|[Ha ->]] [H'|[Ha' ->]].
  - exact (leftmost_unique _ _ _ _ _ H H').
  - exfalso. destruct H as (H1 & H2 & _). apply (Ha' t H1 H2).
  - exfalso. destruct H' as (H1 & H2 & _). apply (Ha t' H1 H2).
  - reflexivity.
Qed.

(** A two-byte marker that occurs in [A ++ c :: B], where [c] is neither of
    its bytes, occurs in [A] or in [B]. *)
Lemma slash_star_split (A B : bytes) (c : ascii) :
  c <> "/"%char -> c <> "*"%char ->
  contains (lit "/*") (A ++ c :: B) ->
  contains (lit "/*") A \/ contains (lit "/*") B.
Proof.
  intros H1 H2. rewrite !contains_occurs. intros (p & Hp).
  apply occurs_at_nth in Hp as [Hb Hn]. simpl length in *.
  pose proof (Hn 0%nat ltac:(lia)) as Hn0. pose proof (Hn 1%nat ltac:(lia)) as Hn1.
  rewrite Nat.add_0_r in Hn0. simpl in Hn0, Hn1. rewrite length_app in Hb. simpl in Hb.
  destruct (Nat.lt_ge_cases (p + 1) (length A)) as [Hlt|Hge].
  - left. exists p. apply occurs_at_nth. simpl length. split; [lia|].
    intros i Hi. destruct i as [|[|i]]; [| |lia].
    + rewrite Nat.add_0_r. rewrite nth_error_app1 in Hn0 by lia. exact Hn0.
    + rewrite nth_error_app1 in Hn1 by lia. exact Hn1.
  - destruct (Nat.eq_dec (p + 1) (length A)) as [E|NE].
    { rewrite nth_error_app2 in Hn1 by lia. rewrite E, Nat.sub_diag in Hn1.
      simpl in Hn1. congruence. }
    destruct (Nat.eq_dec p (length A)) as [E|NE'].
    { rewrite nth_error_app2 in Hn0 by lia. rewrite E, Nat.sub_diag in Hn0.
      simpl in Hn0. congruence. }
    right. exists (p - length A - 1)%nat. apply occurs_at_nth. simpl length. split; [lia|].
    intros i Hi. destruct i as [|[|i]]; [| |lia].
    + rewrite Nat.add_0_r. rewrite nth_error_app2 in Hn0 by lia.
      replace (p - length A)%nat with (S (p - length A - 1)) in Hn0 by lia. exact Hn0.
    + rewrite nth_error_app2 in Hn1 by lia.
      replace (p + 1 - length A)%nat with (S (p - length A - 1 + 1)) in Hn1 by lia.
      exact Hn1.
Qed.

(** ** What an expansion can contain *)

Lemma Slice_0_prefix (self r : bytes) (to : Z) :
  Slice self 0 to = Ok r -> exists rest, self = r ++ rest.
Proof.
  unfold Slice. destruct (_ && _); [|discriminate]. intros [= <-].
  simpl skipn. eexists. symmetry. apply firstn_skipn.
Qed.

Lemma indent_bytes_prefix (out : bytes) (ml : bool) :
  exists rest, out = indent_bytes out ml ++ rest.
Proof.
  pose proof (indent_prefix_total out ml) as H. unfold indent_prefix in H.
  now apply Slice_0_prefix in H.
Qed.

Lemma accumulate_NUL_free (chunks : list bytes) :
  forall acc, ~ In NUL acc -> ~ In NUL (fold_left print_callback chunks acc).
Proof.
  induction chunks as [|c chunks IH]; intros acc Hacc; simpl; [exact Hacc|].
  apply IH. unfold print_callback. intros H. apply in_app_or in H as [H|H];
    [contradiction | exact (fmt_s_NUL_free _ H)].
Qed.

Lemma normalize_prefix (acc out : bytes) :
  normalize acc = Ok out -> exists rest, acc = out ++ rest.
Proof.
  unfold normalize. destruct (Slice acc (Size acc - 2) INTPTR_MAX); try discriminate.
  cbn [bind]. destruct (bytes_eqb _ _).
  - apply Slice_0_prefix.
  - intros [= <-]. exists []. now rewrite app_nil_r.
Qed.

Lemma separator_byte (ml : bool) :
  exists c, separator ml = [c] /\ c <> "/"%char /\ c <> "*"%char /\ c <> NUL.
Proof.
  destruct ml; [exists LF | exists SPACE]; repeat split; discriminate.
Qed.

Lemma expansion_clean (out : bytes) (ml : bool) :
  ~ In NUL out -> ~ contains (lit "/*") out ->
  ~ In NUL (expansion out ml) /\ ~ contains (lit "/*") (expansion out ml).
Proof.
  intros HN HC. unfold expansion.
  destruct (separator_byte ml) as (c & -> & Hc1 & Hc2 & Hc3).
  destruct (indent_bytes_prefix out ml) as [rest Hrest].
  assert (HNi : ~ In NUL (indent_bytes out ml)).
  { intros H. apply HN. rewrite Hrest. apply in_or_app. now left. }
  assert (HCi : ~ contains (lit "/*") (indent_bytes out ml)).
  { intros H. apply HC. rewrite Hrest. now apply contains_app_l. }
  split.
  - simpl. intros [H|H]; [congruence|]. apply in_app_or in H as [H|H]; [contradiction|].
    destruct H as [H|H]; [congruence | contradiction].
  - intros H. change ([c] ++ out ++ [c] ++ indent_bytes out ml)
      with ([] ++ c :: (out ++ c :: indent_bytes out ml)) in H.
    apply slash_star_split in H as [H|H]; try assumption.
    + destruct H as (pre & post & H). destruct pre; discriminate H.
    + apply slash_star_split in H as [H|H]; try assumption; contradiction.
Qed.

(** ** The second run *)

Section SecondRun.

(** The interpreter is a function of the program. *)
Variable py : bytes -> option (list bytes).

Lemma run_python_NUL_free (prog out : bytes) :
  run_python py prog = Ok out -> ~ In NUL out.
Proof.
  intros H. unfold run_python in H.
  destruct (py _) as [chunks|] eqn:E; [|discriminate].
  apply normalize_prefix in H as [rest Hrest].
  intros Hin. apply (accumulate_NUL_free chunks []); [simpl; tauto|].
  rewrite Hrest. apply in_or_app. now left.
Qed.

(** The scanner on a file that starts a directive: the arrays of the rest of
    the file, with the kept range, the program and the flag of the first
    directive in front. *)
Lemma scan_first_directive (file_data prog : bytes) (ml : bool) (off e t : nat)
    (st' : scan_state) :
  addressable file_data ->
  leftmost pyexpand_keyword file_data 0 off ->
  leftmost (lit "*/") file_data (off + 5) e ->
  terminator_at file_data e t ->
  transform (body_between file_data off e) = Ok (prog, ml) ->
  scan (skipn t file_data) = Ok st' ->
  scan file_data =
    Ok (mk_scan (firstn (e + 2) file_data :: ranges_to_keep st')
                (prog :: python_strings st')
                (ml :: python_strings_is_multiline st')).
Proof.
  intros Haddr Hoff He Ht HT Hs.
  destruct (scan_body_cases file_data Haddr)
    as [[Hno _]|[(off' & Hoff' & Ha' & _)|
                 (off' & e' & t' & prog' & ml' & Hoff' & He' & Ht' & HT' & E)]].
  - exfalso. apply Hno, contains_occurs. exists off. apply Hoff.
  - exfalso. rewrite (leftmost_unique _ _ _ _ _ Hoff' Hoff) in Ha'.
    destruct He as (H1 & H2 & _). apply (Ha' e H1 H2).
  - rewrite (leftmost_unique _ _ _ _ _ Hoff' Hoff) in *.
    rewrite (leftmost_unique _ _ _ _ _ He' He) in *.
    rewrite (terminator_at_unique _ _ _ _ Ht' Ht) in *.
    rewrite HT in HT'. injection HT' as <- <-.
    assert (Hlt : (length (skipn t file_data) < length file_data)%nat)
      by (apply (scan_body_shrinks _ _ _ _ _ Haddr E)).
    assert (Haddr' : addressable (skipn t file_data))
      by (apply (addressable_shorter file_data); [exact Haddr | lia]).
    unfold scan in *. cbn [scan_loop]. rewrite E. cbn [bind].
    rewrite scan_loop_acc.
    destruct (scan_loop_fuel (length file_data) (S (length (skipn t file_data)))
                (skipn t file_data) (mk_scan [] [] []) Haddr' Hlt (Nat.lt_succ_diag_r _))
      as [-> _].
    destruct (scan_loop (S (length (skipn t file_data))) (skipn t file_data) (mk_scan [] [] []))
      as [[st0 r]| | |]; cbn [bind] in *; try discriminate.
    injection Hs as <-. reflexivity.
Qed.

(** A result of the interpreter loop holds the output of every program that
    was run. *)
Lemma run_loop_In (progs : list bytes) (prog out : bytes) :
  forall acc outs,
    run_loop py progs acc = Ok outs -> In prog progs ->
    run_python py prog = Ok out -> In out outs.
Proof.
  induction progs as [|p progs IH]; intros acc outs H Hin Hrun; [destruct Hin|].
  simpl in H. destruct (run_python py p) as [o| | |] eqn:E; try discriminate.
  cbn [bind] in H. destruct Hin as [->|Hin].
  - rewrite Hrun in E. injection E as <-. rewrite run_loop_acc in H.
    destruct (run_loop py progs []); try discriminate. cbn [bind] in H.
    injection H as <-. apply in_or_app. left. apply in_or_app. right. now left.
  - exact (IH _ _ H Hin Hrun).
Qed.

(** After the kept range and a marker-free expansion, the scanner resumes
    exactly where the rest of the previous output starts. *)
Lemma terminator_after_expansion (keep X w1 : bytes) (e : nat) :
  length keep = (e + 2)%nat ->
  ~ contains (lit "/*") X ->
  (w1 = [] \/ exists post, w1 = lit "/*" ++ post) ->
  terminator_at (keep ++ X ++ w1) e (length keep + length X).
Proof.
  intros Hk HX Hw1.
  assert (Hbefore : forall q, (e + 2 <= q)%nat -> (q < length keep + length X)%nat ->
                              ~ occurs_at (lit "/*") (keep ++ X ++ w1) q).
  { intros q Hq1 Hq2 Hocc.
    replace q with (length keep + (q - length keep))%nat in Hocc by lia.
    apply occurs_at_app_r in Hocc.
    destruct (Nat.le_gt_cases (q - length keep + 2) (length X)) as [Hin|Hout].
    - apply occurs_at_app_l in Hocc; [|exact Hin].
      apply HX, contains_occurs. eauto.
    - apply occurs_at_nth in Hocc as [Hb Hn]. simpl length in *.
      specialize (Hn 1%nat ltac:(lia)). rewrite nth_error_app2 in Hn by lia.
      replace (q - length keep + 1 - length X)%nat with 0%nat in Hn by lia.
      destruct Hw1 as [->|[post ->]]; simpl in Hn; discriminate Hn. }
  destruct Hw1 as [->|[post ->]].
  - right. split; [|rewrite !length_app; simpl; lia].
    intros q Hq Hocc. pose proof (occurs_at_bound _ _ _ Hocc) as Hb.
    rewrite !length_app in Hb. simpl in Hb. apply (Hbefore q); [lia | lia | exact Hocc].
  - left. split; [lia|]. split.
    + exists (keep ++ X), post. split; [now rewrite <- app_assoc | now rewrite length_app].
    + intros q Hq. apply Hbefore; lia.
Qed.

Lemma body_between_app (A B : bytes) (off e : nat) :
  (e <= length A)%nat -> body_between (A ++ B) off e = body_between A off e.
Proof.
  intros He. unfold body_between. rewrite skipn_app, firstn_app.
  replace (e - (off + 5) - length (skipn (off + 5) A))%nat with 0%nat
    by (rewrite length_skipn; lia).
  simpl. apply app_nil_r.
Qed.

Lemma main_no_directive (file_data : bytes) :
  ~ contains pyexpand_keyword file_data -> main py file_data = Ok (fmt_s file_data).
Proof.
  intros H. unfold main. now rewrite (assemble_no_directive py _ H).
Qed.

(** What is assembled from a buffer that is empty or starts with [/*] is
    empty or starts with [/*] as well, and so is what is written. *)
Lemma assemble_head (R a : bytes) :
  addressable R -> assemble py R = Ok a ->
  (R = [] \/ exists post, R = lit "/*" ++ post) ->
  fmt_s a = [] \/ exists post, fmt_s a = lit "/*" ++ post.
Proof.
  intros Haddr Ha HR.
  assert (H : a = [] \/ exists post, a = lit "/*" ++ post).
  { destruct (assemble_cases py R a Haddr Ha)
      as [[_ ->]|(off & e & t & prog & ml & out & a' & Hoff & He & _ & _ & _ & _ & ->)];
      [exact HR|].
    destruct He as (_ & He & _). apply occurs_at_bound in He. simpl in He.
    destruct HR as [->|[post ->]]; [simpl in He; lia|].
    right. replace (e + 2)%nat with (S (S e)) by lia. simpl. eauto. }
  destruct H as [->|[post ->]]; [now left|]. right.
  exists (fmt_s post). now rewrite fmt_s_app_clean by (simpl; intros [H|[H|[]]]; discriminate H).
Qed.

Lemma fmt_s_shorter (p : bytes) : In NUL p -> (length (fmt_s p) < length p)%nat.
Proof.
  induction p as [|c p IH]; intros H; [destruct H|]. rewrite fmt_s_cons.
  destruct (Ascii.eqb_spec c NUL) as [->|Hc]; [simpl; lia|].
  destruct H as [H|H]; [congruence|]. simpl. apply IH in H. lia.
Qed.

(** A second run on what a first run wrote, if it reaches the final write,
    writes the same bytes. *)
Lemma second_run :
  forall file_data w w2,
    addressable file_data -> main py file_data = Ok w ->
    addressable w -> main py w = Ok w2 ->
    (forall st prog out,
       scan file_data = Ok st -> In prog (python_strings st) ->
       run_python py prog = Ok out -> ~ contains (lit "/*") out) ->
    w2 = w.
Proof.
  intro file_data.
  induction file_data as [file_data IH] using (induction_ltof1 _ (@length ascii)).
  unfold ltof in IH. intros w w2 Haddr Hm Haddrw Hm2 Hclean.
  apply main_iff_assemble in Hm as (a & Ha & ->).
  destruct (assemble_cases py file_data a Haddr Ha)
    as [[Hno ->]|(off & e & t & prog & ml & out & a' & Hoff & He & Ht & HT & Hrun & Ha' & ->)].
  - assert (Hno' : ~ contains pyexpand_keyword (fmt_s file_data)).
    { intros Hc. apply Hno. destruct (fmt_s_prefix file_data) as [rest Hr].
      rewrite Hr. now apply contains_app_l. }
    rewrite (main_no_directive _ Hno') in Hm2. injection Hm2 as <-.
    apply fmt_s_no_NUL, fmt_s_NUL_free.
  - set (keep := firstn (e + 2) file_data) in *.
    pose proof He as (Hoe & Hocce & _).
    pose proof (occurs_at_bound _ _ _ Hocce) as Hbe. simpl in Hbe.
    assert (Hk : length keep = (e + 2)%nat) by (unfold keep; rewrite length_firstn; lia).
    assert (Hfile : file_data = keep ++ skipn (e + 2) file_data)
      by (symmetry; apply firstn_skipn).
    assert (Hs' : exists st', scan (skipn t file_data) = Ok st').
    { unfold assemble in Ha'. destruct (scan (skipn t file_data)) as [st'| | |];
        try discriminate. now exists st'. }
    destruct Hs' as [st' Hs'].
    pose proof (scan_first_directive file_data prog ml off e t st'
                  Haddr Hoff He Ht HT Hs') as Hs.
    pose proof (run_python_NUL_free prog out Hrun) as HNo.
    assert (HCo : ~ contains (lit "/*") out).
    { apply (Hclean _ prog out Hs); [now left | exact Hrun]. }
    assert (Hclean' : forall st prog out,
              scan (skipn t file_data) = Ok st -> In prog (python_strings st) ->
              run_python py prog = Ok out -> ~ contains (lit "/*") out).
    { intros st0 prog0 out0 Hs0 Hin0 Hrun0. rewrite Hs' in Hs0. injection Hs0 as <-.
      apply (Hclean _ prog0 out0 Hs); [now right | exact Hrun0]. }
    destruct (expansion_clean out ml HNo HCo) as [HNX HCX].
    destruct (in_dec ascii_dec NUL keep) as [HN|HN].
    + rewrite fmt_s_app_NUL in Hm2, Haddrw by exact HN.
      rewrite fmt_s_app_NUL by exact HN.
      apply main_iff_assemble in Hm2 as (a2 & Ha2 & ->).
      destruct (assemble_cases py _ a2 Haddrw Ha2)
        as [[_ ->]|(off2 & e2 & t2 & prog2 & ml2 & out2 & a2' & Hoff2 & He2 & _)].
      * apply fmt_s_no_NUL, fmt_s_NUL_free.
      * exfalso. destruct (fmt_s_prefix keep) as [r1 Hr1].
        pose proof (fmt_s_shorter keep HN) as Hshort.
        assert (Hocc_file : forall o q, occurs_at o (fmt_s keep) q -> occurs_at o file_data q).
        { intros o q Hq. rewrite Hfile, Hr1, <- app_assoc.
          apply occurs_at_app_l; [now apply occurs_at_bound | exact Hq]. }
        destruct Hoff2 as (_ & Hk2 & _). destruct He2 as (Hoe2 & Hc2 & _).
        pose proof (occurs_at_bound _ _ _ Hc2) as Hb2. simpl in Hb2.
        apply Hocc_file in Hk2, Hc2.
        assert (Hle : (off <= off2)%nat).
        { destruct (Nat.le_gt_cases off off2) as [Hle|Hgt]; [exact Hle|]. exfalso.
          destruct Hoff as (_ & _ & Hmin). apply (Hmin off2); [lia | exact Hk2]. }
        destruct He as (_ & _ & Hmin). apply (Hmin e2); [lia | exact Hc2].
    + rewrite fmt_s_app_clean in Hm2, Haddrw by exact HN.
      rewrite fmt_s_app_clean in Hm2, Haddrw by exact HNX.
      rewrite fmt_s_app_clean by exact HN. rewrite fmt_s_app_clean by exact HNX.
      set (X := expansion out ml) in *. set (w1 := fmt_s a') in *.
      assert (Hm1 : main py (skipn t file_data) = Ok w1)
        by (apply main_iff_assemble; eauto).
      pose proof (terminator_at_bounds _ _ _ Ht Hbe) as Htb.
      assert (Hlt : (length (skipn t file_data) < length file_data)%nat)
        by (rewrite length_skipn; lia).
      assert (Haddr1 : addressable (skipn t file_data))
        by (apply (addressable_shorter file_data); [assumption | lia]).
      assert (Hw1 : w1 = [] \/ exists post, w1 = lit "/*" ++ post).
      { apply (assemble_head (skipn t file_data) a' Haddr1 Ha').
        destruct Ht as [(_ & Hocc & _)|[_ ->]].
        - right. apply occurs_at_skipn in Hocc as [_ [post Hp]]. eauto.
        - left. apply skipn_all. }
      assert (Haddrw1 : addressable w1).
      { apply (addressable_shorter (keep ++ X ++ w1)); [assumption|].
        rewrite !length_app. lia. }
      assert (Hoffw : leftmost pyexpand_keyword (keep ++ X ++ w1) 0 off).
      { apply (leftmost_change_tail _ keep (skipn (e + 2) file_data));
          [change (length pyexpand_keyword) with 5%nat; lia | rewrite <- Hfile; exact Hoff]. }
      assert (Hew : leftmost (lit "*/") (keep ++ X ++ w1) (off + 5) e).
      { apply (leftmost_change_tail _ keep (skipn (e + 2) file_data));
          [simpl; lia | rewrite <- Hfile; exact He]. }
      assert (Htw : terminator_at (keep ++ X ++ w1) e (length keep + length X))
        by (apply terminator_after_expansion; assumption).
      apply main_iff_assemble in Hm2 as (a2 & Ha2 & ->).
      destruct (assemble_cases py _ a2 Haddrw Ha2)
        as [[Hno2 _]|(off2 & e2 & t2 & prog2 & ml2 & out2 & a2' &
                      Hoff2 & He2 & Ht2 & HT2 & Hrun2 & Ha2' & ->)].
      * exfalso. apply Hno2, contains_occurs. exists off. apply Hoffw.
      * rewrite (leftmost_unique _ _ _ _ _ Hoff2 Hoffw) in *.
        rewrite (leftmost_unique _ _ _ _ _ He2 Hew) in *.
        rewrite (terminator_at_unique _ _ _ _ Ht2 Htw) in *.
        rewrite body_between_app in HT2 by lia.
        rewrite Hfile in HT. rewrite body_between_app in HT by lia.
        rewrite HT in HT2. injection HT2 as <- <-.
        rewrite Hrun in Hrun2. injection Hrun2 as <-.
        replace (firstn (e + 2) (keep ++ X ++ w1)) with keep.
        2:{ rewrite firstn_app, <- Hk, firstn_all, Nat.sub_diag. simpl.
            now rewrite app_nil_r. }
        replace (skipn (length keep + length X) (keep ++ X ++ w1)) with w1 in Ha2'.
        2:{ rewrite app_assoc, skipn_app, <- length_app, skipn_all, Nat.sub_diag.
            reflexivity. }
        rewrite fmt_s_app_clean by exact HN. rewrite fmt_s_app_clean by exact HNX.
        do 2 f_equal.
        apply (IH (skipn t file_data) Hlt w1 (fmt_s a2') Haddr1 Hm1 Haddrw1);
          [|exact Hclean'].
        apply main_iff_assemble. eauto.
Qed.

(** C8, as the code has it. With an interpreter whose output is a function
    of the program, if none of the outputs captured for the snippets of the
    file in the first run contains the marker [/*], a second run leaves the
    file as the first run left it; the interpreter may print the marker on
    any other program. *)
Theorem idempotent_when_outputs_have_no_marker (file_data : bytes) :
  addressable file_data ->
  addressable (file_after py file_data) ->
  captured_outputs_without_marker py file_data ->
  file_after py (file_after py file_data) = file_after py file_data.
Proof.
  intros Haddr. unfold file_after at 1 3 4.
  destruct (main py file_data) as [w| | |] eqn:E.
  - intros Haddrw Hcap. unfold file_after.
    destruct (main py w) as [w2| | |] eqn:E2; try reflexivity.
    apply (second_run file_data w w2 Haddr E Haddrw E2).
    intros st prog out Hs Hin Hrun.
    pose proof E as Em. unfold main, assemble in Em. rewrite Hs in Em. cbn [bind] in Em.
    destruct (run_loop py (python_strings st) []) as [outs| | |] eqn:Eo;
      try discriminate.
    pose proof (Hcap st outs Hs Eo) as Hall. rewrite Forall_forall in Hall.
    apply Hall. exact (run_loop_In _ prog out _ _ Eo Hin Hrun).
  - intros _ _. unfold file_after. now rewrite E.
  - intros _ _. unfold file_after. now rewrite E.
  - intros _ _. unfold file_after. now rewrite E.
Qed.

End SecondRun.

Lemma idempotent_when_outputs_have_no_marker_witness :
  file_after (py_marker_unless (lit "print( 1 + 2 )" ++ [LF; LF]) (lit "3"))
    (file_after (py_marker_unless (lit "print( 1 + 2 )" ++ [LF; LF]) (lit "3"))
       (lit "/*.py 1 + 2 */ old /*"))
  = file_after (py_marker_unless (lit "print( 1 + 2 )" ++ [LF; LF]) (lit "3"))
      (lit "/*.py 1 + 2 */ old /*").
Proof.
  apply (idempotent_when_outputs_have_no_marker
           (py_marker_unless (lit "print( 1 + 2 )" ++ [LF; LF]) (lit "3"))).
  - vm_compute. reflexivity.
  - vm_compute. reflexivity.
  - intros st outs Hs Ho. vm_compute in Hs. injection Hs as <-.
    vm_compute in Ho. injection Ho as <-.
    constructor; [|constructor].
    apply Find_none_iff; [discriminate | vm_compute; reflexivity].
Defined.

(** C8, as the specification words it, fails when a snippet prints the
    marker: on [/*.py '/'+'*' */ /*], with an interpreter that prints [/*],
    the first run writes [/*.py '/'+'*' */ /* /*] and the second run
    [/*.py '/'+'*' */ /* /* /*]. *)
Lemma idempotence_counterexample : ~ idempotence_as_written.
Proof.
  intros H. specialize (H (py_const "/*") (lit "/*.py '/'+'*' */ /*")).
  vm_compute in H. discriminate H.
Qed.

(** ** The assembled buffer *)


Lemma scan_never_out_of_fuel (file_data : bytes) :
  addressable file_data -> scan file_data <> OutOfFuel.
Proof.
  intros Haddr. unfold scan.
  destruct (scan_loop_fuel (S (length file_data)) (S (length file_data)) file_data
              (mk_scan [] [] []) Haddr) as [_ H]; try lia.
  destruct (scan_loop _ file_data _) as [[st r]| | |]; cbn [bind]; congruence.
Qed.

(** The closed form of one iteration is the expansion text of the
    specification. *)
Lemma expansion_is_text (out : bytes) (ml : bool) :
  Size out <= INTPTR_MAX -> expansion_text out ml (expansion out ml).
Proof.
  intros Hsz. unfold expansion, indent_bytes. destruct ml.
  - rewrite (indent_prefix_multiline out Hsz). cbn [separator].
    constructor. apply leading_ws_is_longest.
  - rewrite indent_prefix_single. cbn [separator]. constructor.
Qed.




(** ** A directive without a terminator *)

(** C5. When the closing marker of the first directive of a file is found
    and no [/*] follows it, the scanner does not stop with the rest of the
    file as its tail kept range: it records the directive, with the kept
    range up to and including the closing marker, and the tail kept range is
    empty.  When the interpreter answers, the buffer assembled is that kept
    range followed by the expansion text of the directive, and the bytes
    written are that buffer cut at its first NUL: whatever the file held
    after the closing marker is not written back. *)
Theorem unterminated_directive_replaces_tail (py : bytes -> option (list bytes))
    (file_data prog out : bytes) (ml : bool) (off e : nat) :
  addressable file_data ->
  leftmost pyexpand_keyword file_data 0 off ->
  leftmost (lit "*/") file_data (off + 5) e ->
  absent_from (lit "/*") file_data (e + 2) ->
  transform (body_between file_data off e) = Ok (prog, ml) ->
  run_python py prog = Ok out ->
  Size out <= INTPTR_MAX ->
  exists E,
    scan file_data = Ok (mk_scan [firstn (e + 2) file_data; []] [prog] [ml]) /\
    expansion_text out ml E /\
    assemble py file_data = Ok (firstn (e + 2) file_data ++ E) /\
    main py file_data = Ok (fmt_s (firstn (e + 2) file_data ++ E)).
Proof.
  intros Haddr Hoff He Ha HT Hrun Hsz.
  assert (Hscan : scan file_data
                  = Ok (mk_scan [firstn (e + 2) file_data; []] [prog] [ml])).
  { pose proof Hoff as (_ & Hocc & _). apply occurs_at_bound in Hocc.
    change (length pyexpand_keyword) with 5%nat in Hocc.
    unfold scan. replace (S (length file_data)) with (S (S (length file_data - 1))) by lia.
    destruct (scan_loop_without_terminator (length file_data - 1) file_data
                (mk_scan [] [] []) off e Haddr Hoff He Ha) as (prog' & ml' & HT' & ->).
    rewrite HT in HT'. injection HT' as <- <-. reflexivity. }
  assert (Hasm : assemble py file_data
                 = Ok (firstn (e + 2) file_data ++ expansion out ml)).
  { unfold assemble. rewrite Hscan. cbn [bind python_strings run_loop].
    rewrite Hrun. cbn [bind app ranges_to_keep python_strings_is_multiline].
    rewrite splice_closed by reflexivity. cbn [spliced].
    now rewrite !app_nil_r. }
  exists (expansion out ml). split; [exact Hscan|].
  split; [now apply expansion_is_text|]. split; [exact Hasm|].
  unfold main. now rewrite Hasm.
Qed.

Lemma unterminated_directive_replaces_tail_witness :
  exists E,
    scan (lit "/*.py 1+2 */ old")
    = Ok (mk_scan [firstn (10 + 2) (lit "/*.py 1+2 */ old"); []]
                  [lit "print( 1+2 )" ++ [LF]] [false]) /\
    expansion_text (lit "3") false E /\
    assemble (py_const "3") (lit "/*.py 1+2 */ old")
    = Ok (firstn (10 + 2) (lit "/*.py 1+2 */ old") ++ E) /\
    main (py_const "3") (lit "/*.py 1+2 */ old")
    = Ok (fmt_s (firstn (10 + 2) (lit "/*.py 1+2 */ old") ++ E)).
Proof.
  apply (unterminated_directive_replaces_tail (py_const "3") (lit "/*.py 1+2 */ old")
           (lit "print( 1+2 )" ++ [LF]) (lit "3") false 0 10).
  - vm_compute. reflexivity.
  - find_by_computation.
  - find_by_computation.
  - find_by_computation.
  - vm_compute. reflexivity.
  - vm_compute. reflexivity.
  - vm_compute. discriminate.
Defined.

(** ** Fuel is never exhausted *)

Lemma Slice_not_fuel (self : bytes) (from to : Z) : Slice self from to <> OutOfFuel.
Proof. unfold Slice. destruct (_ && _); discriminate. Qed.

Lemma normalize_not_fuel (python_result : bytes) : normalize python_result <> OutOfFuel.
Proof.
  unfold normalize.
  destruct (Slice python_result (Size python_result - 2) INTPTR_MAX) eqn:E;
    cbn [bind]; try discriminate.
  - destruct (bytes_eqb _ _); [apply Slice_not_fuel | discriminate].
  - intros _. exact (Slice_not_fuel _ _ _ E).
Qed.

Lemma run_loop_not_fuel (py : bytes -> option (list bytes)) (progs : list bytes) :
  forall acc, run_loop py progs acc <> OutOfFuel.
Proof.
  induction progs as [|p progs IH]; intros acc; simpl; [discriminate|].
  destruct (run_python py p) eqn:E; cbn [bind]; try discriminate; [apply IH|].
  unfold run_python in E. destruct (py _); [|discriminate].
  intros _. exact (normalize_not_fuel _ E).
Qed.

Lemma array_get_not_fuel {A : Type} (a : list A) (i : Z) : array_get a i <> OutOfFuel.
Proof.
  unfold array_get. destruct (nth_error a (Z.to_nat i)); [|discriminate].
  destruct (0 <=? i); discriminate.
Qed.

Lemma splice_loop_not_fuel (ranges outs : list bytes) (flags : list bool) (count : nat) :
  forall i result, splice_loop ranges outs flags count i result <> OutOfFuel.
Proof.
  induction count as [|count IH]; intros i result; simpl; [discriminate|].
  destruct (splice_step ranges outs flags i result) eqn:E; cbn [bind];
    try discriminate; [apply IH|].
  unfold splice_step in E. destruct (i >? 0).
  - destruct (array_get outs (i - 1)) eqn:E1; cbn [bind] in E; try discriminate;
      [|intros _; exact (array_get_not_fuel _ _ E1)].
    destruct (array_get flags (i - 1)) eqn:E2; cbn [bind] in E; try discriminate;
      [|intros _; exact (array_get_not_fuel _ _ E2)].
    rewrite indent_prefix_total in E. cbn [bind] in E.
    destruct (array_get ranges i) eqn:E3; cbn [bind] in E; try discriminate.
    intros _. exact (array_get_not_fuel _ _ E3).
  - cbn [bind] in E.
    destruct (array_get ranges i) eqn:E3; cbn [bind] in E; try discriminate.
    intros _. exact (array_get_not_fuel _ _ E3).
Qed.

(** The fuel given to the scanner loop always suffices: a run ends with the
    file written, with an abort, or with exit status 1. *)
Lemma main_never_out_of_fuel (py : bytes -> option (list bytes)) (file_data : bytes) :
  addressable file_data -> main py file_data <> OutOfFuel.
Proof.
  intros Haddr. unfold main, assemble.
  pose proof (scan_never_out_of_fuel file_data Haddr) as Hs.
  destruct (scan file_data) as [st| | |]; cbn [bind]; try discriminate; [|congruence].
  pose proof (run_loop_not_fuel py (python_strings st) []) as Hr.
  destruct (run_loop py (python_strings st) []) as [outs| | |]; cbn [bind];
    try discriminate; [|congruence].
  pose proof (splice_loop_not_fuel (ranges_to_keep st) outs
                (python_strings_is_multiline st) (length (ranges_to_keep st)) 0 []) as Hp.
  unfold splice. destruct (splice_loop _ _ _ _ _ _); cbn [bind]; congruence.
Qed.

(** ** The end-to-end scenarios of the specification *)

Example scenario_1 :
  transform (lit " 1 + 2 ") = Ok (lit "print( 1 + 2 )" ++ [LF], false) /\
  main (py_table [(lit "print( 1 + 2 )" ++ [LF; LF], lit "3")])
       (lit "/*.py 1 + 2 */ old /*")
  = Ok (lit "/*.py 1 + 2 */ 3 /*").
Proof. split; vm_compute; reflexivity. Qed.

Example scenario_2 :
  let body := [LF; TAB] ++ lit "a = 10" ++ [LF; TAB] ++ lit "return a*2" ++ [LF] in
  let program := lit "def user_fn():" ++ [LF; TAB] ++ lit "a = 10" ++ [LF; TAB]
                   ++ lit "return a*2" ++ [LF] ++ lit "print(user_fn())" ++ [LF] in
  transform body = Ok (program, true) /\
  main (py_table [(program ++ [LF], lit "20")])
       (lit "/*.py" ++ body ++ lit "*/ stale /*end*/")
  = Ok (lit "/*.py" ++ body ++ lit "*/" ++ [LF] ++ lit "20" ++ [LF] ++ lit "/*end*/").
Proof. split; vm_compute; reflexivity. Qed.

Example scenario_3 :
  let body := [LF] ++ lit "x=1" ++ [LF] ++ lit "y=2" ++ [LF] in
  transform body = Ok (error_program, false) /\
  main (py_table [(error_program ++ [LF],
                   lit "Error: No return statement found in a multiline code block!")])
       (lit "/*.py" ++ body ++ lit "*/ xx /*tail*/")
  = Ok (lit "/*.py" ++ body
          ++ lit "*/ Error: No return statement found in a multiline code block! /*tail*/").
Proof. split; vm_compute; reflexivity. Qed.

Example scenario_5 :
  main (py_table [(lit "print( 2*2 )" ++ [LF; LF], lit "4");
                  (lit "print( 3+4 )" ++ [LF; LF], lit "7")])
       (lit "A /*.py 2*2 */ _ /* mid */ B /*.py 3+4 */ _ /* end */")
  = Ok (lit "A /*.py 2*2 */ 4 /* mid */ B /*.py 3+4 */ 7 /* end */").
Proof. vm_compute. reflexivity. Qed.

Example scenario_6 :
  normalize (lit "3" ++ [CR; LF]) = Ok (lit "3") /\
  normalize (lit "3" ++ [LF]) = Ok (lit "3" ++ [LF]).
Proof. split; vm_compute; reflexivity. Qed.

(** A directive without a terminator, end to end: the expansion is spliced
    after the closing marker and replaces the rest of the file. *)
Example unterminated_directive_is_expanded :
  main (py_table [(lit "print( 1+2 )" ++ [LF; LF], lit "3")]) (lit "/*.py 1+2 */ old")
  = Ok (lit "/*.py 1+2 */ 3 ").
Proof. vm_compute. reflexivity. Qed.

(** * Further properties of the code *)

(** ** DS_StringView *)

(** X1. [Find] with a non-empty pattern and a start inside the view returns
    an offset between the start and [Size]: the leftmost occurrence at or
    after the start when there is one, and [Size] exactly when there is
    none. *)
Theorem Find_returns_leftmost (self other : bytes) (start : nat) :
  other <> [] -> (start <= length self)%nat ->
  exists r,
    Find self other (Z.of_nat start) = Ok (Z.of_nat r) /\
    (start <= r <= length self)%nat /\
    ((r < length self)%nat /\ leftmost other self start r \/
     r = length self /\ absent_from other self start).
Proof.
  intros Hne Hst. destruct (Find_cases self other start Hne Hst) as (r & HF & Hr).
  exists r. split; [exact HF|]. split; [|exact Hr].
  destruct Hr as [[Hlt (Hle & _)]|[-> _]]; lia.
Qed.

Lemma Find_returns_leftmost_witness :
  exists r,
    Find (lit "a*/b*/") (lit "*/") (Z.of_nat 2) = Ok (Z.of_nat r) /\
    (2 <= r <= length (lit "a*/b*/"))%nat /\
    ((r < length (lit "a*/b*/"))%nat /\ leftmost (lit "*/") (lit "a*/b*/") 2 r \/
     r = length (lit "a*/b*/") /\ absent_from (lit "*/") (lit "a*/b*/") 2).
Proof.
  apply (Find_returns_leftmost (lit "a*/b*/") (lit "*/") 2).
  - discriminate.
  - simpl. lia.
Defined.

(** X2. [Find] aborts on the assertion exactly when the start is negative or
    beyond [Size]; with an empty pattern and a start inside the view it
    returns the start itself. *)
Theorem Find_start_and_empty_pattern (self other : bytes) (start_from : Z) :
  (Find self other start_from = AssertFail <->
   start_from < 0 \/ Size self < start_from) /\
  (0 <= start_from <= Size self -> Find self [] start_from = Ok start_from).
Proof.
  split.
  - unfold Find.
    destruct (Z.leb_spec 0 start_from), (Z.leb_spec start_from (Size self)); simpl;
      try (split; [reflexivity | lia]);
      try (split; [intros _; lia | reflexivity]).
    split; [|lia]. intros H'.
    destruct (Size other <=? Size self); [|discriminate].
    destruct (Find_loop _ _ _ _); discriminate.
  - intros [H0 H1]. unfold Find.
    replace ((0 <=? start_from) && (start_from <=? Size self)) with true
      by (symmetry; rewrite andb_true_iff, !Z.leb_le; lia).
    change (Size []) with 0.
    replace (0 <=? Size self) with true by (symmetry; apply Z.leb_le; lia).
    replace (Z.to_nat (Size self - 0 - start_from + 1))
      with (S (Z.to_nat (Size self - start_from))) by lia.
    simpl. f_equal. lia.
Qed.

Lemma RFind_loop_some (Data other : bytes) (ptr r : nat) :
  RFind_loop Data other ptr = Some r ->
  (r <= ptr)%nat /\ memcmp_eq (skipn r Data) other = true /\
  forall q, (r < q <= ptr)%nat -> memcmp_eq (skipn q Data) other = false.
Proof.
  induction ptr as [|ptr IH]; cbn [RFind_loop];
    match goal with |- (if ?c then _ else _) = _ -> _ => destruct c eqn:E end.
  - intros [= <-]. repeat split; [lia | exact E | intros q Hq; lia].
  - discriminate.
  - intros [= <-]. repeat split; [lia | exact E | intros q Hq; lia].
  - intros H. apply IH in H as (H1 & H2 & H3). repeat split; [lia | exact H2 |].
    intros q Hq. destruct (Nat.eq_dec q (S ptr)) as [->|]; [exact E | apply H3; lia].
Qed.

Lemma RFind_loop_none (Data other : bytes) (ptr : nat) :
  RFind_loop Data other ptr = None ->
  forall q, (q <= ptr)%nat -> memcmp_eq (skipn q Data) other = false.
Proof.
  induction ptr as [|ptr IH]; cbn [RFind_loop];
    match goal with |- (if ?c then _ else _) = _ -> _ => destruct c eqn:E end;
    try discriminate.
  - intros _ q Hq. replace q with 0%nat by lia. exact E.
  - intros H q Hq.
    destruct (Nat.eq_dec q (S ptr)) as [->|]; [exact E | apply IH; [exact H | lia]].
Qed.

(** X3. [RFind] returns the rightmost occurrence of [other] that ends at or
    before the smaller of [start_from] and [Size], and [Size] when no
    occurrence ends there (a negative [start_from] included). *)
Theorem RFind_returns_rightmost (self other : bytes) (start_from : Z) :
  let limit := Z.min start_from (Size self) in
  (exists p,
     RFind self other start_from = Z.of_nat p /\
     occurs_at other self p /\ Z.of_nat (p + length other) <= limit /\
     forall q, occurs_at other self q -> Z.of_nat (q + length other) <= limit ->
               (q <= p)%nat) \/
  (RFind self other start_from = Size self /\
   forall q, occurs_at other self q -> limit < Z.of_nat (q + length other)).
Proof.
  intros limit. unfold RFind.
  replace (if start_from >=? Size self then Size self else start_from) with limit
    by (unfold limit; destruct (Z.geb_spec start_from (Size self)); lia).
  assert (Hlim : limit <= Size self) by (unfold limit; lia).
  unfold Size in *.
  destruct (Z.leb_spec (Z.of_nat (length other)) (Z.of_nat (length self))) as [Hle|Hgt].
  2:{ right. split; [reflexivity|]. intros q Hq. apply occurs_at_bound in Hq. lia. }
  destruct (Z.geb_spec (limit - Z.of_nat (length other)) 0) as [Hge|Hneg].
  2:{ right. split; [reflexivity|]. intros q Hq. lia. }
  destruct (RFind_loop self other _) as [p|] eqn:E.
  - left. exists p. apply RFind_loop_some in E as (H1 & H2 & H3).
    apply memcmp_eq_occurs in H2; [|lia].
    split; [reflexivity|]. split; [exact H2|]. split; [lia|].
    intros q Hq Hb. destruct (Nat.le_gt_cases q p) as [Hqp|Hqp]; [exact Hqp|]. exfalso.
    apply memcmp_eq_occurs in Hq; [|lia]. rewrite H3 in Hq; [discriminate | lia].
  - right. split; [reflexivity|]. intros q Hq.
    destruct (Z.lt_ge_cases limit (Z.of_nat (q + length other))) as [Hlt|Hb]; [exact Hlt|].
    exfalso. apply memcmp_eq_occurs in Hq; [|lia].
    rewrite (RFind_loop_none _ _ _ E) in Hq; [discriminate | lia].
Qed.

Lemma Split_rejoin (self split_by : bytes) :
  split_by <> [] ->
  exists line rest,
    Split self split_by = Ok (line, rest) /\
    ~ contains split_by line /\
    (contains split_by self /\ self = line ++ split_by ++ rest \/
     ~ contains split_by self /\ line = self /\ rest = []).
Proof.
  intros Hne. destruct (Split_cases self split_by Hne) as (r & Hr & HS & Hcase).
  rewrite HS. eexists _, _. split; [reflexivity|].
  assert (Hlen : (0 < length split_by)%nat)
    by (destruct split_by; simpl; [congruence | lia]).
  destruct Hcase as [[Hlt (_ & Hocc & Hmin)]|[-> Ha]].
  - pose proof (occurs_at_bound _ _ _ Hocc) as Hb. split.
    + rewrite contains_occurs. intros (q & Hq).
      pose proof (occurs_at_bound _ _ _ Hq) as Hbq. rewrite length_firstn in Hbq.
      apply (Hmin q); [lia|].
      rewrite <- (firstn_skipn r self). apply occurs_at_app_l; [|exact Hq].
      rewrite length_firstn. lia.
    + left. split; [apply contains_occurs; eauto|].
      destruct Hocc as (pre & post & -> & <-).
      rewrite firstn_app, firstn_all, Nat.sub_diag. simpl. rewrite app_nil_r.
      do 2 f_equal. rewrite Nat.min_l by (rewrite !length_app; lia).
      rewrite skipn_app. rewrite skipn_all2 by lia. simpl.
      replace (length pre + length split_by - length pre)%nat
        with (length split_by) by lia.
      rewrite skipn_app, skipn_all, Nat.sub_diag. reflexivity.
  - assert (Hno : ~ contains split_by self).
    { rewrite contains_occurs. intros (q & Hq). apply (Ha q); [lia | exact Hq]. }
    rewrite firstn_all. split; [exact Hno|]. right. split; [exact Hno|].
    split; [reflexivity|]. apply skipn_all2. lia.
Qed.

(** X4. [Split] cuts at the leftmost occurrence of a non-empty separator:
    the line returned has no occurrence of the separator, and either the
    separator occurs and line, separator and the new view put together give
    back the old view, or it does not occur, the line is the whole view and
    the new view is empty.  On a non-empty view the new view is strictly
    shorter, which is what ends the [while (lines.Size > 0)] loops. *)
Theorem Split_cuts_at_first_separator (self split_by : bytes) :
  split_by <> [] ->
  exists line rest,
    Split self split_by = Ok (line, rest) /\
    ~ contains split_by line /\
    (contains split_by self /\ self = line ++ split_by ++ rest \/
     ~ contains split_by self /\ line = self /\ rest = []) /\
    (self <> [] -> (length rest < length self)%nat).
Proof.
  intros Hne. destruct (Split_rejoin self split_by Hne) as (line & rest & HS & Hl & Hcase).
  exists line, rest. split; [exact HS|]. split; [exact Hl|]. split; [exact Hcase|].
  intros Hs. destruct Hcase as [[_ E]|[_ [_ ->]]].
  - rewrite E, !length_app. destruct split_by; [congruence | simpl; lia].
  - destruct self; [congruence | simpl; lia].
Qed.

Lemma Split_cuts_at_first_separator_witness :
  exists line rest,
    Split (lit "a=1;b=2;") (lit ";") = Ok (line, rest) /\
    ~ contains (lit ";") line /\
    (contains (lit ";") (lit "a=1;b=2;") /\ lit "a=1;b=2;" = line ++ lit ";" ++ rest \/
     ~ contains (lit ";") (lit "a=1;b=2;") /\ line = lit "a=1;b=2;" /\ rest = []) /\
    (lit "a=1;b=2;" <> [] -> (length rest < length (lit "a=1;b=2;"))%nat).
Proof.
  apply (Split_cuts_at_first_separator (lit "a=1;b=2;") (lit ";")). discriminate.
Defined.

(** X5. Slices compose and partition: a slice of a slice is the slice of the
    original view at the added offsets, and the slice up to an offset
    followed by the slice from that offset is the view itself. *)
Theorem Slice_composes (self : bytes) (a b c d : nat) :
  Size self <= INTPTR_MAX ->
  (a <= b <= length self)%nat -> (c <= d <= b - a)%nat ->
  (inner <- Slice self (Z.of_nat a) (Z.of_nat b) ;;
   Slice inner (Z.of_nat c) (Z.of_nat d))
  = Slice self (Z.of_nat (a + c)) (Z.of_nat (a + d)) /\
  (exists l r,
     Slice self 0 (Z.of_nat b) = Ok l /\
     Slice self (Z.of_nat b) INTPTR_MAX = Ok r /\ self = l ++ r).
Proof.
  intros Hsz Hab Hcd. split.
  - rewrite Slice_ok by lia. cbn [bind].
    assert (Hl : length (firstn (b - a) (skipn a self)) = (b - a)%nat)
      by (rewrite length_firstn, length_skipn; lia).
    rewrite Slice_ok; [| rewrite Hl; lia | unfold Size in *; rewrite Hl; lia].
    rewrite Slice_ok by lia. f_equal.
    replace (a + d - (a + c))%nat with (d - c)%nat by lia.
    rewrite skipn_firstn_comm, firstn_firstn, Nat.min_l by lia.
    rewrite skipn_skipn. now rewrite (Nat.add_comm c a).
  - change 0 with (Z.of_nat 0). rewrite Slice_ok by lia. rewrite Slice_default by lia.
    eexists _, _. split; [reflexivity|]. split; [reflexivity|].
    rewrite skipn_O, Nat.sub_0_r. symmetry. apply firstn_skipn.
Qed.

Lemma Slice_composes_witness :
  (inner <- Slice (lit "/*.py 1+2 */") (Z.of_nat 5) (Z.of_nat 10) ;;
   Slice inner (Z.of_nat 1) (Z.of_nat 4))
  = Slice (lit "/*.py 1+2 */") (Z.of_nat (5 + 1)) (Z.of_nat (5 + 4)) /\
  (exists l r,
     Slice (lit "/*.py 1+2 */") 0 (Z.of_nat 10) = Ok l /\
     Slice (lit "/*.py 1+2 */") (Z.of_nat 10) INTPTR_MAX = Ok r /\
     lit "/*.py 1+2 */" = l ++ r).
Proof.
  apply (Slice_composes (lit "/*.py 1+2 */") 5 10 1 4).
  - vm_compute. discriminate.
  - simpl. lia.
  - simpl. lia.
Defined.

(** ** Output normalizer *)

(** X6. On a captured output of two bytes or more the normalizer returns the
    output without its last two bytes when these are CR LF, and the output
    itself otherwise; it never removes more than one CR LF pair. *)
Theorem normalize_trims_one_CRLF (out : bytes) :
  (2 <= length out)%nat -> Size out <= INTPTR_MAX ->
  (forall body, out = body ++ [CR; LF] -> normalize out = Ok body) /\
  ((forall body, out <> body ++ [CR; LF]) -> normalize out = Ok out) /\
  (forall body, out = body ++ [CR; LF; CR; LF] ->
                normalize out = Ok (body ++ [CR; LF])).
Proof.
  intros H Hsz. destruct (normalize_long out H Hsz) as [H1 H2].
  split; [exact H1|]. split; [exact H2|].
  intros body Hb. apply H1. rewrite Hb, <- app_assoc. reflexivity.
Qed.

Lemma normalize_trims_one_CRLF_witness :
  (forall body, lit "20" ++ [CR; LF] = body ++ [CR; LF] ->
                normalize (lit "20" ++ [CR; LF]) = Ok body) /\
  ((forall body, lit "20" ++ [CR; LF] <> body ++ [CR; LF]) ->
   normalize (lit "20" ++ [CR; LF]) = Ok (lit "20" ++ [CR; LF])) /\
  (forall body, lit "20" ++ [CR; LF] = body ++ [CR; LF; CR; LF] ->
                normalize (lit "20" ++ [CR; LF]) = Ok (body ++ [CR; LF])).
Proof.
  apply (normalize_trims_one_CRLF (lit "20" ++ [CR; LF])).
  - simpl. lia.
  - vm_compute. discriminate.
Defined.

(** ** Snippet transformer, multi-statement branch *)

Lemma user_fn_lines_step (fuel : nat) (lines acc line rest : bytes) :
  lines <> [] -> Split lines [LF] = Ok (line, rest) ->
  user_fn_lines (S fuel) lines acc = user_fn_lines fuel rest (acc ++ user_fn_line line).
Proof.
  intros Hs HS. cbn [user_fn_lines]. rewrite (proj2 (Size_pos_iff lines) Hs), HS.
  cbn [bind]. f_equal. unfold user_fn_line.
  destruct ((Size line >? 0) && Ascii.eqb (at_index line (Size line - 1)) CR);
    cbv zeta;
    match goal with |- context [Size ?l >? 0] => destruct (Size l >? 0) end;
    try (now rewrite app_nil_r);
    match goal with |- context [if ?c then _ ++ [TAB] else _] => destruct c end;
    now rewrite <- ?app_assoc.
Qed.

Lemma spec_split_lf_no_LF (l cur : bytes) :
  ~ In LF l -> spec_split_lf l cur = [cur ++ l].
Proof.
  revert cur. induction l as [|c l IH]; intros cur H; simpl; [now rewrite app_nil_r|].
  destruct (Ascii.eqb_spec c LF) as [->|_]; [exfalso; apply H; now left|].
  rewrite IH by (intros Hin; apply H; now right). now rewrite <- app_assoc.
Qed.

Lemma spec_split_lf_first_LF (l rest cur : bytes) :
  ~ In LF l -> spec_split_lf (l ++ LF :: rest) cur = (cur ++ l) :: spec_split_lf rest [].
Proof.
  revert cur. induction l as [|c l IH]; intros cur H; simpl.
  - now rewrite app_nil_r.
  - destruct (Ascii.eqb_spec c LF) as [->|_]; [exfalso; apply H; now left|].
    rewrite IH by (intros Hin; apply H; now right). now rewrite <- app_assoc.
Qed.

Lemma In_contains_byte (c : ascii) (l : bytes) : In c l <-> contains [c] l.
Proof.
  split.
  - intros H. apply in_split in H as (pre & post & ->). now exists pre, post.
  - intros (pre & post & ->). apply in_or_app. right. now left.
Qed.

(** The loop of the multi-statement branch in closed form. *)
Lemma user_fn_lines_closed (fuel : nat) :
  forall lines acc, (length lines <= fuel)%nat ->
    user_fn_lines fuel lines acc =
      Ok (acc ++ concat (map user_fn_line (LF_lines lines))).
Proof.
  unfold LF_lines.
  induction fuel as [|fuel IH]; intros lines acc Hf.
  - destruct lines; [|simpl in Hf; lia]. cbn. now rewrite app_nil_r.
  - destruct lines as [|b lines'] eqn:El; [cbn; now rewrite app_nil_r|].
    rewrite <- El in *. assert (Hs : lines <> []) by (subst; discriminate).
    destruct (Split_rejoin lines [LF]) as (line & rest & HS & Hline & Hcase);
      [discriminate|].
    rewrite (user_fn_lines_step fuel lines acc line rest Hs HS).
    pose proof (Split_shrinks lines [LF] _ _ ltac:(discriminate) Hs HS) as Hlt.
    rewrite IH by lia. f_equal. rewrite <- In_contains_byte in Hline.
    destruct Hcase as [[_ E]|[_ [E ->]]].
    + rewrite E. change ([LF] ++ rest) with (LF :: rest).
      rewrite (spec_split_lf_first_LF line rest [] Hline). cbn. now rewrite <- app_assoc.
    + subst line. rewrite (spec_split_lf_no_LF lines [] Hline). cbn.
      now rewrite !app_nil_r.
Qed.

(** X7. The program generated for a body that contains [return]: the line
    [def user_fn():], then for each LF-separated segment of the body, in
    order, nothing when the segment is empty once one trailing CR is
    removed, and otherwise the segment without that CR, behind a tab unless
    it starts with a tab or a space, and followed by a line feed; then the
    line [print(user_fn())]. *)
Theorem transform_multi_statement_program (body : bytes) :
  contains (lit "return") body ->
  transform body =
    Ok (lit "def user_fn():" ++ [LF]
          ++ concat (map user_fn_line (LF_lines body))
          ++ lit "print(user_fn())" ++ [LF],
        true).
Proof.
  intros Hc. unfold transform.
  destruct (is_multiline_of_spec body) as (b & Hb & Hiff). rewrite Hb. cbn [bind].
  apply Hiff in Hc. subst b.
  rewrite user_fn_lines_closed by lia. cbn [bind]. now rewrite <- !app_assoc.
Qed.

Lemma transform_multi_statement_program_witness :
  transform (lit "x = 1" ++ [CR; LF; LF] ++ lit " return x") =
    Ok (lit "def user_fn():" ++ [LF]
          ++ concat (map user_fn_line (LF_lines (lit "x = 1" ++ [CR; LF; LF] ++ lit " return x")))
          ++ lit "print(user_fn())" ++ [LF],
        true).
Proof.
  apply (transform_multi_statement_program (lit "x = 1" ++ [CR; LF; LF] ++ lit " return x")).
  exists (lit "x = 1" ++ [CR; LF; LF] ++ lit " "), (lit " x"). reflexivity.
Defined.

Lemma contains_split_byte (o A B : bytes) (c : ascii) :
  ~ In c o -> contains o (A ++ c :: B) -> contains o A \/ contains o B.
Proof.
  intros Hc. rewrite !contains_occurs. intros (p & Hp).
  apply occurs_at_nth in Hp as [Hb Hn]. rewrite length_app in Hb. simpl in Hb.
  destruct (Nat.le_gt_cases (p + length o) (length A)) as [HinA|HnotA].
  - left. exists p. apply occurs_at_nth. split; [exact HinA|].
    intros i Hi. rewrite <- (Hn i Hi). symmetry. apply nth_error_app1. lia.
  - destruct (Nat.le_gt_cases p (length A)) as [Hle|Hgt].
    + exfalso. apply Hc. specialize (Hn (length A - p)%nat ltac:(lia)).
      rewrite nth_error_app2 in Hn by lia.
      replace (p + (length A - p) - length A)%nat with 0%nat in Hn by lia.
      simpl in Hn. symmetry in Hn. now apply nth_error_In in Hn.
    + right. exists (p - length A - 1)%nat. apply occurs_at_nth. split; [lia|].
      intros i Hi. rewrite <- (Hn i Hi). rewrite nth_error_app2 by lia.
      replace (p + i - length A)%nat with (S (p - length A - 1 + i)) by lia.
      reflexivity.
Qed.

Lemma first_LF_decomposition (s : bytes) :
  ~ In LF s \/ exists l rest, s = l ++ LF :: rest /\ ~ In LF l.
Proof.
  induction s as [|c s IH]; [left; simpl; tauto|].
  destruct (Ascii.eqb_spec c LF) as [->|Hc].
  - right. exists [], s. simpl. tauto.
  - destruct IH as [IH|(l & rest & -> & Hl)].
    + left. intros [H|H]; [congruence | contradiction].
    + right. exists (c :: l), rest. split; [reflexivity|].
      intros [H|H]; [congruence | contradiction].
Qed.

Lemma user_fn_line_cases (line : bytes) :
  ~ In LF line ->
  (user_fn_line line = [] /\ (length line < 2)%nat) \/
  (exists l, user_fn_line line = l ++ [LF] /\ indented_line l).
Proof.
  intros HLF. unfold user_fn_line.
  set (line' := if (Size line >? 0) && Ascii.eqb (at_index line (Size line - 1)) CR
                then firstn (Z.to_nat (Size line - 1)) line else line).
  assert (Hsub : exists tail, line = line' ++ tail /\ (length tail <= 1)%nat).
  { unfold line'. destruct (_ && _).
    - exists (skipn (Z.to_nat (Size line - 1)) line). split; [symmetry; apply firstn_skipn|].
      rewrite length_skipn. unfold Size. lia.
    - exists []. split; [now rewrite app_nil_r | simpl; lia]. }
  destruct Hsub as (tail & Hline & Htail).
  assert (HLF' : ~ In LF line').
  { intros H. apply HLF. rewrite Hline. apply in_or_app. now left. }
  clearbody line'. destruct line' as [|c rest].
  - left. split; [reflexivity|]. rewrite Hline. simpl. lia.
  - right. replace (Size (c :: rest) >? 0) with true
      by (symmetry; apply Size_pos_iff; discriminate).
    change (at_index (c :: rest) 0) with c.
    destruct (Ascii.eqb_spec c TAB) as [->|HT]; simpl negb; cbn [andb].
    + exists (TAB :: rest). split; [reflexivity|]. split; [exact HLF'|].
      exists TAB, rest. split; [reflexivity | now right].
    + destruct (Ascii.eqb_spec c SPACE) as [->|HS]; simpl negb.
      * exists (SPACE :: rest). split; [reflexivity|]. split; [exact HLF'|].
        exists SPACE, rest. split; [reflexivity | now left].
      * exists (TAB :: c :: rest). split; [reflexivity|]. split.
        -- intros [H|H]; [discriminate H | contradiction].
        -- exists TAB, (c :: rest). split; [reflexivity | now right].
Qed.

Lemma function_body_lines (s : bytes) :
  exists lines,
    concat (map user_fn_line (LF_lines s)) = concat (map (fun l => l ++ [LF]) lines) /\
    Forall indented_line lines /\
    (contains (lit "return") s -> lines <> []).
Proof.
  unfold LF_lines.
  induction s as [s IH] using (induction_ltof1 _ (@length ascii)). unfold ltof in IH.
  assert (Hlong : forall l, contains (lit "return") l -> (6 <= length l)%nat).
  { intros l (pre & post & ->). rewrite !length_app. simpl. lia. }
  destruct (first_LF_decomposition s) as [HLF|(l & rest & -> & HLF)].
  - rewrite (spec_split_lf_no_LF s [] HLF). cbn [app map concat]. rewrite app_nil_r.
    destruct (user_fn_line_cases s HLF) as [[E Hshort]|(l' & E & Hl')].
    + exists []. rewrite E. split; [reflexivity|]. split; [constructor|].
      intros Hc. apply Hlong in Hc. lia.
    + exists [l']. rewrite E. cbn. rewrite app_nil_r. split; [reflexivity|].
      split; [now constructor | discriminate].
  - rewrite (spec_split_lf_first_LF l rest [] HLF). cbn [app map concat].
    destruct (IH rest) as (lines & E & Hlines & Hne).
    { rewrite length_app. simpl. lia. }
    rewrite E.
    assert (Hret : ~ In LF (lit "return")).
    { simpl. intros H. repeat (destruct H as [H|H]; [discriminate H|]). exact H. }
    destruct (user_fn_line_cases l HLF) as [[El Hshort]|(l' & El & Hl')].
    + exists lines. rewrite El. split; [reflexivity|]. split; [exact Hlines|].
      intros Hc. apply contains_split_byte in Hc as [Hc|Hc]; [|now apply Hne | exact Hret].
      apply Hlong in Hc. lia.
    + exists (l' :: lines). rewrite El. split; [reflexivity|].
      split; [now constructor | discriminate].
Qed.

(** X8. The function the multi-statement program defines has a body: the
    program is the line [def user_fn():], one or more lines that each start
    with a tab or a space, and the line [print(user_fn())]. *)
Theorem transform_function_body_indented (body : bytes) :
  contains (lit "return") body ->
  exists lines,
    transform body =
      Ok (lit "def user_fn():" ++ [LF]
            ++ concat (map (fun l => l ++ [LF]) lines)
            ++ lit "print(user_fn())" ++ [LF],
          true) /\
    lines <> [] /\ Forall indented_line lines.
Proof.
  intros Hc. unfold transform.
  destruct (is_multiline_of_spec body) as (b & Hb & Hiff). rewrite Hb. cbn [bind].
  pose proof (proj2 Hiff Hc) as ->.
  rewrite user_fn_lines_closed by lia. cbn [bind].
  destruct (function_body_lines body) as (lines & E & Hlines & Hne).
  exists lines. rewrite E, <- !app_assoc. split; [reflexivity|]. split; [auto | exact Hlines].
Qed.

Lemma transform_function_body_indented_witness :
  exists lines,
    transform (lit "x = 1" ++ [CR; LF; LF] ++ lit " return x") =
      Ok (lit "def user_fn():" ++ [LF]
            ++ concat (map (fun l => l ++ [LF]) lines)
            ++ lit "print(user_fn())" ++ [LF],
          true) /\
    lines <> [] /\ Forall indented_line lines.
Proof.
  apply (transform_function_body_indented (lit "x = 1" ++ [CR; LF; LF] ++ lit " return x")).
  exists (lit "x = 1" ++ [CR; LF; LF] ++ lit " "), (lit " x"). reflexivity.
Defined.

(** ** Directive scanner *)

Lemma scan_loop_inv (fuel : nat) (remaining : bytes) (st : scan_state) (r : bytes) :
  addressable remaining ->
  scan_loop (S fuel) remaining (mk_scan [] [] []) = Ok (st, r) ->
  (~ contains pyexpand_keyword remaining /\ st = mk_scan [] [] [] /\ r = remaining) \/
  (exists off e t prog ml st',
     leftmost pyexpand_keyword remaining 0 off /\
     leftmost (lit "*/") remaining (off + 5) e /\
     terminator_at remaining e t /\
     scan_loop fuel (skipn t remaining) (mk_scan [] [] []) = Ok (st', r) /\
     st = scan_app (mk_scan [firstn (e + 2) remaining] [prog] [ml]) st').
Proof.
  intros Haddr H. cbn [scan_loop] in H.
  destruct (scan_body_cases remaining Haddr)
    as [[Hno E]|[(off & _ & _ & E)|(off & e & t & prog & ml & Hoff & He & Ht & _ & E)]];
    rewrite E in H; cbn [bind] in H; try discriminate.
  - left. injection H as <- <-. auto.
  - right. exists off, e, t, prog, ml. rewrite scan_loop_acc in H.
    destruct (scan_loop fuel (skipn t remaining) (mk_scan [] [] [])) as [[st' r']| | |];
      cbn [bind] in H; try discriminate.
    injection H as <- <-. exists st'. auto.
Qed.

Lemma scan_loop_partition (fuel : nat) :
  forall remaining st r,
    addressable remaining ->
    scan_loop fuel remaining (mk_scan [] [] []) = Ok (st, r) ->
    exists gaps,
      length gaps = length (python_strings st) /\
      remaining = rebuild (ranges_to_keep st ++ [r]) gaps /\
      Forall (fun G => ~ contains (lit "/*") G) gaps /\
      Forall opens_comment_or_empty (tl (ranges_to_keep st ++ [r])) /\
      (opens_comment_or_empty remaining ->
       opens_comment_or_empty (hd [] (ranges_to_keep st ++ [r]))).
Proof.
  induction fuel as [|fuel IH]; intros remaining st r Haddr H; [discriminate|].
  destruct (scan_loop_inv fuel remaining st r Haddr H)
    as [(_ & -> & ->)|(off & e & t & prog & ml & st' & Hoff & He & Ht & Hloop & ->)].
  - exists []. cbn. repeat split; auto.
  - pose proof He as (Hoe & Hocce & _).
    pose proof (occurs_at_bound _ _ _ Hocce) as Hbe. simpl in Hbe.
    pose proof (terminator_at_bounds _ _ _ Ht Hbe) as Htb.
    assert (Haddr' : addressable (skipn t remaining))
      by (apply (addressable_shorter remaining); [exact Haddr | rewrite length_skipn; lia]).
    destruct (IH _ _ _ Haddr' Hloop) as (gaps & Hlen & Hreb & Hgaps & Htl & Hhd).
    set (G := firstn (t - (e + 2)) (skipn (e + 2) remaining)).
    assert (Hsplit : remaining = firstn (e + 2) remaining ++ G ++ skipn t remaining).
    { unfold G. rewrite <- (firstn_skipn (e + 2) remaining) at 1. f_equal.
      rewrite <- (firstn_skipn (t - (e + 2)) (skipn (e + 2) remaining)) at 1. f_equal.
      rewrite skipn_skipn. f_equal. lia. }
    assert (Hrest : opens_comment_or_empty (skipn t remaining)).
    { destruct Ht as [(_ & Hocc & _)|[_ ->]].
      - right. apply occurs_at_skipn in Hocc as [_ [post Hp]]. eauto.
      - left. apply skipn_all. }
    exists (G :: gaps). unfold scan_app. cbn [ranges_to_keep python_strings app length].
    split; [now rewrite Hlen|]. split; [|split; [|split]].
    + cbn [rebuild]. rewrite <- Hreb. exact Hsplit.
    + constructor; [|exact Hgaps]. rewrite contains_occurs. intros (q & Hq).
      pose proof (occurs_at_bound _ _ _ Hq) as Hbq. simpl in Hbq.
      assert (HG : length G = (t - (e + 2))%nat)
        by (unfold G; rewrite length_firstn, length_skipn; lia).
      assert (Hocc : occurs_at (lit "/*") remaining (e + 2 + q)).
      { rewrite Hsplit.
        replace (e + 2 + q)%nat with (length (firstn (e + 2) remaining) + q)%nat
          by (rewrite length_firstn; lia).
        apply occurs_at_app_r. apply occurs_at_app_l; [simpl; lia | exact Hq]. }
      destruct Ht as [(_ & _ & Hmin)|[Ha _]].
      * apply (Hmin (e + 2 + q)%nat); [lia | exact Hocc].
      * apply (Ha (e + 2 + q)%nat); [lia | exact Hocc].
    + cbn [tl]. destruct (ranges_to_keep st' ++ [r]) as [|K Ks] eqn:EK.
      * constructor.
      * constructor; [apply Hhd; exact Hrest | exact Htl].
    + intros [E|[post E]]; [rewrite E in Hbe; simpl in Hbe; lia|].
      right. rewrite E. replace (e + 2)%nat with (S (S e)) by lia. simpl. eauto.
Qed.

(** X9. The scanner partitions the file: the kept ranges, with one replaced
    region after each range but the last, put together in order give back
    the file.  There is one replaced region per directive, no replaced
    region contains the marker [/*], and every kept range after the first
    is empty or starts with it. *)
Theorem scan_partitions_file (file_data : bytes) (st : scan_state) :
  addressable file_data -> scan file_data = Ok st ->
  exists gaps,
    length gaps = length (python_strings st) /\
    file_data = rebuild (ranges_to_keep st) gaps /\
    Forall (fun G => ~ contains (lit "/*") G) gaps /\
    Forall opens_comment_or_empty (tl (ranges_to_keep st)).
Proof.
  intros Haddr H. unfold scan in H.
  destruct (scan_loop _ file_data _) as [[st0 r]| | |] eqn:E; try discriminate.
  cbn [bind] in H. injection H as <-.
  destruct (scan_loop_partition _ _ _ _ Haddr E) as (gaps & H1 & H2 & H3 & H4 & _).
  exists gaps. cbn [ranges_to_keep python_strings]. auto.
Qed.

Lemma scan_partitions_file_witness :
  exists gaps,
    length gaps = length (python_strings
       (mk_scan [lit "A /*.py 2*2 */"; lit "/* mid */ B /*.py 3+4 */"; lit "/* end */"]
                [lit "print( 2*2 )" ++ [LF]; lit "print( 3+4 )" ++ [LF]] [false; false])) /\
    lit "A /*.py 2*2 */ _ /* mid */ B /*.py 3+4 */ _ /* end */" =
      rebuild (ranges_to_keep
       (mk_scan [lit "A /*.py 2*2 */"; lit "/* mid */ B /*.py 3+4 */"; lit "/* end */"]
                [lit "print( 2*2 )" ++ [LF]; lit "print( 3+4 )" ++ [LF]] [false; false])) gaps /\
    Forall (fun G => ~ contains (lit "/*") G) gaps /\
    Forall opens_comment_or_empty (tl (ranges_to_keep
       (mk_scan [lit "A /*.py 2*2 */"; lit "/* mid */ B /*.py 3+4 */"; lit "/* end */"]
                [lit "print( 2*2 )" ++ [LF]; lit "print( 3+4 )" ++ [LF]] [false; false]))).
Proof.
  apply (scan_partitions_file (lit "A /*.py 2*2 */ _ /* mid */ B /*.py 3+4 */ _ /* end */")).
  - vm_compute. reflexivity.
  - vm_compute. reflexivity.
Defined.

(** ** How a run ends *)







(** X11. A file whose first opening marker has no closing marker after it
    stops every run on the assertion of [Slice], before the interpreter is
    started, and is left as it was. *)
Theorem unclosed_first_directive_aborts
    (py : bytes -> option (list bytes)) (file_data : bytes) (off : nat) :
  addressable file_data ->
  leftmost pyexpand_keyword file_data 0 off ->
  absent_from (lit "*/") file_data (off + 5) ->
  scan file_data = AssertFail /\
  main py file_data = AssertFail /\
  file_after py file_data = file_data.
Proof.
  intros Haddr Hoff Ha.
  assert (H : scan file_data = AssertFail).
  { unfold scan. now rewrite (scan_loop_unclosed _ _ _ off Haddr Hoff Ha). }
  split; [exact H|].
  assert (Hm : main py file_data = AssertFail) by (unfold main, assemble; now rewrite H).
  split; [exact Hm|]. unfold file_after. now rewrite Hm.
Qed.

Lemma unclosed_first_directive_aborts_witness :
  scan (lit "int x; /*.py 1+2 /* *") = AssertFail /\
  main (py_const "3") (lit "int x; /*.py 1+2 /* *") = AssertFail /\
  file_after (py_const "3") (lit "int x; /*.py 1+2 /* *") = lit "int x; /*.py 1+2 /* *".
Proof.
  apply (unclosed_first_directive_aborts (py_const "3") (lit "int x; /*.py 1+2 /* *") 7).
  - vm_compute. reflexivity.
  - find_by_computation.
  - find_by_computation.
Defined.

Lemma Find_Ok_or_abort (self other : bytes) (start_from : Z) :
  (exists r, Find self other start_from = Ok r) \/ Find self other start_from = AssertFail.
Proof.
  unfold Find. destruct (_ && _); [left | now right].
  destruct (Size other <=? Size self); [|eauto]. destruct (Find_loop _ _ _ _); eauto.
Qed.

Lemma Slice_Ok_or_abort (self : bytes) (from to : Z) :
  (exists r, Slice self from to = Ok r) \/ Slice self from to = AssertFail.
Proof. unfold Slice. destruct (_ && _); eauto. Qed.

Lemma scan_body_not_Exit1 (remaining : bytes) : scan_body remaining <> Exit1.
Proof.
  unfold scan_body.
  destruct (Find_Ok_or_abort remaining pyexpand_keyword 0) as [[off ->]| ->];
    cbn [bind]; [|discriminate].
  destruct (off =? Size remaining); [discriminate|].
  destruct (Find_Ok_or_abort remaining (lit "*/") (off + Size pyexpand_keyword))
    as [[e ->]| ->]; cbn [bind]; [|discriminate].
  destruct (Slice_Ok_or_abort remaining (off + Size pyexpand_keyword) e)
    as [[body ->]| ->]; cbn [bind]; [|discriminate].
  destruct (Slice_Ok_or_abort remaining 0 (e + 2)) as [[keep ->]| ->];
    cbn [bind]; [|discriminate].
  destruct (Find_Ok_or_abort remaining (lit "/*") (e + 2)) as [[t ->]| ->];
    cbn [bind]; [|discriminate].
  destruct (Slice_Ok_or_abort remaining t INTPTR_MAX) as [[rem' ->]| ->];
    cbn [bind]; [|discriminate].
  destruct (transform_total body) as (prog & ml & ->). cbn [bind]. discriminate.
Qed.

Lemma scan_not_Exit1 (file_data : bytes) : scan file_data <> Exit1.
Proof.
  unfold scan.
  assert (H : forall fuel remaining st, scan_loop fuel remaining st <> Exit1).
  { induction fuel as [|fuel IH]; intros remaining st; cbn [scan_loop]; [discriminate|].
    pose proof (scan_body_not_Exit1 remaining) as Hb.
    destruct (scan_body remaining) as [[[[[keep prog] ml] rem']|]| | |]; cbn [bind];
      try discriminate; [apply IH | congruence]. }
  specialize (H (S (length file_data)) file_data (mk_scan [] [] [])).
  destruct (scan_loop _ file_data _) as [[st r]| | |]; cbn [bind]; congruence.
Qed.

Lemma run_python_Exit1_iff (py : bytes -> option (list bytes)) (p : bytes) :
  run_python py p = Exit1 <-> py (temp_file_of p) = None.
Proof.
  unfold run_python, temp_file_of. destruct (py _) as [chunks|]; [|tauto].
  split; [|discriminate]. unfold normalize.
  destruct (Slice_Ok_or_abort (fold_left print_callback chunks [])
              (Size (fold_left print_callback chunks []) - 2) INTPTR_MAX) as [[tail ->]| ->];
    cbn [bind]; [|discriminate].
  destruct (bytes_eqb tail [CR; LF]); [|discriminate].
  destruct (Slice_Ok_or_abort (fold_left print_callback chunks []) 0
              (Size (fold_left print_callback chunks []) - 2)) as [[r ->]| ->];
    discriminate.
Qed.

Lemma run_loop_Exit1_iff (py : bytes -> option (list bytes)) (progs : list bytes) :
  forall acc,
    run_loop py progs acc = Exit1 <->
    exists pre p post,
      progs = pre ++ p :: post /\
      Forall (fun q => exists o, run_python py q = Ok o) pre /\
      py (temp_file_of p) = None.
Proof.
  induction progs as [|p progs IH]; intros acc; cbn [run_loop].
  - split; [discriminate|]. intros (pre & q & post & E & _). destruct pre; discriminate E.
  - destruct (run_python py p) as [o| | |] eqn:Ep; cbn [bind].
    + rewrite IH. split.
      * intros (pre & q & post & -> & Hpre & Hq). exists (p :: pre), q, post.
        split; [reflexivity|]. split; [constructor; eauto | exact Hq].
      * intros (pre & q & post & E & Hpre & Hq). destruct pre as [|p' pre].
        -- injection E as <- _. apply run_python_Exit1_iff in Hq. congruence.
        -- injection E as <- ->. inversion Hpre; subst. exists pre, q, post. auto.
    + split; [discriminate|]. intros (pre & q & post & E & Hpre & Hq).
      destruct pre as [|p' pre]; injection E as <- _.
      * apply run_python_Exit1_iff in Hq. congruence.
      * inversion Hpre as [|? ? [o Ho] _]; subst. congruence.
    + split; [intros _|reflexivity]. exists [], p, progs.
      split; [reflexivity|]. split; [constructor | now apply run_python_Exit1_iff].
    + split; [discriminate|]. intros (pre & q & post & E & Hpre & Hq).
      destruct pre as [|p' pre]; injection E as <- _.
      * apply run_python_Exit1_iff in Hq. congruence.
      * inversion Hpre as [|? ? [o Ho] _]; subst. congruence.
Qed.

(** X12. A run ends with exit status 1 exactly when the scanner returns and
    the interpreter cannot be launched on one of the programs while every
    program before it was run and normalized; nothing else in the pipeline
    gives that status, and the file is not written then. *)
Theorem exit_status_1_iff (py : bytes -> option (list bytes)) (file_data : bytes) :
  main py file_data = Exit1 <->
  exists st pre p post,
    scan file_data = Ok st /\
    python_strings st = pre ++ p :: post /\
    Forall (fun q => exists o, run_python py q = Ok o) pre /\
    py (temp_file_of p) = None.
Proof.
  unfold main, assemble.
  pose proof (scan_not_Exit1 file_data) as Hs.
  destruct (scan file_data) as [st| | |] eqn:Es; cbn [bind];
    try (split; [discriminate || congruence | intros (? & ? & ? & ? & [=] & _)]).
  destruct (run_loop py (python_strings st) []) as [outs| | |] eqn:Er; cbn [bind].
  - split.
    + unfold scan in Es.
      destruct (scan_loop _ file_data _) as [[st0 r]| | |] eqn:E; try discriminate.
      cbn [bind] in Es. injection Es as <-.
      cbn [ranges_to_keep python_strings python_strings_is_multiline] in *.
      apply scan_loop_lengths in E as [Hr Hf]; [|reflexivity|reflexivity].
      apply run_loop_length in Er. simpl in Er.
      destruct (ranges_to_keep st0 ++ [r]) as [|K0 Ks] eqn:EK.
      { apply (f_equal (@length _)) in EK. rewrite length_app in EK. simpl in EK. lia. }
      apply (f_equal (@length _)) in EK. rewrite length_app in EK. simpl in EK.
      rewrite splice_closed by lia. discriminate.
    + intros (st' & pre & p & post & [= <-] & Hp & Hpre & Hnone).
      assert (Hx : run_loop py (python_strings st) [] = Exit1)
        by (apply run_loop_Exit1_iff; exists pre, p, post; auto).
      congruence.
  - split; [discriminate|].
    intros (st' & pre & p & post & [= <-] & Hp & Hpre & Hnone).
    assert (Hx : run_loop py (python_strings st) [] = Exit1)
      by (apply run_loop_Exit1_iff; exists pre, p, post; auto).
    congruence.
  - split; [intros _|reflexivity].
    apply run_loop_Exit1_iff in Er as (pre & p & post & E & Hpre & Hp).
    exists st, pre, p, post. auto.
  - split; [discriminate|].
    intros (st' & pre & p & post & [= <-] & Hp & Hpre & Hnone).
    assert (Hx : run_loop py (python_strings st) [] = Exit1)
      by (apply run_loop_Exit1_iff; exists pre, p, post; auto).
    congruence.
Qed.

(** X13. The interpreter loop returns exactly when every program can be run
    and normalized, and then it returns one result per program, in the
    order of the programs. *)
Theorem run_loop_results_in_order (py : bytes -> option (list bytes)) (progs : list bytes) :
  forall outs,
    run_loop py progs [] = Ok outs <->
    Forall2 (fun p o => run_python py p = Ok o) progs outs.
Proof.
  induction progs as [|p progs IH]; intros outs; cbn [run_loop].
  - split; [intros [= <-]; constructor | intros H; inversion H; reflexivity].
  - split.
    + destruct (run_python py p) as [o| | |] eqn:Ep; cbn [bind]; try discriminate.
      rewrite run_loop_acc.
      destruct (run_loop py progs []) as [outs'| | |] eqn:Er; cbn [bind]; try discriminate.
      intros [= <-]. constructor; [exact Ep | now apply IH].
    + intros H. inversion H as [|? o ? outs' Hp Hrest]; subst. rewrite Hp. cbn [bind].
      rewrite run_loop_acc. apply IH in Hrest. rewrite Hrest. reflexivity.
Qed.

(** ** Dynamic arrays *)

Lemma load_middle {T : Type} (pre post : list (option T)) (s : option T) :
  load (pre ++ s :: post) (Z.of_nat (length pre)) = s.
Proof.
  unfold load. replace (0 <=? Z.of_nat (length pre)) with true
    by (symmetry; apply Z.leb_le; lia).
  now rewrite Nat2Z.id, nth_error_app2, Nat.sub_diag by lia.
Qed.

Lemma store_middle {T : Type} (pre post : list (option T)) (s : option T) (x : T) :
  store (pre ++ s :: post) (Z.of_nat (length pre)) x = pre ++ Some x :: post.
Proof.
  unfold store. rewrite length_app. simpl length.
  replace ((0 <=? Z.of_nat (length pre))
           && (Z.of_nat (length pre) <? Z.of_nat (length pre + S (length post))))
    with true by (symmetry; rewrite andb_true_iff, Z.leb_le, Z.ltb_lt; lia).
  rewrite Nat2Z.id, firstn_app, firstn_all, Nat.sub_diag. simpl firstn.
  rewrite app_nil_r. f_equal. f_equal.
  rewrite skipn_app, skipn_all2 by lia.
  replace (S (length pre) - length pre)%nat with 1%nat by lia. reflexivity.
Qed.

Lemma store_all_middle {T : Type} (values : list T) :
  forall (pre mid post : list (option T)),
    length mid = length values ->
    store_all (pre ++ mid ++ post) (Z.of_nat (length pre)) values
    = pre ++ map Some values ++ post.
Proof.
  induction values as [|x values IH]; intros pre mid post Hlen.
  - destruct mid; [reflexivity | discriminate].
  - destruct mid as [|s mid]; [discriminate|]. simpl in Hlen. cbn [store_all].
    change ((s :: mid) ++ post) with (s :: (mid ++ post)). rewrite store_middle.
    replace (pre ++ Some x :: mid ++ post) with ((pre ++ [Some x]) ++ mid ++ post)
      by (now rewrite <- app_assoc).
    replace (Z.of_nat (length pre) + 1) with (Z.of_nat (length (pre ++ [Some x])))
      by (rewrite length_app; simpl; lia).
    rewrite IH by lia. now rewrite <- app_assoc.
Qed.

Lemma fill_middle {T : Type} (count : nat) (x : T) :
  forall (pre mid post : list (option T)),
    length mid = count ->
    fill count (pre ++ mid ++ post) (Z.of_nat (length pre)) x
    = pre ++ repeat (Some x) count ++ post.
Proof.
  induction count as [|count IH]; intros pre mid post Hlen.
  - destruct mid; [reflexivity | discriminate].
  - destruct mid as [|s mid]; [discriminate|]. simpl in Hlen. cbn [fill].
    change ((s :: mid) ++ post) with (s :: (mid ++ post)). rewrite store_middle.
    replace (pre ++ Some x :: mid ++ post) with ((pre ++ [Some x]) ++ mid ++ post)
      by (now rewrite <- app_assoc).
    replace (Z.of_nat (length pre) + 1) with (Z.of_nat (length (pre ++ [Some x])))
      by (rewrite length_app; simpl; lia).
    rewrite IH by lia. now rewrite <- app_assoc.
Qed.

Lemma Reserve_loop_step (fuel : nat) (n C : Z) :
  Reserve_loop (S fuel) n C
  = if n >? C then Reserve_loop fuel n (if C =? 0 then 8 else C * 2) else Some C.
Proof. reflexivity. Qed.

Lemma Reserve_loop_positive (fuel : nat) :
  forall n C, 0 < C -> n <= C * 2 ^ Z.of_nat fuel ->
    exists c, Reserve_loop fuel n C = Some c /\ n <= c /\ C <= c /\
              (c = C \/ c < 2 * n).
Proof.
  induction fuel as [|fuel IH]; intros n C HC Hn.
  - simpl in *. destruct (Z.gtb_spec n C); [lia|]. exists C. split; [reflexivity | lia].
  - rewrite Reserve_loop_step. destruct (Z.gtb_spec n C) as [Hgt|Hle].
    + replace (C =? 0) with false by (symmetry; apply Z.eqb_neq; lia).
      destruct (IH n (C * 2)) as (c & Hc & H1 & H2 & H3); [lia | |].
      { rewrite Nat2Z.inj_succ, Z.pow_succ_r in Hn by lia. lia. }
      exists c. split; [exact Hc | lia].
    + exists C. split; [reflexivity | lia].
Qed.

Lemma Reserve_loop_spec (n C : Z) :
  0 <= C -> n <= 2 ^ 62 ->
  exists c, Reserve_loop 64 n C = Some c /\ n <= c /\ C <= c /\
            (c = C \/ c = 8 \/ c < 2 * n).
Proof.
  intros HC Hn. destruct (Z.eq_dec C 0) as [->|HC0].
  - rewrite (Reserve_loop_step 63).
    destruct (Z.gtb_spec n 0) as [Hgt|Hle].
    + change (0 =? 0) with true. cbv iota.
      destruct (Reserve_loop_positive 63 n 8) as (c & Hc & H1 & H2 & H3); [lia | |].
      { change (Z.of_nat 63) with 63. lia. }
      exists c. split; [exact Hc | lia].
    + exists 0. split; [reflexivity | lia].
  - destruct (Reserve_loop_positive 64 n C) as (c & Hc & H1 & H2 & H3); [lia | |].
    { change (Z.of_nat 64) with 64.
      assert (2 ^ 62 <= 2 ^ 64) by (apply Z.pow_le_mono_r; lia).
      assert (0 < 2 ^ 64) by (apply Z.pow_pos_nonneg; lia). nia. }
    exists c. split; [exact Hc | lia].
Qed.

Lemma array_Reserve_spec {T : Type} (a : DS_Array.t T) (l : list T) (n : Z) :
  array_holds a l -> n <= 2 ^ 62 ->
  exists a',
    DS_Array.Reserve a n = Ok a' /\ array_holds a' l /\
    n <= DS_Array.Capacity a' /\ DS_Array.Capacity a <= DS_Array.Capacity a' /\
    (DS_Array.Capacity a' = DS_Array.Capacity a \/ DS_Array.Capacity a' = 8 \/
     DS_Array.Capacity a' < 2 * n).
Proof.
  intros (HS & HC & rest & HD) Hn. unfold DS_Array.Reserve.
  destruct (Z.gtb_spec n (DS_Array.Capacity a)) as [Hgt|Hle].
  - destruct (Reserve_loop_spec n (DS_Array.Capacity a)) as (c & -> & H1 & H2 & H3);
      [lia | exact Hn |].
    eexists. split; [reflexivity|]. unfold array_holds.
    cbn [DS_Array.Data DS_Array.Size DS_Array.Capacity]. split; [|lia].
    split; [exact HS|]. split.
    + unfold MemRealloc. rewrite length_app, repeat_length. lia.
    + exists (rest ++ repeat None (Z.to_nat (c - DS_Array.Capacity a))).
      unfold MemRealloc. rewrite HD. now rewrite <- app_assoc.
  - exists a. split; [reflexivity|]. split; [|lia].
    split; [exact HS|]. split; [exact HC|]. now exists rest.
Qed.

(** X14. [DS_Array::Reserve] keeps the elements and never shrinks the block:
    afterwards the capacity is at least the count asked for, and it is the
    old capacity, or 8, or less than twice the count asked for.  With a
    count of at most 2^30 the doubling stays inside [int32_t]. *)
Theorem array_Reserve_grows {T : Type} (a : DS_Array.t T) (l : list T) (n : Z) :
  array_holds a l -> DS_Array.Capacity a < 2 ^ 31 -> n <= 2 ^ 30 ->
  exists a',
    DS_Array.Reserve a n = Ok a' /\ array_holds a' l /\
    n <= DS_Array.Capacity a' /\ DS_Array.Capacity a <= DS_Array.Capacity a' /\
    DS_Array.Capacity a' < 2 ^ 31 /\
    (DS_Array.Capacity a' = DS_Array.Capacity a \/ DS_Array.Capacity a' = 8 \/
     DS_Array.Capacity a' < 2 * n).
Proof.
  intros Hh Hc Hn.
  destruct (array_Reserve_spec a l n Hh) as (a' & HR & Hh' & H1 & H2 & H3).
  { lia. }
  exists a'. split; [exact HR|]. split; [exact Hh'|]. lia.
Qed.

Lemma array_Reserve_grows_witness :
  exists a',
    DS_Array.Reserve (DS_Array.mk [Some 1; Some 2; None] 2 3) 9 = Ok a' /\
    array_holds a' [1; 2] /\
    9 <= DS_Array.Capacity a' /\
    DS_Array.Capacity (DS_Array.mk [Some 1; Some 2; None] 2 3) <= DS_Array.Capacity a' /\
    DS_Array.Capacity a' < 2 ^ 31 /\
    (DS_Array.Capacity a' = DS_Array.Capacity (DS_Array.mk [Some 1; Some 2; None] 2 3) \/
     DS_Array.Capacity a' = 8 \/ DS_Array.Capacity a' < 2 * 9).
Proof.
  apply (array_Reserve_grows (DS_Array.mk [Some 1; Some 2; None] 2 3) [1; 2] 9).
  - split; [reflexivity|]. split; [reflexivity|]. exists [None]. reflexivity.
  - reflexivity.
  - discriminate.
Defined.

Lemma load_holds {T : Type} (l : list T) (rest : list (option T)) (i : Z) :
  0 <= i < Z.of_nat (length l) ->
  load (map Some l ++ rest) i = nth_error l (Z.to_nat i).
Proof.
  intros Hi. unfold load.
  replace (0 <=? i) with true by (symmetry; apply Z.leb_le; lia).
  rewrite nth_error_app1 by (rewrite length_map; lia).
  rewrite nth_error_map. now destruct (nth_error l (Z.to_nat i)).
Qed.

Lemma room_split {A : Type} (rest : list A) (k : nat) :
  (k <= length rest)%nat ->
  exists mid post, rest = mid ++ post /\ length mid = k.
Proof.
  intros H. exists (firstn k rest), (skipn k rest).
  split; [symmetry; apply firstn_skipn | rewrite length_firstn; lia].
Qed.

(** What [Reserve] leaves behind, in the form the other routines use: the
    elements, then at least [n - Size] free slots. *)
Lemma array_Reserve_room {T : Type} (a : DS_Array.t T) (l : list T) (k : nat) :
  array_holds a l ->
  DS_Array.Capacity a < 2 ^ 31 -> Z.of_nat (length l) + Z.of_nat k <= 2 ^ 30 ->
  exists a' mid post,
    DS_Array.Reserve a (DS_Array.Size a + Z.of_nat k) = Ok a' /\
    DS_Array.Data a' = map Some l ++ mid ++ post /\ length mid = k /\
    DS_Array.Size a' = Z.of_nat (length l) /\
    DS_Array.Capacity a' = Z.of_nat (length (DS_Array.Data a')) /\
    DS_Array.Capacity a' < 2 ^ 31.
Proof.
  intros Hh Hc Hn. pose proof Hh as (HS & _).
  change (2 ^ 30) with 1073741824 in Hn. change (2 ^ 31) with 2147483648 in *.
  destruct (array_Reserve_spec a l (DS_Array.Size a + Z.of_nat k) Hh)
    as (a' & HR & (HS' & HC' & rest & HD') & H1 & H2 & H3).
  { change (2 ^ 62) with 4611686018427387904. lia. }
  destruct (room_split rest k) as (mid & post & -> & Hmid).
  { rewrite HC', HD', length_app, length_map in H1. lia. }
  exists a', mid, post. repeat split; try assumption. lia.
Qed.

(** X15. [operator[]] of [DS_Array] on an array that holds the elements [l]
    is the list lookup used for [python_results[i - 1]] in the splicer: it
    gives the element at [i] for [0 <= i < Size] and fails its assertion
    everywhere else. *)
Theorem array_get_reads_element {T : Type} (a : DS_Array.t T) (l : list T) (i : Z) :
  array_holds a l ->
  DS_Array.get a i = (x <- array_get l i ;; Ok (Some x)).
Proof.
  intros (HS & _ & rest & HD). unfold DS_Array.get, array_get. rewrite HS, HD.
  destruct (Z.leb_spec 0 i) as [H0|H0]; cbn [andb].
  - destruct (Z.ltb_spec i (Z.of_nat (length l))) as [H1|H1].
    + rewrite load_holds by lia.
      destruct (nth_error l (Z.to_nat i)) eqn:E; [reflexivity|].
      apply nth_error_None in E. lia.
    + destruct (nth_error l (Z.to_nat i)) eqn:E; [|reflexivity].
      assert (Z.to_nat i < length l)%nat by (apply nth_error_Some; congruence). lia.
  - now destruct (nth_error l (Z.to_nat i)).
Qed.

Lemma array_get_reads_element_witness :
  DS_Array.get (DS_Array.mk [Some "a"%char; Some "b"%char; None] 2 3) 1
  = (x <- array_get ["a"%char; "b"%char] 1 ;; Ok (Some x)).
Proof.
  apply (array_get_reads_element
           (DS_Array.mk [Some "a"%char; Some "b"%char; None] 2 3) ["a"%char; "b"%char] 1).
  split; [reflexivity|]. split; [reflexivity|]. exists [None]. reflexivity.
Defined.

(** X16. [DS_Array::Add] and [DS_Array::AddSlice] append.  After [Add] the
    array holds the old elements followed by the value, [Back] reads the
    value, and [PopBack] returns it and gives back an array holding the old
    elements.  After [AddSlice] the array holds the old elements followed by
    the values of the slice in order, and [AddSlice] of a slice of one value
    is [Add] of that value. *)
Theorem array_Add_and_AddSlice_append {T : Type} (a : DS_Array.t T) (l : list T)
    (v : T) (values : list T) :
  array_holds a l ->
  DS_Array.Capacity a < 2 ^ 31 -> Z.of_nat (length l) < 2 ^ 30 ->
  Z.of_nat (length l) + Z.of_nat (length values) <= 2 ^ 30 ->
  (exists a',
     DS_Array.Add a v = Ok a' /\ array_holds a' (l ++ [v]) /\
     DS_Array.Capacity a' < 2 ^ 31 /\
     DS_Array.Back a' = Ok (Some v) /\
     exists a'', DS_Array.PopBack a' 1 = Ok (Some v, a'') /\ array_holds a'' l) /\
  (exists a',
     DS_Array.AddSlice a values = Ok a' /\ array_holds a' (l ++ values) /\
     DS_Array.Capacity a' < 2 ^ 31) /\
  DS_Array.AddSlice a [v] = DS_Array.Add a v.
Proof.
  intros Hh Hc Hn Hvalues. split; [|split].
  {
    destruct (array_Reserve_room a l 1 Hh Hc) as (a1 & mid & post & HR & HD & Hmid & HS & HC & Hc1);
      [lia|].
    destruct mid as [|s [|? ?]]; try discriminate. cbn [app] in HD.
    unfold DS_Array.Add. change (Z.of_nat 1) with 1 in HR. rewrite HR. cbn [bind].
    assert (Hst : store (DS_Array.Data a1) (DS_Array.Size a1) v
                  = map Some (l ++ [v]) ++ post).
    { rewrite HD, HS. rewrite <- (length_map Some l), store_middle.
      now rewrite map_app, <- app_assoc. }
    assert (Hlen : length (map Some (l ++ [v]) ++ post) = length (DS_Array.Data a1)).
    { rewrite HD, !length_app, !length_map, length_app. simpl. lia. }
    assert (Hld : load (map Some (l ++ [v]) ++ post) (Z.of_nat (length l)) = Some v).
    { rewrite load_holds by (rewrite length_app; simpl; lia).
      now rewrite Nat2Z.id, nth_error_app2, Nat.sub_diag by lia. }
    eexists. split; [reflexivity|]. rewrite Hst, HS.
    split; [|split; [exact Hc1|split]].
    + split; [cbn; rewrite length_app; simpl; lia|]. split; [cbn; lia|]. now exists post.
    + unfold DS_Array.Back. cbn [DS_Array.Size DS_Array.Data].
      replace (Z.of_nat (length l) + 1 >? 0) with true by (symmetry; apply Z.gtb_lt; lia).
      replace (Z.of_nat (length l) + 1 - 1) with (Z.of_nat (length l)) by lia.
      now rewrite Hld.
    + unfold DS_Array.PopBack. cbn [DS_Array.Size DS_Array.Data DS_Array.Capacity].
      replace (Z.of_nat (length l) + 1 >=? 1) with true by (symmetry; apply Z.geb_le; lia).
      replace (Z.of_nat (length l) + 1 - 1) with (Z.of_nat (length l)) by lia.
      rewrite Hld. eexists. split; [reflexivity|].
      split; [reflexivity|]. split; [cbn; lia|]. cbn.
      exists (Some v :: post). now rewrite map_app, <- app_assoc. }
  {
    destruct (array_Reserve_room a l (length values) Hh Hc Hvalues)
      as (a1 & mid & post & HR & HD & Hmid & HS & HC & Hc1).
    unfold DS_Array.AddSlice. rewrite HR. cbn [bind].
    eexists. split; [reflexivity|]. split; [|exact Hc1].
    rewrite HD, HS, <- (length_map Some l), store_all_middle by exact Hmid.
    unfold array_holds. cbn [DS_Array.Data DS_Array.Size DS_Array.Capacity].
    split; [rewrite length_app, length_map; lia|]. split.
    + rewrite HC, HD, !length_app, !length_map. lia.
    + exists post. now rewrite map_app, <- app_assoc. }
  unfold DS_Array.AddSlice, DS_Array.Add. cbn [length]. change (Z.of_nat 1) with 1.
  destruct (DS_Array.Reserve a (DS_Array.Size a + 1)); reflexivity.
Qed.

Lemma array_Add_and_AddSlice_append_witness :
  (exists a',
     DS_Array.Add (DS_Array.mk [Some 1; None] 1 2) 4 = Ok a' /\
     array_holds a' ([1] ++ [4]) /\
     DS_Array.Capacity a' < 2 ^ 31 /\
     DS_Array.Back a' = Ok (Some 4) /\
     exists a'', DS_Array.PopBack a' 1 = Ok (Some 4, a'') /\ array_holds a'' [1]) /\
  (exists a',
     DS_Array.AddSlice (DS_Array.mk [Some 1; None] 1 2) [2; 3] = Ok a' /\
     array_holds a' ([1] ++ [2; 3]) /\ DS_Array.Capacity a' < 2 ^ 31) /\
  DS_Array.AddSlice (DS_Array.mk [Some 1; None] 1 2) [4]
  = DS_Array.Add (DS_Array.mk [Some 1; None] 1 2) 4.
Proof.
  apply (array_Add_and_AddSlice_append (DS_Array.mk [Some 1; None] 1 2) [1] 4 [2; 3]).
  - split; [reflexivity|]. split; [reflexivity|]. exists [None]. reflexivity.
  - reflexivity.
  - reflexivity.
  - discriminate.
Defined.

Lemma skipn_exact {A : Type} (pre post : list A) (k : nat) :
  k = length pre -> skipn k (pre ++ post) = post.
Proof. intros ->. rewrite skipn_app, skipn_all, Nat.sub_diag. reflexivity. Qed.

Lemma firstn_exact {A : Type} (pre post : list A) (k : nat) :
  k = length pre -> firstn k (pre ++ post) = pre.
Proof.
  intros ->. rewrite firstn_app, firstn_all, Nat.sub_diag. simpl. apply app_nil_r.
Qed.

(** The block after the [memmove] and the loop of [Insert]. *)
Lemma Insert_block {T : Type} (l1 l2 : list T) (mid post : list (option T)) (v : T) :
  fill (length mid)
       (memmove (map Some (l1 ++ l2) ++ mid ++ post)
                (Z.of_nat (length l1) + Z.of_nat (length mid)) (Z.of_nat (length l1))
                (Z.of_nat (length (l1 ++ l2)) - Z.of_nat (length l1)))
       (Z.of_nat (length l1)) v
  = map Some (l1 ++ repeat v (length mid) ++ l2) ++ post.
Proof.
  set (k := length mid).
  destruct (room_split (map Some l2 ++ mid ++ post) k) as (over & tail & Hover & Hoverlen).
  { rewrite !length_app. unfold k. lia. }
  assert (Hmoved :
    memmove (map Some (l1 ++ l2) ++ mid ++ post)
            (Z.of_nat (length l1) + Z.of_nat k) (Z.of_nat (length l1))
            (Z.of_nat (length (l1 ++ l2)) - Z.of_nat (length l1))
    = map Some l1 ++ over ++ (map Some l2 ++ post)).
  { unfold memmove.
    replace (Z.to_nat (Z.of_nat (length l1) + Z.of_nat k))
      with (length (map Some l1) + k)%nat by (rewrite length_map; lia).
    replace (Z.to_nat (Z.of_nat (length (l1 ++ l2)) - Z.of_nat (length l1)))
      with (length (map Some l2)) by (rewrite length_map, length_app; lia).
    replace (Z.to_nat (Z.of_nat (length l1) + Z.of_nat k
                       + (Z.of_nat (length (l1 ++ l2)) - Z.of_nat (length l1))))
      with (length (map Some (l1 ++ l2) ++ mid))
      by (rewrite !length_app, length_map, length_app; unfold k; lia).
    rewrite Nat2Z.id.
    rewrite (app_assoc (map Some (l1 ++ l2)) mid post) at 3.
    rewrite (skipn_exact (map Some (l1 ++ l2) ++ mid) post) by reflexivity.
    rewrite map_app, <- app_assoc.
    rewrite firstn_app_2.
    rewrite (skipn_exact (map Some l1)) by (now rewrite length_map).
    rewrite (firstn_exact (map Some l2) (mid ++ post) (length (map Some l2)))
      by reflexivity.
    rewrite Hover, (firstn_exact over tail) by (now rewrite Hoverlen).
    now rewrite <- !app_assoc. }
  rewrite Hmoved, <- (length_map Some l1), fill_middle by exact Hoverlen.
  now rewrite !map_app, map_repeat, <- !app_assoc.
Qed.

Lemma load_filled {T : Type} (pre post : list (option T)) (v : T) (k : nat) (i : Z) :
  Z.of_nat (length pre) <= i < Z.of_nat (length pre) + Z.of_nat k ->
  load (pre ++ repeat (Some v) k ++ post) i = Some v.
Proof.
  intros Hi. unfold load.
  replace (0 <=? i) with true by (symmetry; apply Z.leb_le; lia).
  rewrite nth_error_app2 by lia.
  rewrite nth_error_app1 by (rewrite repeat_length; lia).
  rewrite nth_error_repeat by lia. reflexivity.
Qed.

Lemma store_slot_Some {T : Type} (Data : list (option T)) (i : Z) (x : T) :
  store_slot Data i (Some x) = store Data i x.
Proof. reflexivity. Qed.

(** When every pass reads the same value, the loop of [Insert] is a plain
    fill. *)
Lemma fill_ref_const {T : Type} (count : nat) (x : T)
    (read : list (option T) -> option T) :
  forall (Data : list (option T)) (i : Z),
    (forall k, (k < count)%nat -> read (fill k Data i x) = Some x) ->
    fill_ref count Data i read = fill count Data i x.
Proof.
  induction count as [|count IH]; intros Data i Hread; [reflexivity|].
  pose proof (Hread 0%nat ltac:(lia)) as H0. cbn [fill] in H0.
  cbn [fill_ref fill]. rewrite H0, store_slot_Some.
  apply IH. intros k Hk. apply (Hread (S k)). lia.
Qed.

Lemma load_app_l {T : Type} (pre post : list (option T)) (j : Z) :
  0 <= j < Z.of_nat (length pre) -> load (pre ++ post) j = load pre j.
Proof.
  intros Hj. unfold load. destruct (0 <=? j); [|reflexivity].
  now rewrite nth_error_app1 by lia.
Qed.

Lemma load_app_r {T : Type} (pre post : list (option T)) (j : Z) :
  Z.of_nat (length pre) <= j ->
  load (pre ++ post) j = load post (j - Z.of_nat (length pre)).
Proof.
  intros Hj. unfold load.
  replace (0 <=? j) with true by (symmetry; apply Z.leb_le; lia).
  replace (0 <=? j - Z.of_nat (length pre)) with true by (symmetry; apply Z.leb_le; lia).
  rewrite nth_error_app2 by lia.
  now replace (Z.to_nat j - length pre)%nat with (Z.to_nat (j - Z.of_nat (length pre)))
    by lia.
Qed.

(** What the reference to the element at [j] reads after [k] passes of the
    loop of [Insert], in a block that was not replaced. *)
Lemma Insert_reads_element {T : Type} (l1 l2 : list T) (mid post : list (option T))
    (x : T) (k : nat) (j : Z) :
  (k < length mid)%nat ->
  0 <= j < Z.of_nat (length (l1 ++ l2)) ->
  (if j <? Z.of_nat (length l1) + Z.of_nat (length mid)
   then nth_error (l1 ++ l2) (Z.to_nat j)
   else nth_error (l1 ++ l2) (Z.to_nat (j - Z.of_nat (length mid)))) = Some x ->
  load (fill k
          (memmove (map Some (l1 ++ l2) ++ mid ++ post)
                   (Z.of_nat (length l1) + Z.of_nat (length mid)) (Z.of_nat (length l1))
                   (Z.of_nat (length (l1 ++ l2)) - Z.of_nat (length l1)))
          (Z.of_nat (length l1)) x) j
  = Some x.
Proof.
  intros Hk Hj Hx. set (n := length mid) in *.
  destruct (room_split (map Some l2 ++ mid ++ post) n) as (over & tail & Hover & Hoverlen).
  { rewrite !length_app. unfold n. lia. }
  assert (Hmoved :
    memmove (map Some (l1 ++ l2) ++ mid ++ post)
            (Z.of_nat (length l1) + Z.of_nat n) (Z.of_nat (length l1))
            (Z.of_nat (length (l1 ++ l2)) - Z.of_nat (length l1))
    = map Some l1 ++ over ++ (map Some l2 ++ post)).
  { unfold memmove.
    replace (Z.to_nat (Z.of_nat (length l1) + Z.of_nat n))
      with (length (map Some l1) + n)%nat by (rewrite length_map; lia).
    replace (Z.to_nat (Z.of_nat (length (l1 ++ l2)) - Z.of_nat (length l1)))
      with (length (map Some l2)) by (rewrite length_map, length_app; lia).
    replace (Z.to_nat (Z.of_nat (length l1) + Z.of_nat n
                       + (Z.of_nat (length (l1 ++ l2)) - Z.of_nat (length l1))))
      with (length (map Some (l1 ++ l2) ++ mid))
      by (rewrite !length_app, length_map, length_app; unfold n; lia).
    rewrite Nat2Z.id.
    rewrite (app_assoc (map Some (l1 ++ l2)) mid post) at 3.
    rewrite (skipn_exact (map Some (l1 ++ l2) ++ mid) post) by reflexivity.
    rewrite map_app, <- app_assoc.
    rewrite firstn_app_2.
    rewrite (skipn_exact (map Some l1)) by (now rewrite length_map).
    rewrite (firstn_exact (map Some l2) (mid ++ post) (length (map Some l2)))
      by reflexivity.
    rewrite Hover, (firstn_exact over tail) by (now rewrite Hoverlen).
    now rewrite <- !app_assoc. }
  rewrite Hmoved.
  destruct (room_split over k) as (o1 & o2 & Ho & Ho1); [lia|].
  rewrite Ho, <- app_assoc, <- (length_map Some l1), fill_middle by exact Ho1.
  rewrite length_app in Hj.
  assert (Hlen2 : length o2 = (n - k)%nat).
  { apply (f_equal (@length _)) in Ho. rewrite length_app in Ho. lia. }
  destruct (Z.ltb_spec j (Z.of_nat (length l1))) as [H1|H1].
  - (* below the place of insertion *)
    replace (j <? Z.of_nat (length l1) + Z.of_nat n) with true in Hx
      by (symmetry; apply Z.ltb_lt; lia).
    rewrite load_app_l by (rewrite length_map; lia).
    rewrite <- (app_nil_r (map Some l1)), load_holds by lia.
    rewrite nth_error_app1 in Hx by lia. exact Hx.
  - rewrite load_app_r by (rewrite length_map; lia). rewrite length_map.
    destruct (Z.ltb_spec j (Z.of_nat (length l1) + Z.of_nat k)) as [H2|H2].
    + (* a slot the loop has written *)
      change (repeat (Some x) k ++ o2 ++ map Some l2 ++ post)
        with ([] ++ repeat (Some x) k ++ o2 ++ map Some l2 ++ post).
      apply load_filled. simpl. lia.
    + rewrite load_app_r by (rewrite repeat_length; lia). rewrite repeat_length.
      destruct (Z.ltb_spec j (Z.of_nat (length l1) + Z.of_nat n)) as [H3|H3].
      * (* a slot the loop has yet to write: it holds what the block held *)
        rewrite load_app_l by lia.
        assert (Hov : load over (j - Z.of_nat (length l1)) = Some x).
        { assert (Hfull : load (map Some l2 ++ mid ++ post) (j - Z.of_nat (length l1))
                          = Some x).
          { rewrite load_holds by lia. rewrite nth_error_app2 in Hx by lia.
            now replace (Z.to_nat (j - Z.of_nat (length l1)))
              with (Z.to_nat j - length l1)%nat by lia. }
          rewrite Hover, load_app_l in Hfull by lia. exact Hfull. }
        rewrite Ho, load_app_r in Hov by lia. now rewrite Ho1 in Hov.
      * (* an element the [memmove] has moved up *)
        rewrite load_app_r by lia. rewrite Hlen2.
        rewrite load_holds by lia. rewrite nth_error_app2 in Hx by lia.
        now replace (Z.to_nat (j - Z.of_nat (length l1) - Z.of_nat k - Z.of_nat (n - k)))
          with (Z.to_nat (j - Z.of_nat n) - length l1)%nat by lia.
Qed.

(** X17. [DS_Array::Insert] takes the value by reference and reads it after
    the [memmove]: it puts [n] copies of what it reads there before the
    element at [at], moving the elements from [at] on up by [n].  For an
    object outside the block that is the value passed.  For a reference to
    the element at [j] of the array itself it is that element when the block
    is replaced on an arena or when [j] is below [at + n], and the element at
    [j - n] otherwise, so that [a.Insert(0, a[1])] on [10, 20] with room for
    three gives [10, 10, 20].  With [at] beyond [Size] the assertion
    fails. *)
Theorem array_Insert_shifts {T : Type} (alloc : allocator) (a : DS_Array.t T)
    (l : list T) (at_ : Z) (value : DS_Array.ref T) (x : T) (n : Z) :
  array_holds a l ->
  DS_Array.Capacity a < 2 ^ 31 -> 0 <= n -> Z.of_nat (length l) + n <= 2 ^ 30 ->
  0 <= at_ ->
  Insert_reads alloc a l at_ n value = Some x ->
  (at_ <= Z.of_nat (length l) ->
   exists a',
     DS_Array.Insert alloc a at_ value n = Ok a' /\
     array_holds a' (firstn (Z.to_nat at_) l ++ repeat x (Z.to_nat n)
                       ++ skipn (Z.to_nat at_) l)) /\
  (Z.of_nat (length l) < at_ -> DS_Array.Insert alloc a at_ value n = AssertFail).
Proof.
  intros Hh Hc Hn0 Hn Hat0 Hx. pose proof Hh as (HSa & HCa & resta & HDa).
  split; intros Hat.
  - destruct (array_Reserve_room a l (Z.to_nat n) Hh Hc)
      as (a1 & mid & post & HR & HD & Hmid & HS & HC & Hc1); [lia|].
    rewrite Z2Nat.id in HR by lia.
    unfold DS_Array.Insert.
    replace (at_ <=? DS_Array.Size a) with true by (symmetry; apply Z.leb_le; lia).
    cbv zeta. rewrite HR. cbn [bind]. eexists. split; [reflexivity|].
    set (l1 := firstn (Z.to_nat at_) l). set (l2 := skipn (Z.to_nat at_) l).
    assert (Hl : l = l1 ++ l2) by (symmetry; apply firstn_skipn).
    assert (Hl1 : Z.of_nat (length l1) = at_)
      by (unfold l1; rewrite length_firstn; lia).
    pose proof (Insert_block l1 l2 mid post x) as HB.
    rewrite <- Hl, Hl1, Hmid, Z2Nat.id in HB by lia.
    assert (Hfill :
      fill_ref (Z.to_nat n)
        (memmove (DS_Array.Data a1) (at_ + n) at_ (DS_Array.Size a1 - at_)) at_
        (DS_Array.deref alloc (DS_Array.Data a)
           (DS_Array.Size a + n >? DS_Array.Capacity a) value)
      = fill (Z.to_nat n)
          (memmove (DS_Array.Data a1) (at_ + n) at_ (DS_Array.Size a1 - at_)) at_ x).
    { apply fill_ref_const. intros k Hk.
      destruct value as [v|j]; cbn [DS_Array.deref Insert_reads] in *; [exact Hx|].
      destruct ((0 <=? j) && (j <? Z.of_nat (length l))) eqn:Ej; [|discriminate].
      apply andb_true_iff in Ej as [Ej1 Ej2]. apply Z.leb_le in Ej1. apply Z.ltb_lt in Ej2.
      destruct (DS_Array.Size a + n >? DS_Array.Capacity a) eqn:Erep.
      - destruct alloc; [|discriminate]. cbn [released].
        rewrite HDa, load_holds by lia. exact Hx.
      - assert (a1 = a).
        { unfold DS_Array.Reserve in HR. rewrite Erep in HR. congruence. }
        subst a1. rewrite HD, HS.
        pose proof (Insert_reads_element l1 l2 mid post x k j) as HE.
        rewrite <- Hl, Hl1, Hmid, Z2Nat.id in HE by lia.
        apply HE; [lia | lia | exact Hx]. }
    rewrite Hfill.
    unfold array_holds. cbn [DS_Array.Data DS_Array.Size DS_Array.Capacity].
    rewrite HD, HS, HB. split; [|split].
    + rewrite !length_app, repeat_length. rewrite Hl at 1. rewrite length_app. lia.
    + rewrite HC, HD, Hl, !length_app, !length_map, !length_app, repeat_length. lia.
    + now exists post.
  - unfold DS_Array.Insert.
    replace (at_ <=? DS_Array.Size a) with false by (symmetry; apply Z.leb_gt; lia).
    reflexivity.
Qed.

Lemma array_Insert_shifts_witness :
  (0 <= Z.of_nat (length [10; 20]) ->
   exists a',
     DS_Array.Insert Arena (DS_Array.mk [Some 10; Some 20; None] 2 3) 0
       (DS_Array.Element 1) 1 = Ok a' /\
     array_holds a' (firstn (Z.to_nat 0) [10; 20] ++ repeat 10 (Z.to_nat 1)
                       ++ skipn (Z.to_nat 0) [10; 20])) /\
  (Z.of_nat (length [10; 20]) < 0 ->
   DS_Array.Insert Arena (DS_Array.mk [Some 10; Some 20; None] 2 3) 0
     (DS_Array.Element 1) 1 = AssertFail).
Proof.
  apply (array_Insert_shifts Arena (DS_Array.mk [Some 10; Some 20; None] 2 3) [10; 20]
           0 (DS_Array.Element 1) 10 1).
  - split; [reflexivity|]. split; [reflexivity|]. exists [None]. reflexivity.
  - reflexivity.
  - discriminate.
  - discriminate.
  - discriminate.
  - reflexivity.
Defined.

(** X18. [DS_Array::Resize] reserves room for [new_count] elements and
    writes the default value into the slots from [Size] up to [new_count],
    but it leaves [Size] as it was: the array still holds the old elements
    only, and [operator[]] still fails its assertion on the slots written. *)
Theorem array_Resize_keeps_Size {T : Type} (a : DS_Array.t T) (l : list T)
    (new_count : Z) (v : T) :
  array_holds a l ->
  DS_Array.Capacity a < 2 ^ 31 -> new_count <= 2 ^ 30 ->
  exists a',
    DS_Array.Resize a new_count v = Ok a' /\ array_holds a' l /\
    forall i, Z.of_nat (length l) <= i < new_count ->
      load (DS_Array.Data a') i = Some v /\ DS_Array.get a' i = AssertFail.
Proof.
  intros Hh Hc Hn. pose proof Hh as (HSa & _). unfold DS_Array.Resize.
  destruct (Z.gtb_spec new_count (DS_Array.Size a)) as [Hgt|Hle].
  - destruct (array_Reserve_room a l (Z.to_nat (new_count - DS_Array.Size a)) Hh Hc)
      as (a1 & mid & post & HR & HD & Hmid & HS & HC & Hc1); [lia|].
    replace (DS_Array.Size a + Z.of_nat (Z.to_nat (new_count - DS_Array.Size a)))
      with new_count in HR by lia.
    rewrite HR. cbn [bind]. eexists. split; [reflexivity|].
    assert (HF : fill (Z.to_nat (new_count - DS_Array.Size a1)) (DS_Array.Data a1)
                   (DS_Array.Size a1) v
                 = map Some l ++ repeat (Some v) (length mid) ++ post).
    { rewrite HD, HS, <- HSa, <- Hmid, HSa, <- (length_map Some l).
      now apply fill_middle. }
    rewrite HF. unfold array_holds, DS_Array.get.
    cbn [DS_Array.Data DS_Array.Size DS_Array.Capacity]. split; [split; [|split]|].
    + exact HS.
    + rewrite HC, HD, !length_app, repeat_length. reflexivity.
    + now exists (repeat (Some v) (length mid) ++ post).
    + intros i Hi. split.
      * apply load_filled. rewrite length_map. lia.
      * rewrite HS. replace (i <? Z.of_nat (length l)) with false
          by (symmetry; apply Z.ltb_ge; lia).
        now rewrite andb_false_r.
  - exists a. split; [reflexivity|]. split; [exact Hh|]. intros i Hi. lia.
Qed.

Lemma array_Resize_keeps_Size_witness :
  exists a',
    DS_Array.Resize (DS_Array.mk [Some 5; None] 1 2) 4 0 = Ok a' /\
    array_holds a' [5] /\
    forall i, Z.of_nat (length [5]) <= i < 4 ->
      load (DS_Array.Data a') i = Some 0 /\ DS_Array.get a' i = AssertFail.
Proof.
  apply (array_Resize_keeps_Size (DS_Array.mk [Some 5; None] 1 2) [5] 4 0).
  - split; [reflexivity|]. split; [reflexivity|]. exists [None]. reflexivity.
  - reflexivity.
  - discriminate.
Defined.

(** X19. [DS_Array::PopBack] with [1 <= n <= Size] drops the last [n]
    elements and returns the element that was at [Size - n], the first of
    those dropped; with [n] above [Size] it fails its assertion. *)
Theorem array_PopBack_drops {T : Type} (a : DS_Array.t T) (l : list T) (n : Z) :
  array_holds a l -> 1 <= n ->
  (n <= Z.of_nat (length l) ->
   exists a',
     DS_Array.PopBack a n = Ok (nth_error l (length l - Z.to_nat n), a') /\
     array_holds a' (firstn (length l - Z.to_nat n) l)) /\
  (Z.of_nat (length l) < n -> DS_Array.PopBack a n = AssertFail).
Proof.
  intros (HS & HC & rest & HD) Hn. unfold DS_Array.PopBack. rewrite HS.
  split; intros Hle.
  - replace (Z.of_nat (length l) >=? n) with true by (symmetry; apply Z.geb_le; lia).
    eexists. split.
    + rewrite HD, load_holds by lia.
      now replace (Z.to_nat (Z.of_nat (length l) - n)) with (length l - Z.to_nat n)%nat
        by lia.
    + unfold array_holds. cbn [DS_Array.Data DS_Array.Size DS_Array.Capacity].
      split; [rewrite length_firstn; lia|]. split; [now rewrite <- HD|].
      exists (map Some (skipn (length l - Z.to_nat n) l) ++ rest).
      rewrite app_assoc, <- map_app, firstn_skipn. reflexivity.
  - replace (Z.of_nat (length l) >=? n) with false; [reflexivity|].
    symmetry. rewrite Z.geb_leb. apply Z.leb_gt. lia.
Qed.

Lemma array_PopBack_drops_witness :
  (2 <= Z.of_nat (length [1; 2; 3]) ->
   exists a',
     DS_Array.PopBack (DS_Array.mk [Some 1; Some 2; Some 3] 3 3) 2
     = Ok (nth_error [1; 2; 3] (length [1; 2; 3] - Z.to_nat 2), a') /\
     array_holds a' (firstn (length [1; 2; 3] - Z.to_nat 2) [1; 2; 3])) /\
  (Z.of_nat (length [1; 2; 3]) < 2 ->
   DS_Array.PopBack (DS_Array.mk [Some 1; Some 2; Some 3] 3 3) 2 = AssertFail).
Proof.
  apply (array_PopBack_drops (DS_Array.mk [Some 1; Some 2; Some 3] 3 3) [1; 2; 3] 2).
  - split; [reflexivity|]. split; [reflexivity|]. exists []. reflexivity.
  - discriminate.
Defined.

Lemma swap_ends {T : Type} (pre post : list (option T)) (x y : T) (mid : list T) :
  DS_Array.swap (pre ++ map Some (x :: mid ++ [y]) ++ post)
                (Z.of_nat (length pre)) (Z.of_nat (length pre) + Z.of_nat (length mid) + 1)
  = pre ++ map Some (y :: mid ++ [x]) ++ post.
Proof.
  unfold DS_Array.swap. cbn [map app]. rewrite !map_app. cbn [map].
  rewrite load_middle.
  assert (Hj : Z.of_nat (length pre) + Z.of_nat (length mid) + 1
               = Z.of_nat (length (pre ++ Some x :: map Some mid)))
    by (rewrite length_app; simpl; rewrite length_map; lia).
  assert (Hj' : Z.of_nat (length pre) + Z.of_nat (length mid) + 1
               = Z.of_nat (length (pre ++ Some y :: map Some mid)))
    by (rewrite length_app; simpl; rewrite length_map; lia).
  replace (pre ++ Some x :: (map Some mid ++ [Some y]) ++ post)
    with ((pre ++ Some x :: map Some mid) ++ Some y :: post)
    by (now rewrite <- !app_assoc).
  rewrite Hj at 1. rewrite load_middle.
  replace ((pre ++ Some x :: map Some mid) ++ Some y :: post)
    with (pre ++ Some x :: (map Some mid ++ Some y :: post))
    by (now rewrite <- !app_assoc).
  rewrite store_middle.
  replace (pre ++ Some y :: map Some mid ++ Some y :: post)
    with ((pre ++ Some y :: map Some mid) ++ Some y :: post)
    by (now rewrite <- !app_assoc).
  rewrite Hj', store_middle. now rewrite <- !app_assoc.
Qed.

Lemma ReverseOrder_loop_spec {T : Type} (k : nat) :
  forall (mid : list T) (pre post : list (option T)) (fuel : nat),
    (length mid <= k)%nat -> (length mid <= fuel)%nat ->
    DS_Array.ReverseOrder_loop fuel (pre ++ map Some mid ++ post)
      (Z.of_nat (length pre)) (Z.of_nat (length pre) + Z.of_nat (length mid) - 1)
    = pre ++ map Some (rev mid) ++ post.
Proof.
  induction k as [|k IH]; intros mid pre post fuel Hk Hfuel.
  - destruct mid; [|simpl in Hk; lia]. destruct fuel; simpl;
      (replace (Z.of_nat (length pre) <? Z.of_nat (length pre) + 0 - 1) with false
        by (symmetry; apply Z.ltb_ge; lia)); reflexivity.
  - destruct mid as [|x mid]; [|destruct (exists_last (l := x :: mid)) as (mid' & y & E);
                                 [discriminate|]].
    + destruct fuel; simpl;
        (replace (Z.of_nat (length pre) <? Z.of_nat (length pre) + 0 - 1) with false
          by (symmetry; apply Z.ltb_ge; lia)); reflexivity.
    + destruct mid' as [|x' mid'].
      * simpl in E. injection E as -> ->. simpl length.
        destruct fuel; simpl;
          (replace (Z.of_nat (length pre) <? Z.of_nat (length pre) + 1 - 1) with false
             by (symmetry; apply Z.ltb_ge; lia)); reflexivity.
      * simpl in E. injection E as <- E. subst mid. 
        assert (Hlen : length (x :: mid' ++ [y]) = S (S (length mid')))
          by (simpl; rewrite length_app; simpl; lia).
        rewrite Hlen in *. destruct fuel as [|fuel]; [lia|].
        cbn [DS_Array.ReverseOrder_loop].
        replace (Z.of_nat (length pre) <?
                 Z.of_nat (length pre) + Z.of_nat (S (S (length mid'))) - 1)
          with true by (symmetry; apply Z.ltb_lt; lia).
        replace (Z.of_nat (length pre) + Z.of_nat (S (S (length mid'))) - 1)
          with (Z.of_nat (length pre) + Z.of_nat (length mid') + 1) by lia.
        rewrite swap_ends.
        replace (pre ++ map Some (y :: mid' ++ [x]) ++ post)
          with ((pre ++ [Some y]) ++ map Some mid' ++ (Some x :: post))
          by (simpl; rewrite map_app; simpl; now rewrite <- !app_assoc).
        replace (Z.of_nat (length pre) + 1) with (Z.of_nat (length (pre ++ [Some y])))
          by (rewrite length_app; simpl; lia).
        replace (Z.of_nat (length pre) + Z.of_nat (length mid') + 1 - 1)
          with (Z.of_nat (length (pre ++ [Some y])) + Z.of_nat (length mid') - 1)
          by (rewrite length_app; simpl; lia).
        rewrite IH by lia.
        cbn [rev]. rewrite rev_app_distr. cbn [rev app map].
        rewrite !map_app. simpl. now rewrite <- !app_assoc.
Qed.

(** X20. [DS_Array::ReverseOrder] reverses the elements in place: an array
    that holds [l] holds [rev l] afterwards, in the same block, and a second
    call gives the array back. *)
Theorem array_ReverseOrder_reverses {T : Type} (a : DS_Array.t T) (l : list T) :
  array_holds a l ->
  array_holds (DS_Array.ReverseOrder a) (rev l) /\
  DS_Array.Capacity (DS_Array.ReverseOrder a) = DS_Array.Capacity a /\
  DS_Array.ReverseOrder (DS_Array.ReverseOrder a) = a.
Proof.
  intros (HS & HC & rest & HD).
  assert (HR : forall l' : list T, length l' = length l ->
            DS_Array.ReverseOrder_loop (Z.to_nat (Z.of_nat (length l)))
              (map Some l' ++ rest) 0 (Z.of_nat (length l) - 1)
            = map Some (rev l') ++ rest).
  { intros l' Hl'. rewrite <- Hl'.
    apply (ReverseOrder_loop_spec (length l') l' [] rest); lia. }
  destruct a as [D S C]. cbn [DS_Array.Data DS_Array.Size DS_Array.Capacity] in *.
  subst S D. unfold DS_Array.ReverseOrder.
  cbn [DS_Array.Data DS_Array.Size DS_Array.Capacity].
  rewrite (HR l) by reflexivity. split; [|split; [reflexivity|]].
  - unfold array_holds. cbn [DS_Array.Data DS_Array.Size DS_Array.Capacity].
    split; [now rewrite length_rev|]. split; [|now exists rest].
    rewrite HC, !length_app, !length_map, length_rev. reflexivity.
  - rewrite (HR (rev l)) by apply length_rev. now rewrite rev_involutive.
Qed.

Lemma array_ReverseOrder_reverses_witness :
  array_holds (DS_Array.ReverseOrder (DS_Array.mk [Some 1; Some 2; Some 3; None] 3 4))
              (rev [1; 2; 3]) /\
  DS_Array.Capacity (DS_Array.ReverseOrder (DS_Array.mk [Some 1; Some 2; Some 3; None] 3 4))
  = DS_Array.Capacity (DS_Array.mk [Some 1; Some 2; Some 3; None] 3 4) /\
  DS_Array.ReverseOrder
    (DS_Array.ReverseOrder (DS_Array.mk [Some 1; Some 2; Some 3; None] 3 4))
  = DS_Array.mk [Some 1; Some 2; Some 3; None] 3 4.
Proof.
  apply (array_ReverseOrder_reverses
           (DS_Array.mk [Some 1; Some 2; Some 3; None] 3 4) [1; 2; 3]).
  split; [reflexivity|]. split; [reflexivity|]. exists [None]. reflexivity.
Defined.
(** ** Dynamic strings *)

Lemma c_string_terminated (l : bytes) (post : list (option ascii)) :
  DS_DynamicString.c_string (map Some l ++ Some NUL :: post) = Some (fmt_s l).
Proof.
  induction l as [|c l IH]; [reflexivity|]. cbn [map app DS_DynamicString.c_string].
  rewrite fmt_s_cons, IH. now destruct (Ascii.eqb c NUL).
Qed.

Lemma string_Reserve_spec (s : DS_DynamicString.t) (l : bytes) (n : Z) :
  string_holds s l -> n <= 2 ^ 62 ->
  exists s',
    DS_DynamicString.Reserve s n = Ok s' /\ string_holds s' l /\
    n <= DS_DynamicString.Capacity s' /\
    (DS_DynamicString.Capacity s' = DS_DynamicString.Capacity s \/
     DS_DynamicString.Capacity s' = 8 \/ DS_DynamicString.Capacity s' < 2 * n).
Proof.
  intros (HS & HC & rest & HD) Hn. unfold DS_DynamicString.Reserve.
  destruct (Z.gtb_spec n (DS_DynamicString.Capacity s)) as [Hgt|Hle].
  - destruct (Reserve_loop_spec n (DS_DynamicString.Capacity s)) as (c & -> & H1 & H2 & H3);
      [lia | exact Hn |].
    eexists. split; [reflexivity|]. unfold string_holds.
    cbn [DS_DynamicString.Data DS_DynamicString.Size DS_DynamicString.Capacity].
    split; [|lia]. split; [exact HS|]. split.
    + unfold MemRealloc. rewrite length_app, repeat_length. lia.
    + exists (rest ++ repeat None (Z.to_nat (c - DS_DynamicString.Capacity s))).
      unfold MemRealloc. rewrite HD. now rewrite <- app_assoc.
  - exists s. split; [reflexivity|]. split; [|lia].
    split; [exact HS|]. split; [exact HC|]. now exists rest.
Qed.

(** X21. [DS_DynamicString::Add] appends the bytes of the view and keeps
    the string terminated: afterwards the string holds the old bytes
    followed by the new ones, [Data[Size]] is a NUL byte inside the block,
    and the C string at [CStr()] is what ["%s"] prints of those bytes, that
    is, the bytes before their first NUL byte.  The capacity stays an
    [intptr_t] wherever the size asked for is at most 2^62. *)
Theorem string_Add_appends (s : DS_DynamicString.t) (l str : bytes) :
  string_holds s l ->
  DS_DynamicString.Capacity s < 2 ^ 63 ->
  Z.of_nat (length l) + Z.of_nat (length str) + 1 <= 2 ^ 62 ->
  exists s',
    DS_DynamicString.Add s str = Ok s' /\ string_holds s' (l ++ str) /\
    DS_DynamicString.Size s' < DS_DynamicString.Capacity s' < 2 ^ 63 /\
    load (DS_DynamicString.Data s') (DS_DynamicString.Size s') = Some NUL /\
    DS_DynamicString.c_string (DS_DynamicString.Data s') = Some (fmt_s (l ++ str)).
Proof.
  intros Hh Hc Hn. pose proof Hh as (HSs & _).
  destruct (string_Reserve_spec s l (DS_DynamicString.Size s + Z.of_nat (length str) + 1) Hh)
    as (s1 & HR & (HS & HC & rest & HD) & H1 & H3); [lia|].
  destruct (room_split rest (length str + 1)) as (mid & post & -> & Hmid).
  { rewrite HC, HD, length_app, length_map in H1. lia. }
  destruct (room_split mid (length str)) as (mid1 & last & -> & Hmid1); [lia|].
  rewrite length_app in Hmid. destruct last as [|z [|? ?]]; simpl in Hmid; try lia.
  unfold DS_DynamicString.Add. rewrite HR. cbn [bind]. eexists. split; [reflexivity|].
  assert (Hst : store (store_all (DS_DynamicString.Data s1) (DS_DynamicString.Size s1) str)
                  (DS_DynamicString.Size s1 + Z.of_nat (length str)) NUL
                = map Some (l ++ str) ++ Some NUL :: post).
  { rewrite HD, HS. rewrite <- (length_map Some l) at 1.
    rewrite <- !app_assoc. rewrite store_all_middle by exact Hmid1.
    replace (Z.of_nat (length l) + Z.of_nat (length str))
      with (Z.of_nat (length (map Some (l ++ str))))
      by (rewrite length_map, length_app; lia).
    rewrite app_assoc, <- map_app. cbn [app]. apply store_middle. }
  cbn [DS_DynamicString.Data DS_DynamicString.Size DS_DynamicString.Capacity].
  rewrite Hst. unfold string_holds.
  cbn [DS_DynamicString.Data DS_DynamicString.Size DS_DynamicString.Capacity].
  assert (Hcap : DS_DynamicString.Capacity s1
                 = Z.of_nat (length (map Some (l ++ str) ++ Some NUL :: post))).
  { rewrite HC, HD, !length_app, !length_map, !length_app. simpl. lia. }
  split; [split; [|split]|split; [|split]].
  - rewrite HS, length_app. lia.
  - exact Hcap.
  - now exists (Some NUL :: post).
  - split; [|lia].
    rewrite Hcap, HS, !length_app, length_map, length_app. cbn [length]. lia.
  - rewrite HS.
    replace (Z.of_nat (length l) + Z.of_nat (length str))
      with (Z.of_nat (length (map Some (l ++ str))))
      by (rewrite length_map, length_app; lia).
    apply load_middle.
  - apply c_string_terminated.
Qed.

Lemma string_Add_appends_witness :
  exists s',
    DS_DynamicString.Add DS_DynamicString.empty (lit "ab") = Ok s' /\
    string_holds s' ([] ++ lit "ab") /\
    DS_DynamicString.Size s' < DS_DynamicString.Capacity s' < 2 ^ 63 /\
    load (DS_DynamicString.Data s') (DS_DynamicString.Size s') = Some NUL /\
    DS_DynamicString.c_string (DS_DynamicString.Data s') = Some (fmt_s ([] ++ lit "ab")).
Proof.
  apply (string_Add_appends DS_DynamicString.empty [] (lit "ab")).
  - split; [reflexivity|]. split; [reflexivity|]. exists []. reflexivity.
  - reflexivity.
  - discriminate.
Defined.

(** ** Code points *)

Lemma uchar_byte_of (z : Z) : 0 <= z < 256 -> uchar (byte_of z) = z.
Proof.
  intros H. unfold uchar, byte_of. rewrite N_ascii_embedding by lia. lia.
Qed.

Lemma first_byte_table :
  forallb (fun n => Bool.eqb (DS_IsUtf8FirstByte (byte_of (Z.of_nat n)))
                             (negb ((128 <=? Z.of_nat n) && (Z.of_nat n <? 192))))
          (seq 0 256) = true.
Proof. vm_compute. reflexivity. Qed.

Lemma IsUtf8FirstByte_byte_of (z : Z) :
  0 <= z < 256 ->
  DS_IsUtf8FirstByte (byte_of z) = negb ((128 <=? z) && (z <? 192)).
Proof.
  intros H. pose proof first_byte_table as Ht. rewrite forallb_forall in Ht.
  specialize (Ht (Z.to_nat z)). rewrite Z2Nat.id in Ht by lia.
  apply Bool.eqb_prop, Ht, in_seq. lia.
Qed.

Lemma loop_step (ch b : Z) :
  0 <= ch < 2 ^ 25 -> 0 <= b < 256 ->
  uint32 (uint32 (Z.shiftl ch 6) + b) = ch * 64 + b.
Proof.
  intros Hc Hb. unfold uint32. rewrite Z.shiftl_mul_pow2 by lia.
  change (2 ^ 6) with 64. change (2 ^ 25) with 33554432 in Hc.
  change (2 ^ 32) with 4294967296.
  rewrite (Z.mod_small (ch * 64)) by lia. apply Z.mod_small. lia.
Qed.

Lemma loop_last (c : ascii) (post : bytes) (ch : Z) (sz : nat) (off : Z) :
  starts_codepoint post ->
  NextCodepoint_loop (c :: post) ch sz off
  = (uint32 (uint32 (Z.shiftl ch 6) + uchar c), S sz, off + 1).
Proof.
  intros H. cbn [NextCodepoint_loop]. destruct post as [|c' post]; [reflexivity|].
  simpl in H. now rewrite H.
Qed.

Lemma loop_more (c c' : ascii) (rest : bytes) (ch : Z) (sz : nat) (off : Z) :
  DS_IsUtf8FirstByte c' = false ->
  NextCodepoint_loop (c :: c' :: rest) ch sz off
  = NextCodepoint_loop (c' :: rest) (uint32 (uint32 (Z.shiftl ch 6) + uchar c))
      (S sz) (off + 1).
Proof. intros H. cbn [NextCodepoint_loop]. now rewrite H. Qed.

Lemma continuation_byte (r : Z) :
  0 <= r < 64 -> DS_IsUtf8FirstByte (byte_of (0x80 + r)) = false.
Proof.
  intros H. rewrite IsUtf8FirstByte_byte_of by lia.
  replace (128 <=? 128 + r) with true by (symmetry; apply Z.leb_le; lia).
  replace (128 + r <? 192) with true by (symmetry; apply Z.ltb_lt; lia).
  reflexivity.
Qed.

Lemma leading_byte (z : Z) :
  0 <= z < 128 \/ 192 <= z < 256 -> DS_IsUtf8FirstByte (byte_of z) = true.
Proof.
  intros H. rewrite IsUtf8FirstByte_byte_of by lia.
  destruct (Z.leb_spec 128 z), (Z.ltb_spec z 192); try reflexivity; lia.
Qed.

Ltac loop_steps :=
  repeat match goal with
         | |- context [uint32 (uint32 (Z.shiftl ?c 6) + ?b)] =>
             rewrite (loop_step c b) by (change (2 ^ 25) with 33554432; lia)
         end.

Lemma utf8_cases (cp : Z) :
  0 <= cp < 0x200000 ->
  exists c rest,
    utf8 cp = c :: rest /\ DS_IsUtf8FirstByte c = true /\
    Forall (fun b => DS_IsUtf8FirstByte b = false) rest /\ (length rest <= 3)%nat /\
    forall post off, starts_codepoint post ->
      NextCodepoint_loop (utf8 cp ++ post) 0 0 off
      = (cp + nth (length rest) DS_UTF8_OFFSETS 0, S (length rest),
         off + Size (utf8 cp)).
Proof.
  intros Hcp. unfold utf8.
  pose proof (Z.mod_pos_bound cp 64 ltac:(lia)) as M0.
  pose proof (Z.mod_pos_bound (cp / 64) 64 ltac:(lia)) as M1.
  pose proof (Z.mod_pos_bound (cp / 4096) 64 ltac:(lia)) as M2.
  assert (D1 : cp / 4096 = cp / 64 / 64)
    by (change 4096 with (64 * 64); symmetry; apply Z.div_div; lia).
  assert (D2 : cp / 262144 = cp / 4096 / 64)
    by (change 262144 with (4096 * 64); symmetry; apply Z.div_div; lia).
  pose proof (Z.div_mod cp 64 ltac:(lia)) as E0.
  pose proof (Z.div_mod (cp / 64) 64 ltac:(lia)) as E1.
  pose proof (Z.div_mod (cp / 4096) 64 ltac:(lia)) as E2.
  assert (P0 : 0 <= cp / 64) by (apply Z.div_pos; lia).
  assert (P1 : 0 <= cp / 4096) by (apply Z.div_pos; lia).
  assert (P2 : 0 <= cp / 262144) by (apply Z.div_pos; lia).
  destruct (Z.ltb_spec cp 0x80) as [H1|H1];
    [|destruct (Z.ltb_spec cp 0x800) as [H2|H2];
      [|destruct (Z.ltb_spec cp 0x10000) as [H3|H3]]].
  - eexists _, _. split; [reflexivity|]. split; [apply leading_byte; lia|].
    split; [constructor|]. split; [simpl; lia|]. intros post off Hpost.
    cbn [app]. rewrite loop_last by exact Hpost.
    rewrite uchar_byte_of by lia. loop_steps.
    unfold Size. cbn [length nth DS_UTF8_OFFSETS]. apply f_equal2; [apply f_equal2; [lia | reflexivity] | lia].
  - eexists _, _. split; [reflexivity|]. split; [apply leading_byte; lia|].
    split; [repeat constructor; apply continuation_byte; lia|].
    split; [simpl; lia|]. intros post off Hpost. cbn [app].
    rewrite loop_more by (apply continuation_byte; lia).
    rewrite loop_last by exact Hpost.
    rewrite !uchar_byte_of by lia.
    loop_steps.
    unfold Size. cbn [length nth DS_UTF8_OFFSETS]. apply f_equal2; [apply f_equal2; [lia | reflexivity] | lia].
  - eexists _, _. split; [reflexivity|]. split; [apply leading_byte; lia|].
    split; [repeat constructor; apply continuation_byte; lia|].
    split; [simpl; lia|]. intros post off Hpost. cbn [app].
    rewrite !loop_more by (apply continuation_byte; lia).
    rewrite loop_last by exact Hpost.
    rewrite !uchar_byte_of by lia.
    loop_steps.
    unfold Size. cbn [length nth DS_UTF8_OFFSETS]. apply f_equal2; [apply f_equal2; [lia | reflexivity] | lia].
  - eexists _, _. split; [reflexivity|]. split; [apply leading_byte; lia|].
    split; [repeat constructor; apply continuation_byte; lia|].
    split; [simpl; lia|]. intros post off Hpost. cbn [app].
    rewrite !loop_more by (apply continuation_byte; lia).
    rewrite loop_last by exact Hpost.
    rewrite !uchar_byte_of by lia.
    loop_steps.
    unfold Size. cbn [length nth DS_UTF8_OFFSETS]. apply f_equal2; [apply f_equal2; [lia | reflexivity] | lia].
Qed.

Lemma skipn_Size_app (pre rest : bytes) :
  skipn (Z.to_nat (Size pre)) (pre ++ rest) = rest.
Proof.
  unfold Size. rewrite Nat2Z.id, skipn_app, skipn_all, Nat.sub_diag. reflexivity.
Qed.

Lemma NextCodepoint_utf8 (pre post : bytes) (cp : Z) :
  0 <= cp < 0x200000 -> starts_codepoint post ->
  DS_NextCodepoint (pre ++ utf8 cp ++ post) (Size pre)
  = Val (cp, Size pre + Size (utf8 cp)).
Proof.
  intros Hcp Hpost.
  destruct (utf8_cases cp Hcp) as (c & rest & E & Hc & Hrest & Hlen & Hloop).
  unfold DS_NextCodepoint.
  replace (Size pre >=? Size (pre ++ utf8 cp ++ post)) with false.
  2:{ symmetry. rewrite Z.geb_leb. apply Z.leb_gt. unfold Size.
      rewrite E, !length_app. simpl. lia. }
  replace (Size pre <? 0) with false by (symmetry; apply Z.ltb_ge; unfold Size; lia).
  rewrite skipn_Size_app, (Hloop post (Size pre) Hpost).
  replace (S (length rest) - 1)%nat with (length rest) by lia.
  destruct rest as [|r1 [|r2 [|r3 [|r4 rest]]]]; try (simpl in Hlen; lia);
    cbn [length nth nth_error DS_UTF8_OFFSETS]; unfold uint32;
    (rewrite Z.mod_small by (change (2 ^ 32) with 4294967296; lia));
    do 2 f_equal; lia.
Qed.

Lemma char_at_middle (pre l post : bytes) (k : nat) (c : ascii) :
  nth_error l k = Some c ->
  char_at (pre ++ l ++ post) (Size pre + Z.of_nat k) = Val c.
Proof.
  intros H. unfold char_at, Size.
  replace (Z.of_nat (length pre) + Z.of_nat k <? 0) with false
    by (symmetry; apply Z.ltb_ge; lia).
  replace (Z.to_nat (Z.of_nat (length pre) + Z.of_nat k)) with (length pre + k)%nat by lia.
  rewrite nth_error_app2 by lia.
  replace (length pre + k - length pre)%nat with k by lia.
  rewrite nth_error_app1 by (apply nth_error_Some; congruence). now rewrite H.
Qed.

Lemma utf8_starts_codepoint (cps : list Z) (tail : bytes) :
  Forall (fun cp => 0 <= cp < 0x200000) cps -> starts_codepoint tail ->
  starts_codepoint (concat (map utf8 cps) ++ tail).
Proof.
  intros H Ht. destruct H as [|cp cps Hcp _]; [exact Ht|].
  destruct (utf8_cases cp Hcp) as (c & rest & E & Hc & _).
  cbn [map concat]. rewrite E. exact Hc.
Qed.

Lemma CodepointCount_loop_utf8 (tail : bytes) (cps : list Z) :
  (tail = [] \/ exists post, tail = NUL :: post /\ starts_codepoint post) ->
  Forall (fun cp => 0 < cp < 0x200000) cps ->
  forall (pre : bytes) (count : Z) (fuel : nat),
    (length cps < fuel)%nat ->
    CodepointCount_loop fuel (pre ++ concat (map utf8 cps) ++ tail) count (Size pre)
    = Val (count + Z.of_nat (length cps)).
Proof.
  intros Htail. induction 1 as [|cp cps Hcp Hcps IH]; intros pre count fuel Hfuel;
    (destruct fuel as [|fuel]; [simpl in Hfuel; lia|]); cbn [CodepointCount_loop].
  - cbn [map concat app length]. destruct Htail as [->|(post & -> & Hpost)].
    + rewrite app_nil_r. unfold DS_NextCodepoint.
      replace (Size pre >=? Size pre) with true
        by (symmetry; rewrite Z.geb_leb; apply Z.leb_le; lia).
      cbn. f_equal. lia.
    + change (NUL :: post) with (utf8 0 ++ post).
      rewrite NextCodepoint_utf8 by (assumption || lia). cbn. f_equal. lia.
  - cbn [map concat]. rewrite <- (app_assoc (utf8 cp)).
    rewrite NextCodepoint_utf8.
    + replace (cp =? 0) with false by (symmetry; apply Z.eqb_neq; lia).
      replace (Size pre + Size (utf8 cp)) with (Size (pre ++ utf8 cp))
        by (unfold Size; rewrite length_app; lia).
      rewrite (app_assoc pre (utf8 cp)). rewrite IH by (simpl in Hfuel; lia).
      f_equal. simpl length. lia.
    + lia.
    + apply utf8_starts_codepoint.
      * eapply Forall_impl; [|exact Hcps]. cbv beta. intros; lia.
      * destruct Htail as [->|(post & -> & _)]; [exact I | reflexivity].
Qed.

Lemma loop_unfold (c c' : ascii) (rest : bytes) (ch : Z) (sz : nat) (off : Z) :
  NextCodepoint_loop (c :: c' :: rest) ch sz off
  = if DS_IsUtf8FirstByte c' then (uint32 (uint32 (Z.shiftl ch 6) + uchar c), S sz, off + 1)
    else NextCodepoint_loop (c' :: rest) (uint32 (uint32 (Z.shiftl ch 6) + uchar c))
           (S sz) (off + 1).
Proof. reflexivity. Qed.

Lemma NextCodepoint_loop_counts (rest : bytes) :
  forall (c : ascii) (ch : Z) (sz : nat) (off : Z),
    exists ch',
      NextCodepoint_loop (c :: rest) ch sz off
      = (ch', (sz + S (continuation_run rest))%nat,
         off + Z.of_nat (S (continuation_run rest))).
Proof.
  induction rest as [|c' rest IH]; intros c ch sz off.
  - eexists. cbn [NextCodepoint_loop continuation_run].
    apply f_equal2; [apply f_equal2; [reflexivity | lia] | lia].
  - rewrite loop_unfold. cbn [continuation_run].
    destruct (DS_IsUtf8FirstByte c').
    + eexists. apply f_equal2; [apply f_equal2; [reflexivity | lia] | lia].
    + destruct (IH c' (uint32 (uint32 (Z.shiftl ch 6) + uchar c)) (S sz) (off + 1))
        as (ch' & ->).
      exists ch'. apply f_equal2; [apply f_equal2; [reflexivity | lia] | lia].
Qed.

Lemma continuation_run_le (rest : bytes) : (continuation_run rest <= length rest)%nat.
Proof.
  induction rest as [|c rest IH]; [simpl; lia|]. simpl.
  destruct (DS_IsUtf8FirstByte c); lia.
Qed.

Lemma NextCodepoint_cases (str : bytes) (offset : Z) :
  0 <= offset < Size str ->
  let run := continuation_run (skipn (S (Z.to_nat offset)) str) in
  offset + 1 + Z.of_nat run <= Size str /\
  ((run < 6)%nat ->
   exists c, 0 <= c < 2 ^ 32 /\
             DS_NextCodepoint str offset = Val (c, offset + 1 + Z.of_nat run)) /\
  ((6 <= run)%nat -> DS_NextCodepoint str offset = Undefined).
Proof.
  intros Hoff run. unfold DS_NextCodepoint.
  replace (offset >=? Size str) with false
    by (symmetry; rewrite Z.geb_leb; apply Z.leb_gt; lia).
  replace (offset <? 0) with false by (symmetry; apply Z.ltb_ge; lia).
  destruct (skipn (Z.to_nat offset) str) as [|c rest] eqn:E.
  { apply (f_equal (@length ascii)) in E. rewrite length_skipn in E.
    unfold Size in Hoff. simpl in E. lia. }
  assert (Hrest : skipn (S (Z.to_nat offset)) str = rest).
  { replace (S (Z.to_nat offset)) with (1 + Z.to_nat offset)%nat by lia.
    now rewrite <- skipn_skipn, E. }
  unfold run. rewrite Hrest.
  destruct (NextCodepoint_loop_counts rest c 0 0 offset) as (ch' & ->).
  cbn [Nat.add]. replace (S (continuation_run rest) - 1)%nat with (continuation_run rest)
    by lia.
  split; [|split].
  - pose proof (continuation_run_le rest) as Hle.
    apply (f_equal (@length ascii)) in E. rewrite length_skipn in E.
    unfold Size in *. simpl in E. lia.
  - intros Hrun. destruct (nth_error DS_UTF8_OFFSETS (continuation_run rest)) as [o|] eqn:Eo.
    + exists (uint32 (ch' - o)). split.
      * unfold uint32. apply Z.mod_pos_bound. reflexivity.
      * do 2 f_equal. lia.
    + apply nth_error_None in Eo. simpl in Eo. lia.
  - intros Hrun. replace (nth_error DS_UTF8_OFFSETS (continuation_run rest)) with (@None Z);
      [reflexivity|].
    symmetry. apply nth_error_None. simpl. lia.
Qed.


(** X22. [DS_NextCodepoint] has no defined result exactly when [*offset] is
    negative, or when the byte at [*offset] is followed by six or more
    continuation bytes, which makes it read past the end of
    [DS_UTF8_OFFSETS].  Everywhere else it returns a 32-bit value and leaves
    [*offset] unchanged at or after the end of the string, and otherwise
    after the byte read and the continuation bytes that follow it, never
    beyond the end of the string. *)
Theorem NextCodepoint_undefined_iff (str : bytes) (offset : Z) :
  (DS_NextCodepoint str offset = Undefined <->
   offset < 0 \/
   (offset < Size str /\
    (6 <= continuation_run (skipn (S (Z.to_nat offset)) str))%nat)) /\
  DS_NextCodepoint str offset <> NoFuel /\
  forall c offset', DS_NextCodepoint str offset = Val (c, offset') ->
    0 <= c < 2 ^ 32 /\
    (Size str <= offset -> c = 0 /\ offset' = offset) /\
    (offset < Size str ->
     offset' = offset + 1
               + Z.of_nat (continuation_run (skipn (S (Z.to_nat offset)) str)) /\
     offset' <= Size str).
Proof.
  set (run := continuation_run (skipn (S (Z.to_nat offset)) str)).
  destruct (Z.lt_ge_cases offset (Size str)) as [Hlt|Hge].
  - destruct (Z.lt_ge_cases offset 0) as [Hneg|Hpos].
    + assert (E : DS_NextCodepoint str offset = Undefined).
      { unfold DS_NextCodepoint.
        replace (offset >=? Size str) with false
          by (symmetry; rewrite Z.geb_leb; apply Z.leb_gt; lia).
        now replace (offset <? 0) with true by (symmetry; apply Z.ltb_lt; lia). }
      rewrite E. split; [split; [now left | reflexivity]|]. split; discriminate.
    + destruct (NextCodepoint_cases str offset (conj Hpos Hlt)) as (Hle & Hsome & Hnone).
      fold run in Hle, Hsome, Hnone.
      destruct (Nat.lt_ge_cases run 6) as [Hrun|Hrun].
      * destruct (Hsome Hrun) as (c & Hc & ->).
        split; [split; [discriminate | intros [H|[_ H]]; lia]|].
        split; [discriminate|]. intros c0 o [= <- <-].
        split; [exact Hc|]. split; [lia|]. intros _. split; [reflexivity | exact Hle].
      * rewrite (Hnone Hrun). split; [split; [now right | reflexivity]|].
        split; discriminate.
  - assert (E : DS_NextCodepoint str offset = Val (0, offset)).
    { unfold DS_NextCodepoint.
      now replace (offset >=? Size str) with true
        by (symmetry; rewrite Z.geb_leb; apply Z.leb_le; lia). }
    rewrite E. split; [split; [discriminate|]|].
    + unfold Size in Hge. intros [H|[H _]]; unfold Size in *; lia.
    + split; [discriminate|]. intros c o [= <- <-].
      split; [change (2 ^ 32) with 4294967296; lia|]. split; [tauto | lia].
Qed.

(** X23. The two cursors decode UTF-8 and undo each other: where the
    encoding of a code point below 0x200000 lies in the string and is not
    followed by a continuation byte, [DS_NextCodepoint] at its first byte
    returns the code point and moves [*offset] behind the encoding, and
    [DS_PrevCodepoint] from there returns the same code point and moves
    [*offset] back to the first byte. *)
Theorem codepoint_cursors_round_trip (pre post : bytes) (cp : Z) :
  0 <= cp < 0x200000 -> starts_codepoint post ->
  DS_NextCodepoint (pre ++ utf8 cp ++ post) (Size pre)
  = Val (cp, Size pre + Size (utf8 cp)) /\
  DS_PrevCodepoint (pre ++ utf8 cp ++ post) (Size pre + Size (utf8 cp))
  = Val (cp, Size pre).
Proof.
  intros Hcp Hpost.
  set (str := pre ++ utf8 cp ++ post). set (behind := Size pre + Size (utf8 cp)).
  pose proof (NextCodepoint_utf8 pre post cp Hcp Hpost) as HN. fold str behind in HN.
  split; [exact HN|].
  destruct (utf8_cases cp Hcp) as (c & rest & E & Hc & Hrest & Hlen & _).
  assert (Hat : forall k b, nth_error (c :: rest) k = Some b ->
                  char_at str (Size pre + Z.of_nat k) = Val b).
  { intros k b Hk. unfold str. rewrite E. now apply char_at_middle. }
  unfold DS_PrevCodepoint.
  replace (behind <=? 0) with false
    by (symmetry; apply Z.leb_gt; unfold behind, Size; rewrite E; simpl length; lia).
  unfold behind.
  replace (Size pre + Size (utf8 cp)) with (Size pre + Z.of_nat (S (length rest)))
    by (rewrite E; reflexivity).
  destruct rest as [|r1 [|r2 [|r3 [|r4 rest]]]]; try (simpl in Hlen; lia);
    cbn [length].
  - replace (Size pre + Z.of_nat 1 - 1) with (Size pre + Z.of_nat 0) by lia.
    rewrite (Hat 0%nat c eq_refl), Hc. replace (Size pre + Z.of_nat 0) with (Size pre) by lia. now rewrite HN.
  - inversion Hrest as [|? ? H1 _]; subst.
    replace (Size pre + Z.of_nat 2 - 1) with (Size pre + Z.of_nat 1) by lia.
    rewrite (Hat 1%nat r1 eq_refl), H1.
    replace (Size pre + Z.of_nat 2 - 2) with (Size pre + Z.of_nat 0) by lia.
    rewrite (Hat 0%nat c eq_refl), Hc. replace (Size pre + Z.of_nat 0) with (Size pre) by lia. now rewrite HN.
  - inversion Hrest as [|? ? H1 Hrest']; subst.
    inversion Hrest' as [|? ? H2 _]; subst.
    replace (Size pre + Z.of_nat 3 - 1) with (Size pre + Z.of_nat 2) by lia.
    rewrite (Hat 2%nat r2 eq_refl), H2.
    replace (Size pre + Z.of_nat 3 - 2) with (Size pre + Z.of_nat 1) by lia.
    rewrite (Hat 1%nat r1 eq_refl), H1.
    replace (Size pre + Z.of_nat 3 - 3) with (Size pre + Z.of_nat 0) by lia.
    rewrite (Hat 0%nat c eq_refl), Hc. replace (Size pre + Z.of_nat 0) with (Size pre) by lia. now rewrite HN.
  - inversion Hrest as [|? ? H1 Hrest']; subst.
    inversion Hrest' as [|? ? H2 Hrest'']; subst.
    inversion Hrest'' as [|? ? H3 _]; subst.
    replace (Size pre + Z.of_nat 4 - 1) with (Size pre + Z.of_nat 3) by lia.
    rewrite (Hat 3%nat r3 eq_refl), H3.
    replace (Size pre + Z.of_nat 4 - 2) with (Size pre + Z.of_nat 2) by lia.
    rewrite (Hat 2%nat r2 eq_refl), H2.
    replace (Size pre + Z.of_nat 4 - 3) with (Size pre + Z.of_nat 1) by lia.
    rewrite (Hat 1%nat r1 eq_refl), H1.
    replace (Size pre + Z.of_nat 4 - 4) with (Size pre) by lia. now rewrite HN.
Qed.

Lemma codepoint_cursors_round_trip_witness :
  DS_NextCodepoint (lit "a" ++ utf8 0x20AC ++ lit "b") (Size (lit "a"))
  = Val (0x20AC, Size (lit "a") + Size (utf8 0x20AC)) /\
  DS_PrevCodepoint (lit "a" ++ utf8 0x20AC ++ lit "b")
                   (Size (lit "a") + Size (utf8 0x20AC))
  = Val (0x20AC, Size (lit "a")).
Proof.
  apply (codepoint_cursors_round_trip (lit "a") (lit "b") 0x20AC).
  - split; [discriminate | reflexivity].
  - reflexivity.
Defined.

Lemma utf8_length (cps : list Z) : (length cps <= length (concat (map utf8 cps)))%nat.
Proof.
  induction cps as [|cp cps IH]; [simpl; lia|]. cbn [map concat].
  rewrite length_app. assert (1 <= length (utf8 cp))%nat; [|simpl; lia].
  unfold utf8. destruct (cp <? 128), (cp <? 2048), (cp <? 65536); simpl; lia.
Qed.

(** X24. [DS_CodepointCount] counts the code points of UTF-8 text up to
    the first NUL: on the encodings of code points between 1 and 0x1FFFFF,
    alone or followed by a NUL byte and anything that does not begin with a
    continuation byte, it returns the number of those code points. *)
Theorem CodepointCount_counts_utf8 (cps : list Z) (tail : bytes) :
  Forall (fun cp => 0 < cp < 0x200000) cps ->
  (tail = [] \/ exists post, tail = NUL :: post /\ starts_codepoint post) ->
  DS_CodepointCount (concat (map utf8 cps) ++ tail) = Val (Z.of_nat (length cps)).
Proof.
  intros Hcps Htail. unfold DS_CodepointCount.
  pose proof (CodepointCount_loop_utf8 tail cps Htail Hcps [] 0
                (S (length (concat (map utf8 cps) ++ tail)))) as H.
  cbn [app] in H. change (Size []) with 0 in H. rewrite H; [reflexivity|].
  pose proof (utf8_length cps). rewrite length_app. lia.
Qed.

Lemma CodepointCount_counts_utf8_witness :
  DS_CodepointCount (concat (map utf8 [0x41; 0xE9; 0x20AC; 0x1F600]) ++ NUL :: lit "xyz")
  = Val (Z.of_nat (length [0x41; 0xE9; 0x20AC; 0x1F600])).
Proof.
  apply (CodepointCount_counts_utf8 [0x41; 0xE9; 0x20AC; 0x1F600] (NUL :: lit "xyz")).
  - repeat constructor.
  - right. exists (lit "xyz"). split; reflexivity.
Defined.

(** X25. [DS_CodepointCount] always ends: its result is a count between 0
    and [Size], unless some byte of the string is followed by six or more
    continuation bytes, the only case in which it has no defined result. *)
Theorem CodepointCount_ends (str : bytes) :
  match DS_CodepointCount str with
  | Val n => 0 <= n <= Size str
  | Undefined =>
      exists k, (k < length str)%nat /\ (6 <= continuation_run (skipn (S k) str))%nat
  | NoFuel => False
  end.
Proof.
  unfold DS_CodepointCount.
  assert (H : forall fuel count offset,
             0 <= offset -> Z.max 0 (Size str - offset) < Z.of_nat fuel ->
             match CodepointCount_loop fuel str count offset with
             | Val n => count <= n <= count + Z.max 0 (Size str - offset)
             | Undefined =>
                 exists k, (k < length str)%nat /\
                           (6 <= continuation_run (skipn (S k) str))%nat
             | NoFuel => False
             end).
  { induction fuel as [|fuel IH]; intros count offset Ho Hf; [lia|].
    cbn [CodepointCount_loop].
    destruct (Z.lt_ge_cases offset (Size str)) as [Hlt|Hge].
    - destruct (NextCodepoint_cases str offset (conj Ho Hlt)) as (Hle & Hsome & Hnone).
      set (run := continuation_run (skipn (S (Z.to_nat offset)) str)) in *.
      destruct (Nat.lt_ge_cases run 6) as [Hrun|Hrun].
      + destruct (Hsome Hrun) as (c & _ & ->). destruct (c =? 0); [lia|].
        specialize (IH (count + 1) (offset + 1 + Z.of_nat run)).
        destruct (CodepointCount_loop fuel str (count + 1) (offset + 1 + Z.of_nat run));
          [lia | apply IH; lia | apply IH; lia].
      + rewrite (Hnone Hrun). exists (Z.to_nat offset). split; [unfold Size in Hlt; lia|].
        exact Hrun.
    - unfold DS_NextCodepoint.
      replace (offset >=? Size str) with true
        by (symmetry; rewrite Z.geb_leb; apply Z.leb_le; lia).
      cbn. lia. }
  specialize (H (S (length str)) 0 0).
  destruct (CodepointCount_loop (S (length str)) str 0 0);
    [|apply H; unfold Size; lia|apply H; unfold Size; lia].
  assert (0 <= a <= 0 + Z.max 0 (Size str - 0)) by (apply H; unfold Size; lia).
  unfold Size in *. lia.
Qed.

(** ** Hash maps *)

Section MapFacts.

Context {KEY VALUE : Type}.
Variable DS_Hash : KEY -> Z.
Variable DS_IsEqual : KEY -> KEY -> bool.
Hypothesis DS_IsEqual_spec : forall a b, DS_IsEqual a b = true <-> a = b.
Hypothesis DS_Hash_range : forall k, 0 <= DS_Hash k < 2 ^ 32.

Local Abbreviation slot := (DS_Map.slot KEY VALUE).
Local Abbreviation map := (DS_Map.t KEY VALUE).
Local Abbreviation hash_of := (DS_Map.hash_of DS_Hash).

Lemma hash_of_range (k : KEY) : 2 ^ 31 <= hash_of k < 2 ^ 32.
Proof.
  unfold DS_Map.hash_of. pose proof (DS_Hash_range k) as H.
  assert (Hb : Z.testbit (Z.lor (DS_Hash k) 2147483648) 31 = true).
  { rewrite Z.lor_spec. change 2147483648 with (2 ^ 31).
    rewrite (Z.pow2_bits_true 31) by lia. apply orb_true_r. }
  assert (H0 : 0 <= Z.lor (DS_Hash k) 2147483648) by (apply Z.lor_nonneg; lia).
  split.
  - destruct (Z.lt_ge_cases (Z.lor (DS_Hash k) 2147483648) (2 ^ 31)) as [Hlt|Hge];
      [|exact Hge].
    rewrite (Z.bits_above_log2 _ 31) in Hb; [discriminate | exact H0 |].
    destruct (Z.eq_dec (Z.lor (DS_Hash k) 2147483648) 0) as [E|E];
      [rewrite E; reflexivity|].
    apply Z.log2_lt_pow2; lia.
  - destruct (Z.eq_dec (Z.lor (DS_Hash k) 2147483648) 0) as [E|E];
      [rewrite E; reflexivity|].
    apply Z.log2_lt_pow2; [lia|]. rewrite Z.log2_lor by lia.
    apply Z.max_lub_lt.
    + destruct (Z.eq_dec (DS_Hash k) 0) as [E0|E0]; [rewrite E0; reflexivity|].
      apply Z.log2_lt_pow2; lia.
    + reflexivity.
Qed.

Lemma walk_0 (n x : Z) : 0 <= x < n -> walk n x 0 = x.
Proof. intros H. unfold walk. rewrite Z.add_0_r. apply Z.mod_small. exact H. Qed.

Lemma walk_range (n x : Z) (d : nat) : 0 < n -> 0 <= walk n x d < n.
Proof. intros H. unfold walk. apply Z.mod_pos_bound. exact H. Qed.

Lemma walk_step (n x : Z) (d : nat) :
  0 < n -> walk n ((x + 1) mod n) d = walk n x (S d).
Proof.
  intros H. unfold walk. rewrite Zplus_mod_idemp_l. f_equal. lia.
Qed.

Lemma walk_reaches (n x e : Z) :
  0 <= x < n -> 0 <= e < n -> exists d, (Z.of_nat d < n) /\ walk n x d = e.
Proof.
  intros Hx He. exists (Z.to_nat ((e - x) mod n)).
  pose proof (Z.mod_pos_bound (e - x) n ltac:(lia)) as Hm.
  split; [lia|]. unfold walk. rewrite Z2Nat.id by lia.
  rewrite Zplus_mod_idemp_r. replace (x + (e - x)) with e by lia.
  apply Z.mod_small. exact He.
Qed.

(** The two masks of the loops, for a capacity that is a power of two. *)
Lemma mask_mod (p a : Z) :
  0 <= p <= 24 -> Z.land a (uint32 (2 ^ p - 1)) = a mod 2 ^ p.
Proof.
  intros Hp. unfold uint32.
  assert (0 < 2 ^ p <= 2 ^ 24) by (split; [apply Z.pow_pos_nonneg; lia|];
                                   apply Z.pow_le_mono_r; lia).
  rewrite Z.mod_small by (change (2 ^ 24) with 16777216 in *;
                          change (2 ^ 32) with 4294967296; lia).
  rewrite <- Z.land_ones by lia. f_equal. rewrite Z.ones_equiv. lia.
Qed.

Lemma next_index (p i : Z) :
  0 <= p <= 24 -> 0 <= i < 2 ^ p ->
  Z.land (uint32 (i + 1)) (uint32 (2 ^ p - 1)) = (i + 1) mod 2 ^ p.
Proof.
  intros Hp Hi. rewrite mask_mod by exact Hp. f_equal. unfold uint32.
  assert (2 ^ p <= 2 ^ 24) by (apply Z.pow_le_mono_r; lia).
  apply Z.mod_small. change (2 ^ 24) with 16777216 in *.
  change (2 ^ 32) with 4294967296. lia.
Qed.

Lemma probe_total (Data : list slot) (p : Z) (k : KEY) :
  0 <= p <= 24 -> Z.of_nat (length Data) = 2 ^ p -> keyed DS_Hash Data ->
  forall (d : nat) (x : Z) (fuel : nat),
    0 <= x < 2 ^ p -> empty_at Data (walk (2 ^ p) x d) -> (d < fuel)%nat ->
    exists r,
      DS_Map.probe DS_IsEqual fuel Data (uint32 (2 ^ p - 1)) (hash_of k) k x = Val r /\
      match r with
      | DS_Map.Present i =>
          exists d0, (d0 <= d)%nat /\ walk (2 ^ p) x d0 = i /\ key_at Data i k
      | DS_Map.Vacant j =>
          exists d0, (d0 <= d)%nat /\ walk (2 ^ p) x d0 = j /\ empty_at Data j /\
            path_clear Data (2 ^ p) x d0 /\
            forall d', (d' < d0)%nat -> ~ key_at Data (walk (2 ^ p) x d') k
      end.
Proof.
  intros Hp Hlen Hkeyed. set (n := 2 ^ p) in *.
  assert (Hn : 0 < n) by (apply Z.pow_pos_nonneg; lia).
  induction d as [|d IH]; intros x fuel Hx Hempty Hfuel;
    (destruct fuel as [|fuel]; [lia|]); cbn [DS_Map.probe];
    (destruct (nth_error Data (Z.to_nat x)) as [e0|] eqn:E0;
      [|apply nth_error_None in E0; lia]).
  - rewrite walk_0 in Hempty by exact Hx. destruct Hempty as (e & He & Hh).
    rewrite E0 in He. injection He as ->. rewrite Hh. cbn.
    eexists. split; [reflexivity|]. exists 0%nat. split; [lia|].
    split; [apply walk_0; exact Hx|]. split; [now exists e|].
    split; intros d' Hd'; lia.
  - destruct (Z.eqb_spec (DS_Map.Hash e0) 0) as [Hz|Hnz].
    + eexists. split; [reflexivity|]. exists 0%nat. split; [lia|].
      split; [apply walk_0; exact Hx|]. split; [now exists e0|].
      split; intros d' Hd'; lia.
    + destruct (Hkeyed _ _ E0 Hnz) as (k0 & Hk0 & Hh0).
      assert (Hcont : k <> k0 ->
        exists r,
          DS_Map.probe DS_IsEqual fuel Data (uint32 (n - 1)) (hash_of k) k
            (Z.land (uint32 (x + 1)) (uint32 (n - 1))) = Val r /\
          match r with
          | DS_Map.Present i =>
              exists d0, (d0 <= S d)%nat /\ walk n x d0 = i /\ key_at Data i k
          | DS_Map.Vacant j =>
              exists d0, (d0 <= S d)%nat /\ walk n x d0 = j /\ empty_at Data j /\
                path_clear Data n x d0 /\
                forall d', (d' < d0)%nat -> ~ key_at Data (walk n x d') k
          end).
      { intros Hne. unfold n. rewrite next_index by (assumption || exact Hx). fold n.
        destruct (IH ((x + 1) mod n) fuel) as (r & Hr & Hspec).
        - apply Z.mod_pos_bound. exact Hn.
        - rewrite walk_step by exact Hn. exact Hempty.
        - lia.
        - exists r. split; [exact Hr|]. destruct r as [j|i].
          + destruct Hspec as (d0 & Hd0 & Hw & He & Hclear & Hnokey).
            exists (S d0). split; [lia|]. rewrite <- walk_step by exact Hn.
            split; [exact Hw|]. split; [exact He|]. split.
            * intros [|d'] Hd'.
              -- rewrite walk_0 by exact Hx. now exists e0.
              -- rewrite <- walk_step by exact Hn. apply Hclear. lia.
            * intros [|d'] Hd'.
              -- rewrite walk_0 by exact Hx. intros (e & He' & _ & Hk').
                 rewrite E0 in He'. injection He' as <-. congruence.
              -- rewrite <- walk_step by exact Hn. apply Hnokey. lia.
          + destruct Hspec as (d0 & Hd0 & Hw & Hk).
            exists (S d0). split; [lia|]. rewrite <- walk_step by exact Hn.
            split; [exact Hw | exact Hk]. }
      destruct (Z.eqb_spec (hash_of k) (DS_Map.Hash e0)) as [Hsame|Hdiff].
      * rewrite Hk0. destruct (DS_IsEqual k k0) eqn:Eeq.
        -- apply DS_IsEqual_spec in Eeq. subst k0.
           eexists. split; [reflexivity|]. exists 0%nat. split; [lia|].
           split; [apply walk_0; exact Hx|]. exists e0. auto.
        -- apply Hcont. intros ->.
           assert (DS_IsEqual k0 k0 = true) by now apply DS_IsEqual_spec.
           congruence.
      * apply Hcont. intros ->. congruence.
Qed.

Lemma empty_slot_exists (Data : list slot) :
  (occupied_count Data < length Data)%nat ->
  exists i e, nth_error Data i = Some e /\ DS_Map.Hash e = 0.
Proof.
  induction Data as [|e Data IH]; intros H; [simpl in H; lia|].
  cbn [occupied_count length] in H. destruct (Z.eqb_spec (DS_Map.Hash e) 0) as [Hz|Hnz].
  - exists 0%nat, e. split; [reflexivity | exact Hz].
  - destruct IH as (i & e' & Hi & He'); [lia|]. exists (S i), e'. now split.
Qed.

Lemma write_length (Data : list slot) (i : Z) (e : slot) :
  length (DS_Map.write Data i e) = length Data.
Proof.
  unfold DS_Map.write.
  destruct (Z.leb_spec 0 i); [|reflexivity]; cbn [andb].
  destruct (Z.ltb_spec i (Z.of_nat (length Data))); [|reflexivity].
  rewrite length_app. cbn [length]. rewrite length_firstn, length_skipn. lia.
Qed.

Lemma write_nth (Data : list slot) (j : nat) (e : slot) (i : nat) :
  (j < length Data)%nat ->
  nth_error (DS_Map.write Data (Z.of_nat j) e) i
  = if Nat.eqb i j then Some e else nth_error Data i.
Proof.
  intros Hj. unfold DS_Map.write.
  replace (0 <=? Z.of_nat j) with true by (symmetry; apply Z.leb_le; lia).
  replace (Z.of_nat j <? Z.of_nat (length Data)) with true
    by (symmetry; apply Z.ltb_lt; lia).
  cbn [andb]. rewrite Nat2Z.id.
  assert (Hf : length (firstn j Data) = j) by (rewrite length_firstn; lia).
  destruct (Nat.eqb_spec i j) as [->|Hne].
  - rewrite nth_error_app2 by lia. now rewrite Hf, Nat.sub_diag.
  - destruct (Nat.lt_ge_cases i j) as [Hlt|Hge].
    + rewrite nth_error_app1 by lia. rewrite nth_error_firstn.
      now replace (i <? j)%nat with true by (symmetry; apply Nat.ltb_lt; lia).
    + rewrite nth_error_app2 by lia. rewrite Hf.
      destruct (i - j)%nat as [|r] eqn:Er; [lia|]. cbn [nth_error].
      rewrite nth_error_skipn. f_equal. lia.
Qed.

Lemma occupied_count_app (a b : list slot) :
  occupied_count (a ++ b) = (occupied_count a + occupied_count b)%nat.
Proof.
  induction a as [|e a IH]; [reflexivity|]. cbn [app occupied_count].
  destruct (DS_Map.Hash e =? 0); lia.
Qed.

Lemma occupied_count_write (Data : list slot) (j : nat) (old e : slot) :
  nth_error Data j = Some old ->
  (occupied_count (DS_Map.write Data (Z.of_nat j) e)
   + (if Z.eqb (DS_Map.Hash old) 0%Z then 0 else 1)
   = occupied_count Data + (if Z.eqb (DS_Map.Hash e) 0%Z then 0 else 1))%nat.
Proof.
  intros Hold.
  assert (Hj : (j < length Data)%nat) by (apply nth_error_Some; congruence).
  unfold DS_Map.write.
  replace (0 <=? Z.of_nat j) with true by (symmetry; apply Z.leb_le; lia).
  replace (Z.of_nat j <? Z.of_nat (length Data)) with true
    by (symmetry; apply Z.ltb_lt; lia).
  cbn [andb]. rewrite Nat2Z.id.
  rewrite <- (firstn_skipn j Data) at 3.
  assert (Hs : skipn j Data = old :: skipn (S j) Data).
  { clear Hj. revert j Hold. induction Data as [|a Data IH]; intros [|j] Hold;
      try discriminate.
    - injection Hold as ->. reflexivity.
    - cbn [skipn]. now apply IH. }
  rewrite Hs, !occupied_count_app. cbn [occupied_count].
  destruct (DS_Map.Hash old =? 0), (DS_Map.Hash e =? 0); lia.
Qed.

Lemma hash_of_nonzero (k : KEY) : hash_of k <> 0.
Proof.
  pose proof (hash_of_range k) as H. change (2 ^ 31) with 2147483648 in H. lia.
Qed.

(** Writing a slot in use over an empty slot at the end of a clear path, or
    over a slot with the same hash and key. *)
Lemma write_wf (m : map) (j : nat) (old e' : slot) (k : KEY) (c' : Z) :
  map_wf DS_Hash m ->
  nth_error (DS_Map.Data m) j = Some old ->
  DS_Map.Hash e' = hash_of k -> DS_Map.Key e' = Some k ->
  (DS_Map.Hash old = 0 /\ (forall v, ~ holds m k v) /\
   (exists d0, (d0 < length (DS_Map.Data m))%nat /\
      walk (DS_Map.Capacity m) (hash_of k mod DS_Map.Capacity m) d0 = Z.of_nat j /\
      path_clear (DS_Map.Data m) (DS_Map.Capacity m)
                 (hash_of k mod DS_Map.Capacity m) d0) /\
   c' = DS_Map.HasCount m + 1)
  \/ (DS_Map.Hash old = DS_Map.Hash e' /\ DS_Map.Key old = DS_Map.Key e' /\
      c' = DS_Map.HasCount m) ->
  map_wf DS_Hash
    (DS_Map.mk (DS_Map.write (DS_Map.Data m) (Z.of_nat j) e') c' (DS_Map.Capacity m)) /\
  holds (DS_Map.mk (DS_Map.write (DS_Map.Data m) (Z.of_nat j) e') c' (DS_Map.Capacity m))
        k (DS_Map.Value e') /\
  forall k' v', k' <> k ->
    (holds (DS_Map.mk (DS_Map.write (DS_Map.Data m) (Z.of_nat j) e') c'
                      (DS_Map.Capacity m)) k' v'
     <-> holds m k' v').
Proof.
  intros (Hcap & Hpow & Hcount & Hslots & Hdistinct) Hold Hh Hk Hcase.
  assert (Hj : (j < length (DS_Map.Data m))%nat) by (apply nth_error_Some; congruence).
  assert (Hnz : DS_Map.Hash e' <> 0) by (rewrite Hh; apply hash_of_nonzero).
  set (Data' := DS_Map.write (DS_Map.Data m) (Z.of_nat j) e').
  assert (Hnth : forall i, nth_error Data' i
                           = if Nat.eqb i j then Some e' else nth_error (DS_Map.Data m) i)
    by (intros i; apply write_nth; exact Hj).
  assert (Hmono : forall i, occupied_at (DS_Map.Data m) i -> occupied_at Data' i).
  { intros i (e & He & Hne). unfold occupied_at. rewrite Hnth.
    destruct (Nat.eqb (Z.to_nat i) j); [now exists e' | now exists e]. }
  assert (Hclear : forall x d, path_clear (DS_Map.Data m) (DS_Map.Capacity m) x d ->
                               path_clear Data' (DS_Map.Capacity m) x d).
  { intros x d H d' Hd'. apply Hmono, H, Hd'. }
  assert (Hold_key : forall i e, nth_error (DS_Map.Data m) i = Some e ->
             DS_Map.Hash e <> 0 -> DS_Map.Key e = Some k -> i = j /\
             DS_Map.Hash old = DS_Map.Hash e' /\ DS_Map.Key old = DS_Map.Key e').
  { intros i e He Hne Hke. destruct Hcase as [(Hz & Habs & _)|(Hsame & Hkey & _)].
    - exfalso. apply (Habs (DS_Map.Value e)). now exists i, e.
    - split; [|now split]. apply (Hdistinct i j e old k); try assumption; congruence. }
  cbn [DS_Map.Data DS_Map.HasCount DS_Map.Capacity]. fold Data'.
  split; [split; [|split; [|split; [|split]]]|split].
  - cbn [DS_Map.Data DS_Map.Capacity]. unfold Data'. now rewrite write_length.
  - exact Hpow.
  - cbn [DS_Map.Data DS_Map.HasCount].
    pose proof (occupied_count_write (DS_Map.Data m) j old e' Hold) as Hw. fold Data' in Hw.
    destruct (Z.eqb_spec (DS_Map.Hash e') 0) as [|_]; [contradiction|].
    destruct Hcase as [(Hz & _ & _ & ->)|(Hsame & _ & ->)].
    + rewrite Hz in Hw. cbn in Hw. lia.
    + destruct (Z.eqb_spec (DS_Map.Hash old) 0) as [E|_]; [congruence|]. lia.
  - cbn [DS_Map.Data DS_Map.Capacity]. intros i e He Hne. rewrite Hnth in He.
    unfold Data' at 1. rewrite write_length.
    destruct (Nat.eqb_spec i j) as [->|Hij].
    + injection He as <-. exists k. split; [exact Hk|]. split; [exact Hh|].
      rewrite Hh. destruct Hcase as [(_ & _ & (d0 & Hd0 & Hw & Hp) & _)|(Hsame & Hkey & _)].
      * exists d0. split; [exact Hd0|]. split; [exact Hw|]. apply Hclear, Hp.
      * assert (Hold_nz : DS_Map.Hash old <> 0) by congruence.
        destruct (Hslots j old Hold Hold_nz) as (k0 & Hk0 & Hh0 & d & Hd & Hw & Hp).
        rewrite Hsame, Hh in Hw, Hp. exists d. split; [exact Hd|]. split; [exact Hw|].
        apply Hclear, Hp.
    + destruct (Hslots i e He Hne) as (k0 & Hk0 & Hh0 & d & Hd & Hw & Hp).
      exists k0. split; [exact Hk0|]. split; [exact Hh0|]. exists d.
      split; [exact Hd|]. split; [exact Hw|]. apply Hclear, Hp.
  - cbn [DS_Map.Data]. intros i1 i2 e1 e2 k0 H1 H2 Hn1 Hn2 Hk1 Hk2.
    rewrite Hnth in H1, H2.
    destruct (Nat.eqb_spec i1 j) as [->|Hi1], (Nat.eqb_spec i2 j) as [->|Hi2].
    + reflexivity.
    + injection H1 as <-. assert (k0 = k) by congruence. subst k0.
      destruct (Hold_key i2 e2 H2 Hn2 Hk2) as (-> & _). contradiction.
    + injection H2 as <-. assert (k0 = k) by congruence. subst k0.
      destruct (Hold_key i1 e1 H1 Hn1 Hk1) as (-> & _). contradiction.
    + exact (Hdistinct i1 i2 e1 e2 k0 H1 H2 Hn1 Hn2 Hk1 Hk2).
  - exists j, e'. cbn [DS_Map.Data]. rewrite Hnth, Nat.eqb_refl. auto.
  - intros k' v' Hk'. unfold holds. cbn [DS_Map.Data]. split.
    + intros (i & e & He & Hne & Hke & Hve). rewrite Hnth in He.
      destruct (Nat.eqb_spec i j) as [->|Hij].
      * injection He as <-. congruence.
      * now exists i, e.
    + intros (i & e & He & Hne & Hke & Hve). exists i, e. rewrite Hnth.
      destruct (Nat.eqb_spec i j) as [->|Hij]; [|auto].
      exfalso. rewrite Hold in He. injection He as <-.
      destruct Hcase as [(Hz & _)|(Hsame & Hkey & _)]; [contradiction|].
      apply Hk'. congruence.
Qed.

Lemma probe_home (m : map) (k : KEY) :
  map_wf DS_Hash m -> DS_Map.HasCount m < DS_Map.Capacity m ->
  exists r,
    DS_Map.probe DS_IsEqual (S (length (DS_Map.Data m))) (DS_Map.Data m)
      (uint32 (DS_Map.Capacity m - 1)) (hash_of k) k
      (Z.land (hash_of k) (uint32 (DS_Map.Capacity m - 1))) = Val r /\
    match r with
    | DS_Map.Present i =>
        exists i', i = Z.of_nat i' /\ key_at (DS_Map.Data m) i k
    | DS_Map.Vacant j =>
        exists j', j = Z.of_nat j' /\ empty_at (DS_Map.Data m) j /\
          (forall v, ~ holds m k v) /\
          exists d0, (d0 < length (DS_Map.Data m))%nat /\
            walk (DS_Map.Capacity m) (hash_of k mod DS_Map.Capacity m) d0 = j /\
            path_clear (DS_Map.Data m) (DS_Map.Capacity m)
                       (hash_of k mod DS_Map.Capacity m) d0
    end.
Proof.
  intros (Hcap & (p & Hp & Hpow) & Hcount & Hslots & Hdistinct) Hroom.
  destruct (empty_slot_exists (DS_Map.Data m)) as (ie & ee & Hie & Hee); [lia|].
  assert (Hie_lt : (ie < length (DS_Map.Data m))%nat) by (apply nth_error_Some; congruence).
  rewrite Hpow in *.
  assert (Hn : 0 < 2 ^ p) by (apply Z.pow_pos_nonneg; lia).
  rewrite mask_mod by lia.
  pose proof (Z.mod_pos_bound (hash_of k) (2 ^ p) Hn) as Hhome.
  destruct (walk_reaches (2 ^ p) (hash_of k mod 2 ^ p) (Z.of_nat ie)) as (d & Hd & Hwd);
    [exact Hhome | lia |].
  assert (Hkeyed : keyed DS_Hash (DS_Map.Data m)).
  { intros i e He Hne. destruct (Hslots i e He Hne) as (k0 & Hk0 & Hh0 & _). now exists k0. }
  destruct (probe_total (DS_Map.Data m) p k ltac:(lia) ltac:(lia) Hkeyed d
              (hash_of k mod 2 ^ p) (S (length (DS_Map.Data m))) Hhome)
    as (r & Hr & Hspec).
  { rewrite Hwd. exists ee. now rewrite Nat2Z.id. }
  { lia. }
  exists r. split; [exact Hr|]. destruct r as [j|i].
  - destruct Hspec as (d0 & Hd0 & Hw & He & Hclear & Hnokey).
    pose proof (walk_range (2 ^ p) (hash_of k mod 2 ^ p) d0 Hn) as Hj. rewrite Hw in Hj.
    exists (Z.to_nat j). split; [lia|]. split; [exact He|]. split.
    + intros v (i & e & Hi & Hne & Hke & _).
      destruct (Hslots i e Hi Hne) as (k0 & Hk0 & Hh0 & di & Hdi & Hwi & Hpi).
      assert (k0 = k) by congruence. subst k0. rewrite Hh0 in Hwi, Hpi.
      destruct (Nat.lt_trichotomy di d0) as [Hlt|[->|Hgt]].
      * apply (Hnokey di Hlt). rewrite Hwi. exists e. now rewrite Nat2Z.id.
      * destruct He as (e0 & He0 & Hz). rewrite <- Hw, Hwi, Nat2Z.id in He0. congruence.
      * destruct (Hpi d0 Hgt) as (e0 & He0 & Hnz). rewrite Hw in He0.
        destruct He as (e1 & He1 & Hz). congruence.
    + exists d0. split; [lia|]. split; [exact Hw | exact Hclear].
  - destruct Hspec as (d0 & Hd0 & Hw & Hk).
    pose proof (walk_range (2 ^ p) (hash_of k mod 2 ^ p) d0 Hn) as Hi. rewrite Hw in Hi.
    exists (Z.to_nat i). split; [lia | exact Hk].
Qed.

Lemma MapAdd_slot_spec (m : map) (k : KEY) :
  map_wf DS_Hash m -> DS_Map.HasCount m < DS_Map.Capacity m ->
  exists b i m',
    DS_Map.MapAdd_slot DS_IsEqual m k (hash_of k) = Val (b, Z.of_nat i, m') /\
    map_wf DS_Hash m' /\ key_at (DS_Map.Data m') (Z.of_nat i) k /\
    DS_Map.Capacity m' = DS_Map.Capacity m /\
    (forall k' v', k' <> k -> (holds m' k' v' <-> holds m k' v')) /\
    ((b = true /\ DS_Map.HasCount m' = DS_Map.HasCount m + 1 /\
      forall v, ~ holds m k v) \/
     (b = false /\ m' = m)).
Proof.
  intros Hwf Hroom. destruct (probe_home m k Hwf Hroom) as (r & Hr & Hspec).
  unfold DS_Map.MapAdd_slot. rewrite Hr. destruct r as [j|i].
  - destruct Hspec as (j' & -> & (old & Hold & Hz) & Habs & d0 & Hd0 & Hw & Hclear).
    rewrite Hold. rewrite Nat2Z.id in Hold.
    destruct (write_wf m j' old (DS_Map.mk_slot (hash_of k) (Some k) (DS_Map.Value old))
                k (DS_Map.HasCount m + 1) Hwf Hold eq_refl eq_refl)
      as (Hwf' & Hholds & Hothers).
    { left. split; [exact Hz|]. split; [exact Habs|]. split; [|reflexivity].
      exists d0. auto. }
    exists true, j'. eexists. split; [reflexivity|]. split; [exact Hwf'|].
    split.
    + unfold key_at. cbn [DS_Map.Data]. rewrite Nat2Z.id, write_nth
        by (apply nth_error_Some; congruence).
      rewrite Nat.eqb_refl. eexists. split; [reflexivity|]. cbn.
      split; [apply hash_of_nonzero | reflexivity].
    + split; [reflexivity|]. split; [exact Hothers|]. left. auto.
  - destruct Hspec as (i' & -> & Hk). exists false, i', m.
    split; [reflexivity|]. split; [exact Hwf|]. split; [exact Hk|].
    split; [reflexivity|]. split; [tauto|]. now right.
Qed.

Lemma set_value_spec (m : map) (i : nat) (k : KEY) (v : option VALUE) :
  map_wf DS_Hash m -> key_at (DS_Map.Data m) (Z.of_nat i) k ->
  map_wf DS_Hash (DS_Map.set_value m (Z.of_nat i) v) /\
  holds (DS_Map.set_value m (Z.of_nat i) v) k v /\
  (forall k' v', k' <> k ->
     (holds (DS_Map.set_value m (Z.of_nat i) v) k' v' <-> holds m k' v')) /\
  DS_Map.HasCount (DS_Map.set_value m (Z.of_nat i) v) = DS_Map.HasCount m /\
  DS_Map.Capacity (DS_Map.set_value m (Z.of_nat i) v) = DS_Map.Capacity m.
Proof.
  intros Hwf (e & He & Hne & Hke). unfold DS_Map.set_value. rewrite He.
  rewrite Nat2Z.id in He. pose proof Hwf as (_ & _ & _ & Hslots & _).
  destruct (Hslots i e He Hne) as (k0 & Hk0 & Hh0 & _).
  assert (k0 = k) by congruence. subst k0.
  destruct (write_wf m i e (DS_Map.mk_slot (DS_Map.Hash e) (DS_Map.Key e) v) k
              (DS_Map.HasCount m) Hwf He Hh0 Hke) as (Hwf' & Hholds & Hothers).
  { right. auto. }
  split; [exact Hwf'|]. split; [exact Hholds|]. split; [exact Hothers|]. split; reflexivity.
Qed.

Lemma holds_functional (m : map) (k : KEY) (v v' : option VALUE) :
  map_wf DS_Hash m -> holds m k v -> holds m k v' -> v = v'.
Proof.
  intros (_ & _ & _ & _ & Hdistinct) (i & e & He & Hne & Hke & <-)
    (i' & e' & He' & Hne' & Hke' & <-).
  assert (i = i') by (eapply Hdistinct; eassumption). subst i'. congruence.
Qed.

Lemma Find_spec (m : map) (k : KEY) :
  map_ok DS_Hash m ->
  (exists v, DS_Map.Find DS_Hash DS_IsEqual m k = Val (Some v) /\ holds m k v /\
             DS_Map.Has DS_Hash DS_IsEqual m k = Val true) \/
  (DS_Map.Find DS_Hash DS_IsEqual m k = Val None /\ (forall v, ~ holds m k v) /\
   DS_Map.Has DS_Hash DS_IsEqual m k = Val false).
Proof.
  intros [->|(Hwf & Hload)].
  - right. split; [reflexivity|]. split; [|reflexivity].
    intros v (i & e & He & _). destruct i; discriminate.
  - assert (Hcap : 0 < DS_Map.Capacity m).
    { destruct Hwf as (_ & (p & Hp & ->) & _). apply Z.pow_pos_nonneg; lia. }
    assert (Hcount : 0 <= DS_Map.HasCount m) by (destruct Hwf as (_ & _ & -> & _); lia).
    destruct (probe_home m k Hwf ltac:(lia)) as (r & Hr & Hspec).
    unfold DS_Map.Find, DS_Map.Has, DS_Map.FindPtr.
    replace (DS_Map.Capacity m =? 0) with false by (symmetry; apply Z.eqb_neq; lia).
    rewrite Hr. destruct r as [j|i].
    + destruct Hspec as (_ & _ & _ & Habs & _). right. auto.
    + destruct Hspec as (i' & -> & e & He & Hne & Hke). left. rewrite He.
      exists (DS_Map.Value e). split; [reflexivity|]. split; [|reflexivity].
      exists i', e. rewrite Nat2Z.id in He. auto.
Qed.

Lemma MapAdd_unfold (depth : nat) (m : map) (k : KEY) (h : Z) :
  DS_Map.MapAdd DS_IsEqual (S depth) m k h
  = match
      (if 100 * (DS_Map.HasCount m + 1) >? 70 * DS_Map.Capacity m
       then DS_Map.rehash_loop (DS_Map.MapAdd DS_IsEqual depth)
              (firstn (Z.to_nat (DS_Map.Capacity m)) (DS_Map.Data m))
              (DS_Map.mk (repeat DS_Map.cleared
                            (Z.to_nat (if DS_Map.Capacity m =? 0 then 8
                                       else DS_Map.Capacity m * 2)))
                         0 (if DS_Map.Capacity m =? 0 then 8 else DS_Map.Capacity m * 2))
       else Val m)
    with
    | Val m1 => DS_Map.MapAdd_slot DS_IsEqual m1 k h
    | Undefined => Undefined
    | NoFuel => NoFuel
    end.
Proof. reflexivity. Qed.

Lemma MapAdd_no_growth (depth : nat) (m : map) (k : KEY) (h : Z) :
  100 * (DS_Map.HasCount m + 1) <= 70 * DS_Map.Capacity m ->
  DS_Map.MapAdd DS_IsEqual (S depth) m k h = DS_Map.MapAdd_slot DS_IsEqual m k h.
Proof.
  intros H. rewrite MapAdd_unfold.
  now replace (100 * (DS_Map.HasCount m + 1) >? 70 * DS_Map.Capacity m) with false
    by (symmetry; rewrite Z.gtb_ltb; apply Z.ltb_ge; lia).
Qed.

Lemma rehash_spec (depth : nat) (old : list slot) :
  forall m : map,
    map_wf DS_Hash m -> keyed DS_Hash old ->
    (forall i j e e' k,
       nth_error old i = Some e -> nth_error old j = Some e' ->
       DS_Map.Hash e <> 0 -> DS_Map.Hash e' <> 0 ->
       DS_Map.Key e = Some k -> DS_Map.Key e' = Some k -> i = j) ->
    (forall e k, In e old -> DS_Map.Hash e <> 0 -> DS_Map.Key e = Some k ->
                 forall v, ~ holds m k v) ->
    100 * (DS_Map.HasCount m + Z.of_nat (occupied_count old)) <= 70 * DS_Map.Capacity m ->
    exists m',
      DS_Map.rehash_loop (DS_Map.MapAdd DS_IsEqual (S depth)) old m = Val m' /\
      map_wf DS_Hash m' /\ DS_Map.Capacity m' = DS_Map.Capacity m /\
      DS_Map.HasCount m' = DS_Map.HasCount m + Z.of_nat (occupied_count old) /\
      forall k v, holds m' k v <->
        (holds m k v \/
         exists e, In e old /\ DS_Map.Hash e <> 0 /\ DS_Map.Key e = Some k /\
                   DS_Map.Value e = v).
Proof.
  induction old as [|e old IH]; intros m Hwf Hkeyed Hdistinct Habsent Hload.
  - exists m. split; [reflexivity|]. split; [exact Hwf|]. split; [reflexivity|].
    split; [cbn; lia|]. intros k v. split; [now left|].
    intros [H|(e & [] & _)]. exact H.
  - assert (Hkeyed' : keyed DS_Hash old).
    { intros i e0 He0. exact (Hkeyed (S i) e0 He0). }
    assert (Hdistinct' : forall i j e0 e' k,
               nth_error old i = Some e0 -> nth_error old j = Some e' ->
               DS_Map.Hash e0 <> 0 -> DS_Map.Hash e' <> 0 ->
               DS_Map.Key e0 = Some k -> DS_Map.Key e' = Some k -> i = j).
    { intros i j e0 e' k H1 H2 H3 H4 H5 H6.
      assert (S i = S j) by (eapply (Hdistinct (S i) (S j)); eassumption). lia. }
    cbn [DS_Map.rehash_loop occupied_count] in *.
    destruct (Z.eqb_spec (DS_Map.Hash e) 0) as [Hz|Hnz].
    + destruct (IH m Hwf Hkeyed' Hdistinct') as (m' & Hr & Hwf' & Hc & Hn & Hcontent).
      * intros e0 k Hin. apply Habsent. now right.
      * exact Hload.
      * exists m'. split; [exact Hr|]. split; [exact Hwf'|]. split; [exact Hc|].
        split; [exact Hn|]. intros k v. rewrite Hcontent. split.
        -- intros [H|(e0 & Hin & H)]; [now left|]. right. exists e0. split; [now right | exact H].
        -- intros [H|(e0 & [->|Hin] & Hne & H)]; [now left | contradiction |].
           right. now exists e0.
    + destruct (Hkeyed 0%nat e eq_refl Hnz) as (k & Hk & Hh). rewrite Hk, Hh.
      assert (Hcount : 0 <= DS_Map.HasCount m) by (destruct Hwf as (_ & _ & -> & _); lia).
      rewrite MapAdd_no_growth by lia.
      destruct (MapAdd_slot_spec m k Hwf ltac:(lia))
        as (b & i & m1 & -> & Hwf1 & Hkey1 & Hcap1 & Hothers1 & Hb).
      destruct Hb as [(-> & Hcount1 & _)|(-> & ->)].
      2:{ exfalso. destruct Hkey1 as (e1 & He1 & Hne1 & Hke1).
          apply (Habsent e k (or_introl eq_refl) Hnz Hk (DS_Map.Value e1)).
          exists i, e1. rewrite Nat2Z.id in He1. auto. }
      destruct (set_value_spec m1 i k (DS_Map.Value e) Hwf1 Hkey1)
        as (Hwf2 & Hholds2 & Hothers2 & Hcount2 & Hcap2).
      set (m2 := DS_Map.set_value m1 (Z.of_nat i) (DS_Map.Value e)) in *.
      destruct (IH m2 Hwf2 Hkeyed' Hdistinct') as (m' & Hr & Hwf' & Hc & Hn & Hcontent).
      * intros e0 k0 Hin Hne0 Hk0 v Hv.
        assert (Hk0k : k0 <> k).
        { intros ->. destruct (In_nth_error _ _ Hin) as (i0 & Hi0).
          assert (0%nat = S i0) by (eapply (Hdistinct 0%nat (S i0) e e0 k); eauto).
          discriminate. }
        apply Hothers2, Hothers1 in Hv; [|exact Hk0k|exact Hk0k].
        exact (Habsent e0 k0 (or_intror Hin) Hne0 Hk0 v Hv).
      * lia.
      * exists m'. split; [exact Hr|]. split; [exact Hwf'|]. split; [lia|].
        split; [lia|]. intros k0 v. rewrite Hcontent. split.
        -- intros [H|(e0 & Hin & H)].
           ++ destruct (DS_IsEqual k0 k) eqn:Ek.
              ** apply DS_IsEqual_spec in Ek. subst k0. right. exists e.
                 split; [now left|]. split; [exact Hnz|]. split; [exact Hk|].
                 exact (holds_functional m2 k _ _ Hwf2 Hholds2 H).
              ** assert (k0 <> k).
                 { intros ->. assert (DS_IsEqual k k = true) by now apply DS_IsEqual_spec.
                   congruence. }
                 left. now apply Hothers1, Hothers2.
           ++ right. exists e0. split; [now right | exact H].
        -- intros [H|(e0 & [<-|Hin] & Hne0 & Hk0 & Hv)].
           ++ left. destruct (DS_IsEqual k0 k) eqn:Ek.
              ** apply DS_IsEqual_spec in Ek. subst k0. exfalso.
                 exact (Habsent e k (or_introl eq_refl) Hnz Hk v H).
              ** assert (k0 <> k).
                 { intros ->. assert (DS_IsEqual k k = true) by now apply DS_IsEqual_spec.
                   congruence. }
                 now apply Hothers2, Hothers1.
           ++ left. assert (k0 = k) by congruence. subst k0 v. exact Hholds2.
           ++ right. now exists e0.
Qed.

Lemma cleared_wf (p : Z) :
  3 <= p <= 24 ->
  map_wf DS_Hash (DS_Map.mk (repeat (@DS_Map.cleared KEY VALUE) (Z.to_nat (2 ^ p)))
                            0 (2 ^ p)) /\
  forall k v, ~ holds (DS_Map.mk (repeat (@DS_Map.cleared KEY VALUE) (Z.to_nat (2 ^ p)))
                                 0 (2 ^ p)) k v.
Proof.
  intros Hp. assert (Hn : 0 < 2 ^ p) by (apply Z.pow_pos_nonneg; lia).
  assert (Hall : forall i e, nth_error (repeat (@DS_Map.cleared KEY VALUE)
                                               (Z.to_nat (2 ^ p))) i = Some e ->
                             DS_Map.Hash e = 0).
  { intros i e He. apply nth_error_In, repeat_spec in He. now subst e. }
  split; [split; [|split; [|split; [|split]]]|]; cbn [DS_Map.Data DS_Map.HasCount DS_Map.Capacity].
  - rewrite repeat_length. lia.
  - now exists p.
  - generalize (Z.to_nat (2 ^ p)). intros n. induction n as [|n IHn]; [reflexivity|].
    cbn. exact IHn.
  - intros i e He Hne. exfalso. apply Hne. exact (Hall i e He).
  - intros i j e e' k He _ Hne. exfalso. apply Hne. exact (Hall i e He).
  - intros k v (i & e & He & Hne & _). apply Hne. exact (Hall i e He).
Qed.

Lemma MapAdd_spec (depth : nat) (m : map) (k : KEY) :
  map_ok DS_Hash m -> DS_Map.Capacity m <= 2 ^ 23 ->
  exists b i m',
    DS_Map.MapAdd DS_IsEqual (S (S depth)) m k (hash_of k) = Val (b, Z.of_nat i, m') /\
    map_wf DS_Hash m' /\ 100 * DS_Map.HasCount m' <= 70 * DS_Map.Capacity m' /\
    key_at (DS_Map.Data m') (Z.of_nat i) k /\
    (forall k' v', k' <> k -> (holds m' k' v' <-> holds m k' v')) /\
    DS_Map.Capacity m'
    = (if 100 * (DS_Map.HasCount m + 1) >? 70 * DS_Map.Capacity m
       then if DS_Map.Capacity m =? 0 then 8 else DS_Map.Capacity m * 2
       else DS_Map.Capacity m) /\
    ((b = true /\ DS_Map.HasCount m' = DS_Map.HasCount m + 1 /\
      forall v, ~ holds m k v) \/
     (b = false /\ DS_Map.HasCount m' = DS_Map.HasCount m /\
      forall v, holds m' k v <-> holds m k v)).
Proof.
  intros Hok Hbound.
  assert (Hgrown : exists m1,
    (if 100 * (DS_Map.HasCount m + 1) >? 70 * DS_Map.Capacity m
     then DS_Map.rehash_loop (DS_Map.MapAdd DS_IsEqual (S depth))
            (firstn (Z.to_nat (DS_Map.Capacity m)) (DS_Map.Data m))
            (DS_Map.mk (repeat DS_Map.cleared
                          (Z.to_nat (if DS_Map.Capacity m =? 0 then 8
                                     else DS_Map.Capacity m * 2)))
                       0 (if DS_Map.Capacity m =? 0 then 8 else DS_Map.Capacity m * 2))
     else Val m) = Val m1 /\
    map_wf DS_Hash m1 /\ DS_Map.HasCount m1 = DS_Map.HasCount m /\
    100 * (DS_Map.HasCount m1 + 1) <= 70 * DS_Map.Capacity m1 /\
    (forall k v, holds m1 k v <-> holds m k v) /\
    DS_Map.Capacity m1
    = (if 100 * (DS_Map.HasCount m + 1) >? 70 * DS_Map.Capacity m
       then if DS_Map.Capacity m =? 0 then 8 else DS_Map.Capacity m * 2
       else DS_Map.Capacity m)).
  { destruct Hok as [->|(Hwf & Hload)].
    - cbn [DS_Map.Init DS_Map.HasCount DS_Map.Capacity DS_Map.Data].
      change (100 * (0 + 1) >? 70 * 0) with true. change (0 =? 0) with true. cbv iota.
      change (firstn (Z.to_nat 0) []) with (@nil slot). cbn [DS_Map.rehash_loop].
      destruct (cleared_wf 3 ltac:(lia)) as (Hwf0 & Hnone). change (2 ^ 3) with 8 in *.
      eexists. split; [reflexivity|]. split; [exact Hwf0|]. split; [reflexivity|].
      split; [cbn [DS_Map.HasCount DS_Map.Capacity]; lia|]. split; [|reflexivity].
      intros k0 v. split; [intros H; destruct (Hnone k0 v H)|].
      intros (i & e & He & _). destruct i; discriminate.
    - pose proof Hwf as (Hcap & (p & Hp & Hpow) & Hcount & Hslots & Hdistinct).
      assert (Hn : 0 < 2 ^ p) by (apply Z.pow_pos_nonneg; lia).
      destruct (Z.gtb_spec (100 * (DS_Map.HasCount m + 1)) (70 * DS_Map.Capacity m))
        as [Hgrow|Hstay].
      + replace (DS_Map.Capacity m =? 0) with false by (symmetry; apply Z.eqb_neq; lia).
        assert (Hp23 : p <= 23).
        { destruct (Z.le_gt_cases p 23) as [H|H]; [exact H|]. exfalso.
          assert (2 ^ 24 <= 2 ^ p) by (apply Z.pow_le_mono_r; lia).
          change (2 ^ 24) with 16777216 in *. change (2 ^ 23) with 8388608 in *. lia. }
        destruct (cleared_wf (p + 1) ltac:(lia)) as (Hwf0 & Hnone).
        replace (2 ^ (p + 1)) with (DS_Map.Capacity m * 2) in Hwf0, Hnone
          by (rewrite Z.pow_add_r by lia; lia).
        replace (firstn (Z.to_nat (DS_Map.Capacity m)) (DS_Map.Data m))
          with (DS_Map.Data m) by (now rewrite Hcap, Nat2Z.id, firstn_all).
        destruct (rehash_spec depth (DS_Map.Data m) _ Hwf0) as (m1 & Hr & Hwf1 & Hc1 & Hn1 & Hcontent).
        * intros i e He Hne. destruct (Hslots i e He Hne) as (k0 & Hk0 & Hh0 & _).
          now exists k0.
        * exact Hdistinct.
        * intros e k0 _ _ _ v. apply Hnone.
        * cbn [DS_Map.HasCount DS_Map.Capacity]. lia.
        * cbn [DS_Map.HasCount DS_Map.Capacity] in Hc1, Hn1.
          exists m1. split; [exact Hr|]. split; [exact Hwf1|]. split; [lia|].
          split; [lia|]. split; [|exact Hc1].
          intros k0 v. rewrite Hcontent. split.
          -- intros [H|(e & Hin & Hne & Hk0 & Hv)]; [destruct (Hnone k0 v H)|].
             destruct (In_nth_error _ _ Hin) as (i & Hi). now exists i, e.
          -- intros (i & e & He & Hne & Hk0 & Hv). right. exists e.
             split; [exact (nth_error_In _ _ He) | auto].
      + exists m. split; [reflexivity|]. split; [exact Hwf|]. split; [reflexivity|].
        split; [lia|]. split; [tauto | reflexivity]. }
  destruct Hgrown as (m1 & Hg & Hwf1 & Hcount1 & Hload1 & Hcontent1 & Hcap1).
  rewrite MapAdd_unfold, Hg.
  assert (Hc0 : 0 <= DS_Map.HasCount m1) by (destruct Hwf1 as (_ & _ & -> & _); lia).
  destruct (MapAdd_slot_spec m1 k Hwf1 ltac:(lia))
    as (b & i & m' & -> & Hwf' & Hkey' & Hcap' & Hothers' & Hb).
  exists b, i, m'. split; [reflexivity|]. split; [exact Hwf'|].
  split; [destruct Hb as [(_ & Hc & _)|(_ & ->)]; lia|]. split; [exact Hkey'|].
  split; [intros k' v' Hk'; rewrite Hothers' by exact Hk'; apply Hcontent1|].
  split; [congruence|].
  destruct Hb as [(-> & Hc & Habs)|(-> & ->)].
  - left. split; [reflexivity|]. split; [lia|]. intros v Hv. apply (Habs v), Hcontent1, Hv.
  - right. split; [reflexivity|]. split; [exact Hcount1 | exact (Hcontent1 k)].
Qed.

Lemma Find_agree (m1 m2 : map) (k : KEY) :
  map_ok DS_Hash m1 -> map_ok DS_Hash m2 ->
  (forall v, holds m1 k v <-> holds m2 k v) ->
  DS_Map.Find DS_Hash DS_IsEqual m1 k = DS_Map.Find DS_Hash DS_IsEqual m2 k /\
  DS_Map.Has DS_Hash DS_IsEqual m1 k = DS_Map.Has DS_Hash DS_IsEqual m2 k.
Proof.
  intros H1 H2 Hsame.
  destruct (Find_spec m1 k H1) as [(v1 & -> & Hv1 & ->)|(-> & Hn1 & ->)],
           (Find_spec m2 k H2) as [(v2 & -> & Hv2 & ->)|(-> & Hn2 & ->)].
  - split; [|reflexivity]. do 2 f_equal. apply Hsame in Hv1.
    destruct H2 as [->|(Hwf2 & _)].
    + destruct Hv2 as (i & e & He & _). destruct i; discriminate.
    + exact (holds_functional m2 k v1 v2 Hwf2 Hv1 Hv2).
  - exfalso. apply (Hn2 v1), Hsame, Hv1.
  - exfalso. apply (Hn1 v2), Hsame, Hv2.
  - split; reflexivity.
Qed.

Lemma FindPtr_key_at (m : map) (k : KEY) (i : nat) :
  map_wf DS_Hash m -> 100 * DS_Map.HasCount m <= 70 * DS_Map.Capacity m ->
  key_at (DS_Map.Data m) (Z.of_nat i) k ->
  DS_Map.FindPtr DS_Hash DS_IsEqual m k = Val (Some (Z.of_nat i)).
Proof.
  intros Hwf Hload (e & He & Hne & Hke).
  assert (Hcap : 0 < DS_Map.Capacity m).
  { destruct Hwf as (_ & (p & Hp & ->) & _). apply Z.pow_pos_nonneg; lia. }
  assert (Hcount : 0 <= DS_Map.HasCount m) by (destruct Hwf as (_ & _ & -> & _); lia).
  destruct (probe_home m k Hwf ltac:(lia)) as (r & Hr & Hspec).
  unfold DS_Map.FindPtr.
  replace (DS_Map.Capacity m =? 0) with false by (symmetry; apply Z.eqb_neq; lia).
  rewrite Hr. rewrite Nat2Z.id in He. destruct r as [j|i0].
  - destruct Hspec as (_ & _ & _ & Habs & _). exfalso.
    apply (Habs (DS_Map.Value e)). now exists i, e.
  - destruct Hspec as (i' & -> & e' & He' & Hne' & Hke'). rewrite Nat2Z.id in He'.
    destruct Hwf as (_ & _ & _ & _ & Hdistinct).
    now rewrite (Hdistinct i' i e' e k He' He Hne' Hne Hke' Hke).
Qed.

(** [DS__MapAdd] on a block it keeps leaves the value of every slot as it
    was. *)
Lemma MapAdd_slot_values (m m1 : map) (k : KEY) (h : Z) (b : bool) (i : Z) :
  DS_Map.MapAdd_slot DS_IsEqual m k h = Val (b, i, m1) ->
  forall j, option_map DS_Map.Value (nth_error (DS_Map.Data m1) j)
            = option_map DS_Map.Value (nth_error (DS_Map.Data m) j).
Proof.
  unfold DS_Map.MapAdd_slot.
  destruct (DS_Map.probe _ _ _ _ _ _ _) as [[i0|i0]| |]; try discriminate.
  - destruct (nth_error (DS_Map.Data m) (Z.to_nat i0)) as [elem|] eqn:E; [|discriminate].
    intros [= <- <- <-] j. cbn [DS_Map.Data].
    destruct (Z.leb_spec 0 i0) as [Hi|Hi].
    + assert (Hlt : (Z.to_nat i0 < length (DS_Map.Data m))%nat)
        by (apply nth_error_Some; congruence).
      rewrite <- (Z2Nat.id i0) at 1 by exact Hi. rewrite write_nth by exact Hlt.
      destruct (Nat.eqb_spec j (Z.to_nat i0)) as [->|_]; [|reflexivity].
      now rewrite E.
    + unfold DS_Map.write.
      now replace (0 <=? i0) with false by (symmetry; apply Z.leb_gt; lia).
  - now intros [= <- <- <-] j.
Qed.

(** The pointer of [FindPtr] refers to a slot of the block, and [Find]
    gives the value of that slot. *)
Lemma FindPtr_slot (m : map) (k : KEY) (j : Z) :
  map_ok DS_Hash m ->
  DS_Map.FindPtr DS_Hash DS_IsEqual m k = Val (Some j) ->
  exists e, 0 <= j /\ nth_error (DS_Map.Data m) (Z.to_nat j) = Some e /\
            DS_Map.Find DS_Hash DS_IsEqual m k = Val (Some (DS_Map.Value e)).
Proof.
  intros [->|(Hwf & Hload)]; [discriminate|].
  assert (Hcap : 0 < DS_Map.Capacity m).
  { destruct Hwf as (_ & (p & Hp & ->) & _). apply Z.pow_pos_nonneg; lia. }
  assert (Hcount : 0 <= DS_Map.HasCount m) by (destruct Hwf as (_ & _ & -> & _); lia).
  destruct (probe_home m k Hwf ltac:(lia)) as (r & Hr & Hspec).
  unfold DS_Map.Find, DS_Map.FindPtr.
  replace (DS_Map.Capacity m =? 0) with false by (symmetry; apply Z.eqb_neq; lia).
  rewrite Hr. destruct r as [j0|i]; [discriminate|].
  destruct Hspec as (i' & -> & e & He & _). intros [= <-].
  exists e. split; [lia|]. split; [exact He|]. now rewrite He.
Qed.

(** X26. [DS_Map::Set] followed by [DS_Map::Find]: on a map that [Init],
    [Set] and [Add] have built, with at most 2^23 slots, [Set] returns a map
    of the same kind in which every other key is found as before.  [Set]
    takes the value by reference and reads it after [DS__MapAdd].  For an
    object outside the block, [Find] then gives the value passed, whether or
    not the block was replaced on the way.  For the pointer that [FindPtr]
    gave for a key [k1], [Find] gives what it gave for [k1] when the block
    is kept; when the block is replaced the pointer is read after the old
    block was filled with 0xCC and released, and what [Find] gives is no
    value that was ever stored. *)
Theorem Map_Set_then_Find (m : map) (k : KEY) (value : DS_Map.value_ref VALUE) :
  map_ok DS_Hash m -> DS_Map.Capacity m <= 2 ^ 23 ->
  exists m',
    DS_Map.Set_ DS_Hash DS_IsEqual m k value = Val m' /\ map_ok DS_Hash m' /\
    (forall k', k' <> k ->
       DS_Map.Find DS_Hash DS_IsEqual m' k' = DS_Map.Find DS_Hash DS_IsEqual m k') /\
    match value with
    | DS_Map.Outside v => DS_Map.Find DS_Hash DS_IsEqual m' k = Val (Some (Some v))
    | DS_Map.Stored j =>
        if DS_Map.grows m then DS_Map.Find DS_Hash DS_IsEqual m' k = Val (Some None)
        else forall k1,
          DS_Map.FindPtr DS_Hash DS_IsEqual m k1 = Val (Some j) ->
          DS_Map.Find DS_Hash DS_IsEqual m' k = DS_Map.Find DS_Hash DS_IsEqual m k1
    end.
Proof.
  intros Hok Hbound. unfold DS_Map.Set_, DS_Map.DS__MapAdd.
  destruct (MapAdd_spec 30 m k Hok Hbound)
    as (b & i & m1 & HA & Hwf1 & Hload1 & Hkey1 & Hothers1 & _ & _).
  rewrite HA.
  set (x := DS_Map.read_value (DS_Map.grows m) m1 value).
  destruct (set_value_spec m1 i k x Hwf1 Hkey1)
    as (Hwf2 & Hholds2 & Hothers2 & Hcount2 & Hcap2).
  set (m2 := DS_Map.set_value m1 (Z.of_nat i) x) in *.
  assert (Hok2 : map_ok DS_Hash m2) by (right; split; [exact Hwf2 | lia]).
  assert (Hfind : DS_Map.Find DS_Hash DS_IsEqual m2 k = Val (Some x)).
  { destruct (Find_spec m2 k Hok2) as [(v0 & -> & Hv0 & _)|(_ & Hn & _)].
    - now rewrite (holds_functional m2 k _ _ Hwf2 Hv0 Hholds2).
    - destruct (Hn _ Hholds2). }
  exists m2. split; [reflexivity|]. split; [exact Hok2|]. split.
  - intros k' Hk'. apply (Find_agree m2 m k' Hok2 Hok). intros v'.
    rewrite Hothers2, Hothers1 by exact Hk'. reflexivity.
  - destruct value as [v|j]; [exact Hfind|].
    unfold x, DS_Map.read_value in Hfind.
    destruct (DS_Map.grows m) eqn:Eg; [exact Hfind|].
    intros k1 Hptr.
    destruct (FindPtr_slot m k1 j Hok Hptr) as (e & Hj & He & ->).
    rewrite Hfind. do 2 f_equal.
    replace (0 <=? j) with true by (symmetry; apply Z.leb_le; exact Hj).
    unfold DS_Map.grows in Eg. rewrite Z.gtb_ltb in Eg. apply Z.ltb_ge in Eg.
    rewrite MapAdd_no_growth in HA by exact Eg.
    pose proof (MapAdd_slot_values m m1 k _ b _ HA (Z.to_nat j)) as Hval.
    rewrite He in Hval. cbn [option_map] in Hval.
    destruct (nth_error (DS_Map.Data m1) (Z.to_nat j)) as [e1|]; [|discriminate].
    now injection Hval.
Qed.

(** X27. [DS_Map::Add] returns true exactly when the key was not in the
    map, and [HasCount] grows by one exactly then.  Afterwards [Has] is true
    for the key, [FindPtr] gives the slot that [*value] points into, every
    other key is found as before, and a key that was in the map keeps its
    value.  The block is replaced exactly when [100 * (HasCount + 1)]
    exceeds [70 * Capacity], also when the key is in the map already: a
    map without a block gets 8 slots and every other one twice as many. *)
Theorem Map_Add_reports_new (m : map) (k : KEY) :
  map_ok DS_Hash m -> DS_Map.Capacity m <= 2 ^ 23 ->
  exists b i m',
    DS_Map.Add DS_Hash DS_IsEqual m k = Val (b, i, m') /\ map_ok DS_Hash m' /\
    DS_Map.Has DS_Hash DS_IsEqual m k = Val (negb b) /\
    DS_Map.HasCount m' = DS_Map.HasCount m + (if b then 1 else 0) /\
    DS_Map.Has DS_Hash DS_IsEqual m' k = Val true /\
    DS_Map.FindPtr DS_Hash DS_IsEqual m' k = Val (Some i) /\
    (forall k', k' <> k ->
       DS_Map.Find DS_Hash DS_IsEqual m' k' = DS_Map.Find DS_Hash DS_IsEqual m k') /\
    (b = false ->
     DS_Map.Find DS_Hash DS_IsEqual m' k = DS_Map.Find DS_Hash DS_IsEqual m k) /\
    DS_Map.Capacity m'
    = (if 100 * (DS_Map.HasCount m + 1) >? 70 * DS_Map.Capacity m
       then if DS_Map.Capacity m =? 0 then 8 else DS_Map.Capacity m * 2
       else DS_Map.Capacity m).
Proof.
  intros Hok Hbound. unfold DS_Map.Add, DS_Map.DS__MapAdd.
  destruct (MapAdd_spec 30 m k Hok Hbound)
    as (b & i & m1 & -> & Hwf1 & Hload1 & Hkey1 & Hothers1 & Hcap1 & Hb).
  assert (Hok1 : map_ok DS_Hash m1) by (right; split; assumption).
  assert (Hptr := FindPtr_key_at m1 k i Hwf1 Hload1 Hkey1).
  exists b, (Z.of_nat i), m1. split; [reflexivity|]. split; [exact Hok1|].
  assert (Hhas : DS_Map.Has DS_Hash DS_IsEqual m1 k = Val true)
    by (unfold DS_Map.Has; now rewrite Hptr).
  assert (Hrest : forall k', k' <> k ->
            DS_Map.Find DS_Hash DS_IsEqual m1 k' = DS_Map.Find DS_Hash DS_IsEqual m k').
  { intros k' Hk'. apply (Find_agree m1 m k' Hok1 Hok). intros v'.
    apply Hothers1, Hk'. }
  destruct Hb as [(-> & Hcount & Habs)|(-> & Hcount & Hsame)].
  - split.
    + destruct (Find_spec m k Hok) as [(v0 & _ & Hv0 & _)|(_ & _ & ->)];
        [destruct (Habs _ Hv0) | reflexivity].
    + split; [exact Hcount|]. split; [exact Hhas|]. split; [exact Hptr|].
      split; [exact Hrest|]. split; [discriminate | exact Hcap1].
  - destruct (Find_agree m1 m k Hok1 Hok Hsame) as (Hfind & Hhas').
    split; [now rewrite <- Hhas'|]. split; [lia|]. split; [exact Hhas|].
    split; [exact Hptr|]. split; [exact Hrest|]. split; [now intros _ | exact Hcap1].
Qed.

(** *** Removal *)

Lemma walk_add (n x : Z) (a b : nat) :
  0 < n -> walk n (walk n x a) b = walk n x (a + b).
Proof.
  intros H. unfold walk. rewrite Zplus_mod_idemp_l. f_equal. lia.
Qed.

Lemma walk_inj (n x : Z) (a b : nat) :
  0 < n -> Z.of_nat a < n -> Z.of_nat b < n -> walk n x a = walk n x b -> a = b.
Proof.
  intros Hn Ha Hb H. unfold walk in H.
  pose proof (Z.div_mod (x + Z.of_nat a) n ltac:(lia)) as Ea.
  pose proof (Z.div_mod (x + Z.of_nat b) n ltac:(lia)) as Eb.
  rewrite H in Ea.
  assert (Hq : Z.of_nat a - Z.of_nat b
               = n * ((x + Z.of_nat a) / n - (x + Z.of_nat b) / n)) by lia.
  assert (Hz : (x + Z.of_nat a) / n - (x + Z.of_nat b) / n = 0) by nia.
  rewrite Hz in Hq. lia.
Qed.

Lemma map_wf_pre (m : map) : map_wf DS_Hash m -> map_pre DS_Hash m.
Proof.
  intros (Hcap & Hpow & Hcount & Hslots & Hdistinct).
  split; [exact Hcap|]. split; [exact Hpow|]. split; [exact Hcount|].
  split; [|exact Hdistinct].
  intros i e He Hne. destruct (Hslots i e He Hne) as (k & Hk & Hh & _). now exists k.
Qed.

Lemma map_wf_reachable (m : map) (s : nat) :
  map_wf DS_Hash m -> reachable (DS_Map.Data m) (DS_Map.Capacity m) s.
Proof.
  intros (_ & _ & _ & Hslots & _) e He Hne.
  destruct (Hslots s e He Hne) as (k & _ & _ & H). exact H.
Qed.

Lemma map_wf_intro (m : map) :
  map_pre DS_Hash m -> (forall s, reachable (DS_Map.Data m) (DS_Map.Capacity m) s) ->
  map_wf DS_Hash m.
Proof.
  intros (Hcap & Hpow & Hcount & Hkeyed & Hdistinct) Hreach.
  split; [exact Hcap|]. split; [exact Hpow|]. split; [exact Hcount|].
  split; [|exact Hdistinct].
  intros i e He Hne. destruct (Hkeyed i e He Hne) as (k & Hk & Hh).
  exists k. split; [exact Hk|]. split; [exact Hh|]. exact (Hreach i e He Hne).
Qed.

(** Emptying a slot in use. *)
Lemma clear_pre (m : map) (j : nat) (old : slot) (k : KEY) :
  map_pre DS_Hash m ->
  nth_error (DS_Map.Data m) j = Some old -> DS_Map.Hash old <> 0 ->
  DS_Map.Key old = Some k ->
  map_pre DS_Hash
    (DS_Map.mk (DS_Map.write (DS_Map.Data m) (Z.of_nat j) DS_Map.cleared)
               (DS_Map.HasCount m - 1) (DS_Map.Capacity m)) /\
  (forall k' v,
     holds (DS_Map.mk (DS_Map.write (DS_Map.Data m) (Z.of_nat j) DS_Map.cleared)
                      (DS_Map.HasCount m - 1) (DS_Map.Capacity m)) k' v
     <-> (k' <> k /\ holds m k' v)).
Proof.
  intros (Hcap & Hpow & Hcount & Hkeyed & Hdistinct) Hold Hnz Hk.
  assert (Hj : (j < length (DS_Map.Data m))%nat) by (apply nth_error_Some; congruence).
  set (Data' := DS_Map.write (DS_Map.Data m) (Z.of_nat j) DS_Map.cleared).
  assert (Hnth : forall i, nth_error Data' i
                           = if Nat.eqb i j then Some DS_Map.cleared
                             else nth_error (DS_Map.Data m) i)
    by (intros i; apply write_nth; exact Hj).
  split; [split; [|split; [|split; [|split]]]|];
    cbn [DS_Map.Data DS_Map.HasCount DS_Map.Capacity]; fold Data'.
  - unfold Data'. now rewrite write_length.
  - exact Hpow.
  - pose proof (occupied_count_write (DS_Map.Data m) j old DS_Map.cleared Hold) as Hw.
    fold Data' in Hw. cbn [DS_Map.cleared DS_Map.Hash] in Hw.
    change (0 =? 0) with true in Hw.
    destruct (Z.eqb_spec (DS_Map.Hash old) 0) as [E|_]; [contradiction|]. lia.
  - intros i e He Hne. rewrite Hnth in He. destruct (Nat.eqb i j).
    + injection He as <-. now destruct Hne.
    + exact (Hkeyed i e He Hne).
  - intros i1 i2 e1 e2 k0 H1 H2 Hn1 Hn2 Hk1 Hk2. rewrite Hnth in H1, H2.
    destruct (Nat.eqb i1 j); [injection H1 as <-; now destruct Hn1|].
    destruct (Nat.eqb i2 j); [injection H2 as <-; now destruct Hn2|].
    exact (Hdistinct i1 i2 e1 e2 k0 H1 H2 Hn1 Hn2 Hk1 Hk2).
  - intros k' v. unfold holds. cbn [DS_Map.Data]. fold Data'. split.
    + intros (i & e & He & Hne & Hke & Hve). rewrite Hnth in He.
      destruct (Nat.eqb_spec i j) as [->|Hij]; [injection He as <-; now destruct Hne|].
      split; [|now exists i, e]. intros ->. apply Hij.
      exact (Hdistinct i j e old k He Hold Hne Hnz Hke Hk).
    + intros (Hk' & i & e & He & Hne & Hke & Hve). exists i, e. rewrite Hnth.
      destruct (Nat.eqb_spec i j) as [->|Hij]; [|auto].
      exfalso. apply Hk'. congruence.
Qed.

(** Writing a slot in use over an empty slot, for a key that is not in the
    map, or over a slot with the same hash and key. *)
Lemma write_pre (m : map) (j : nat) (old e' : slot) (k : KEY) (c' : Z) :
  map_pre DS_Hash m ->
  nth_error (DS_Map.Data m) j = Some old ->
  DS_Map.Hash e' = hash_of k -> DS_Map.Key e' = Some k ->
  (DS_Map.Hash old = 0 /\ (forall v, ~ holds m k v) /\ c' = DS_Map.HasCount m + 1)
  \/ (DS_Map.Hash old = DS_Map.Hash e' /\ DS_Map.Key old = DS_Map.Key e' /\
      c' = DS_Map.HasCount m) ->
  map_pre DS_Hash
    (DS_Map.mk (DS_Map.write (DS_Map.Data m) (Z.of_nat j) e') c' (DS_Map.Capacity m)) /\
  forall k' v',
    holds (DS_Map.mk (DS_Map.write (DS_Map.Data m) (Z.of_nat j) e') c'
                     (DS_Map.Capacity m)) k' v'
    <-> ((k' = k /\ v' = DS_Map.Value e') \/ (k' <> k /\ holds m k' v')).
Proof.
  intros (Hcap & Hpow & Hcount & Hkeyed & Hdistinct) Hold Hh Hk Hcase.
  assert (Hj : (j < length (DS_Map.Data m))%nat) by (apply nth_error_Some; congruence).
  assert (Hnz : DS_Map.Hash e' <> 0) by (rewrite Hh; apply hash_of_nonzero).
  set (Data' := DS_Map.write (DS_Map.Data m) (Z.of_nat j) e').
  assert (Hnth : forall i, nth_error Data' i
                           = if Nat.eqb i j then Some e' else nth_error (DS_Map.Data m) i)
    by (intros i; apply write_nth; exact Hj).
  assert (Hold_key : forall i e, nth_error (DS_Map.Data m) i = Some e ->
             DS_Map.Hash e <> 0 -> DS_Map.Key e = Some k -> i = j).
  { intros i e He Hne Hke. destruct Hcase as [(Hz & Habs & _)|(Hsame & Hkey & _)].
    - exfalso. apply (Habs (DS_Map.Value e)). now exists i, e.
    - apply (Hdistinct i j e old k); try assumption; congruence. }
  split; [split; [|split; [|split; [|split]]]|];
    cbn [DS_Map.Data DS_Map.HasCount DS_Map.Capacity]; fold Data'.
  - unfold Data'. now rewrite write_length.
  - exact Hpow.
  - pose proof (occupied_count_write (DS_Map.Data m) j old e' Hold) as Hw. fold Data' in Hw.
    destruct (Z.eqb_spec (DS_Map.Hash e') 0) as [|_]; [contradiction|].
    destruct Hcase as [(Hz & _ & ->)|(Hsame & _ & ->)].
    + rewrite Hz in Hw. cbn in Hw. lia.
    + destruct (Z.eqb_spec (DS_Map.Hash old) 0) as [E|_]; [congruence|]. lia.
  - intros i e He Hne. rewrite Hnth in He. destruct (Nat.eqb i j).
    + injection He as <-. now exists k.
    + exact (Hkeyed i e He Hne).
  - intros i1 i2 e1 e2 k0 H1 H2 Hn1 Hn2 Hk1 Hk2. rewrite Hnth in H1, H2.
    destruct (Nat.eqb_spec i1 j) as [->|Hi1], (Nat.eqb_spec i2 j) as [->|Hi2].
    + reflexivity.
    + injection H1 as <-. assert (k0 = k) by congruence. subst k0.
      destruct (Hi2 (Hold_key i2 e2 H2 Hn2 Hk2)).
    + injection H2 as <-. assert (k0 = k) by congruence. subst k0.
      destruct (Hi1 (Hold_key i1 e1 H1 Hn1 Hk1)).
    + exact (Hdistinct i1 i2 e1 e2 k0 H1 H2 Hn1 Hn2 Hk1 Hk2).
  - intros k' v'. unfold holds. cbn [DS_Map.Data]. fold Data'. split.
    + intros (i & e & He & Hne & Hke & Hve). rewrite Hnth in He.
      destruct (Nat.eqb_spec i j) as [->|Hij].
      * injection He as <-. left. split; congruence.
      * right. split; [|now exists i, e]. intros ->. exact (Hij (Hold_key i e He Hne Hke)).
    + intros [(-> & ->)|(Hk' & i & e & He & Hne & Hke & Hve)].
      * exists j, e'. rewrite Hnth, Nat.eqb_refl. auto.
      * exists i, e. rewrite Hnth. destruct (Nat.eqb_spec i j) as [->|Hij]; [|auto].
        exfalso. rewrite Hold in He. injection He as <-.
        destruct Hcase as [(Hz & _)|(Hsame & Hkey & _)]; [contradiction|].
        apply Hk'. congruence.
Qed.

(** A clear way stays clear when one slot changes, unless it leads through
    that slot. *)
Lemma path_through (Data Data' : list slot) (n h c : Z) (d : nat) :
  (forall s, Z.of_nat s <> c -> nth_error Data' s = nth_error Data s) ->
  0 < n -> path_clear Data n h d ->
  path_clear Data' n h d \/ exists d', (d' < d)%nat /\ walk n h d' = c.
Proof.
  intros Hsame Hn. induction d as [|d IH]; intros Hclear.
  - left. intros d' Hd'. lia.
  - destruct IH as [Hc|(d' & Hd' & Hw)].
    + intros d' Hd'. apply Hclear. lia.
    + destruct (Z.eq_dec (walk n h d) c) as [E|E].
      * right. exists d. split; [lia | exact E].
      * left. intros d' Hd'. destruct (Nat.eq_dec d' d) as [->|Hne].
        -- destruct (Hclear d ltac:(lia)) as (e & He & Hnz). exists e.
           split; [|exact Hnz]. rewrite Hsame; [exact He|].
           pose proof (walk_range n h d Hn). lia.
        -- apply Hc. lia.
    + right. exists d'. split; [lia | exact Hw].
Qed.

Lemma holds_functional_pre (m : map) (k : KEY) (v v' : option VALUE) :
  map_pre DS_Hash m -> holds m k v -> holds m k v' -> v = v'.
Proof.
  intros (_ & _ & _ & _ & Hdistinct) (i & e & He & Hne & Hke & <-)
    (i' & e' & He' & Hne' & Hke' & <-).
  assert (i = i') by (eapply Hdistinct; eassumption). subst i'. congruence.
Qed.

(** Adding a key that is not in the map, as the backwards-shift loop does,
    and writing its value. *)
Lemma readd_spec (m1 : map) (kx : KEY) (vx : option VALUE) (d : nat) :
  map_pre DS_Hash m1 -> (forall v, ~ holds m1 kx v) ->
  (d < length (DS_Map.Data m1))%nat ->
  empty_at (DS_Map.Data m1)
           (walk (DS_Map.Capacity m1) (hash_of kx mod DS_Map.Capacity m1) d) ->
  100 * (DS_Map.HasCount m1 + 1) <= 70 * DS_Map.Capacity m1 ->
  exists b j d0 m2,
    DS_Map.DS__MapAdd DS_IsEqual m1 kx (hash_of kx) = Val (b, Z.of_nat j, m2) /\
    map_pre DS_Hash (DS_Map.set_value m2 (Z.of_nat j) vx) /\
    DS_Map.HasCount (DS_Map.set_value m2 (Z.of_nat j) vx) = DS_Map.HasCount m1 + 1 /\
    DS_Map.Capacity (DS_Map.set_value m2 (Z.of_nat j) vx) = DS_Map.Capacity m1 /\
    empty_at (DS_Map.Data m1) (Z.of_nat j) /\ (d0 <= d)%nat /\
    walk (DS_Map.Capacity m1) (hash_of kx mod DS_Map.Capacity m1) d0 = Z.of_nat j /\
    path_clear (DS_Map.Data m1) (DS_Map.Capacity m1)
               (hash_of kx mod DS_Map.Capacity m1) d0 /\
    (forall s, nth_error (DS_Map.Data (DS_Map.set_value m2 (Z.of_nat j) vx)) s
               = if Nat.eqb s j then Some (DS_Map.mk_slot (hash_of kx) (Some kx) vx)
                 else nth_error (DS_Map.Data m1) s) /\
    (forall k' v, holds (DS_Map.set_value m2 (Z.of_nat j) vx) k' v
                  <-> ((k' = kx /\ v = vx) \/ (k' <> kx /\ holds m1 k' v))).
Proof.
  intros Hpre Habs Hd Hempty Hload.
  pose proof Hpre as (Hcap & (p & Hp & Hpow) & Hcount & Hkeyed & Hdistinct).
  assert (Hn : 0 < 2 ^ p) by (apply Z.pow_pos_nonneg; lia).
  unfold DS_Map.DS__MapAdd. rewrite MapAdd_no_growth by exact Hload.
  unfold DS_Map.MapAdd_slot. rewrite Hpow in Hempty, Hcap |- *. rewrite mask_mod by lia.
  pose proof (Z.mod_pos_bound (hash_of kx) (2 ^ p) Hn) as Hhome.
  destruct (probe_total (DS_Map.Data m1) p kx ltac:(lia) ltac:(lia) Hkeyed d
              (hash_of kx mod 2 ^ p) (S (length (DS_Map.Data m1))) Hhome Hempty ltac:(lia))
    as (r & -> & Hspec).
  rewrite <- Hpow in Hspec, Hhome |- *.
  assert (Hn' : 0 < DS_Map.Capacity m1) by lia.
  destruct r as [j|i].
  2:{ exfalso. destruct Hspec as (d0 & _ & _ & e & He & Hne & Hke).
      apply (Habs (DS_Map.Value e)). exists (Z.to_nat i), e. auto. }
  destruct Hspec as (d0 & Hd0 & Hw & (old & Hold & Hz) & Hclear & _).
  pose proof (walk_range (DS_Map.Capacity m1) (hash_of kx mod DS_Map.Capacity m1) d0 Hn')
    as Hj.
  rewrite Hw in Hj.
  rewrite Hold. set (j' := Z.to_nat j) in *.
  assert (Ej : j = Z.of_nat j') by (unfold j'; lia). rewrite Ej in *. clear Ej.
  assert (Hj' : (j' < length (DS_Map.Data m1))%nat) by (apply nth_error_Some; congruence).
  set (e2 := DS_Map.mk_slot (hash_of kx) (Some kx) (DS_Map.Value old)).
  set (m2 := DS_Map.mk (DS_Map.write (DS_Map.Data m1) (Z.of_nat j') e2)
                       (DS_Map.HasCount m1 + 1) (DS_Map.Capacity m1)).
  destruct (write_pre m1 j' old e2 kx (DS_Map.HasCount m1 + 1) Hpre Hold eq_refl eq_refl)
    as (Hpre2 & Hcontent2); [left; auto|]. fold m2 in Hpre2, Hcontent2.
  assert (Hnth2 : nth_error (DS_Map.Data m2) j' = Some e2).
  { unfold m2. cbn [DS_Map.Data]. rewrite write_nth by exact Hj'. now rewrite Nat.eqb_refl. }
  set (e3 := DS_Map.mk_slot (hash_of kx) (Some kx) vx).
  assert (E3 : DS_Map.set_value m2 (Z.of_nat j') vx
               = DS_Map.mk (DS_Map.write (DS_Map.Data m2) (Z.of_nat j') e3)
                           (DS_Map.HasCount m2) (DS_Map.Capacity m2)).
  { unfold DS_Map.set_value. rewrite Nat2Z.id, Hnth2. reflexivity. }
  destruct (write_pre m2 j' e2 e3 kx (DS_Map.HasCount m2) Hpre2 Hnth2 eq_refl eq_refl)
    as (Hpre3 & Hcontent3); [right; auto|].
  exists true, j', d0, m2. rewrite E3.
  split; [reflexivity|]. split; [exact Hpre3|]. split; [reflexivity|].
  split; [reflexivity|]. split; [exists old; rewrite Nat2Z.id; auto|].
  split; [exact Hd0|]. split; [exact Hw|]. split; [exact Hclear|]. split.
  - intros s. cbn [DS_Map.Data]. unfold m2. cbn [DS_Map.Data].
    rewrite write_nth by (rewrite write_length; exact Hj').
    destruct (Nat.eqb_spec s j') as [->|Hs]; [reflexivity|].
    rewrite write_nth by exact Hj'.
    destruct (Nat.eqb_spec s j'); [contradiction | reflexivity].
  - intros k' v. rewrite Hcontent3. cbn [e3 DS_Map.Value]. split.
    + intros [H|(Hk' & H)]; [now left|]. apply Hcontent2 in H.
      destruct H as [(-> & _)|H]; [contradiction | now right].
    + intros [H|(Hk' & H)]; [now left|]. right. split; [exact Hk'|].
      apply Hcontent2. now right.
Qed.

Lemma Remove_shift_unfold (fuel : nat) (cur : map) (mask index : Z) :
  DS_Map.Remove_shift DS_IsEqual (S fuel) cur mask index
  = match nth_error (DS_Map.Data cur) (Z.to_nat (Z.land (uint32 (index + 1)) mask)) with
    | None => Undefined
    | Some moving =>
        if DS_Map.Hash moving =? 0 then Val cur
        else
          match DS_Map.Key moving with
          | None => Undefined
          | Some key =>
              match DS_Map.DS__MapAdd DS_IsEqual
                      (DS_Map.mk (DS_Map.write (DS_Map.Data cur)
                                    (Z.land (uint32 (index + 1)) mask) DS_Map.cleared)
                                 (DS_Map.HasCount cur - 1) (DS_Map.Capacity cur))
                      key (DS_Map.Hash moving) with
              | Val (_, readded, map') =>
                  DS_Map.Remove_shift DS_IsEqual fuel
                    (DS_Map.set_value map' readded (DS_Map.Value moving)) mask
                    (Z.land (uint32 (index + 1)) mask)
              | Undefined => Undefined
              | NoFuel => NoFuel
              end
          end
    end.
Proof. reflexivity. Qed.

Lemma Remove_shift_spec (orig : map) (i : Z) (k : KEY) :
  map_wf DS_Hash orig ->
  100 * DS_Map.HasCount orig <= 70 * DS_Map.Capacity orig ->
  forall (fuel t : nat) (cur : map),
    shifting DS_Hash orig cur i k t ->
    Z.of_nat t + Z.of_nat fuel > DS_Map.Capacity orig ->
    exists m',
      DS_Map.Remove_shift DS_IsEqual fuel cur (uint32 (DS_Map.Capacity orig - 1))
        (walk (DS_Map.Capacity orig) i t) = Val m' /\
      map_wf DS_Hash m' /\ DS_Map.HasCount m' = DS_Map.HasCount orig - 1 /\
      DS_Map.Capacity m' = DS_Map.Capacity orig /\
      forall k' v, holds m' k' v <-> (k' <> k /\ holds orig k' v).
Proof.
  intros Hwf Hload.
  pose proof (map_wf_pre orig Hwf) as (Hcap0 & (p & Hp & Hpow) & Hcount0 & Hkeyed0 & _).
  set (n := DS_Map.Capacity orig) in *.
  assert (Hn : 0 < n) by (rewrite Hpow; apply Z.pow_pos_nonneg; lia).
  induction fuel as [|fuel IH]; intros t cur Hs Hfuel.
  - destruct Hs as (_ & _ & _ & (dE & HtE & HdE & _) & _). lia.
  - destruct Hs as (Hpre & HcapC & HcountC & (dE & HtE & HdE & HE) & Hfine & Hahead & Hcontent).
    rewrite Remove_shift_unfold. fold n in HdE, HE, Hfine, Hahead, Hfuel.
    set (c := walk n i t) in *.
    assert (Hc : 0 <= c < n) by (apply walk_range; exact Hn).
    replace (Z.land (uint32 (c + 1)) (uint32 (n - 1))) with (walk n i (S t)).
    2:{ rewrite Hpow in Hc |- *. rewrite next_index by (lia || exact Hc).
        unfold c, walk. rewrite <- Hpow. fold n. rewrite Zplus_mod_idemp_l. f_equal. lia. }
    set (c' := walk n i (S t)) in *.
    assert (Hc' : 0 <= c' < n) by (apply walk_range; exact Hn).
    assert (Hcc' : walk n c 1 = c') by (unfold c, c'; rewrite walk_add by exact Hn; f_equal; lia).
    pose proof Hpre as (HcapL & _ & _ & _ & _).
    assert (Hlen : Z.of_nat (length (DS_Map.Data cur)) = n) by lia.
    destruct (nth_error (DS_Map.Data cur) (Z.to_nat c')) as [moving|] eqn:Emov;
      [|apply nth_error_None in Emov; lia].
    destruct (Z.eqb_spec (DS_Map.Hash moving) 0) as [Hz|Hnz].
    + exists cur. split; [reflexivity|]. split; [|auto].
      apply map_wf_intro; [exact Hpre|]. intros s. rewrite HcapC.
      destruct (Hfine s) as [H|(u & Hu & Hw & Hrun)]; [exact H|].
      exfalso. destruct (Hrun 1%nat ltac:(lia)) as (e & He & Hne).
      rewrite Hcc', Emov in He. congruence.
    + assert (HEcur : empty_at (DS_Map.Data cur) (walk n i dE)).
      { destruct HE as (e & He & Hez). exists e. now rewrite (Hahead dE HtE HdE). }
      assert (HSt : (S t < dE)%nat).
      { destruct (Nat.eq_dec (S t) dE) as [E|E]; [|lia]. exfalso.
        destruct HEcur as (e & He & Hez). rewrite <- E in He. fold c' in He. congruence. }
      assert (Emov0 : nth_error (DS_Map.Data orig) (Z.to_nat c') = Some moving).
      { unfold c'. rewrite <- (Hahead (S t)) by lia. exact Emov. }
      destruct (Hkeyed0 _ _ Emov0 Hnz) as (kx & Hkx & Hhx).
      destruct (map_wf_reachable orig (Z.to_nat c') Hwf moving Emov0 Hnz)
        as (dx & Hdx & Hwx & Hpx).
      fold n in Hwx, Hpx. rewrite Hhx in Hwx, Hpx. rewrite Hkx, Hhx.
      set (cn := Z.to_nat c') in *.
      replace (DS_Map.write (DS_Map.Data cur) c' DS_Map.cleared)
        with (DS_Map.write (DS_Map.Data cur) (Z.of_nat cn) DS_Map.cleared)
        by (unfold cn; rewrite Z2Nat.id by lia; reflexivity).
      destruct (clear_pre cur cn moving kx Hpre Emov Hnz Hkx) as (Hpre1 & Hcontent1).
      set (cur1 := DS_Map.mk (DS_Map.write (DS_Map.Data cur) (Z.of_nat cn) DS_Map.cleared)
                             (DS_Map.HasCount cur - 1) (DS_Map.Capacity cur)) in *.
      assert (Hcn : (cn < length (DS_Map.Data cur))%nat) by (apply nth_error_Some; congruence).
      assert (Hnth1 : forall s, nth_error (DS_Map.Data cur1) s
                                = if Nat.eqb s cn then Some DS_Map.cleared
                                  else nth_error (DS_Map.Data cur) s)
        by (intros s; apply write_nth; exact Hcn).
      assert (Hcap1 : DS_Map.Capacity cur1 = n) by exact HcapC.
      destruct (readd_spec cur1 kx (DS_Map.Value moving) dx Hpre1)
        as (b & j & d0 & m2 & -> & Hpre3 & Hcount3 & Hcap3 & Hempty_j & Hd0 & Hwj & Hclear1
            & Hnth3 & Hcontent3).
      { intros v Hv. apply Hcontent1 in Hv. tauto. }
      { cbn [cur1 DS_Map.Data]. rewrite write_length. lia. }
      { rewrite Hcap1, Hwx. exists DS_Map.cleared. rewrite Nat2Z.id, Hnth1, Nat.eqb_refl.
        split; reflexivity. }
      { rewrite Hcap1. cbn [cur1 DS_Map.HasCount]. lia. }
      rewrite Hcap1 in Hwj, Hclear1, Hcap3.
      set (m3 := DS_Map.set_value m2 (Z.of_nat j) (DS_Map.Value moving)) in *.
      apply IH; [|lia].
      assert (Hocc13 : forall q, occupied_at (DS_Map.Data cur1) q ->
                                 occupied_at (DS_Map.Data m3) q).
      { intros q (e & He & Hne). unfold occupied_at. rewrite Hnth3.
        destruct (Nat.eqb (Z.to_nat q) j).
        - eexists. split; [reflexivity|]. cbn. apply hash_of_nonzero.
        - now exists e. }
      assert (Hocc01 : forall q, occupied_at (DS_Map.Data cur) q -> q <> c' -> 0 <= q ->
                                 occupied_at (DS_Map.Data cur1) q).
      { intros q (e & He & Hne) Hq Hq0. exists e. rewrite Hnth1.
        destruct (Nat.eqb_spec (Z.to_nat q) cn) as [E|_]; [|auto].
        exfalso. apply Hq. unfold cn in E. lia. }
      assert (Hnot_c' : forall x q, (1 <= q)%nat -> Z.of_nat q < n ->
                                    walk n (walk n i x) q <> walk n i x).
      { intros x q Hq Hqn E.
        assert (q = 0%nat); [|lia].
        apply (walk_inj n (walk n i x)); try lia.
        rewrite E. symmetry. apply walk_0. apply walk_range. exact Hn. }
      assert (Hj_len : (j < length (DS_Map.Data cur))%nat).
      { destruct Hempty_j as (e & He & _). rewrite Nat2Z.id, Hnth1 in He.
        destruct (Nat.eqb_spec j cn) as [->|_]; [exact Hcn|].
        apply nth_error_Some. congruence. }
      split; [exact Hpre3|]. split; [exact Hcap3|].
      split; [rewrite Hcount3; cbn [cur1 DS_Map.HasCount]; lia|].
      split; [exists dE; auto|]. fold n. fold c'.
      assert (Hrunlen : forall u, run_after (DS_Map.Data cur) n c u -> (t + u < dE)%nat).
      { intros u Hrun. destruct (Nat.lt_ge_cases (t + u) dE) as [H|H]; [exact H|]. exfalso.
        destruct (Hrun (dE - t)%nat ltac:(lia)) as (e & He & Hne).
        unfold c in He. rewrite walk_add in He by exact Hn.
        replace (t + (dE - t))%nat with dE in He by lia.
        destruct HEcur as (e' & He' & Hz'). congruence. }
      split; [|split].
      * intros s. destruct (Nat.eq_dec s j) as [->|Hsj].
        { left. intros e He Hne. rewrite Hnth3, Nat.eqb_refl in He. injection He as <-.
          cbn [DS_Map.Hash]. exists d0. split.
          - assert (length (DS_Map.Data m3) = length (DS_Map.Data cur)); [|lia].
            apply Nat2Z.inj. destruct Hpre3 as (H3 & _). lia.
          - split; [exact Hwj|]. intros d' Hd'. apply Hocc13, Hclear1, Hd'. }
        destruct (Nat.eq_dec s cn) as [->|Hsc].
        { left. intros e He Hne. rewrite Hnth3 in He.
          destruct (Nat.eqb_spec cn j) as [E|_]; [congruence|].
          rewrite Hnth1, Nat.eqb_refl in He. injection He as <-. now destruct Hne. }
        assert (Hs3 : nth_error (DS_Map.Data m3) s = nth_error (DS_Map.Data cur) s).
        { rewrite Hnth3. destruct (Nat.eqb_spec s j) as [E|_]; [contradiction|].
          rewrite Hnth1. now destruct (Nat.eqb_spec s cn) as [E|_]; [contradiction|]. }
        destruct (Hfine s) as [Hreach|(u & Hu & Hw & Hrun)].
        { destruct (nth_error (DS_Map.Data cur) s) as [e|] eqn:Es.
          2:{ left. intros e He. rewrite Hs3 in He. discriminate. }
          destruct (Z.eq_dec (DS_Map.Hash e) 0) as [Hez|Hen].
          { left. intros e' He' Hne'. rewrite Hs3 in He'. injection He' as <-.
            contradiction. }
          destruct (Hreach e Es Hen) as (ds & Hds & Hws & Hps).
          destruct (path_through (DS_Map.Data cur) (DS_Map.Data cur1) n
                      (DS_Map.Hash e mod n) c' ds) as [Hclear|(d' & Hd' & Hwd')].
          - intros s0 Hs0. rewrite Hnth1.
            destruct (Nat.eqb_spec s0 cn) as [E|_]; [|reflexivity].
            exfalso. apply Hs0. unfold cn in E. lia.
          - exact Hn.
          - exact Hps.
          - left. intros e' He' Hne'. rewrite Hs3 in He'. injection He' as <-.
            exists ds. split.
            + assert (length (DS_Map.Data m3) = length (DS_Map.Data cur)); [|lia].
              apply Nat2Z.inj. destruct Hpre3 as (H3 & _). lia.
            + split; [exact Hws|]. intros q Hq. apply Hocc13, Hclear, Hq.
          - right. exists (ds - d')%nat. split; [lia|]. split.
            + rewrite <- Hwd', walk_add by exact Hn.
              replace (d' + (ds - d'))%nat with ds by lia. exact Hws.
            + intros q Hq. apply Hocc13, Hocc01.
              * rewrite <- Hwd', walk_add by exact Hn.
                destruct (Nat.eq_dec (d' + q) ds) as [E|E].
                -- rewrite E, Hws. exists e. now rewrite Nat2Z.id.
                -- apply Hps. lia.
              * apply Hnot_c'; lia.
              * apply walk_range. exact Hn. }
        { pose proof (Hrunlen u Hrun) as Hul.
          destruct (Nat.eq_dec u 1) as [->|Hu1].
          { exfalso. apply Hsc. rewrite Hcc' in Hw. unfold cn. lia. }
          right. exists (u - 1)%nat. split; [lia|]. split.
          - unfold c'. rewrite walk_add by exact Hn.
            replace (S t + (u - 1))%nat with (t + u)%nat by lia.
            rewrite <- walk_add by exact Hn. exact Hw.
          - intros q Hq. apply Hocc13, Hocc01.
            + unfold c'. rewrite walk_add by exact Hn.
              replace (S t + q)%nat with (t + S q)%nat by lia.
              rewrite <- walk_add by exact Hn. apply Hrun. lia.
            + apply Hnot_c'; lia.
            + apply walk_range. exact Hn. }
      * intros t' Ht' Ht'n.
        assert (Hp_c' : walk n i t' <> c').
        { intros E. assert (t' = S t); [|lia]. apply (walk_inj n i); try lia; exact E. }
        pose proof (walk_range n i t' Hn) as Hpr.
        assert (Hp_cn : Z.to_nat (walk n i t') <> cn) by (unfold cn; lia).
        rewrite Hnth3. destruct (Nat.eqb_spec (Z.to_nat (walk n i t')) j) as [Ej|_].
        { exfalso. destruct Hempty_j as (old & Hold & Hoz). rewrite Nat2Z.id, Hnth1 in Hold.
          destruct (Nat.eqb_spec j cn) as [E|_]; [congruence|].
          rewrite <- Ej, (Hahead t') in Hold by lia.
          destruct (Nat.eq_dec d0 dx) as [->|Hd].
          - rewrite Hwx in Hwj. apply Hp_cn. lia.
          - destruct (Hpx d0 ltac:(lia)) as (e & He & Hne).
            rewrite Hwj, Nat2Z.id, <- Ej in He. congruence. }
        rewrite Hnth1. destruct (Nat.eqb_spec (Z.to_nat (walk n i t')) cn) as [E|_];
          [contradiction|].
        apply Hahead; lia.
      * intros k' v. rewrite Hcontent3. split.
        -- intros [(-> & ->)|(Hk' & H)].
           ++ apply Hcontent. exists cn, moving. auto.
           ++ apply Hcontent1 in H. destruct H as (_ & H). now apply Hcontent.
        -- intros H. apply Hcontent in H. destruct (DS_IsEqual k' kx) eqn:E.
           ++ apply DS_IsEqual_spec in E. subst k'. left. split; [reflexivity|].
              apply (holds_functional_pre cur kx); [exact Hpre | exact H |].
              exists cn, moving. auto.
           ++ assert (k' <> kx).
              { intros ->. assert (DS_IsEqual kx kx = true) by now apply DS_IsEqual_spec.
                congruence. }
              right. split; [assumption|]. apply Hcontent1. now split.
Qed.

Lemma shifting_start (orig : map) (i : nat) (old : slot) (k : KEY) :
  map_wf DS_Hash orig ->
  100 * DS_Map.HasCount orig <= 70 * DS_Map.Capacity orig ->
  nth_error (DS_Map.Data orig) i = Some old -> DS_Map.Hash old <> 0 ->
  DS_Map.Key old = Some k ->
  shifting DS_Hash orig
    (DS_Map.mk (DS_Map.write (DS_Map.Data orig) (Z.of_nat i) DS_Map.cleared)
               (DS_Map.HasCount orig - 1) (DS_Map.Capacity orig))
    (Z.of_nat i) k 0.
Proof.
  intros Hwf Hload Hold Hnz Hk.
  pose proof (map_wf_pre orig Hwf) as Hpre.
  pose proof Hpre as (Hcap & (p & Hp & Hpow) & Hcount & _ & _).
  set (n := DS_Map.Capacity orig) in *.
  assert (Hn : 0 < n) by (rewrite Hpow; apply Z.pow_pos_nonneg; lia).
  assert (Hi : (i < length (DS_Map.Data orig))%nat) by (apply nth_error_Some; congruence).
  destruct (clear_pre orig i old k Hpre Hold Hnz Hk) as (Hpre1 & Hcontent1).
  fold n in Hpre1, Hcontent1.
  set (cur := DS_Map.mk (DS_Map.write (DS_Map.Data orig) (Z.of_nat i) DS_Map.cleared)
                        (DS_Map.HasCount orig - 1) n) in *.
  assert (Hnth : forall s, nth_error (DS_Map.Data cur) s
                           = if Nat.eqb s i then Some DS_Map.cleared
                             else nth_error (DS_Map.Data orig) s)
    by (intros s; apply write_nth; exact Hi).
  assert (Hw0 : walk n (Z.of_nat i) 0 = Z.of_nat i) by (apply walk_0; lia).
  assert (Hnot_i : forall q, (1 <= q)%nat -> Z.of_nat q < n ->
                             walk n (Z.of_nat i) q <> Z.of_nat i).
  { intros q Hq Hqn E. assert (q = 0%nat); [|lia].
    apply (walk_inj n (Z.of_nat i)); try lia; now rewrite Hw0. }
  assert (Hocc : forall q, occupied_at (DS_Map.Data orig) q -> q <> Z.of_nat i -> 0 <= q ->
                           occupied_at (DS_Map.Data cur) q).
  { intros q (e & He & Hne) Hq Hq0. exists e. rewrite Hnth.
    destruct (Nat.eqb_spec (Z.to_nat q) i) as [E|_]; [|auto]. exfalso. apply Hq. lia. }
  unfold shifting. fold n. fold cur.
  split; [exact Hpre1|]. split; [reflexivity|]. split; [reflexivity|]. split; [|split; [|split]].
  - destruct (empty_slot_exists (DS_Map.Data orig)) as (ie & ee & Hie & Hee); [lia|].
    assert (Hie_lt : (ie < length (DS_Map.Data orig))%nat)
      by (apply nth_error_Some; congruence).
    destruct (walk_reaches n (Z.of_nat i) (Z.of_nat ie)) as (dE & HdE & HwE); [lia | lia |].
    exists dE. split; [|split; [exact HdE|]].
    + destruct dE as [|dE]; [|lia]. exfalso. rewrite Hw0 in HwE.
      apply Nat2Z.inj in HwE. subst ie. congruence.
    + rewrite HwE. exists ee. now rewrite Nat2Z.id.
  - intros s. rewrite Hw0. destruct (Nat.eq_dec s i) as [->|Hsi].
    { left. intros e He Hne. rewrite Hnth, Nat.eqb_refl in He. injection He as <-.
      now destruct Hne. }
    assert (Hs : nth_error (DS_Map.Data cur) s = nth_error (DS_Map.Data orig) s).
    { rewrite Hnth. now destruct (Nat.eqb_spec s i) as [E|_]; [contradiction|]. }
    destruct (nth_error (DS_Map.Data orig) s) as [e|] eqn:Es.
    2:{ left. intros e He. rewrite Hs in He. discriminate. }
    destruct (Z.eq_dec (DS_Map.Hash e) 0) as [Hez|Hen].
    { left. intros e' He' Hne'. rewrite Hs in He'. injection He' as <-. contradiction. }
    destruct (map_wf_reachable orig s Hwf e Es Hen) as (ds & Hds & Hws & Hps).
    fold n in Hws, Hps.
    destruct (path_through (DS_Map.Data orig) (DS_Map.Data cur) n
                (DS_Map.Hash e mod n) (Z.of_nat i) ds) as [Hclear|(d' & Hd' & Hwd')].
    + intros s0 Hs0. rewrite Hnth.
      destruct (Nat.eqb_spec s0 i) as [E|_]; [|reflexivity]. exfalso. apply Hs0. lia.
    + exact Hn.
    + exact Hps.
    + left. intros e' He' Hne'. rewrite Hs in He'. injection He' as <-.
      exists ds. split; [cbn [cur DS_Map.Data]; rewrite write_length; exact Hds|].
      split; [exact Hws | exact Hclear].
    + right. exists (ds - d')%nat. split; [lia|]. split.
      * rewrite <- Hwd', walk_add by exact Hn.
        replace (d' + (ds - d'))%nat with ds by lia. exact Hws.
      * intros q Hq. apply Hocc.
        -- rewrite <- Hwd', walk_add by exact Hn.
           destruct (Nat.eq_dec (d' + q) ds) as [E|E].
           ++ rewrite E, Hws. exists e. now rewrite Nat2Z.id.
           ++ apply Hps. lia.
        -- apply Hnot_i; lia.
        -- apply walk_range. exact Hn.
  - intros t' Ht' Ht'n. rewrite Hnth.
    pose proof (walk_range n (Z.of_nat i) t' Hn) as Hr.
    destruct (Nat.eqb_spec (Z.to_nat (walk n (Z.of_nat i) t')) i) as [E|_]; [|reflexivity].
    exfalso. apply (Hnot_i t'); lia.
  - exact Hcontent1.
Qed.

Lemma Set_ok (m m' : map) (k : KEY) (value : DS_Map.value_ref VALUE) :
  map_ok DS_Hash m -> DS_Map.Capacity m <= 2 ^ 23 ->
  DS_Map.Set_ DS_Hash DS_IsEqual m k value = Val m' -> map_ok DS_Hash m'.
Proof.
  intros Hok Hbound. unfold DS_Map.Set_, DS_Map.DS__MapAdd.
  destruct (MapAdd_spec 30 m k Hok Hbound)
    as (b & i & m1 & -> & Hwf1 & Hload1 & Hkey1 & _).
  destruct (set_value_spec m1 i k (DS_Map.read_value (DS_Map.grows m) m1 value) Hwf1 Hkey1)
    as (Hwf2 & _ & _ & Hcount2 & Hcap2).
  intros [= <-]. right. split; [exact Hwf2 | lia].
Qed.

(** X28. [DS_Map::Remove] with its backwards-shift deletion: on a map built
    by [Init], [Set], [Add] and [Remove] it returns whether the key was in
    the map, and a map of the same kind, with the same block size, in which
    the key is not found, every other key is found with the value it had,
    and [HasCount] is one less exactly when the key was there.  The slots
    behind the emptied one are each emptied and added again, and none of
    these additions replaces the block. *)
Theorem Map_Remove_removes (m : map) (k : KEY) :
  map_ok DS_Hash m ->
  exists b m',
    DS_Map.Remove DS_Hash DS_IsEqual m k = Val (b, m') /\ map_ok DS_Hash m' /\
    DS_Map.Has DS_Hash DS_IsEqual m k = Val b /\
    DS_Map.Find DS_Hash DS_IsEqual m' k = Val None /\
    (forall k', k' <> k ->
       DS_Map.Find DS_Hash DS_IsEqual m' k' = DS_Map.Find DS_Hash DS_IsEqual m k') /\
    DS_Map.HasCount m' = DS_Map.HasCount m - (if b then 1 else 0) /\
    DS_Map.Capacity m' = DS_Map.Capacity m.
Proof.
  intros Hok. pose proof Hok as [->|(Hwf & Hload)].
  - exists false, DS_Map.Init. split; [reflexivity|]. split; [exact Hok|].
    repeat split; reflexivity.
  - assert (Hcap : 0 < DS_Map.Capacity m).
    { destruct Hwf as (_ & (p & Hp & ->) & _). apply Z.pow_pos_nonneg; lia. }
    assert (Hcount : 0 <= DS_Map.HasCount m) by (destruct Hwf as (_ & _ & -> & _); lia).
    destruct (probe_home m k Hwf ltac:(lia)) as (r & Hr & Hspec).
    unfold DS_Map.Remove.
    replace (DS_Map.Capacity m =? 0) with false by (symmetry; apply Z.eqb_neq; lia).
    rewrite Hr. destruct r as [j|i].
    + destruct Hspec as (_ & _ & _ & Habs & _).
      destruct (Find_spec m k Hok) as [(v0 & _ & Hv0 & _)|(Hf & _ & Hh)];
        [destruct (Habs _ Hv0)|].
      exists false, m. rewrite Hf, Hh. split; [reflexivity|]. split; [exact Hok|].
      split; [reflexivity|]. split; [reflexivity|]. split; [reflexivity|].
      split; [lia | reflexivity].
    + destruct Hspec as (i' & -> & old & Hold & Hnz & Hk). rewrite Nat2Z.id in Hold.
      destruct (Find_spec m k Hok) as [(v0 & _ & _ & Hh)|(_ & Habs & _)];
        [|exfalso; apply (Habs (DS_Map.Value old)); exists i', old; auto].
      pose proof (shifting_start m i' old k Hwf Hload Hold Hnz Hk) as Hstart.
      destruct (Remove_shift_spec m (Z.of_nat i') k Hwf Hload
                  (S (length (DS_Map.Data m))) 0 _ Hstart)
        as (m' & Hshift & Hwf' & Hcount' & Hcap' & Hcontent').
      { destruct Hwf as (-> & _). lia. }
      assert (Hi' : (i' < length (DS_Map.Data m))%nat)
        by (apply nth_error_Some; congruence).
      rewrite walk_0 in Hshift by (destruct Hwf as (Hc & _); lia).
      rewrite Hshift, Hh.
      assert (Hok' : map_ok DS_Hash m') by (right; split; [exact Hwf' | lia]).
      exists true, m'. split; [reflexivity|]. split; [exact Hok'|]. split; [reflexivity|].
      split.
      * destruct (Find_spec m' k Hok') as [(v1 & _ & Hv1 & _)|(Hf & _)]; [|exact Hf].
        apply Hcontent' in Hv1. destruct Hv1 as (Hkk & _). now destruct Hkk.
      * split; [|split; [exact Hcount' | exact Hcap']].
        intros k' Hk'. apply (Find_agree m' m k' Hok' Hok). intros v.
        rewrite Hcontent'. tauto.
Qed.

End MapFacts.

Lemma Map_Set_then_Find_witness :
  exists m',
    DS_Map.Set_ (fun k => k mod 1024) Z.eqb
      (DS_Map.mk
         [DS_Map.cleared; DS_Map.cleared; DS_Map.cleared; DS_Map.cleared;
          DS_Map.cleared; DS_Map.mk_slot 2147483653 (Some 5) (Some 7);
          DS_Map.cleared; DS_Map.cleared] 1 8) 13 (DS_Map.Stored 5) = Val m' /\
    map_ok (fun k => k mod 1024) m' /\
    (forall k', k' <> 13 ->
       DS_Map.Find (fun k => k mod 1024) Z.eqb m' k'
       = DS_Map.Find (fun k => k mod 1024) Z.eqb
           (DS_Map.mk
              [DS_Map.cleared; DS_Map.cleared; DS_Map.cleared; DS_Map.cleared;
               DS_Map.cleared; DS_Map.mk_slot 2147483653 (Some 5) (Some 7);
               DS_Map.cleared; DS_Map.cleared] 1 8) k') /\
    forall k1,
      DS_Map.FindPtr (fun k => k mod 1024) Z.eqb
        (DS_Map.mk
           [DS_Map.cleared; DS_Map.cleared; DS_Map.cleared; DS_Map.cleared;
            DS_Map.cleared; DS_Map.mk_slot 2147483653 (Some 5) (Some 7);
            DS_Map.cleared; DS_Map.cleared] 1 8) k1 = Val (Some 5) ->
      DS_Map.Find (fun k => k mod 1024) Z.eqb m' 13
      = DS_Map.Find (fun k => k mod 1024) Z.eqb
          (DS_Map.mk
             [DS_Map.cleared; DS_Map.cleared; DS_Map.cleared; DS_Map.cleared;
              DS_Map.cleared; DS_Map.mk_slot 2147483653 (Some 5) (Some 7);
              DS_Map.cleared; DS_Map.cleared] 1 8) k1.
Proof.
  assert (Hspec : forall a b : Z, (a =? b) = true <-> a = b) by exact Z.eqb_eq.
  assert (Hrange : forall k : Z, 0 <= k mod 1024 < 2 ^ 32).
  { intros k. pose proof (Z.mod_pos_bound k 1024 eq_refl).
    change (2 ^ 32) with 4294967296. lia. }
  apply (Map_Set_then_Find (fun k => k mod 1024) Z.eqb Hspec Hrange
           (DS_Map.mk
              [DS_Map.cleared; DS_Map.cleared; DS_Map.cleared; DS_Map.cleared;
               DS_Map.cleared; DS_Map.mk_slot 2147483653 (Some 5) (Some 7);
               DS_Map.cleared; DS_Map.cleared] 1 8) 13 (DS_Map.Stored 5)).
  - apply (Set_ok (fun k => k mod 1024) Z.eqb Hspec Hrange DS_Map.Init _ 5
             (DS_Map.Outside 7)).
    + left. reflexivity.
    + discriminate.
    + vm_compute. reflexivity.
  - discriminate.
Defined.

Lemma Map_Add_reports_new_witness :
  exists b i m',
    DS_Map.Add (fun k => k mod 1024) Z.eqb (@DS_Map.Init Z Z) 5 = Val (b, i, m') /\
    map_ok (fun k => k mod 1024) m' /\
    DS_Map.Has (fun k => k mod 1024) Z.eqb (@DS_Map.Init Z Z) 5 = Val (negb b) /\
    DS_Map.HasCount m' = DS_Map.HasCount (@DS_Map.Init Z Z) + (if b then 1 else 0) /\
    DS_Map.Has (fun k => k mod 1024) Z.eqb m' 5 = Val true /\
    DS_Map.FindPtr (fun k => k mod 1024) Z.eqb m' 5 = Val (Some i) /\
    (forall k', k' <> 5 ->
       DS_Map.Find (fun k => k mod 1024) Z.eqb m' k'
       = DS_Map.Find (fun k => k mod 1024) Z.eqb (@DS_Map.Init Z Z) k') /\
    (b = false ->
     DS_Map.Find (fun k => k mod 1024) Z.eqb m' 5
     = DS_Map.Find (fun k => k mod 1024) Z.eqb (@DS_Map.Init Z Z) 5) /\
    DS_Map.Capacity m'
    = (if 100 * (DS_Map.HasCount (@DS_Map.Init Z Z) + 1)
          >? 70 * DS_Map.Capacity (@DS_Map.Init Z Z)
       then if DS_Map.Capacity (@DS_Map.Init Z Z) =? 0 then 8
            else DS_Map.Capacity (@DS_Map.Init Z Z) * 2
       else DS_Map.Capacity (@DS_Map.Init Z Z)).
Proof.
  apply (Map_Add_reports_new (fun k => k mod 1024) Z.eqb).
  - exact Z.eqb_eq.
  - intros k. pose proof (Z.mod_pos_bound k 1024 eq_refl).
    change (2 ^ 32) with 4294967296. lia.
  - left. reflexivity.
  - discriminate.
Defined.

Lemma Map_Remove_removes_witness :
  exists b m',
    DS_Map.Remove (fun k => k mod 1024) Z.eqb
      (DS_Map.mk
         [DS_Map.cleared; DS_Map.cleared; DS_Map.cleared; DS_Map.cleared; DS_Map.cleared;
          DS_Map.mk_slot 2147483653 (Some 5) (Some 7);
          DS_Map.mk_slot 2147483661 (Some 13) (Some 9); DS_Map.cleared] 2 8) 5
    = Val (b, m') /\
    map_ok (fun k => k mod 1024) m' /\
    DS_Map.Has (fun k => k mod 1024) Z.eqb
      (DS_Map.mk
         [DS_Map.cleared; DS_Map.cleared; DS_Map.cleared; DS_Map.cleared; DS_Map.cleared;
          DS_Map.mk_slot 2147483653 (Some 5) (Some 7);
          DS_Map.mk_slot 2147483661 (Some 13) (Some 9); DS_Map.cleared] 2 8) 5
    = Val b /\
    DS_Map.Find (fun k => k mod 1024) Z.eqb m' 5 = Val None /\
    (forall k', k' <> 5 ->
       DS_Map.Find (fun k => k mod 1024) Z.eqb m' k'
       = DS_Map.Find (fun k => k mod 1024) Z.eqb
           (DS_Map.mk
              [DS_Map.cleared; DS_Map.cleared; DS_Map.cleared; DS_Map.cleared;
               DS_Map.cleared; DS_Map.mk_slot 2147483653 (Some 5) (Some 7);
               DS_Map.mk_slot 2147483661 (Some 13) (Some 9); DS_Map.cleared] 2 8) k') /\
    DS_Map.HasCount m'
    = DS_Map.HasCount
        (DS_Map.mk
           [DS_Map.cleared; DS_Map.cleared; DS_Map.cleared; DS_Map.cleared; DS_Map.cleared;
            DS_Map.mk_slot 2147483653 (Some 5) (Some 7);
            DS_Map.mk_slot 2147483661 (Some 13) (Some 9); DS_Map.cleared] 2 8)
      - (if b then 1 else 0) /\
    DS_Map.Capacity m'
    = DS_Map.Capacity
        (DS_Map.mk
           [DS_Map.cleared; DS_Map.cleared; DS_Map.cleared; DS_Map.cleared; DS_Map.cleared;
            DS_Map.mk_slot 2147483653 (Some 5) (Some 7);
            DS_Map.mk_slot 2147483661 (Some 13) (Some 9); DS_Map.cleared] 2 8).
Proof.
  assert (Hspec : forall a b : Z, (a =? b) = true <-> a = b) by exact Z.eqb_eq.
  assert (Hrange : forall k : Z, 0 <= k mod 1024 < 2 ^ 32).
  { intros k. pose proof (Z.mod_pos_bound k 1024 eq_refl).
    change (2 ^ 32) with 4294967296. lia. }
  apply (Map_Remove_removes (fun k => k mod 1024) Z.eqb Hspec Hrange).
  apply (Set_ok (fun k => k mod 1024) Z.eqb Hspec Hrange
           (DS_Map.mk
              [DS_Map.cleared; DS_Map.cleared; DS_Map.cleared; DS_Map.cleared;
               DS_Map.cleared; DS_Map.mk_slot 2147483653 (Some 5) (Some 7);
               DS_Map.cleared; DS_Map.cleared] 1 8) _ 13 (DS_Map.Outside 9)).
  - apply (Set_ok (fun k => k mod 1024) Z.eqb Hspec Hrange DS_Map.Init _ 5
             (DS_Map.Outside 7)).
    + left. reflexivity.
    + discriminate.
    + vm_compute. reflexivity.
  - discriminate.
  - vm_compute. reflexivity.
Defined.

(** ** Hash of a key *)

Lemma uint32_range (x : Z) : 0 <= uint32 x < 2 ^ 32.
Proof. unfold uint32. apply Z.mod_pos_bound. reflexivity. Qed.

Lemma shiftr_range (h k : Z) : 0 <= h < 2 ^ 32 -> 0 <= k -> 0 <= Z.shiftr h k < 2 ^ 32.
Proof.
  intros Hh Hk. rewrite Z.shiftr_div_pow2 by exact Hk.
  assert (0 < 2 ^ k) by (apply Z.pow_pos_nonneg; lia).
  split; [apply Z.div_pos; lia|].
  apply Z.le_lt_trans with h; [|lia]. apply Z.div_le_upper_bound; nia.
Qed.

Lemma lxor_range (a b : Z) :
  0 <= a < 2 ^ 32 -> 0 <= b < 2 ^ 32 -> 0 <= Z.lxor a b < 2 ^ 32.
Proof.
  intros Ha Hb.
  assert (Hhigh : forall z n, 0 <= z < 2 ^ 32 -> 32 <= n -> Z.testbit z n = false).
  { intros z n Hz Hn. rewrite <- (Z.mod_small z (2 ^ 32)) by exact Hz.
    apply Z.mod_pow2_bits_high. lia. }
  assert (E : Z.lxor a b = Z.lxor a b mod 2 ^ 32).
  { apply Z.bits_inj'. intros n Hn. destruct (Z.lt_ge_cases n 32) as [Hlt|Hge].
    - now rewrite Z.mod_pow2_bits_low by lia.
    - rewrite Z.mod_pow2_bits_high by lia.
      now rewrite Z.lxor_spec, (Hhigh a n Ha Hge), (Hhigh b n Hb Hge). }
  rewrite E. apply Z.mod_pos_bound. reflexivity.
Qed.

Lemma shiftr_out (h k : Z) : 0 <= h < 2 ^ 32 -> 32 <= k -> Z.shiftr h k = 0.
Proof.
  intros Hh Hk. rewrite Z.shiftr_div_pow2 by lia. apply Z.div_small.
  assert (2 ^ 32 <= 2 ^ k) by (apply Z.pow_le_mono_r; lia). lia.
Qed.

Lemma xorshift16_involutive (h : Z) :
  0 <= h < 2 ^ 32 ->
  Z.lxor (Z.lxor h (Z.shiftr h 16)) (Z.shiftr (Z.lxor h (Z.shiftr h 16)) 16) = h.
Proof.
  intros Hh. rewrite Z.shiftr_lxor, Z.shiftr_shiftr by lia.
  rewrite (shiftr_out h (16 + 16)) by (assumption || lia).
  apply Z.bits_inj'. intros n Hn. rewrite !Z.lxor_spec, Z.bits_0.
  destruct (Z.testbit h n), (Z.testbit (Z.shiftr h 16) n); reflexivity.
Qed.

Lemma xorshift13_undone (h : Z) :
  0 <= h < 2 ^ 32 ->
  Z.lxor (Z.lxor (Z.lxor h (Z.shiftr h 13)) (Z.shiftr (Z.lxor h (Z.shiftr h 13)) 13))
         (Z.shiftr (Z.lxor h (Z.shiftr h 13)) 26) = h.
Proof.
  intros Hh. rewrite !Z.shiftr_lxor, !Z.shiftr_shiftr by lia.
  change (13 + 13) with 26. rewrite (shiftr_out h (13 + 26)) by (assumption || lia).
  apply Z.bits_inj'. intros n Hn. rewrite !Z.lxor_spec, Z.bits_0.
  destruct (Z.testbit h n), (Z.testbit (Z.shiftr h 13) n), (Z.testbit (Z.shiftr h 26) n);
    reflexivity.
Qed.

Lemma xorshift13_redone (h : Z) :
  0 <= h < 2 ^ 32 ->
  Z.lxor (Z.lxor (Z.lxor h (Z.shiftr h 13)) (Z.shiftr h 26))
         (Z.shiftr (Z.lxor (Z.lxor h (Z.shiftr h 13)) (Z.shiftr h 26)) 13) = h.
Proof.
  intros Hh. rewrite !Z.shiftr_lxor, !Z.shiftr_shiftr by lia.
  change (13 + 13) with 26. rewrite (shiftr_out h (26 + 13)) by (assumption || lia).
  apply Z.bits_inj'. intros n Hn. rewrite !Z.lxor_spec, Z.bits_0.
  destruct (Z.testbit h n), (Z.testbit (Z.shiftr h 13) n), (Z.testbit (Z.shiftr h 26) n);
    reflexivity.
Qed.

Lemma mul_undone (c c' h : Z) :
  (c * c') mod 2 ^ 32 = 1 -> 0 <= h < 2 ^ 32 -> uint32 (uint32 (h * c) * c') = h.
Proof.
  intros Hc Hh. unfold uint32. rewrite Z.mul_mod_idemp_l by discriminate.
  rewrite <- Z.mul_assoc, <- Z.mul_mod_idemp_r, Hc, Z.mul_1_r by discriminate.
  apply Z.mod_small. exact Hh.
Qed.

Lemma fmix32_inverse_l (h : Z) :
  0 <= h < 2 ^ 32 -> DS_fmix32_inverse (DS_fmix32 h) = h.
Proof.
  intros Hh. unfold DS_fmix32_inverse, DS_fmix32. cbv zeta.
  set (h1 := Z.lxor h (Z.shiftr h 16)).
  assert (H1 : 0 <= h1 < 2 ^ 32) by (apply lxor_range, shiftr_range; (assumption || lia)).
  set (h2 := uint32 (h1 * 2246822507)).
  assert (H2 : 0 <= h2 < 2 ^ 32) by apply uint32_range.
  set (h3 := Z.lxor h2 (Z.shiftr h2 13)).
  assert (H3 : 0 <= h3 < 2 ^ 32) by (apply lxor_range, shiftr_range; (assumption || lia)).
  set (h4 := uint32 (h3 * 3266489909)).
  assert (H4 : 0 <= h4 < 2 ^ 32) by apply uint32_range.
  rewrite (xorshift16_involutive h4 H4). unfold h4.
  rewrite (mul_undone 3266489909 2127672349 h3) by (reflexivity || exact H3).
  unfold h3. rewrite (xorshift13_undone h2 H2). unfold h2.
  rewrite (mul_undone 2246822507 2781581891 h1) by (reflexivity || exact H1).
  apply xorshift16_involutive. exact Hh.
Qed.

Lemma fmix32_inverse_r (h : Z) :
  0 <= h < 2 ^ 32 -> DS_fmix32 (DS_fmix32_inverse h) = h.
Proof.
  intros Hh. unfold DS_fmix32_inverse, DS_fmix32. cbv zeta.
  set (h1 := Z.lxor h (Z.shiftr h 16)).
  assert (H1 : 0 <= h1 < 2 ^ 32) by (apply lxor_range, shiftr_range; (assumption || lia)).
  set (h2 := uint32 (h1 * 2127672349)).
  assert (H2 : 0 <= h2 < 2 ^ 32) by apply uint32_range.
  set (h3 := Z.lxor (Z.lxor h2 (Z.shiftr h2 13)) (Z.shiftr h2 26)).
  assert (H3 : 0 <= h3 < 2 ^ 32)
    by (apply lxor_range; [apply lxor_range|]; try apply shiftr_range; (assumption || lia)).
  set (h4 := uint32 (h3 * 2781581891)).
  assert (H4 : 0 <= h4 < 2 ^ 32) by apply uint32_range.
  rewrite (xorshift16_involutive h4 H4). unfold h4.
  rewrite (mul_undone 2781581891 2246822507 h3) by (reflexivity || exact H3).
  unfold h3. rewrite (xorshift13_redone h2 H2). unfold h2.
  rewrite (mul_undone 2127672349 3266489909 h1) by (reflexivity || exact H1).
  apply xorshift16_involutive. exact Hh.
Qed.

Lemma fmix32_range (h : Z) : 0 <= h < 2 ^ 32 -> 0 <= DS_fmix32 h < 2 ^ 32.
Proof.
  intros Hh. unfold DS_fmix32. cbv zeta.
  apply lxor_range; [|apply shiftr_range; [|lia]]; apply uint32_range.
Qed.

(** X29. [DS_fmix32] is a permutation of the 32-bit values that maps 0 to 0:
    it has an inverse on both sides.  So the hash of a four-byte key, which
    is [DS_fmix32] of the key XORed with 2607369547, is different for
    different keys, and it is 0 for exactly one key, the one whose bits are
    2607369547. *)
Theorem fmix32_is_a_permutation (x y : Z) :
  0 <= x < 2 ^ 32 -> 0 <= y < 2 ^ 32 ->
  0 <= DS_fmix32 x < 2 ^ 32 /\
  DS_fmix32_inverse (DS_fmix32 x) = x /\ DS_fmix32 (DS_fmix32_inverse x) = x /\
  0 <= hash_of_4_bytes x < 2 ^ 32 /\
  (hash_of_4_bytes x = hash_of_4_bytes y -> x = y) /\
  (hash_of_4_bytes x = 0 <-> x = 2607369547).
Proof.
  intros Hx Hy.
  assert (Hc : 0 <= 2607369547 < 2 ^ 32) by (split; [discriminate | reflexivity]).
  assert (Hinj : forall a b, 0 <= a < 2 ^ 32 -> 0 <= b < 2 ^ 32 ->
                             DS_fmix32 a = DS_fmix32 b -> a = b).
  { intros a b Ha Hb E. rewrite <- (fmix32_inverse_l a Ha), <- (fmix32_inverse_l b Hb).
    now rewrite E. }
  split; [apply fmix32_range; exact Hx|]. split; [apply fmix32_inverse_l; exact Hx|].
  split; [apply fmix32_inverse_r; exact Hx|]. unfold hash_of_4_bytes.
  split; [apply fmix32_range, lxor_range; assumption|]. split.
  - intros E. apply Hinj in E; try (apply lxor_range; assumption).
    apply (f_equal (fun z => Z.lxor z 2607369547)) in E.
    now rewrite !Z.lxor_assoc, Z.lxor_nilpotent, !Z.lxor_0_r in E.
  - change 0 with (DS_fmix32 0) at 1. split.
    + intros E. apply Hinj in E; [|apply lxor_range; assumption|split; [lia | reflexivity]].
      now apply Z.lxor_eq in E.
    + intros ->. now rewrite Z.lxor_nilpotent.
Qed.

Lemma fmix32_is_a_permutation_witness :
  0 <= DS_fmix32 7 < 2 ^ 32 /\
  DS_fmix32_inverse (DS_fmix32 7) = 7 /\ DS_fmix32 (DS_fmix32_inverse 7) = 7 /\
  0 <= hash_of_4_bytes 7 < 2 ^ 32 /\
  (hash_of_4_bytes 7 = hash_of_4_bytes 9 -> 7 = 9) /\
  (hash_of_4_bytes 7 = 0 <-> 7 = 2607369547).
Proof.
  apply (fmix32_is_a_permutation 7 9).
  - split; [discriminate | reflexivity].
  - split; [discriminate | reflexivity].
Defined.

(** ** Hash sets *)

Section SetFacts.

Context {KEY : Type}.
Variable DS_Hash : KEY -> Z.
Variable DS_IsEqual : KEY -> KEY -> bool.
Hypothesis DS_IsEqual_spec : forall a b, DS_IsEqual a b = true <-> a = b.
Hypothesis DS_Hash_range : forall k, 0 <= DS_Hash k < 2 ^ 32.

Lemma set_probe_as_map (fuel : nat) (Data : list (DS_Set.slot KEY)) (mask hash : Z)
    (key : KEY) :
  forall index,
    DS_Set.probe DS_IsEqual fuel Data mask hash key index
    = DS_Map.probe DS_IsEqual fuel (map slot_as_map Data) mask hash key index.
Proof.
  induction fuel as [|fuel IH]; intros index; [reflexivity|].
  cbn [DS_Set.probe DS_Map.probe]. rewrite nth_error_map.
  destruct (nth_error Data (Z.to_nat index)) as [e|]; [|reflexivity].
  cbn [option_map slot_as_map DS_Map.Hash DS_Map.Key].
  destruct (DS_Set.Hash e =? 0); [reflexivity|].
  destruct (hash =? DS_Set.Hash e); [|apply IH].
  destruct (DS_Set.Key e) as [k|]; [|reflexivity].
  destruct (DS_IsEqual key k); [reflexivity | apply IH].
Qed.

Lemma set_write_as_map (Data : list (DS_Set.slot KEY)) (index : Z) (e : DS_Set.slot KEY) :
  map slot_as_map (DS_Set.write Data index e)
  = DS_Map.write (map slot_as_map Data) index (slot_as_map e).
Proof.
  unfold DS_Set.write, DS_Map.write. rewrite length_map.
  destruct ((0 <=? index) && (index <? Z.of_nat (length Data))); [|reflexivity].
  rewrite map_app. cbn [map]. now rewrite firstn_map, skipn_map.
Qed.

Lemma map_write_same {VALUE : Type} (Data : list (DS_Map.slot KEY VALUE)) (index : Z)
    (e : DS_Map.slot KEY VALUE) :
  nth_error Data (Z.to_nat index) = Some e -> DS_Map.write Data index e = Data.
Proof.
  intros He. unfold DS_Map.write.
  destruct ((0 <=? index) && (index <? Z.of_nat (length Data))); [|reflexivity].
  destruct (nth_error_split _ _ He) as (l1 & l2 & -> & Hlen).
  rewrite <- Hlen. rewrite firstn_app, firstn_all, Nat.sub_diag. cbn [firstn].
  rewrite app_nil_r. f_equal. f_equal.
  rewrite skipn_app, skipn_all2 by lia.
  replace (S (length l1) - length l1)%nat with 1%nat by lia. reflexivity.
Qed.

Lemma set_value_as_map (s : DS_Set.t KEY) (index : Z) :
  DS_Map.set_value (set_as_map s) index None = set_as_map s.
Proof.
  unfold DS_Map.set_value. cbn [set_as_map DS_Map.Data DS_Map.HasCount DS_Map.Capacity].
  destruct (nth_error (map slot_as_map (DS_Set.Data s)) (Z.to_nat index)) as [e|] eqn:E;
    [|reflexivity].
  rewrite map_write_same; [reflexivity|]. rewrite E. f_equal.
  rewrite nth_error_map in E. destruct (nth_error (DS_Set.Data s) (Z.to_nat index));
    [|discriminate].
  injection E as <-. reflexivity.
Qed.

Lemma SetAdd_slot_as_map (s : DS_Set.t KEY) (k : KEY) (h : Z) :
  set_result_as_map (DS_Set.SetAdd_slot DS_IsEqual s k h)
  = without_slot (DS_Map.MapAdd_slot DS_IsEqual (set_as_map s) k h).
Proof.
  unfold DS_Set.SetAdd_slot, DS_Map.MapAdd_slot.
  cbn [set_as_map DS_Map.Data DS_Map.HasCount DS_Map.Capacity].
  rewrite length_map, <- set_probe_as_map.
  destruct (DS_Set.probe DS_IsEqual (S (length (DS_Set.Data s))) (DS_Set.Data s)
              (uint32 (DS_Set.Capacity s - 1)) h k
              (Z.land h (uint32 (DS_Set.Capacity s - 1)))) as [[j|i]| |];
    try reflexivity.
  rewrite nth_error_map. destruct (nth_error (DS_Set.Data s) (Z.to_nat j)) as [e|];
    [|reflexivity].
  unfold set_result_as_map, without_slot, set_as_map.
  cbn [option_map DS_Set.Data DS_Set.HasCount DS_Set.Capacity DS_Map.Value slot_as_map].
  now rewrite set_write_as_map.
Qed.

Lemma set_rehash_as_map (add_s : DS_Set.t KEY -> KEY -> Z -> reading (bool * DS_Set.t KEY))
    (add_m : DS_Map.t KEY unit -> KEY -> Z -> reading (bool * Z * DS_Map.t KEY unit)) :
  (forall s k h, set_result_as_map (add_s s k h) = without_slot (add_m (set_as_map s) k h)) ->
  forall old s,
    set_reading_as_map (DS_Set.rehash_loop add_s old s)
    = DS_Map.rehash_loop add_m (map slot_as_map old) (set_as_map s).
Proof.
  intros Hadd. induction old as [|e old IH]; intros s; [reflexivity|].
  cbn [DS_Set.rehash_loop DS_Map.rehash_loop map slot_as_map DS_Map.Hash DS_Map.Key
       DS_Map.Value].
  destruct (DS_Set.Hash e =? 0); [apply IH|].
  destruct (DS_Set.Key e) as [k|]; [|reflexivity].
  specialize (Hadd s k (DS_Set.Hash e)).
  destruct (add_s s k (DS_Set.Hash e)) as [[b s']| |],
           (add_m (set_as_map s) k (DS_Set.Hash e)) as [[[b' i] m']| |];
    try discriminate; try reflexivity.
  cbn in Hadd. injection Hadd as _ <-. rewrite set_value_as_map. apply IH.
Qed.

Lemma SetAdd_unfold (depth : nat) (s : DS_Set.t KEY) (k : KEY) (h : Z) :
  DS_Set.SetAdd DS_IsEqual (S depth) s k h
  = match
      (if 100 * (DS_Set.HasCount s + 1) >? 70 * DS_Set.Capacity s
       then DS_Set.rehash_loop (DS_Set.SetAdd DS_IsEqual depth)
              (firstn (Z.to_nat (DS_Set.Capacity s)) (DS_Set.Data s))
              (DS_Set.mk (repeat DS_Set.cleared
                            (Z.to_nat (if DS_Set.Capacity s =? 0 then 8
                                       else DS_Set.Capacity s * 2)))
                         0 (if DS_Set.Capacity s =? 0 then 8 else DS_Set.Capacity s * 2))
       else Val s)
    with
    | Val s1 => DS_Set.SetAdd_slot DS_IsEqual s1 k h
    | Undefined => Undefined
    | NoFuel => NoFuel
    end.
Proof. reflexivity. Qed.

Lemma SetAdd_as_map (depth : nat) :
  forall (s : DS_Set.t KEY) (k : KEY) (h : Z),
    set_result_as_map (DS_Set.SetAdd DS_IsEqual depth s k h)
    = without_slot (DS_Map.MapAdd DS_IsEqual depth (set_as_map s) k h).
Proof.
  induction depth as [|depth IH]; intros s k h; [reflexivity|].
  rewrite SetAdd_unfold, MapAdd_unfold.
  cbn [set_as_map DS_Map.Data DS_Map.HasCount DS_Map.Capacity].
  destruct (100 * (DS_Set.HasCount s + 1) >? 70 * DS_Set.Capacity s).
  - rewrite firstn_map.
    pose proof (set_rehash_as_map (DS_Set.SetAdd DS_IsEqual depth)
                  (DS_Map.MapAdd DS_IsEqual depth) IH
                  (firstn (Z.to_nat (DS_Set.Capacity s)) (DS_Set.Data s))
                  (DS_Set.mk (repeat DS_Set.cleared
                                (Z.to_nat (if DS_Set.Capacity s =? 0 then 8
                                           else DS_Set.Capacity s * 2)))
                             0 (if DS_Set.Capacity s =? 0 then 8
                                else DS_Set.Capacity s * 2))) as Hr.
    unfold set_as_map in Hr. cbn [DS_Set.Data DS_Set.HasCount DS_Set.Capacity] in Hr.
    rewrite map_repeat in Hr. change (slot_as_map DS_Set.cleared) with
      (@DS_Map.cleared KEY unit) in Hr.
    rewrite <- Hr.
    destruct (DS_Set.rehash_loop (DS_Set.SetAdd DS_IsEqual depth)
                (firstn (Z.to_nat (DS_Set.Capacity s)) (DS_Set.Data s)) _) as [s1| |];
      try reflexivity.
    apply SetAdd_slot_as_map.
  - apply SetAdd_slot_as_map.
Qed.

Lemma set_Has_as_map (s : DS_Set.t KEY) (k : KEY) :
  DS_Set.Capacity s <> 0 ->
  DS_Set.Has DS_Hash DS_IsEqual s k = DS_Map.Has DS_Hash DS_IsEqual (set_as_map s) k.
Proof.
  intros Hc. unfold DS_Set.Has, DS_Map.Has, DS_Map.FindPtr.
  cbn [set_as_map DS_Map.Data DS_Map.HasCount DS_Map.Capacity].
  replace (DS_Set.Capacity s =? 0) with false by (symmetry; apply Z.eqb_neq; exact Hc).
  rewrite length_map, <- set_probe_as_map.
  change (DS_Map.hash_of DS_Hash k) with (DS_Set.hash_of DS_Hash k).
  now destruct (DS_Set.probe DS_IsEqual (S (length (DS_Set.Data s))) (DS_Set.Data s)
                  (uint32 (DS_Set.Capacity s - 1)) (DS_Set.hash_of DS_Hash k) k
                  (Z.land (DS_Set.hash_of DS_Hash k) (uint32 (DS_Set.Capacity s - 1))))
    as [[j|i]| |].
Qed.

(** X30. [DS_Set::Add] and [DS_Set::Has]: on a set built by [Init] and [Add]
    with at most 2^23 slots, [Add] returns a set of the same kind, with a
    block, in which [Has] is true for the key, and [HasCount] grows by one
    exactly when [Add] returns true.  On a set with a block, [Add] returns
    true exactly when [Has] was false for the key, and [Has] is the same as
    before for every other key.  On a set without a block, as [Init] leaves
    it, [Has] has no defined result for any key: unlike [DS_Map::FindPtr]
    it does not return when [Capacity] is 0 and reads a slot through the
    null pointer. *)
Theorem Set_Add_then_Has (s : DS_Set.t KEY) (k : KEY) :
  set_ok DS_Hash s -> DS_Set.Capacity s <= 2 ^ 23 ->
  exists b s',
    DS_Set.Add DS_Hash DS_IsEqual s k = Val (b, s') /\ set_ok DS_Hash s' /\
    DS_Set.Capacity s' <> 0 /\
    DS_Set.Has DS_Hash DS_IsEqual s' k = Val true /\
    DS_Set.HasCount s' = DS_Set.HasCount s + (if b then 1 else 0) /\
    (DS_Set.Capacity s = 0 ->
     b = true /\ (forall k', DS_Set.Has DS_Hash DS_IsEqual s k' = Undefined) /\
     forall k', DS_Map.Has DS_Hash DS_IsEqual (set_as_map s) k' = Val false) /\
    (DS_Set.Capacity s <> 0 ->
     DS_Set.Has DS_Hash DS_IsEqual s k = Val (negb b) /\
     forall k', k' <> k ->
       DS_Set.Has DS_Hash DS_IsEqual s' k' = DS_Set.Has DS_Hash DS_IsEqual s k').
Proof.
  intros Hok Hbound. unfold set_ok in Hok.
  destruct (MapAdd_spec DS_Hash DS_IsEqual DS_IsEqual_spec DS_Hash_range 30
              (set_as_map s) k Hok Hbound)
    as (b & i & m' & Hadd & Hwf' & Hload' & Hkey' & Hothers & _ & Hb).
  pose proof (SetAdd_as_map 32 s k (DS_Map.hash_of DS_Hash k)) as Hsim.
  rewrite Hadd in Hsim. unfold DS_Set.Add, DS_Set.DS__SetAdd.
  change (DS_Set.hash_of DS_Hash k) with (DS_Map.hash_of DS_Hash k).
  destruct (DS_Set.SetAdd DS_IsEqual 32 s k (DS_Map.hash_of DS_Hash k)) as [[b0 s']| |];
    try discriminate.
  cbn in Hsim. injection Hsim as -> <-.
  assert (Hok' : map_ok DS_Hash (set_as_map s')) by (right; split; assumption).
  assert (Hcap' : DS_Set.Capacity s' <> 0).
  { destruct Hwf' as (_ & (p & Hp & Hpow) & _). cbn in Hpow. rewrite Hpow.
    assert (0 < 2 ^ p) by (apply Z.pow_pos_nonneg; lia). lia. }
  assert (Hhas' : DS_Map.Has DS_Hash DS_IsEqual (set_as_map s') k = Val true).
  { unfold DS_Map.Has.
    now rewrite (FindPtr_key_at DS_Hash DS_IsEqual DS_IsEqual_spec
                   (set_as_map s') k i Hwf' Hload' Hkey'). }
  exists b, s'. split; [reflexivity|]. split; [exact Hok'|]. split; [exact Hcap'|].
  split; [now rewrite set_Has_as_map|].
  split; [destruct Hb as [(-> & Hc & _)|(-> & Hc & _)]; cbn in Hc; lia|].
  split.
  - intros Hc0. destruct Hok as [Hinit|((_ & (p & Hp & Hpow) & _) & _)].
    2:{ exfalso. cbn in Hpow. assert (0 < 2 ^ p) by (apply Z.pow_pos_nonneg; lia). lia. }
    assert (Hdata : DS_Set.Data s = []).
    { apply (f_equal DS_Map.Data) in Hinit. cbn in Hinit.
      now destruct (DS_Set.Data s). }
    split; [|split].
    + destruct Hb as [(-> & _)|(-> & _ & Hsame)]; [reflexivity|]. exfalso.
      destruct Hkey' as (e & He & Hne & Hke).
      assert (Hh : holds (set_as_map s') k (DS_Map.Value e))
        by (exists i, e; rewrite Nat2Z.id in He; auto).
      apply Hsame in Hh. rewrite Hinit in Hh. destruct Hh as (j & e0 & Hj & _).
      destruct j; discriminate.
    + intros k'. unfold DS_Set.Has. rewrite Hdata. cbn [length DS_Set.probe].
      now destruct (Z.to_nat _).
    + intros k'. rewrite Hinit. reflexivity.
  - intros Hc. rewrite (set_Has_as_map s k Hc). split.
    + destruct Hb as [(-> & _ & Habs)|(-> & _ & Hsame)].
      * destruct (Find_spec DS_Hash DS_IsEqual DS_IsEqual_spec (set_as_map s) k Hok)
          as [(v0 & _ & Hv0 & _)|(_ & _ & ->)]; [destruct (Habs _ Hv0) | reflexivity].
      * cbn [negb]. rewrite <- Hhas'. symmetry.
        now apply (Find_agree DS_Hash DS_IsEqual DS_IsEqual_spec (set_as_map s')
                     (set_as_map s) k Hok' Hok).
    + intros k' Hk'. rewrite (set_Has_as_map s' k' Hcap'), (set_Has_as_map s k' Hc).
      apply (Find_agree DS_Hash DS_IsEqual DS_IsEqual_spec (set_as_map s')
               (set_as_map s) k' Hok' Hok).
      intros v. apply Hothers, Hk'.
Qed.

End SetFacts.

Lemma Set_Add_then_Has_witness :
  exists b s',
    DS_Set.Add (fun k => k mod 1024) Z.eqb (@DS_Set.Init Z) 5 = Val (b, s') /\
    set_ok (fun k => k mod 1024) s' /\
    DS_Set.Capacity s' <> 0 /\
    DS_Set.Has (fun k => k mod 1024) Z.eqb s' 5 = Val true /\
    DS_Set.HasCount s' = DS_Set.HasCount (@DS_Set.Init Z) + (if b then 1 else 0) /\
    (DS_Set.Capacity (@DS_Set.Init Z) = 0 ->
     b = true /\
     (forall k', DS_Set.Has (fun k => k mod 1024) Z.eqb (@DS_Set.Init Z) k' = Undefined) /\
     forall k', DS_Map.Has (fun k => k mod 1024) Z.eqb (set_as_map (@DS_Set.Init Z)) k'
                = Val false) /\
    (DS_Set.Capacity (@DS_Set.Init Z) <> 0 ->
     DS_Set.Has (fun k => k mod 1024) Z.eqb (@DS_Set.Init Z) 5 = Val (negb b) /\
     forall k', k' <> 5 ->
       DS_Set.Has (fun k => k mod 1024) Z.eqb s' k'
       = DS_Set.Has (fun k => k mod 1024) Z.eqb (@DS_Set.Init Z) k').
Proof.
  apply (Set_Add_then_Has (fun k => k mod 1024) Z.eqb).
  - exact Z.eqb_eq.
  - intros k. pose proof (Z.mod_pos_bound k 1024 eq_refl).
    change (2 ^ 32) with 4294967296. lia.
  - left. reflexivity.
  - discriminate.
Defined.
